(** * Canonical LR(1) parser generator (multila-parser-generator)

    Shallow embedding of [src/lr1.ts], [src/lr1rule.ts], [src/lr1state.ts]
    and [src/lr1table.ts], and the properties of the FIRST engine, the
    automaton builder, the table builder and the parser runtime.

    Modelling conventions.
    - A JavaScript [Set<string>] is a duplicate-free [list string] kept in
      insertion order (the order in which a [Set] is iterated).
    - A JavaScript object used as a dictionary is a [gmap string _]; the
      dictionary that is iterated ([calcReduceEntries]) is an association
      list in insertion order.  Keys are assumed not to collide with
      members of [Object.prototype].
    - Objects that are shared and mutated (states, edges) live in a store
      and are referred to by their allocation number.  A rule is referred
      to by its position in the [rules] array (every rule object occurs
      there exactly once).
    - [throw], [process.exit] and run-time type errors are the
      constructors of [result]. *)

From stdpp Require Import gmap strings list fin_maps.
From Stdlib Require Import ZArith Lia.

Local Open Scope nat_scope.

(** ** Outcomes of a computation *)

Inductive LR1Error : Type :=
| NoProductionRule
| UndefinedNonTerminal (r : nat) (nt : string)
| ReduceReduceConflict (r1 r2 : Z)
| TableNotGenerated
| TableHasNoRules.

Inductive result (A : Type) : Type :=
| Ok (a : A)
| Throw (e : LR1Error)
| ProcessExit
| TypeError
| OutOfFuel.
Arguments Ok {A} a.
Arguments Throw {A} e.
Arguments ProcessExit {A}.
Arguments TypeError {A}.
Arguments OutOfFuel {A}.

Definition rbind {A B} (m : result A) (k : A → result B) : result B :=
  match m with
  | Ok a => k a
  | Throw e => Throw e
  | ProcessExit => ProcessExit
  | TypeError => TypeError
  | OutOfFuel => OutOfFuel
  end.

#[global] Instance result_bind : MBind result := λ A B k m, rbind m k.
#[global] Instance result_ret : MRet result := λ A a, Ok a.

(** Left-to-right loop over an array with an accumulator. *)
Fixpoint foldR {A S} (f : A → S → result S) (l : list A) (s : S) : result S :=
  match l with
  | [] => Ok s
  | x :: l' =>
      match f x s with
      | Ok s' => foldR f l' s'
      | Throw e => Throw e
      | ProcessExit => ProcessExit
      | TypeError => TypeError
      | OutOfFuel => OutOfFuel
      end
  end.

(** ** [Set<string>] *)

Module JSSet.
Definition has (s : list string) (x : string) : bool := bool_decide (x ∈ s).
Definition add (s : list string) (x : string) : list string :=
  if has s x then s else s ++ [x].
(** [new Set(iterable)] *)
Definition of_list (l : list string) : list string := foldl add [] l.
End JSSet.

(** ** Grammar model ([lr1rule.ts]) *)

Inductive LR1_RuleItemType : Type := Terminal | NonTerminal.

#[global] Instance LR1_RuleItemType_eq_dec : EqDecision LR1_RuleItemType.
Proof. solve_decision. Defined.

Record LR1_RuleItem : Type := mkRuleItem {
  item_type : LR1_RuleItemType;
  item_value : string
}.

#[global] Instance LR1_RuleItem_eq_dec : EqDecision LR1_RuleItem.
Proof. solve_decision. Defined.

Record LR1_Rule : Type := mkRule {
  rule_index : Z;
  lhs : string;
  rhs : list LR1_RuleItem;
  callBackId : string
}.

(** [new LR1_Rule(lhs)] *)
Definition newRule (l : string) : LR1_Rule :=
  {| rule_index := -1; lhs := l; rhs := []; callBackId := ""%string |}.

Definition addTerminalItem (r : LR1_Rule) (s : string) : LR1_Rule :=
  {| rule_index := rule_index r; lhs := lhs r;
     rhs := rhs r ++ [mkRuleItem Terminal s]; callBackId := callBackId r |}.

Definition addNonTerminalItem (r : LR1_Rule) (s : string) : LR1_Rule :=
  {| rule_index := rule_index r; lhs := lhs r;
     rhs := rhs r ++ [mkRuleItem NonTerminal s]; callBackId := callBackId r |}.

Definition setCallBackId (r : LR1_Rule) (s : string) : LR1_Rule :=
  {| rule_index := rule_index r; lhs := lhs r; rhs := rhs r; callBackId := s |}.

Definition setRuleIndex (r : LR1_Rule) (i : Z) : LR1_Rule :=
  {| rule_index := i; lhs := lhs r; rhs := rhs r; callBackId := callBackId r |}.

(** ** FIRST engine ([LR1.calcFirst]) *)

Definition FirstMap : Type := gmap string (list string).

(** The loop that creates an empty set for every left-hand side. *)
Definition initFirst (rules : list LR1_Rule) (first : gmap string (list string))
  : gmap string (list string) :=
  foldl (λ f r, match f !! lhs r with Some _ => f | None => <[lhs r := []]> f end)
        first rules.

(** Body of the inner [for] loop for one rule; the state is the FIRST map
    and the flag [changed]. *)
Definition firstRule (r : LR1_Rule) (st : gmap string (list string) * bool)
  : result (gmap string (list string) * bool) :=
  let '(first, changed) := st in
  match rhs r with
  | [] => Ok (first, changed)
  | rhs0 :: _ =>
      match item_type rhs0 with
      | NonTerminal =>
          match first !! lhs r, first !! item_value rhs0 with
          | Some fa, Some fy =>
              let n := length fa in
              let u := JSSet.of_list (fa ++ fy) in
              Ok (<[lhs r := u]> first, if n <? length u then true else changed)
          | _, _ => TypeError
          end
      | Terminal =>
          match first !! lhs r with
          | Some fa =>
              Ok (<[lhs r := JSSet.add fa (item_value rhs0)]> first,
                  if JSSet.has fa (item_value rhs0) then changed else true)
          | None => TypeError
          end
      end
  end.

(** One pass of the [do ... while (changed)] loop. *)
Definition firstPass (rules : list LR1_Rule) (first : gmap string (list string))
  : result (gmap string (list string) * bool) :=
  foldR firstRule rules (first, false).

Fixpoint firstLoop (fuel : nat) (rules : list LR1_Rule)
    (first : gmap string (list string)) : result (gmap string (list string)) :=
  match fuel with
  | O => OutOfFuel
  | S fuel' =>
      match firstPass rules first with
      | Ok (first', true) => firstLoop fuel' rules first'
      | Ok (first', false) => Ok first'
      | Throw e => Throw e
      | ProcessExit => ProcessExit
      | TypeError => TypeError
      | OutOfFuel => OutOfFuel
      end
  end.

Definition calcFirst (fuel : nat) (rules : list LR1_Rule)
    (first : gmap string (list string)) : result (gmap string (list string)) :=
  firstLoop fuel rules (initFirst rules first).

(** The terminal symbols occurring in the grammar. *)
Definition terminals (rules : list LR1_Rule) : list string :=
  flat_map (λ r, item_value <$> filter (λ x, item_type x = Terminal) (rhs r)) rules.

(** Number of passes that always suffices on a fresh generator. *)
Definition calcFirst_fuel (rules : list LR1_Rule) : nat :=
  S (length rules * length (terminals rules)).


(** ** Items, states, edges ([lr1state.ts]) and the table ([lr1table.ts]) *)

Record LR1_StateItem : Type := mkItem {
  pos : nat;
  lookAheadSet : list string;
  rule : nat   (* reference to the rule: its position in [rules] *)
}.

Record LR1_Edge : Type := mkEdge {
  src : nat;   (* reference to the source state *)
  dest : nat;  (* reference to the destination state *)
  label : LR1_RuleItem
}.

Record LR1_State : Type := mkState {
  state_index : Z;
  itemSet : list LR1_StateItem;
  outEdges : list nat;  (* references to edges *)
  inEdges : list nat
}.

Record LR1_TableEntry : Type := mkEntry {
  shift : bool;       (* false := reduce *)
  entry_value : Z
}.

Record LR1_TableRow : Type := mkRow {
  actionEntries : gmap string LR1_TableEntry;
  gotoEntries : gmap string LR1_TableEntry
}.

Record LR1_Table : Type := mkTable { rows : list LR1_TableRow }.

(** The generator object together with the store of the state and edge
    objects it has allocated. *)
Record LR1 : Type := mkLR1 {
  rules : list LR1_Rule;
  first : gmap string (list string);
  states : list nat;            (* references to the admitted states *)
  table : option LR1_Table;     (* [None] is [null] *)
  stateObjs : list LR1_State;
  edgeObjs : list LR1_Edge
}.

(** [new LR1()] *)
Definition newLR1 : LR1 :=
  {| rules := []; first := ∅; states := []; table := None;
     stateObjs := []; edgeObjs := [] |}.

Definition getTable (lr : LR1) : option LR1_Table := table lr.

(** [addRule] followed by the calls that fill the rule. *)
Definition addRule (lr : LR1) (r : LR1_Rule) : LR1 :=
  {| rules := rules lr ++ [r]; first := first lr; states := states lr;
     table := table lr; stateObjs := stateObjs lr; edgeObjs := edgeObjs lr |}.

Definition newState : LR1_State :=
  {| state_index := -1; itemSet := []; outEdges := []; inEdges := [] |}.

(** Dereferencing: a reference held by the program always points to an
    allocated object. *)
Definition ruleOf (rs : list LR1_Rule) (i : nat) : LR1_Rule :=
  default (newRule ""%string) (rs !! i).
Definition stateOf (lr : LR1) (s : nat) : LR1_State :=
  default newState (stateObjs lr !! s).
Definition edgeOf (lr : LR1) (e : nat) : LR1_Edge :=
  default (mkEdge 0 0 (mkRuleItem Terminal ""%string)) (edgeObjs lr !! e).

(** *** [LR1_StateItem] *)

Definition compareLookAhead (this : LR1_StateItem) (l : list string) : bool :=
  if negb (length (lookAheadSet this) =? length l) then false
  else forallb (JSSet.has (lookAheadSet this)) l.

Definition item_equal (this i : LR1_StateItem) : bool :=
  if negb (pos this =? pos i) then false
  else if negb (rule this =? rule i) then false
  else if negb (compareLookAhead this (lookAheadSet i)) then false
  else true.

Definition clone (this : LR1_StateItem) : LR1_StateItem :=
  {| pos := pos this; lookAheadSet := JSSet.of_list (lookAheadSet this);
     rule := rule this |}.

(** The (rule, dot position) core of an item. *)
Definition core (i : LR1_StateItem) : nat * nat := (rule i, pos i).

(** *** [LR1_State.equal] and [LR1_State.addItem] on item sets *)

Definition state_equal (this s : LR1_State) : bool :=
  let n := length (itemSet this) in
  if negb (n =? length (itemSet s)) then false
  else forallb (λ it, existsb (λ jt, item_equal it jt) (take n (itemSet s)))
               (itemSet this).

(** The search loop of [addItem]: [Some] of the updated array when a
    core-equal item is found. *)
Fixpoint mergeItem (items : list LR1_StateItem) (newItem : LR1_StateItem)
  : option (list LR1_StateItem) :=
  match items with
  | [] => None
  | item :: rest =>
      if (pos item =? pos newItem) && (rule item =? rule newItem) then
        Some ({| pos := pos item;
                 lookAheadSet := JSSet.of_list (lookAheadSet item ++ lookAheadSet newItem);
                 rule := rule item |} :: rest)
      else cons item <$> mergeItem rest newItem
  end.

Definition addItem (items : list LR1_StateItem) (newItem : LR1_StateItem)
  : list LR1_StateItem * bool :=
  match mergeItem items newItem with
  | Some items' => (items', false)
  | None => (items ++ [newItem], true)
  end.

(** *** Closure ([calcItemSet], first loop) *)

(** Positions of the rules whose left-hand side is [y], in array order. *)
Definition rulesWithLhs (rs : list LR1_Rule) (y : string) : list nat :=
  omap (λ '(j, r), if decide (lhs r = y) then Some j else None)
       (imap (λ j r, (j, r)) rs).

(** The items [y -> . c, FIRST(bL)] contributed by one item. *)
Definition closureItemsOf (rs : list LR1_Rule) (fst_ : gmap string (list string))
    (item : LR1_StateItem) : list LR1_StateItem :=
  let r := ruleOf rs (rule item) in
  match rhs r !! pos item with
  | Some x =>
      match item_type x with
      | NonTerminal =>
          let look :=
            match rhs r !! (pos item + 1) with
            | Some b =>
                match item_type b with
                | Terminal => JSSet.add [] (item_value b)
                | NonTerminal => JSSet.of_list (default [] (fst_ !! item_value b))
                end
            | None => JSSet.of_list (lookAheadSet item)
            end in
          (λ j, {| pos := 0; lookAheadSet := look; rule := j |})
            <$> rulesWithLhs rs (item_value x)
      | Terminal => []
      end
  | None => []
  end.

Definition addItems (items newItems : list LR1_StateItem) : list LR1_StateItem :=
  foldl (λ s it, (addItem s it).1) items newItems.

Fixpoint closureLoop (fuel : nat) (rs : list LR1_Rule)
    (fst_ : gmap string (list string)) (items : list LR1_StateItem)
  : result (list LR1_StateItem) :=
  match fuel with
  | O => OutOfFuel
  | S fuel' =>
      let n := length items in
      let newItems := flat_map (closureItemsOf rs fst_) items in
      let items' := addItems items newItems in
      if n <? length items' then closureLoop fuel' rs fst_ items'
      else Ok items'
  end.

(** *** Successor construction ([calcItemSet], second part) *)

(** The sets [t] and [nt] of symbols right of the dot. *)
Definition succSymbols (rs : list LR1_Rule) (items : list LR1_StateItem)
  : list string * list string :=
  foldl (λ '(t, nt) item,
           match rhs (ruleOf rs (rule item)) !! pos item with
           | Some x =>
               match item_type x with
               | Terminal => (JSSet.add t (item_value x), nt)
               | NonTerminal => (t, JSSet.add nt (item_value x))
               end
           | None => (t, nt)
           end) ([], []) items.

(** The seed items of the successor for symbol [(ty, v)]; [ProcessExit]
    when [addItem] reports an item that is already present. *)
Definition seedStep (rs : list LR1_Rule) (ty : LR1_RuleItemType) (v : string)
    (item : LR1_StateItem) (si : list LR1_StateItem) : result (list LR1_StateItem) :=
  match rhs (ruleOf rs (rule item)) !! pos item with
  | Some x =>
      if decide (item_type x = ty ∧ item_value x = v) then
        let c := clone item in
        let i := {| pos := S (pos c); lookAheadSet := lookAheadSet c; rule := rule c |} in
        match addItem si i with
        | (si', true) => Ok si'
        | (_, false) => ProcessExit
        end
      else Ok si
  | None => Ok si
  end.

Definition seedItems (rs : list LR1_Rule) (items : list LR1_StateItem)
    (ty : LR1_RuleItemType) (v : string) : result (list LR1_StateItem) :=
  foldR (seedStep rs ty v) items [].

(** ** Computations on the generator object

    A computation reads and updates the generator and its object store and
    ends in a [result]; the store survives a [throw], as the fields of the
    JavaScript object do. *)

Definition M (A : Type) : Type := LR1 → result A * LR1.

Definition mret {A} (a : A) : M A := λ σ, (Ok a, σ).

Definition mbindM {A B} (m : M A) (k : A → M B) : M B :=
  λ σ, match m σ with
       | (Ok a, σ') => k a σ'
       | (Throw e, σ') => (Throw e, σ')
       | (ProcessExit, σ') => (ProcessExit, σ')
       | (TypeError, σ') => (TypeError, σ')
       | (OutOfFuel, σ') => (OutOfFuel, σ')
       end.

Notation "x <~ m ;; k" := (mbindM m (λ x, k))
  (at level 100, m at next level, right associativity, only parsing).
Notation "m ;;; k" := (mbindM m (λ _, k))
  (at level 100, right associativity, only parsing).

Definition mget : M LR1 := λ σ, (Ok σ, σ).
Definition mmodify (f : LR1 → LR1) : M unit := λ σ, (Ok tt, f σ).
Definition liftR {A} (r : result A) : M A := λ σ, (r, σ).

Fixpoint forM {A B} (f : A → M B) (l : list A) : M (list B) :=
  match l with
  | [] => mret []
  | x :: l' => y <~ f x ;; ys <~ forM f l' ;; mret (y :: ys)
  end.

Fixpoint forM_ {A} (f : A → M unit) (l : list A) : M unit :=
  match l with
  | [] => mret tt
  | x :: l' => f x ;;; forM_ f l'
  end.

(** *** Field updates *)

Definition setStateObjs (f : list LR1_State → list LR1_State) (σ : LR1) : LR1 :=
  {| rules := rules σ; first := first σ; states := states σ; table := table σ;
     stateObjs := f (stateObjs σ); edgeObjs := edgeObjs σ |}.
Definition setEdgeObjs (f : list LR1_Edge → list LR1_Edge) (σ : LR1) : LR1 :=
  {| rules := rules σ; first := first σ; states := states σ; table := table σ;
     stateObjs := stateObjs σ; edgeObjs := f (edgeObjs σ) |}.
Definition setStates (f : list nat → list nat) (σ : LR1) : LR1 :=
  {| rules := rules σ; first := first σ; states := f (states σ); table := table σ;
     stateObjs := stateObjs σ; edgeObjs := edgeObjs σ |}.
Definition setTable (t : option LR1_Table) (σ : LR1) : LR1 :=
  {| rules := rules σ; first := first σ; states := states σ; table := t;
     stateObjs := stateObjs σ; edgeObjs := edgeObjs σ |}.
Definition setFirst (f : gmap string (list string)) (σ : LR1) : LR1 :=
  {| rules := rules σ; first := f; states := states σ; table := table σ;
     stateObjs := stateObjs σ; edgeObjs := edgeObjs σ |}.
Definition setRules (rs : list LR1_Rule) (σ : LR1) : LR1 :=
  {| rules := rs; first := first σ; states := states σ; table := table σ;
     stateObjs := stateObjs σ; edgeObjs := edgeObjs σ |}.

Definition withItemSet (f : list LR1_StateItem → list LR1_StateItem) (s : LR1_State)
  : LR1_State :=
  {| state_index := state_index s; itemSet := f (itemSet s);
     outEdges := outEdges s; inEdges := inEdges s |}.
Definition withOutEdges (f : list nat → list nat) (s : LR1_State) : LR1_State :=
  {| state_index := state_index s; itemSet := itemSet s;
     outEdges := f (outEdges s); inEdges := inEdges s |}.
Definition withInEdges (f : list nat → list nat) (s : LR1_State) : LR1_State :=
  {| state_index := state_index s; itemSet := itemSet s;
     outEdges := outEdges s; inEdges := f (inEdges s) |}.
Definition withIndex (i : Z) (s : LR1_State) : LR1_State :=
  {| state_index := i; itemSet := itemSet s;
     outEdges := outEdges s; inEdges := inEdges s |}.
Definition withDest (d : nat) (e : LR1_Edge) : LR1_Edge :=
  {| src := src e; dest := d; label := label e |}.

(** Update of the state object behind reference [s]. *)
Definition updState (s : nat) (f : LR1_State → LR1_State) : M unit :=
  mmodify (setStateObjs (alter f s)).
Definition updEdge (e : nat) (f : LR1_Edge → LR1_Edge) : M unit :=
  mmodify (setEdgeObjs (alter f e)).

(** [new LR1_State(lr1)] and [new LR1_Edge(src, dest)]: the reference of
    the new object is the next free position of the store. *)
Definition allocState : M nat :=
  σ <~ mget ;;
  mmodify (setStateObjs (λ l, l ++ [newState])) ;;;
  mret (length (stateObjs σ)).
Definition allocEdge (e : LR1_Edge) : M nat :=
  σ <~ mget ;;
  mmodify (setEdgeObjs (λ l, l ++ [e])) ;;;
  mret (length (edgeObjs σ)).

(** *** [LR1_State.calcItemSet] *)

(** One iteration of the loops over [t] and over [nt]. *)
Definition mkSuccessor (this : nat) (ty : LR1_RuleItemType) (v : string) : M nat :=
  si <~ allocState ;;
  e <~ allocEdge (mkEdge this si (mkRuleItem ty v)) ;;
  updState this (withOutEdges (λ l, l ++ [e])) ;;;
  updState si (withInEdges (λ l, l ++ [e])) ;;;
  σ <~ mget ;;
  seeds <~ liftR (seedItems (rules σ) (itemSet (stateOf σ this)) ty v) ;;
  updState si (withItemSet (λ _, seeds)) ;;;
  mret si.

Definition calcItemSet (fuel : nat) (this : nat) : M (list nat) :=
  σ <~ mget ;;
  items <~ liftR (closureLoop fuel (rules σ) (first σ) (itemSet (stateOf σ this))) ;;
  updState this (withItemSet (λ _, items)) ;;;
  let '(t, nt) := succSymbols (rules σ) items in
  s1 <~ forM (mkSuccessor this Terminal) t ;;
  s2 <~ forM (mkSuccessor this NonTerminal) nt ;;
  mret (s1 ++ s2).

(** *** [LR1_State.calcReduceEntries] *)

Definition inEntries (terminal : string) (entries : list (string * LR1_TableEntry))
  : option LR1_TableEntry :=
  snd <$> List.find (λ kv, bool_decide (kv.1 = terminal)) entries.

Definition calcReduceEntries (rs : list LR1_Rule) (s : LR1_State)
  : result (list (string * LR1_TableEntry)) :=
  foldR (λ item entries,
           if pos item =? length (rhs (ruleOf rs (rule item))) then
             foldR (λ terminal entries,
                      let entry := {| shift := true;
                                      entry_value := rule_index (ruleOf rs (rule item)) |} in
                      match inEntries terminal entries with
                      | Some old =>
                          Throw (ReduceReduceConflict (entry_value old) (entry_value entry))
                      | None => Ok (entries ++ [(terminal, entry)])
                      end)
                   (lookAheadSet item) entries
           else Ok entries)
        (itemSet s) [].

(** *** [LR1.addState] *)

Definition edge_same (u v : LR1_Edge) : bool :=
  (src u =? src v) && (dest u =? dest v)
  && bool_decide (item_type (label u) = item_type (label v))
  && bool_decide (item_value (label u) = item_value (label v)).

(** The loop over the in-edges of [sNew] once an equal state [s] is found. *)
Definition redirectEdge (s : nat) (u : nat) : M unit :=
  updEdge u (withDest s) ;;;
  σ <~ mget ;;
  let found := existsb (λ v, edge_same (edgeOf σ u) (edgeOf σ v)) (inEdges (stateOf σ s)) in
  if found then mret tt else updState s (withInEdges (λ l, l ++ [u])).

Definition addState (sNew : nat) : M bool :=
  σ <~ mget ;;
  match List.find (λ s, state_equal (stateOf σ s) (stateOf σ sNew)) (states σ) with
  | Some s =>
      forM_ (redirectEdge s) (inEdges (stateOf σ sNew)) ;;;
      mret false
  | None =>
      updState sNew (withIndex (Z.of_nat (length (states σ)))) ;;;
      mmodify (setStates (λ l, l ++ [sNew])) ;;;
      mret true
  end.

(** *** [LR1.calcTable] *)

(** Check (b): every non-terminal on a right-hand side is defined. *)
Definition checkRule (nt : list string) (ir : nat * LR1_Rule) (_ : unit) : result unit :=
  foldR (λ item _,
           match item_type item with
           | NonTerminal =>
               if JSSet.has nt (item_value item) then Ok tt
               else Throw (UndefinedNonTerminal ir.1 (item_value item))
           | Terminal => Ok tt
           end) (rhs ir.2) tt.

Definition checkRules (rs : list LR1_Rule) : result unit :=
  let nt := foldl JSSet.add [] (lhs <$> rs) in
  foldR (checkRule nt) (imap (λ i r, (i, r)) rs) tt.

(** [Q.pop()]: the last element and the remaining array. *)
Definition pop (Q : list nat) : option (nat * list nat) :=
  match reverse Q with
  | [] => None
  | q :: r => Some (q, reverse r)
  end.

(** The [while (Q.length > 0)] loop. *)
Fixpoint stateLoop (fuel inner : nat) (Q : list nat) : M unit :=
  match fuel with
  | O => liftR OutOfFuel
  | S fuel' =>
      match pop Q with
      | None => mret tt
      | Some (q, Q') =>
          R <~ calcItemSet inner q ;;
          added <~ addState q ;;
          stateLoop fuel' inner (if added : bool then Q' ++ R else Q')
      end
  end.

Definition emptyRow : LR1_TableRow := {| actionEntries := ∅; gotoEntries := ∅ |}.

Definition setAction (k : string) (e : LR1_TableEntry) (row : LR1_TableRow) : LR1_TableRow :=
  {| actionEntries := <[k := e]> (actionEntries row); gotoEntries := gotoEntries row |}.
Definition setGoto (k : string) (e : LR1_TableEntry) (row : LR1_TableRow) : LR1_TableRow :=
  {| actionEntries := actionEntries row; gotoEntries := <[k := e]> (gotoEntries row) |}.

(** Body of the loop over the out-edges of a state. *)
Definition edgeEntry (σ : LR1) (outEdge : nat) (row : LR1_TableRow) : result LR1_TableRow :=
  let e := edgeOf σ outEdge in
  let entry := {| shift := true; entry_value := state_index (stateOf σ (dest e)) |} in
  match item_type (label e) with
  | Terminal =>
      match actionEntries row !! item_value (label e) with
      | Some _ => ProcessExit
      | None => Ok (setAction (item_value (label e)) entry row)
      end
  | NonTerminal =>
      match gotoEntries row !! item_value (label e) with
      | Some _ => ProcessExit
      | None => Ok (setGoto (item_value (label e)) entry row)
      end
  end.

(** Body of the loop over the reduce entries of a state. *)
Definition reduceEntry (kv : string * LR1_TableEntry) (row : LR1_TableRow)
  : result LR1_TableRow :=
  let entry := {| shift := false; entry_value := entry_value kv.2 |} in
  match actionEntries row !! kv.1 with
  | Some _ => ProcessExit
  | None => Ok (setAction kv.1 entry row)
  end.

Definition pushRow (row : LR1_TableRow) : M unit :=
  mmodify (λ σ, setTable ((λ t, mkTable (rows t ++ [row])) <$> table σ) σ).
(** Update of the row object pushed last. *)
Definition setLastRow (row : LR1_TableRow) : M unit :=
  mmodify (λ σ, setTable
     ((λ t, mkTable (<[pred (length (rows t)) := row]> (rows t))) <$> table σ) σ).

(** Body of the loop over the admitted states.  The store after a
    [ProcessExit] cannot be observed, so the row under construction is
    written back when a loop over its entries has completed. *)
Definition buildRow (s : nat) : M unit :=
  pushRow emptyRow ;;;
  σ <~ mget ;;
  row1 <~ liftR (foldR (edgeEntry σ) (outEdges (stateOf σ s)) emptyRow) ;;
  setLastRow row1 ;;;
  reduceEntries <~ liftR (calcReduceEntries (rules σ) (stateOf σ s)) ;;
  row2 <~ liftR (foldR reduceEntry reduceEntries row1) ;;
  setLastRow row2.

Definition calcTable (fuel : nat) : M LR1_Table :=
  σ <~ mget ;;
  if length (rules σ) =? 0 then liftR (Throw NoProductionRule) else
  liftR (checkRules (rules σ)) ;;;
  f <~ liftR (calcFirst fuel (rules σ) (first σ)) ;;
  mmodify (setFirst f) ;;;
  mmodify (setRules (imap (λ i r, setRuleIndex r (Z.of_nat i)) (rules σ))) ;;;
  state <~ allocState ;;
  updState state
    (withItemSet (λ items,
       (addItem items {| pos := 0; lookAheadSet := JSSet.add [] "END"%string; rule := 0 |}).1)) ;;;
  stateLoop fuel fuel [state] ;;;
  mmodify (setTable (Some (mkTable []))) ;;;
  σ' <~ mget ;;
  forM_ buildRow (states σ') ;;;
  σ'' <~ mget ;;
  match table σ'' with
  | Some t => mret t
  | None => liftR TypeError
  end.

(** ** Parser runtime ([LR1.parse]) *)

(** Modelled from the spec: the token source is the external lexer
    package; of its declarations the parser uses the type tag, which is
    also the token-class key of the action map, and the lexeme (§6.2). *)
Inductive LexerTokenType : Type := DEL | TER | INT | REAL | HEX | STR | ID | END.

#[global] Instance LexerTokenType_eq_dec : EqDecision LexerTokenType.
Proof. solve_decision. Defined.

Definition typeKey (t : LexerTokenType) : string :=
  match t with
  | DEL => "DEL" | TER => "TER" | INT => "INT" | REAL => "REAL"
  | HEX => "HEX" | STR => "STR" | ID => "ID" | END => "END"
  end%string.

Record LexerToken : Type := mkToken {
  tk_token : string;         (* lexeme *)
  tk_type : LexerTokenType;
  tk_value : Z
}.

(** Modelled from the spec: current token, advance and end-of-input
    predicate of the token source (§6.2); its error-raising operation
    aborts the parse and is the [LexerRaise] outcome below. *)
Class TokenSource (L : Type) : Type := {
  getToken : L → LexerToken;
  next : L → L;
  isEND : L → bool;
  isEND_getToken : ∀ l, isEND l = bool_decide (tk_type (getToken l) = END)
}.

(** A token source over a token array; past its end the current token is
    the end-of-input token. *)
Definition endToken : LexerToken := mkToken "" END 0.

#[global, refine] Instance list_TokenSource : TokenSource (list LexerToken) := {|
  getToken l := hd endToken l;
  next l := tl l;
  isEND l := bool_decide (tk_type (hd endToken l) = END)
|}.
Proof. reflexivity. Defined.

(** Elements of the parse stack: state numbers, tokens and non-terminals. *)
Inductive StackItem : Type :=
| StNumber (n : Z)
| StToken (tk : LexerToken)
| StString (s : string).

Inductive LexerError : Type :=
| UnexpectedToken (lexeme : string)
| UnimplementedCallback (id : string)
| ExpectedEND.

(** A callback receives the array [terminals] and acts on the state [U]
    it closes over; [None] when it throws. *)
Abbreviation CallBack U := (list StackItem → U → option U).

Inductive StepResult (L U : Type) : Type :=
| Continue (stack : list StackItem) (lexer : L) (u : U)
| Return (lexer : L) (u : U)
| LexerRaise (e : LexerError) (u : U)
| CallbackRaise
| StepTypeError.
Arguments Continue {L U} stack lexer u.
Arguments Return {L U} lexer u.
Arguments LexerRaise {L U} e u.
Arguments CallbackRaise {L U}.
Arguments StepTypeError {L U}.

Inductive ParseResult (L U : Type) : Type :=
| Parsed (lexer : L) (u : U)
| LexerRaised (e : LexerError) (u : U)
| CallbackRaised
| ParseThrow (e : LR1Error)
| ParseTypeError
| ParseOutOfFuel.
Arguments Parsed {L U} lexer u.
Arguments LexerRaised {L U} e u.
Arguments CallbackRaised {L U}.
Arguments ParseThrow {L U} e.
Arguments ParseTypeError {L U}.
Arguments ParseOutOfFuel {L U}.

(** [array[i]] for a number [i]. *)
Definition lookupZ {A} (l : list A) (i : Z) : option A :=
  if (i <? 0)%Z then None else l !! Z.to_nat i.

(** [array.splice(start)]: the remaining array and the removed elements. *)
Definition splice {A} (l : list A) (start : Z) : list A * list A :=
  let len := Z.of_nat (length l) in
  let k := Z.to_nat (if (start <? 0)%Z then Z.max (len + start) 0 else Z.min start len) in
  (take k l, drop k l).

Definition isLiteralClass (t : LexerTokenType) : bool :=
  bool_decide (t = TER) || bool_decide (t = DEL) || bool_decide (t = ID).

(** "find action entry in the table" *)
Definition findEntry (row : LR1_TableRow) (tk : LexerToken) : option LR1_TableEntry :=
  let entry :=
    if isLiteralClass (tk_type tk)
    then actionEntries row !! (":" +:+ tk_token tk)
    else None in
  match entry with
  | Some e => Some e
  | None => actionEntries row !! typeKey (tk_type tk)
  end.

(** "get terminal tokens for the caller"; [items[i * 2]] exists for every
    [i] below [items.length >> 1]. *)
Definition collectTerminals (rhs_ : list LR1_RuleItem) (items : list StackItem)
  : result (list StackItem) :=
  foldR (λ i terminals,
           match rhs_ !! i with
           | None => TypeError
           | Some x =>
               match item_type x with
               | Terminal =>
                   match items !! (i * 2) with
                   | Some v => Ok (terminals ++ [v])
                   | None => TypeError
                   end
               | NonTerminal => Ok terminals
               end
           end)
        (seq 0 (Nat.shiftr (length items) 1)) [].

Section Parse.
Context {L U : Type} `{TokenSource L}.

(** The part of a REDUCE after the callback: stop at the root rule,
    otherwise push the left-hand side and the GOTO state. *)
Definition afterCallback (t : LR1_Table) (rootRule : bool) (r : LR1_Rule)
    (stack : list StackItem) (lexer : L) (u : U) : StepResult L U :=
  if rootRule then
    if negb (isEND lexer) then LexerRaise ExpectedEND u
    else Return lexer u
  else
    match last stack with
    | Some (StNumber s) =>
        match lookupZ (rows t) s with
        | Some row =>
            match gotoEntries row !! lhs r with
            | Some g =>
                Continue (stack ++ [StString (lhs r); StNumber (entry_value g)]) lexer u
            | None => StepTypeError
            end
        | None => StepTypeError
        end
    | _ => StepTypeError
    end.

Definition reduceStep (rs : list LR1_Rule) (t : LR1_Table)
    (callBacks : gmap string (CallBack U)) (entry : LR1_TableEntry)
    (stack : list StackItem) (lexer : L) (u : U) : StepResult L U :=
  let rootRule := (entry_value entry =? 0)%Z in
  match lookupZ rs (entry_value entry) with
  | None => StepTypeError
  | Some r =>
      let '(stack', items) :=
        splice stack (Z.of_nat (length stack) - 2 * Z.of_nat (length (rhs r))) in
      if 0 <? String.length (callBackId r) then
        match callBacks !! callBackId r with
        | None => LexerRaise (UnimplementedCallback (callBackId r)) u
        | Some f =>
            match collectTerminals (rhs r) items with
            | Ok terminals =>
                match f terminals u with
                | Some u' => afterCallback t rootRule r stack' lexer u'
                | None => CallbackRaise
                end
            | _ => StepTypeError
            end
        end
      else afterCallback t rootRule r stack' lexer u
  end.

(** One iteration of the [for (;;)] loop. *)
Definition parseStep (rs : list LR1_Rule) (t : LR1_Table)
    (callBacks : gmap string (CallBack U))
    (stack : list StackItem) (lexer : L) (u : U) : StepResult L U :=
  match last stack with
  | Some (StNumber state) =>
      match lookupZ (rows t) state with
      | None => StepTypeError
      | Some row =>
          let tk := getToken lexer in
          match findEntry row tk with
          | None => LexerRaise (UnexpectedToken (tk_token tk)) u
          | Some entry =>
              if shift entry then
                Continue (stack ++ [StToken tk; StNumber (entry_value entry)])
                         (next lexer) u
              else reduceStep rs t callBacks entry stack lexer u
          end
      end
  | _ => StepTypeError
  end.

Fixpoint parseLoop (fuel : nat) (rs : list LR1_Rule) (t : LR1_Table)
    (callBacks : gmap string (CallBack U))
    (stack : list StackItem) (lexer : L) (u : U) : ParseResult L U :=
  match fuel with
  | O => ParseOutOfFuel
  | S fuel' =>
      match parseStep rs t callBacks stack lexer u with
      | Continue stack' lexer' u' => parseLoop fuel' rs t callBacks stack' lexer' u'
      | Return lexer' u' => Parsed lexer' u'
      | LexerRaise e u' => LexerRaised e u'
      | CallbackRaise => CallbackRaised
      | StepTypeError => ParseTypeError
      end
  end.

(** The configuration after [n] iterations of the loop. *)
Fixpoint parseSteps (n : nat) (rs : list LR1_Rule) (t : LR1_Table)
    (callBacks : gmap string (CallBack U))
    (stack : list StackItem) (lexer : L) (u : U) : StepResult L U :=
  match n with
  | O => Continue stack lexer u
  | S n' =>
      match parseStep rs t callBacks stack lexer u with
      | Continue stack' lexer' u' => parseSteps n' rs t callBacks stack' lexer' u'
      | r => r
      end
  end.

Definition parse (fuel : nat) (lr : LR1) (callBacks : gmap string (CallBack U))
    (lexer : L) (u : U) : ParseResult L U :=
  match table lr with
  | None => ParseThrow TableNotGenerated
  | Some t =>
      if length (rows t) =? 0 then ParseThrow TableHasNoRules
      else parseLoop fuel (rules lr) t callBacks [StNumber 0] lexer u
  end.
End Parse.

(** ** Notions used in the statements *)

(** Every value of the FIRST map is a set. *)
Definition first_wf (f : gmap string (list string)) : Prop :=
  ∀ k s, f !! k = Some s → NoDup s.

Definition first_within (U : list string) (f : gmap string (list string)) : Prop :=
  ∀ k s, f !! k = Some s → s ⊆ U.

(** Pointwise growth of the FIRST map. *)
Definition first_le (f f' : gmap string (list string)) : Prop :=
  ∀ k s, f !! k = Some s → ∃ s', f' !! k = Some s' ∧ s ⊆ s'.

(** Total size of the FIRST sets of the keys [K]. *)
Definition first_size (K : list string) (f : gmap string (list string)) : nat :=
  sum_list ((λ k, length (default [] (f !! k))) <$> K).

(** The item that replaces [old] when [newItem] is merged into it. *)
Definition merged (old newItem : LR1_StateItem) : LR1_StateItem :=
  {| pos := pos old;
     lookAheadSet := JSSet.of_list (lookAheadSet old ++ lookAheadSet newItem);
     rule := rule old |}.

(** The seed obtained from an item by advancing the dot. *)
Definition advance (item : LR1_StateItem) : LR1_StateItem :=
  {| pos := S (pos item); lookAheadSet := JSSet.of_list (lookAheadSet item);
     rule := rule item |}.

(** The symbol right of the dot is [(ty, v)]. *)
Definition dotAt (rs : list LR1_Rule) (ty : LR1_RuleItemType) (v : string)
    (item : LR1_StateItem) : Prop :=
  ∃ x, rhs (ruleOf rs (rule item)) !! pos item = Some x
       ∧ item_type x = ty ∧ item_value x = v.

#[global] Instance dotAt_dec rs ty v item : Decision (dotAt rs ty v item).
Proof.
  unfold dotAt. destruct (rhs (ruleOf rs (rule item)) !! pos item) as [x|].
  - destruct (decide (item_type x = ty ∧ item_value x = v)) as [Hd|Hd].
    + left. by exists x.
    + right. intros (y & [= <-] & ?). tauto.
  - right. by intros (y & ? & _).
Defined.

(** Every item of the set has a duplicate-free lookahead set. *)
Definition items_wf (items : list LR1_StateItem) : Prop :=
  Forall (λ it, NoDup (lookAheadSet it)) items.

(** No two items of the set have the same core. *)
Definition core_unique (items : list LR1_StateItem) : Prop :=
  NoDup (core <$> items).

(** Two lookahead sets have the same elements. *)
Definition la_same (a b : list string) : Prop := ∀ x, x ∈ a ↔ x ∈ b.

(** Same core and same lookahead set. *)
Definition item_same (i j : LR1_StateItem) : Prop :=
  core i = core j ∧ la_same (lookAheadSet i) (lookAheadSet j).

(** The two item sets contain the same items, with identical lookahead
    sets per core. *)
Definition items_same (A B : list LR1_StateItem) : Prop :=
  (∀ a, a ∈ A → ∃ b, b ∈ B ∧ item_same a b) ∧
  (∀ b, b ∈ B → ∃ a, a ∈ A ∧ item_same b a).

Definition items (σ : LR1) (s : nat) : list LR1_StateItem := itemSet (stateOf σ s).

(** The store after one successor has been created. *)
Definition succStore (this : nat) (ty : LR1_RuleItemType) (v : string)
    (seeds : list LR1_StateItem) (σ : LR1) : LR1 :=
  let si := length (stateObjs σ) in
  let e := length (edgeObjs σ) in
  setStateObjs (alter (withItemSet (λ _, seeds)) si)
    (setStateObjs (alter (withInEdges (λ l, l ++ [e])) si)
      (setStateObjs (alter (withOutEdges (λ l, l ++ [e])) this)
        (setEdgeObjs (λ l, l ++ [mkEdge this si (mkRuleItem ty v)])
          (setStateObjs (λ l, l ++ [newState]) σ)))).

(** A state as [mkSuccessor] leaves it. *)
Definition tentative (seeds : list LR1_StateItem) (e : nat) : LR1_State :=
  {| state_index := -1; itemSet := seeds; outEdges := []; inEdges := [e] |}.

(** [σ'] is [σ] after state [this] has received one successor per label
    of [lbls], in this order. *)
Definition successors (this : nat) (lbls : list LR1_RuleItem) (σ σ' : LR1) : Prop :=
  let n0 := length (stateObjs σ) in
  let m0 := length (edgeObjs σ) in
  length (stateObjs σ') = n0 + length lbls ∧
  length (edgeObjs σ') = m0 + length lbls ∧
  rules σ' = rules σ ∧ first σ' = first σ ∧ states σ' = states σ ∧ table σ' = table σ ∧
  (∀ s, s < n0 → s ≠ this → stateOf σ' s = stateOf σ s) ∧
  stateOf σ' this = withOutEdges (λ o, o ++ seq m0 (length lbls)) (stateOf σ this) ∧
  (∀ e, e < m0 → edgeOf σ' e = edgeOf σ e) ∧
  (∀ i lbl, lbls !! i = Some lbl →
     ∃ seeds, seedItems (rules σ) (items σ this) (item_type lbl) (item_value lbl) = Ok seeds
              ∧ stateOf σ' (n0 + i) = tentative seeds (m0 + i)
              ∧ edgeOf σ' (m0 + i) = mkEdge this (n0 + i) lbl).

(** Labels of the successors of an item set, in creation order. *)
Definition succLabels (rs : list LR1_Rule) (its : list LR1_StateItem) : list LR1_RuleItem :=
  (mkRuleItem Terminal <$> (succSymbols rs its).1)
  ++ (mkRuleItem NonTerminal <$> (succSymbols rs its).2).

(** The store after the closure of [this] has replaced its item set. *)
Definition closedStore (this : nat) (its : list LR1_StateItem) (σ : LR1) : LR1 :=
  setStateObjs (alter (withItemSet (λ _, its)) this) σ.

(** [σ'] is [σ] after the edges [us] have been redirected to state [s]. *)
Definition redirected (s : nat) (us : list nat) (σ σ' : LR1) : Prop :=
  rules σ' = rules σ ∧ first σ' = first σ ∧ states σ' = states σ ∧ table σ' = table σ ∧
  length (stateObjs σ') = length (stateObjs σ) ∧
  length (edgeObjs σ') = length (edgeObjs σ) ∧
  (∀ s', itemSet (stateOf σ' s') = itemSet (stateOf σ s')
         ∧ state_index (stateOf σ' s') = state_index (stateOf σ s')
         ∧ outEdges (stateOf σ' s') = outEdges (stateOf σ s')
         ∧ (s' ≠ s → inEdges (stateOf σ' s') = inEdges (stateOf σ s'))) ∧
  (∀ e, edgeOf σ' e =
        if decide (e ∈ us ∧ e < length (edgeObjs σ)) then withDest s (edgeOf σ e)
        else edgeOf σ e).

(** The store after [sNew] has been admitted. *)
Definition admittedStore (sNew : nat) (σ : LR1) : LR1 :=
  setStates (λ l, l ++ [sNew])
    (setStateObjs (alter (withIndex (Z.of_nat (length (states σ)))) sNew) σ).

(** Every state object has a core-unique item set of well-formed items. *)
Definition store_ok (σ : LR1) : Prop :=
  ∀ s, core_unique (items σ s) ∧ items_wf (items σ s).

(** No admitted state is [equal] to a state admitted before it. *)
Definition admitted_distinct (σ : LR1) : Prop :=
  ∀ i j s s', i < j → states σ !! i = Some s → states σ !! j = Some s' →
              state_equal (stateOf σ s) (stateOf σ s') = false.

(** The worklist holds distinct allocated states that are not admitted. *)
Definition worklist_ok (Q : list nat) (σ : LR1) : Prop :=
  NoDup Q ∧
  (∀ q, q ∈ Q → q < length (stateObjs σ) ∧ q ∉ states σ) ∧
  (∀ s, s ∈ states σ → s < length (stateObjs σ)).

Definition builder_inv (Q : list nat) (σ : LR1) : Prop :=
  store_ok σ ∧ admitted_distinct σ ∧ worklist_ok Q σ.

(** A fresh generator to which the rules [rs] have been added. *)
Definition withRules (rs : list LR1_Rule) : LR1 := foldl addRule newLR1 rs.

(** The item of the initial state. *)
Definition rootItem : LR1_StateItem :=
  {| pos := 0; lookAheadSet := JSSet.add [] "END"%string; rule := 0 |}.

(** The store when the worklist loop of [calcTable] starts. *)
Definition initialStore (f : gmap string (list string)) (σ : LR1) : LR1 :=
  setStateObjs (alter (withItemSet (λ its, (addItem its rootItem).1)) (length (stateObjs σ)))
    (setStateObjs (λ l, l ++ [newState])
      (setRules (imap (λ i r, setRuleIndex r (Z.of_nat i)) (rules σ))
        (setFirst f σ))).

(** Only the table differs. *)
Definition same_automaton (σ σ' : LR1) : Prop :=
  rules σ' = rules σ ∧ first σ' = first σ ∧ states σ' = states σ ∧
  stateObjs σ' = stateObjs σ ∧ edgeObjs σ' = edgeObjs σ.

(** The admitted states are pairwise different as sets of items. *)
Definition states_unique (σ : LR1) : Prop :=
  ∀ i j s s', i ≠ j → states σ !! i = Some s → states σ !! j = Some s' →
              ¬ items_same (items σ s) (items σ s').

(** The slots of the popped part of the stack that hold symbols: the
    popped slots alternate symbol, state number. *)
Fixpoint symbolSlots (items : list StackItem) : list StackItem :=
  match items with
  | x :: _ :: rest => x :: symbolSlots rest
  | _ => []
  end.

(** The popped terminal tokens in right-hand-side order, the positions of
    non-terminals skipped (§4.6, step 5). *)
Fixpoint terminalSlots (rhs_ : list LR1_RuleItem) (symbols : list StackItem)
  : list StackItem :=
  match rhs_, symbols with
  | x :: rhs', v :: symbols' =>
      match item_type x with
      | Terminal => v :: terminalSlots rhs' symbols'
      | NonTerminal => terminalSlots rhs' symbols'
      end
  | _, _ => []
  end.

(** What the parser does with the action entry it has found. *)
Definition actOn {L U : Type} `{TokenSource L} (rs : list LR1_Rule) (t : LR1_Table)
    (callBacks : gmap string (CallBack U)) (entry : LR1_TableEntry)
    (stack : list StackItem) (lexer : L) (u : U) : StepResult L U :=
  if shift entry then
    Continue (stack ++ [StToken (getToken lexer); StNumber (entry_value entry)])
             (next lexer) u
  else reduceStep rs t callBacks entry stack lexer u.


(** ** Invariants of the automaton used by the parser *)

(** Every core of [D] with the dot after a symbol comes from a core of [S]
    by advancing the dot past the symbol [lbl]. *)
Definition advances (rs : list LR1_Rule) (lbl : LR1_RuleItem)
    (S D : list LR1_StateItem) : Prop :=
  ∀ c, c ∈ core <$> D → 0 < c.2 →
       (c.1, c.2 - 1) ∈ core <$> S ∧ rhs (ruleOf rs c.1) !! (c.2 - 1) = Some lbl.

(** The edges listed in a state exist and connect allocated states. *)
Definition edges_valid (σ : LR1) : Prop :=
  (∀ s e, e ∈ outEdges (stateOf σ s) → e < length (edgeObjs σ)) ∧
  (∀ e, e < length (edgeObjs σ) → dest (edgeOf σ e) < length (stateObjs σ)).

(** Along every out-edge the items advance past the label of the edge. *)
Definition edges_ok (σ : LR1) : Prop :=
  ∀ s e, e ∈ outEdges (stateOf σ s) →
         advances (rules σ) (label (edgeOf σ e)) (items σ s) (items σ (dest (edgeOf σ e))).

(** Every item refers to a rule of the grammar. *)
Definition rules_ok (σ : LR1) : Prop :=
  ∀ s it, it ∈ items σ s → rule it < length (rules σ).

(** A state of the worklist has no out-edge yet, and its in-edges lead
    to it. *)
Definition tentative_ok (Q : list nat) (σ : LR1) : Prop :=
  ∀ q, q ∈ Q → outEdges (stateOf σ q) = [] ∧
               ∀ e, e ∈ inEdges (stateOf σ q) →
                    e < length (edgeObjs σ) ∧ dest (edgeOf σ e) = q.

(** The out-edges of an admitted state lead to admitted states or to
    states of the worklist that list them as in-edges. *)
Definition closed_ok (Q : list nat) (σ : LR1) : Prop :=
  ∀ s e, s ∈ states σ → e ∈ outEdges (stateOf σ s) →
         dest (edgeOf σ e) ∈ states σ
         ∨ (dest (edgeOf σ e) ∈ Q ∧ e ∈ inEdges (stateOf σ (dest (edgeOf σ e)))).

(** The index of an admitted state is its position in [states]. *)
Definition index_ok (σ : LR1) : Prop :=
  ∀ i s, states σ !! i = Some s → state_index (stateOf σ s) = Z.of_nat i.

(** The state admitted first has the dot at the start of every item. *)
Definition root_ok (Q : list nat) (σ : LR1) : Prop :=
  (∀ s it, states σ !! 0 = Some s → it ∈ items σ s → pos it = 0) ∧
  (states σ = [] → ∀ q it, q ∈ Q → it ∈ items σ q → pos it = 0).

Definition automaton_inv (Q : list nat) (σ : LR1) : Prop :=
  builder_inv Q σ ∧ edges_valid σ ∧ edges_ok σ ∧ rules_ok σ ∧
  tentative_ok Q σ ∧ closed_ok Q σ ∧ index_ok σ ∧ root_ok Q σ.

(** What holds between [calcItemSet] on the state [q] taken from the
    worklist [Q' ++ [q]] and [addState]; [R] are the successors. *)
Definition processed_inv (q : nat) (Q' R : list nat) (σ : LR1) : Prop :=
  store_ok σ ∧ edges_valid σ ∧ edges_ok σ ∧ rules_ok σ ∧
  tentative_ok (Q' ++ R) σ ∧
  q < length (stateObjs σ) ∧ (q ∉ states σ) ∧ (q ∉ Q') ∧
  (∀ e, e ∈ outEdges (stateOf σ q) →
        dest (edgeOf σ e) ∈ R ∧ e ∈ inEdges (stateOf σ (dest (edgeOf σ e)))) ∧
  (∀ e, e ∈ inEdges (stateOf σ q) →
        e < length (edgeObjs σ) ∧ dest (edgeOf σ e) = q) ∧
  closed_ok (Q' ++ [q]) σ ∧ index_ok σ ∧
  (∀ s, s ∈ states σ → s < length (stateObjs σ)) ∧
  (∀ s it, states σ !! 0 = Some s → it ∈ items σ s → pos it = 0) ∧
  (states σ = [] → ∀ it, it ∈ items σ q → pos it = 0).

(** ** The table and the parse stack *)

(** [row] is the row that [calcTable] builds for state [s]. *)
Definition row_of (σ : LR1) (s : nat) (row : LR1_TableRow) : Prop :=
  ∃ row1 red,
    foldR (edgeEntry σ) (outEdges (stateOf σ s)) emptyRow = Ok row1 ∧
    calcReduceEntries (rules σ) (stateOf σ s) = Ok red ∧
    foldR reduceEntry red row1 = Ok row.

(** The SHIFT and GOTO entries of a row come from the edges [es]. *)
Definition shift_entries (σ : LR1) (es : list nat) (row : LR1_TableRow) : Prop :=
  (∀ k e, actionEntries row !! k = Some e → shift e = true →
     ∃ ed, ed ∈ es ∧ label (edgeOf σ ed) = mkRuleItem Terminal k ∧
           entry_value e = state_index (stateOf σ (dest (edgeOf σ ed)))) ∧
  (∀ k e, gotoEntries row !! k = Some e →
     ∃ ed, ed ∈ es ∧ label (edgeOf σ ed) = mkRuleItem NonTerminal k ∧
           entry_value e = state_index (stateOf σ (dest (edgeOf σ ed)))).

(** The REDUCE entries of a row come from the complete items of [its]. *)
Definition reduce_entries (rs : list LR1_Rule) (its : list LR1_StateItem)
    (row : LR1_TableRow) : Prop :=
  ∀ k e, actionEntries row !! k = Some e → shift e = false →
     ∃ it, it ∈ its ∧ pos it = length (rhs (ruleOf rs (rule it))) ∧
           entry_value e = rule_index (ruleOf rs (rule it)) ∧ k ∈ lookAheadSet it.

(** A stack slot for a symbol: a token for a terminal, the name for a
    non-terminal. *)
Definition slot_matches (x : StackItem) (lbl : LR1_RuleItem) : Prop :=
  match item_type lbl with
  | Terminal => ∃ tk, x = StToken tk
  | NonTerminal => x = StString (item_value lbl)
  end.

Definition is_token (x : StackItem) : Prop := ∃ tk, x = StToken tk.

#[global] Instance is_token_dec x : Decision (is_token x).
Proof.
  destruct x as [n|tk|s].
  - right. by intros [? ?].
  - left. by exists tk.
  - right. by intros [? ?].
Defined.

(** The parse stack spells a path of the automaton from the state
    admitted first to the state [s]; [ls] are the labels along the path. *)
Inductive stack_wf (σ : LR1) : list StackItem → nat → list LR1_RuleItem → Prop :=
| wf_init s0 : states σ !! 0 = Some s0 → stack_wf σ [StNumber 0] s0 []
| wf_push stack s ls e x i :
    stack_wf σ stack s ls →
    e ∈ outEdges (stateOf σ s) →
    states σ !! i = Some (dest (edgeOf σ e)) →
    slot_matches x (label (edgeOf σ e)) →
    stack_wf σ (stack ++ [x; StNumber (Z.of_nat i)]) (dest (edgeOf σ e))
             (ls ++ [label (edgeOf σ e)]).

(** The index of a rule is its position in [rules]. *)
Definition rules_indexed (rs : list LR1_Rule) : Prop :=
  ∀ j, j < length rs → rule_index (ruleOf rs j) = Z.of_nat j.

(** What [calcTable] establishes for the parser: the automaton is
    consistent and the table has one row per admitted state, built from
    that state. *)
Definition table_ok (σ : LR1) (t : LR1_Table) : Prop :=
  automaton_inv [] σ ∧ rules_indexed (rules σ) ∧ states σ ≠ [] ∧
  Forall2 (row_of σ) (states σ) (rows t).

(** The configurations of the loop of [parse]. *)
Inductive reachable {L U : Type} `{TokenSource L} (rs : list LR1_Rule) (t : LR1_Table)
    (callBacks : gmap string (CallBack U)) (lexer0 : L) (u0 : U)
  : list StackItem → L → U → Prop :=
| reach_init : reachable rs t callBacks lexer0 u0 [StNumber 0] lexer0 u0
| reach_step stack lexer u stack' lexer' u' :
    reachable rs t callBacks lexer0 u0 stack lexer u →
    parseStep rs t callBacks stack lexer u = Continue stack' lexer' u' →
    reachable rs t callBacks lexer0 u0 stack' lexer' u'.

(** ** Notions for the further properties *)

(** The SHIFT or GOTO entry for the edge [ed]. *)
Definition shift_of (σ : LR1) (ed : nat) : LR1_TableEntry :=
  {| shift := true; entry_value := state_index (stateOf σ (dest (edgeOf σ ed))) |}.

(** The REDUCE entry for the item [it]. *)
Definition reduce_of (rs : list LR1_Rule) (it : LR1_StateItem) : LR1_TableEntry :=
  {| shift := false; entry_value := rule_index (ruleOf rs (rule it)) |}.

(** The dot of the item stands after the last symbol of its rule. *)
Definition complete (rs : list LR1_Rule) (it : LR1_StateItem) : Prop :=
  pos it = length (rhs (ruleOf rs (rule it))).

(** The row holds exactly the entries of the state [s]: a SHIFT entry per
    out-edge with a terminal label, a REDUCE entry per lookahead terminal
    of a complete item, a GOTO entry per out-edge with a non-terminal
    label. *)
Definition row_exact (σ : LR1) (s : nat) (row : LR1_TableRow) : Prop :=
  (∀ k e, actionEntries row !! k = Some e ↔
     (∃ ed, ed ∈ outEdges (stateOf σ s) ∧ label (edgeOf σ ed) = mkRuleItem Terminal k ∧
            e = shift_of σ ed)
     ∨ (∃ it, it ∈ items σ s ∧ complete (rules σ) it ∧ k ∈ lookAheadSet it ∧
              e = reduce_of (rules σ) it)) ∧
  (∀ k e, gotoEntries row !! k = Some e ↔
     ∃ ed, ed ∈ outEdges (stateOf σ s) ∧ label (edgeOf σ ed) = mkRuleItem NonTerminal k ∧
           e = shift_of σ ed).

(** The pairs that [calcReduceEntries] collects, in the order of the
    iteration. *)
Definition reduce_pairs (rs : list LR1_Rule) (its : list LR1_StateItem)
  : list (string * LR1_TableEntry) :=
  flat_map (λ it, if pos it =? length (rhs (ruleOf rs (rule it)))
                  then (λ k, (k, {| shift := true;
                                    entry_value := rule_index (ruleOf rs (rule it)) |}))
                         <$> lookAheadSet it
                  else []) its.

(** Two items of the set, both complete, have a lookahead terminal in
    common. *)
Definition rr_conflict (rs : list LR1_Rule) (its : list LR1_StateItem) : Prop :=
  ∃ i j it jt k, i < j ∧ its !! i = Some it ∧ its !! j = Some jt ∧
                 complete rs it ∧ complete rs jt ∧
                 k ∈ lookAheadSet it ∧ k ∈ lookAheadSet jt.

(** The symbol right of the dot of an item. *)
Definition afterDot (rs : list LR1_Rule) (it : LR1_StateItem) : option LR1_RuleItem :=
  rhs (ruleOf rs (rule it)) !! pos it.

(** The set contains the start of every rule of every non-terminal that
    stands right of a dot. *)
Definition closed_cores (rs : list LR1_Rule) (its : list LR1_StateItem) : Prop :=
  ∀ it y j r, it ∈ its → afterDot rs it = Some (mkRuleItem NonTerminal y) →
              rs !! j = Some r → lhs r = y → (j, 0) ∈ core <$> its.

(** Every item of [its] that is not an item of [items] is the start of a
    rule of a non-terminal that stands right of a dot in [its]. *)
Definition closure_of (rs : list LR1_Rule) (items its : list LR1_StateItem) : Prop :=
  ∀ it, it ∈ its →
    core it ∈ core <$> items
    ∨ (pos it = 0 ∧ rule it < length rs ∧
       ∃ p, p ∈ its ∧ afterDot rs p = Some (mkRuleItem NonTerminal (lhs (ruleOf rs (rule it))))).

(** Every item of [A] has an item of the same core in [B] whose lookahead
    set includes its lookahead set. *)
Definition items_le (A B : list LR1_StateItem) : Prop :=
  ∀ a, a ∈ A → ∃ b, b ∈ B ∧ core b = core a ∧ lookAheadSet a ⊆ lookAheadSet b.

(** For an item [x -> a . y b c] of the set, the items [y -> . d] of the
    set have [b], or FIRST(b), in their lookahead sets. *)
Definition lookahead_closed (rs : list LR1_Rule) (fst_ : gmap string (list string))
    (its : list LR1_StateItem) : Prop :=
  ∀ p y b j r, p ∈ its → afterDot rs p = Some (mkRuleItem NonTerminal y) →
    rhs (ruleOf rs (rule p)) !! S (pos p) = Some b →
    rs !! j = Some r → lhs r = y →
    ∃ it, it ∈ its ∧ core it = (j, 0) ∧
          match item_type b with
          | Terminal => item_value b ∈ lookAheadSet it
          | NonTerminal => default [] (fst_ !! item_value b) ⊆ lookAheadSet it
          end.

(** The rules that have no item with the dot at the start in the set. *)
Definition unstarted (rs : list LR1_Rule) (items : list LR1_StateItem) : list nat :=
  filter (λ j, (j, 0) ∉ core <$> items) (seq 0 (length rs)).

(** Every item of the set with the dot at the start, other than an item
    of rule 0, is the start of a rule of a non-terminal that stands right
    of a dot in the set. *)
Definition closure_origin (rs : list LR1_Rule) (its : list LR1_StateItem) : Prop :=
  ∀ it, it ∈ its → pos it = 0 → rule it ≠ 0 →
    ∃ p, p ∈ its ∧ afterDot rs p = Some (mkRuleItem NonTerminal (lhs (ruleOf rs (rule it)))).

(** Every symbol right of a dot in state [s] labels an out-edge of [s]. *)
Definition out_complete (σ : LR1) (s : nat) : Prop :=
  ∀ it x, it ∈ items σ s → afterDot (rules σ) it = Some x →
          ∃ e, e ∈ outEdges (stateOf σ s) ∧ label (edgeOf σ e) = x.

(** The labels of the out-edges of state [s]. *)
Definition outLabels (σ : LR1) (s : nat) : list LR1_RuleItem :=
  (λ e, label (edgeOf σ e)) <$> outEdges (stateOf σ s).

(** The label of every out-edge of [s] stands right of a dot in [s]. *)
Definition out_sound (σ : LR1) (s : nat) : Prop :=
  ∀ x, x ∈ outLabels σ s → ∃ it, it ∈ items σ s ∧ afterDot (rules σ) it = Some x.

(** What the worklist loop keeps besides [automaton_inv]: where the items
    with the dot at the start come from, and that the out-edges of an
    admitted state are labelled, without repetition, with the symbols
    right of its dots. *)
Definition progress_inv (σ : LR1) : Prop :=
  (∀ s, closure_origin (rules σ) (items σ s)) ∧
  (∀ s, NoDup (outLabels σ s)) ∧
  (∀ s, s ∈ states σ → out_complete σ s ∧ out_sound σ s).



(** The items of [A] with [lbl] right of the dot have their successors in
    [B]: the dot one symbol further, the lookahead terminals the same. *)
Definition kernel_of (rs : list LR1_Rule) (lbl : LR1_RuleItem)
    (A B : list LR1_StateItem) : Prop :=
  ∀ it, it ∈ A → afterDot rs it = Some lbl →
    ∃ it', it' ∈ B ∧ core it' = (rule it, S (pos it))
           ∧ la_same (lookAheadSet it') (lookAheadSet it).

(** Every edge leads to a state that holds the successors of the items of
    its source. *)
Definition kernels_ok (σ : LR1) : Prop :=
  ∀ s e, e ∈ outEdges (stateOf σ s) →
         kernel_of (rules σ) (label (edgeOf σ e)) (items σ s) (items σ (dest (edgeOf σ e))).

(** The two computations ended in the same way, neither with a value. *)
Definition same_failure {A B} (a : result A) (b : result B) : Prop :=
  match a, b with
  | Throw e, Throw e' => e = e'
  | ProcessExit, ProcessExit | TypeError, TypeError | OutOfFuel, OutOfFuel => True
  | _, _ => False
  end.

(** State [s] has a complete item with the lookahead terminal [k] and an
    out-edge that shifts [k]. *)
Definition sr_conflict (σ : LR1) (s : nat) : Prop :=
  ∃ it ed k, it ∈ items σ s ∧ complete (rules σ) it ∧ k ∈ lookAheadSet it ∧
             ed ∈ outEdges (stateOf σ s) ∧ label (edgeOf σ ed) = mkRuleItem Terminal k.

(** The lookahead terminals that can occur: END and the terminals of the
    rules. *)
Definition la_universe (rs : list LR1_Rule) : list string :=
  "END"%string :: terminals rs.

(** The item belongs to the grammar: its rule exists, the dot stands
    within the right-hand side, the lookahead terminals are known. *)
Definition item_bounded (rs : list LR1_Rule) (it : LR1_StateItem) : Prop :=
  rule it < length rs ∧ pos it ≤ length (rhs (ruleOf rs (rule it))) ∧
  lookAheadSet it ⊆ la_universe rs.

Definition items_bounded (σ : LR1) : Prop :=
  ∀ s it, it ∈ items σ s → item_bounded (rules σ) it.

(** An item as a set of keys: its core, and its core with each lookahead
    terminal. *)
Definition item_keys (it : LR1_StateItem) : gset (nat * nat * option string) :=
  {[ (rule it, pos it, None) ]}
  ∪ list_to_set ((λ k, (rule it, pos it, Some k)) <$> lookAheadSet it).

(** An item set as a set of keys; two core-unique item sets with the same
    keys hold the same items. *)
Definition desc (its : list LR1_StateItem) : gset (nat * nat * option string) :=
  ⋃ (item_keys <$> its).

(** The keys of all items that belong to the grammar. *)
Definition item_universe (rs : list LR1_Rule) : gset (nat * nat * option string) :=
  list_to_set
    (flat_map (λ j, flat_map (λ p, (λ o, (j, p, o)) <$> (None :: (Some <$> la_universe rs)))
                             (seq 0 (S (length (rhs (ruleOf rs j))))))
              (seq 0 (length rs))).

(** Number of iterations of the worklist loop that always suffices: every
    admitted state is one of the subsets of the item universe, and admits
    at most one successor per symbol of the grammar to the worklist. *)
Definition stateLoop_fuel (rs : list LR1_Rule) : nat :=
  2 ^ size (item_universe rs) * S (length (flat_map rhs rs)) + 2.

(** Fuel that suffices for the three loops of [calcTable]. *)
Definition calcTable_fuel (rs : list LR1_Rule) : nat :=
  calcFirst_fuel rs + S (length rs) + stateLoop_fuel rs.

(** The terminal [k] of a rule stands for the token [tk]: by its lexeme
    for the token classes that are looked up by lexeme, or by its type. *)
Definition token_matches (tk : LexerToken) (k : string) : Prop :=
  (isLiteralClass (tk_type tk) = true ∧ k = ":" +:+ tk_token tk)
  ∨ k = typeKey (tk_type tk).

(** The productions of the rules: left-hand side and right-hand side. *)
Definition productions (rs : list LR1_Rule) : list (string * list LR1_RuleItem) :=
  (λ r, (lhs r, rhs r)) <$> rs.

(** The symbol derives the token sequence by the productions [ps]. *)
Inductive derives (ps : list (string * list LR1_RuleItem))
  : LR1_RuleItem → list LexerToken → Prop :=
| derives_token k tk :
    token_matches tk k → derives ps (mkRuleItem Terminal k) [tk]
| derives_rule a β ws :
    (a, β) ∈ ps → Forall2 (derives ps) β ws →
    derives ps (mkRuleItem NonTerminal a) (concat ws).

(** The tokens read by [n] calls of [next]. *)
Fixpoint tokensRead {L : Type} `{TokenSource L} (n : nat) (lexer : L) : list LexerToken :=
  match n with
  | O => []
  | S n' => getToken lexer :: tokensRead n' (next lexer)
  end.

(** The labels [ls] of the path of the stack derive, one after the other,
    the tokens read since [lexer0]. *)
Definition stack_sound {L : Type} `{TokenSource L} (σ : LR1) (lexer0 lexer : L)
    (ls : list LR1_RuleItem) : Prop :=
  ∃ ws n, Forall2 (derives (productions (rules σ))) ls ws ∧
          lexer = Nat.iter n next lexer0 ∧ concat ws = tokensRead n lexer0.

(** The left-hand side of the first rule stands on no right-hand side. *)
Definition root_unused (rs : list LR1_Rule) : Prop :=
  ∀ r x, r ∈ rs → x ∈ rhs r → item_type x = NonTerminal →
         item_value x ≠ lhs (ruleOf rs 0).

(** The state admitted first is the state allocated first, and an item of
    the first rule with the dot at the start stands in that state or in a
    state with the left-hand side of the first rule right of a dot. *)
Definition root_origin (σ : LR1) : Prop :=
  (∀ s0, states σ !! 0 = Some s0 → s0 = 0) ∧
  ∀ s it, it ∈ items σ s → core it = (0, 0) →
    s = 0 ∨ ∃ p, p ∈ items σ s ∧
                 afterDot (rules σ) p
                 = Some (mkRuleItem NonTerminal (lhs (ruleOf (rules σ) 0))).

(** ** Example grammars *)

Definition T (s : string) : LR1_RuleItem := mkRuleItem Terminal s.
Definition N (s : string) : LR1_RuleItem := mkRuleItem NonTerminal s.

(** A rule as [addRule], [addTerminalItem], [addNonTerminalItem] and the
    assignment of [callBackId] leave it. *)
Definition mkGrammarRule (l : string) (items : list LR1_RuleItem) (cb : string) : LR1_Rule :=
  {| rule_index := -1; lhs := l; rhs := items; callBackId := cb |}.

(** [z = s; s = "x"; s = "x";] *)
Definition grammar_rr : list LR1_Rule :=
  [ mkGrammarRule "z" [N "s"] "";
    mkGrammarRule "s" [T ":x"] "";
    mkGrammarRule "s" [T ":x"] "" ]%string.

(** [z = a "x"; a = "x"; a = "x" "x";] *)
Definition grammar_sr : list LR1_Rule :=
  [ mkGrammarRule "z" [N "a"; T ":x"] "";
    mkGrammarRule "a" [T ":x"] "";
    mkGrammarRule "a" [T ":x"; T ":x"] "" ]%string.

(** [s = "a" -> f;] *)
Definition grammar_cb : list LR1_Rule :=
  [ mkGrammarRule "s" [T ":a"] "f" ]%string.

(** [z = s; s = s "b" | "b" a "a"; a = "a" s "c" | "a" | "a" s INT -> blub;]
    (test/lr1_test.ts) *)
Definition grammar_test : list LR1_Rule :=
  [ mkGrammarRule "z" [N "s"] "";
    mkGrammarRule "s" [N "s"; T ":b"] "";
    mkGrammarRule "s" [T ":b"; N "a"; T ":a"] "";
    mkGrammarRule "a" [T ":a"; N "s"; T ":c"] "";
    mkGrammarRule "a" [T ":a"] "";
    mkGrammarRule "a" [T ":a"; N "s"; T "INT"] "blub" ]%string.

(** The generator after [calcTable] on [grammar_cb], and its table. *)
Definition lr_cb : LR1 := (calcTable 10 (withRules grammar_cb)).2.
Definition table_cb : LR1_Table := default (mkTable []) (getTable lr_cb).

Definition lr_test : LR1 := (calcTable 40 (withRules grammar_test)).2.
Definition table_test : LR1_Table := default (mkTable []) (getTable lr_test).

(** A callback that records the terminals it is called with. *)
Definition recordCall : CallBack (list (list StackItem)) := λ terminals u, Some (u ++ [terminals]).

(** The FIRST map of [grammar_test]. *)
Definition first_test : gmap string (list string) :=
  <["a" := [":a"]]> (<["s" := [":b"]]> (<["z" := [":b"]]> ∅))%string.

(** Tokens and the configuration of the parser on [grammar_cb] after the
    input [a] has been shifted. *)
Definition tok (ty : LexerTokenType) (s : string) : LexerToken := mkToken s ty 0.
Definition stack_cb : list StackItem :=
  [StNumber 0; StToken (tok ID "a"); StNumber 1].
Definition callBacks_cb : gmap string (list StackItem → list (list StackItem)
                                       → option (list (list StackItem))) :=
  <["f"%string := recordCall]> ∅.

(** The input [b a b a a 5 a] for [grammar_test], and the configuration of
    the parser when [a = "a" s INT -> blub] is about to be reduced. *)
Definition input_test : list LexerToken :=
  [tok ID "b"; tok ID "a"; tok ID "b"; tok ID "a"; tok ID "a"; mkToken "5" INT 5; tok ID "a"].
Definition stack_test : list StackItem :=
  [StNumber 0; StToken (tok ID "b"); StNumber 3; StToken (tok ID "a"); StNumber 6;
   StString "s"; StNumber 7; StToken (mkToken "5" INT 5); StNumber 9].
Definition callBacks_test : gmap string (list StackItem → list (list StackItem)
                                         → option (list (list StackItem))) :=
  <["blub"%string := recordCall]> ∅.

(** ** [Set<string>] *)

Lemma has_true s x : JSSet.has s x = true ↔ x ∈ s.
Proof. unfold JSSet.has. rewrite bool_decide_eq_true. done. Qed.

Lemma has_false s x : JSSet.has s x = false ↔ x ∉ s.
Proof. unfold JSSet.has. rewrite bool_decide_eq_false. done. Qed.

Lemma elem_of_add s x y : y ∈ JSSet.add s x ↔ y ∈ s ∨ y = x.
Proof.
  unfold JSSet.add. destruct (JSSet.has s x) eqn:E.
  - apply has_true in E. split; [auto | intros [?| ->]; done].
  - rewrite elem_of_app, list_elem_of_singleton. done.
Qed.

Lemma NoDup_add s x : NoDup s → NoDup (JSSet.add s x).
Proof.
  intros Hs. unfold JSSet.add. destruct (JSSet.has s x) eqn:E; [done|].
  apply has_false in E. apply NoDup_app. split_and!; [done| |apply NoDup_singleton].
  intros y Hy ->%list_elem_of_singleton. done.
Qed.

Lemma add_prefix s x : ∃ c, JSSet.add s x = s ++ c.
Proof.
  unfold JSSet.add. destruct (JSSet.has s x); [exists []; by rewrite app_nil_r | by eexists].
Qed.

Lemma foldl_add_prefix l s : ∃ c, foldl JSSet.add s l = s ++ c.
Proof.
  revert s. induction l as [|x l IH]; intros s; simpl.
  - exists []. by rewrite app_nil_r.
  - destruct (add_prefix s x) as [c ->]. destruct (IH (s ++ c)) as [c' ->].
    exists (c ++ c'). by rewrite app_assoc.
Qed.

Lemma elem_of_foldl_add l s y : y ∈ foldl JSSet.add s l ↔ y ∈ s ∨ y ∈ l.
Proof.
  revert s. induction l as [|x l IH]; intros s; simpl.
  - rewrite elem_of_nil. tauto.
  - rewrite IH, elem_of_add, elem_of_cons. tauto.
Qed.

Lemma NoDup_foldl_add l s : NoDup s → NoDup (foldl JSSet.add s l).
Proof. revert s. induction l; simpl; auto using NoDup_add. Qed.

Lemma foldl_add_id s : NoDup s → foldl JSSet.add [] s = s.
Proof.
  intros Hs. cut (∀ a, NoDup (a ++ s) → foldl JSSet.add a s = a ++ s).
  { intros Hc. apply (Hc []). done. }
  clear Hs. induction s as [|x s IH]; intros a Ha; simpl.
  - by rewrite app_nil_r.
  - assert (JSSet.add a x = a ++ [x]) as ->.
    { unfold JSSet.add. destruct (JSSet.has a x) eqn:E; [|done].
      apply has_true in E. apply NoDup_app in Ha as (_ & Ha & _).
      exfalso. apply (Ha x E). left. }
    rewrite IH; rewrite <- (assoc_L (++)); done.
Qed.

Lemma of_list_id s : NoDup s → JSSet.of_list s = s.
Proof. apply foldl_add_id. Qed.

Lemma NoDup_of_list l : NoDup (JSSet.of_list l).
Proof. apply NoDup_foldl_add, NoDup_nil_2. Qed.

Lemma elem_of_of_list l y : y ∈ JSSet.of_list l ↔ y ∈ l.
Proof. unfold JSSet.of_list. rewrite elem_of_foldl_add, elem_of_nil. tauto. Qed.

(** [new Set([...a, ...b])] keeps [a] as a prefix. *)
Lemma of_list_app a b : NoDup a → JSSet.of_list (a ++ b) = foldl JSSet.add a b.
Proof. intros Ha. unfold JSSet.of_list. by rewrite foldl_app, foldl_add_id. Qed.

Lemma union_length a b : NoDup a → length a ≤ length (JSSet.of_list (a ++ b)).
Proof.
  intros Ha. rewrite of_list_app by done.
  destruct (foldl_add_prefix b a) as [c ->]. rewrite length_app. lia.
Qed.

Lemma union_same_length a b :
  NoDup a → length (JSSet.of_list (a ++ b)) ≤ length a → JSSet.of_list (a ++ b) = a.
Proof.
  intros Ha. rewrite of_list_app by done.
  destruct (foldl_add_prefix b a) as [c ->]. rewrite length_app. intros Hl.
  destruct c; simpl in *; [by rewrite app_nil_r | lia].
Qed.

(** ** FIRST engine *)

Lemma first_size_insert_notin K f k v :
  k ∉ K → first_size K (<[k:=v]> f) = first_size K f.
Proof.
  unfold first_size. induction K as [|a K IH]; intros Hk; [done|].
  apply not_elem_of_cons in Hk as [Hne Hk]. rewrite !fmap_cons. cbn [sum_list_with].
  rewrite lookup_insert_ne by done. by rewrite IH.
Qed.

Lemma first_size_insert K f k v v0 :
  NoDup K → k ∈ K → f !! k = Some v0 →
  first_size K (<[k:=v]> f) + length v0 = first_size K f + length v.
Proof.
  unfold first_size. induction K as [|a K IH]; intros HK Hk Hf.
  - by apply elem_of_nil in Hk.
  - apply NoDup_cons in HK as [Ha HK]. rewrite !fmap_cons. cbn [sum_list_with].
    destruct (decide (a = k)) as [->|Hne].
    + rewrite lookup_insert_eq, Hf. cbn [default id].
      pose proof (first_size_insert_notin K f k v Ha) as E. unfold first_size in E.
      rewrite E. lia.
    + apply elem_of_cons in Hk as [->|Hk]; [done|].
      rewrite lookup_insert_ne by done. specialize (IH HK Hk Hf). lia.
Qed.

Lemma first_size_bound K U f :
  first_wf f → first_within U f → first_size K f ≤ length K * length U.
Proof.
  intros Hwf HU. induction K as [|a K IH]; [unfold first_size; simpl; lia|].
  change (first_size (a :: K) f) with (length (default [] (f !! a)) + first_size K f).
  assert (length (default [] (f !! a)) ≤ length U); [|simpl; lia].
  destruct (f !! a) as [s|] eqn:E; simpl; [|lia].
  apply submseteq_length, NoDup_submseteq; [by eapply Hwf | by eapply HU].
Qed.

Lemma first_le_refl f : first_le f f.
Proof. intros k s ?. by exists s. Qed.

Lemma first_le_trans f g h : first_le f g → first_le g h → first_le f h.
Proof.
  intros H1 H2 k s Hk. destruct (H1 k s Hk) as (s' & Hs' & Hsub).
  destruct (H2 k s' Hs') as (s'' & ? & ?). exists s''. split; [done|set_solver].
Qed.

Section FirstRule.
Variable K U : list string.
Hypothesis HK : NoDup K.

(** What one rule does to the FIRST map and to the flag [changed]. *)
Lemma firstRule_spec r f c f' c' :
  lhs r ∈ K →
  (∀ x β, rhs r = x :: β → item_type x = Terminal → item_value x ∈ U) →
  first_wf f → first_within U f →
  firstRule r (f, c) = Ok (f', c') →
  first_wf f' ∧ first_within U f' ∧ first_le f f' ∧
  (∀ k, is_Some (f' !! k) ↔ is_Some (f !! k)) ∧
  first_size K f ≤ first_size K f' ∧
  (c' = false → c = false ∧ f' = f) ∧
  (c' = true → c = true ∨ first_size K f < first_size K f').
Proof.
  intros Hlhs Hterm Hwf HU. unfold firstRule.
  destruct (rhs r) as [|rhs0 β] eqn:Hrhs.
  { intros [= <- <-]. split_and!; auto using first_le_refl. }
  destruct (item_type rhs0) eqn:Hty.
  - (* terminal *)
    destruct (f !! lhs r) as [fa|] eqn:Hfa; [|done]. intros [= <- <-].
    assert (NoDup fa) as Hnd by (by eapply Hwf).
    split_and!.
    + intros k s. rewrite lookup_insert. case_decide; [|by apply Hwf].
      intros [= <-]. by apply NoDup_add.
    + intros k s. rewrite lookup_insert. case_decide; [|by apply HU].
      intros [= <-] y [Hy| ->]%elem_of_add; [by eapply HU|]. by eapply Hterm.
    + intros k s Hk. rewrite lookup_insert. case_decide as E; [|by exists s].
      subst k. rewrite Hfa in Hk. injection Hk as <-. eexists. split; [done|].
      intros y Hy. apply elem_of_add. by left.
    + intros k. rewrite lookup_insert. case_decide as E; [|done]. subst k.
      rewrite Hfa. split; intros _; eexists; reflexivity.
    + pose proof (first_size_insert K f (lhs r) (JSSet.add fa (item_value rhs0)) fa HK Hlhs Hfa).
      destruct (add_prefix fa (item_value rhs0)) as [cc Hcc]. rewrite Hcc in *.
      rewrite length_app in *. lia.
    + destruct (JSSet.has fa (item_value rhs0)) eqn:Hhas; [|done].
      intros ->. split; [done|]. unfold JSSet.add. rewrite Hhas. by apply insert_id.
    + destruct (JSSet.has fa (item_value rhs0)) eqn:Hhas; [by left|]. intros _. right.
      pose proof (first_size_insert K f (lhs r) (JSSet.add fa (item_value rhs0)) fa HK Hlhs Hfa) as E.
      unfold JSSet.add in E. rewrite Hhas, length_app in E. simpl in E.
      unfold JSSet.add. rewrite Hhas. lia.
  - (* non-terminal *)
    destruct (f !! lhs r) as [fa|] eqn:Hfa; [|done].
    destruct (f !! item_value rhs0) as [fy|] eqn:Hfy; [|done]. intros [= <- <-].
    assert (NoDup fa) as Hnd by (by eapply Hwf).
    pose proof (union_length fa fy Hnd) as Hlen.
    pose proof (first_size_insert K f (lhs r) (JSSet.of_list (fa ++ fy)) fa HK Hlhs Hfa) as Hsz.
    split_and!.
    + intros k s. rewrite lookup_insert. case_decide; [|by apply Hwf].
      intros [= <-]. apply NoDup_of_list.
    + intros k s. rewrite lookup_insert. case_decide; [|by apply HU].
      intros [= <-] y Hy. apply elem_of_of_list, elem_of_app in Hy as [Hy|Hy]; [by apply (HU _ _ Hfa)|by apply (HU _ _ Hfy)].
    + intros k s Hk. rewrite lookup_insert. case_decide as E; [|by exists s].
      subst k. rewrite Hfa in Hk. injection Hk as <-. eexists. split; [done|].
      intros y Hy. apply elem_of_of_list, elem_of_app. by left.
    + intros k. rewrite lookup_insert. case_decide as E; [|done]. subst k.
      rewrite Hfa. split; intros _; eexists; reflexivity.
    + lia.
    + destruct (length fa <? length (JSSet.of_list (fa ++ fy))) eqn:Hlt; [done|].
      apply Nat.ltb_ge in Hlt. intros ->. split; [done|].
      rewrite union_same_length by done. by apply insert_id.
    + destruct (length fa <? length (JSSet.of_list (fa ++ fy))) eqn:Hlt; [|by left].
      apply Nat.ltb_lt in Hlt. intros _. right. lia.
Qed.

(** The same for a pass over a list of rules. *)
Lemma firstRules_spec rs f c f' c' :
  (∀ r, r ∈ rs → lhs r ∈ K) →
  (∀ r x β, r ∈ rs → rhs r = x :: β → item_type x = Terminal → item_value x ∈ U) →
  first_wf f → first_within U f →
  foldR firstRule rs (f, c) = Ok (f', c') →
  first_wf f' ∧ first_within U f' ∧ first_le f f' ∧
  (∀ k, is_Some (f' !! k) ↔ is_Some (f !! k)) ∧
  first_size K f ≤ first_size K f' ∧
  (c' = false → c = false ∧ f' = f) ∧
  (c' = true → c = true ∨ first_size K f < first_size K f').
Proof.
  revert f c. induction rs as [|r rs IH]; intros f c Hlhs Hterm Hwf HU; cbn [foldR].
  { intros [= <- <-]. split_and!; auto using first_le_refl. }
  destruct (firstRule r (f, c)) as [[f1 c1]| | | |] eqn:E; try done.
  intros Hrest.
  assert (lhs r ∈ K) as Hr by (apply Hlhs; left).
  assert (∀ x β, rhs r = x :: β → item_type x = Terminal → item_value x ∈ U) as Hrt
    by (intros x β; apply Hterm; left).
  destruct (firstRule_spec r f c f1 c1 Hr Hrt Hwf HU E)
    as (Hwf1 & HU1 & Hle1 & Hdom1 & Hsz1 & Hf1 & Ht1).
  assert (∀ r', r' ∈ rs → lhs r' ∈ K) as Hlhs' by (intros r' Hr'; apply Hlhs; by right).
  assert (∀ r' x β, r' ∈ rs → rhs r' = x :: β → item_type x = Terminal → item_value x ∈ U)
    as Hterm' by (intros r' x β Hr'; apply Hterm; by right).
  destruct (IH f1 c1 Hlhs' Hterm' Hwf1 HU1 Hrest)
    as (Hwf2 & HU2 & Hle2 & Hdom2 & Hsz2 & Hf2 & Ht2).
  split_and!; auto.
  - by eapply first_le_trans.
  - intros k. by rewrite Hdom2, Hdom1.
  - lia.
  - intros Hc'. destruct (Hf2 Hc') as [-> ->]. by apply Hf1.
  - intros Hc'. destruct (Ht2 Hc') as [Hc1|Hlt]; [|right; lia].
    destruct (Ht1 Hc1) as [?|?]; [by left | right; lia].
Qed.
End FirstRule.

Lemma firstRule_result r st :
  match firstRule r st with Ok _ | TypeError => True | _ => False end.
Proof. destruct st as [f c]. unfold firstRule. repeat case_match; done. Qed.

Lemma firstRules_result rs st :
  match foldR firstRule rs st with Ok _ | TypeError => True | _ => False end.
Proof.
  revert st. induction rs as [|r rs IH]; intros st; cbn [foldR]; [done|].
  pose proof (firstRule_result r st). destruct (firstRule r st); try done. apply IH.
Qed.

Lemma initFirst_lookup rs f k :
  initFirst rs f !! k =
  match f !! k with
  | Some s => Some s
  | None => if bool_decide (k ∈ lhs <$> rs) then Some [] else None
  end.
Proof.
  unfold initFirst. revert f. induction rs as [|r rs IH]; intros f.
  - simpl. by destruct (f !! k).
  - cbn [foldl]. rewrite IH. rewrite fmap_cons.
    destruct (f !! lhs r) as [s|] eqn:E.
    + destruct (f !! k) as [s'|] eqn:E'; [done|].
      assert (k ≠ lhs r) by congruence.
      assert (bool_decide (k ∈ lhs r :: (lhs <$> rs)) = bool_decide (k ∈ lhs <$> rs)) as ->
          by (apply bool_decide_ext; rewrite elem_of_cons; split; [intros [?|?]; [congruence|done] | by right]).
        done.
    + rewrite lookup_insert. destruct (decide (lhs r = k)) as [Hk|Hk].
      * subst k. rewrite E. rewrite (bool_decide_eq_true_2 (lhs r ∈ _ :: _)); [done|left].
      * destruct (f !! k); [done|].
        assert (bool_decide (k ∈ lhs r :: (lhs <$> rs)) = bool_decide (k ∈ lhs <$> rs)) as ->
          by (apply bool_decide_ext; rewrite elem_of_cons; split; [intros [?|?]; [congruence|done] | by right]).
        done.
Qed.

Lemma initFirst_wf rs f : first_wf f → first_wf (initFirst rs f).
Proof.
  intros Hwf k s. rewrite initFirst_lookup. destruct (f !! k) eqn:E.
  - intros [= <-]. by eapply Hwf.
  - case_bool_decide; [|done]. intros [= <-]. apply NoDup_nil_2.
Qed.

Lemma initFirst_within U rs f : first_within U f → first_within U (initFirst rs f).
Proof.
  intros HU k s. rewrite initFirst_lookup. destruct (f !! k) eqn:E.
  - intros [= <-]. by eapply HU.
  - case_bool_decide; [|done]. intros [= <-]. set_solver.
Qed.

Lemma initFirst_defined rs f r : r ∈ rs → is_Some (initFirst rs f !! lhs r).
Proof.
  intros Hr. rewrite initFirst_lookup. destruct (f !! lhs r); [by eexists|].
  rewrite bool_decide_eq_true_2; [by eexists|]. by apply list_elem_of_fmap_2.
Qed.

Lemma firstRule_dom r f c f' c' :
  firstRule r (f, c) = Ok (f', c') → ∀ k, is_Some (f' !! k) ↔ is_Some (f !! k).
Proof.
  unfold firstRule. intros E k. revert E.
  destruct (rhs r) as [|x β]; [by intros; simplify_eq|].
  destruct (f !! lhs r) as [fa|] eqn:Hfa; [|by destruct (item_type x)].
  assert (∀ v, is_Some (<[lhs r:=v]> f !! k) ↔ is_Some (f !! k)) as Hins.
  { intros v. rewrite lookup_insert. destruct (decide (lhs r = k)) as [<-|]; [|done].
    rewrite Hfa. split; intros _; eexists; reflexivity. }
  destruct (item_type x).
  - intros; simplify_eq. apply Hins.
  - destruct (f !! item_value x); [|done]. intros; simplify_eq. apply Hins.
Qed.

(** A pass cannot fail when the sets it reads exist. *)
Lemma firstRules_defined rs f c :
  (∀ r, r ∈ rs → is_Some (f !! lhs r)) →
  (∀ r x β, r ∈ rs → rhs r = x :: β → item_type x = NonTerminal →
            is_Some (f !! item_value x)) →
  foldR firstRule rs (f, c) ≠ TypeError.
Proof.
  revert f c. induction rs as [|r rs IH]; intros f c Hl Hn; cbn [foldR]; [done|].
  destruct (firstRule r (f, c)) as [[f1 c1]| | | |] eqn:E; try done.
  - pose proof (firstRule_dom _ _ _ _ _ E) as Hdom.
    apply IH.
    + intros r' Hr'. apply Hdom, Hl. by right.
    + intros r' x β Hr' Hrhs Hty. apply Hdom. apply (Hn r' x β); [by right|done|done].
  - exfalso. revert E. unfold firstRule.
    destruct (Hl r) as [fa Hfa]; [left|].
    destruct (rhs r) as [|x β] eqn:Hrhs; [done|]. rewrite Hfa.
    destruct (item_type x) eqn:Hty; [done|].
    destruct (Hn r x β) as [fy Hfy]; [left|done|done|]. by rewrite Hfy.
Qed.

(** A pass that reports no change has not changed the map, and the map
    it ran on already satisfies the inclusions of every rule. *)
Lemma firstRule_stable r f :
  first_wf f →
  firstRule r (f, false) = Ok (f, false) →
  ∀ x β, rhs r = x :: β →
    ∃ fa, f !! lhs r = Some fa ∧
      match item_type x with
      | Terminal => item_value x ∈ fa
      | NonTerminal => ∃ fx, f !! item_value x = Some fx ∧ fx ⊆ fa
      end.
Proof.
  intros Hwf E x β Hrhs. revert E. unfold firstRule. rewrite Hrhs.
  destruct (item_type x) eqn:Hty.
  - destruct (f !! lhs r) as [fa|] eqn:Hfa; [|done]. intros E. exists fa. split; [done|].
    revert E. destruct (JSSet.has fa (item_value x)) eqn:Hhas; [|done]. intros _. by apply has_true.
  - destruct (f !! lhs r) as [fa|] eqn:Hfa; [|done].
    destruct (f !! item_value x) as [fy|] eqn:Hfy; [|done].
    intros E. exists fa. split; [done|]. exists fy. split; [done|]. revert E.
    destruct (length fa <? length (JSSet.of_list (fa ++ fy))) eqn:Hlt; [done|]. intros _.
    apply Nat.ltb_ge in Hlt.
    pose proof (union_same_length fa fy (Hwf _ _ Hfa) Hlt) as Hu.
    intros y Hy. rewrite <- Hu. apply elem_of_of_list, elem_of_app. by right.
Qed.

Lemma firstRule_wf r f c f' c' :
  first_wf f → firstRule r (f, c) = Ok (f', c') → first_wf f'.
Proof.
  unfold firstRule. intros Hwf.
  destruct (rhs r) as [|x β]; [by intros; simplify_eq|].
  destruct (f !! lhs r) as [fa|] eqn:Hfa; [|by destruct (item_type x)].
  assert (∀ v, NoDup v → first_wf (<[lhs r:=v]> f)) as Hins.
  { intros v Hv k s. rewrite lookup_insert. destruct (decide (lhs r = k)) as [<-|].
    - by intros [= <-].
    - apply Hwf. }
  destruct (item_type x).
  - intros; simplify_eq. apply Hins, NoDup_add. by eapply Hwf.
  - destruct (f !! item_value x); [|done]. intros; simplify_eq. apply Hins, NoDup_of_list.
Qed.

Lemma firstRule_unchanged r f c f' :
  first_wf f → firstRule r (f, c) = Ok (f', false) → c = false ∧ f' = f.
Proof.
  unfold firstRule. intros Hwf.
  destruct (rhs r) as [|x β]; [by intros; simplify_eq|].
  destruct (f !! lhs r) as [fa|] eqn:Hfa; [|by destruct (item_type x)].
  destruct (item_type x).
  - destruct (JSSet.has fa (item_value x)) eqn:Hhas; [|done]. intros; simplify_eq.
    split; [done|]. unfold JSSet.add. rewrite Hhas. by apply insert_id.
  - destruct (f !! item_value x) as [fy|]; [|done].
    destruct (length fa <? length (JSSet.of_list (fa ++ fy))) eqn:Hlt; [done|].
    apply Nat.ltb_ge in Hlt. intros; simplify_eq. split; [done|].
    rewrite union_same_length; [by apply insert_id|by eapply Hwf|done].
Qed.

Lemma firstRules_unchanged rs f c f' :
  first_wf f →
  foldR firstRule rs (f, c) = Ok (f', false) → c = false ∧ f' = f.
Proof.
  revert f c. induction rs as [|r rs IH]; intros f c Hwf; cbn [foldR].
  { by intros [= <- <-]. }
  destruct (firstRule r (f, c)) as [[f1 c1]| | | |] eqn:E; try done.
  intros Hrest. destruct (IH f1 c1 (firstRule_wf _ _ _ _ _ Hwf E) Hrest) as [-> ->].
  by eapply firstRule_unchanged.
Qed.

Lemma firstRules_wf rs f c f' c' :
  first_wf f → foldR firstRule rs (f, c) = Ok (f', c') → first_wf f'.
Proof.
  revert f c. induction rs as [|r rs IH]; intros f c Hwf; cbn [foldR].
  { by intros [= <- <-]. }
  destruct (firstRule r (f, c)) as [[f1 c1]| | | |] eqn:E; try done.
  apply IH. by eapply firstRule_wf.
Qed.

(** A pass without change leaves every rule's inclusion satisfied. *)
Lemma firstRules_stable rs f :
  first_wf f →
  foldR firstRule rs (f, false) = Ok (f, false) →
  ∀ r x β, r ∈ rs → rhs r = x :: β →
    ∃ fa, f !! lhs r = Some fa ∧
      match item_type x with
      | Terminal => item_value x ∈ fa
      | NonTerminal => ∃ fx, f !! item_value x = Some fx ∧ fx ⊆ fa
      end.
Proof.
  intros Hwf. induction rs as [|r rs IH]; cbn [foldR]; intros E r' x β Hr'.
  { by apply elem_of_nil in Hr'. }
  destruct (firstRule r (f, false)) as [[f1 c1]| | | |] eqn:E1; try done.
  destruct (firstRules_unchanged rs f1 c1 f (firstRule_wf _ _ _ _ _ Hwf E1) E) as [-> <-].
  apply elem_of_cons in Hr' as [->|Hr'].
  - by apply firstRule_stable.
  - by apply IH.
Qed.

(** The loop returns a map on which a further pass changes nothing. *)
Lemma firstLoop_fixpoint fuel rs f f' :
  first_wf f → firstLoop fuel rs f = Ok f' →
  first_wf f' ∧ firstPass rs f' = Ok (f', false).
Proof.
  revert f. induction fuel as [|fuel IH]; intros f Hwf; cbn [firstLoop]; [done|].
  destruct (firstPass rs f) as [[f1 [|]]| | | |] eqn:E; try done.
  - apply IH. by eapply firstRules_wf.
  - intros [= <-]. unfold firstPass in E.
    destruct (firstRules_unchanged _ _ _ _ Hwf E) as [_ ->]. done.
Qed.

Section FirstLoop.
Variable rs : list LR1_Rule.
Variable K U : list string.
Hypothesis HK : NoDup K.
Hypothesis Hlhs : ∀ r, r ∈ rs → lhs r ∈ K.
Hypothesis Hterm : ∀ r x β, r ∈ rs → rhs r = x :: β → item_type x = Terminal →
                            item_value x ∈ U.

(** Every pass that reports a change makes the total size of the FIRST
    sets larger, and the size is bounded: the loop ends. *)
Lemma firstLoop_terminates fuel f :
  first_wf f → first_within U f →
  length K * length U - first_size K f < fuel →
  match firstLoop fuel rs f with
  | Ok f' => first_within U f' ∧ first_le f f'
  | TypeError => True
  | _ => False
  end.
Proof.
  revert f. induction fuel as [|fuel IH]; intros f Hwf HU Hfuel; [lia|].
  cbn [firstLoop]. pose proof (firstRules_result rs (f, false)) as Hres.
  fold (firstPass rs f) in Hres.
  destruct (firstPass rs f) as [[f1 c1]| | | |] eqn:E; try done.
  destruct (firstRules_spec K U HK rs f false f1 c1 Hlhs Hterm Hwf HU E)
    as (Hwf1 & HU1 & Hle1 & _ & Hsz & _ & Hch).
  destruct c1; [|done].
  destruct (Hch eq_refl) as [?|Hlt]; [done|].
  pose proof (first_size_bound K U f1 Hwf1 HU1).
  specialize (IH f1 Hwf1 HU1). 
  destruct (firstLoop fuel rs f1) as [f2| | | |]; try (apply IH; lia).
  destruct IH as [? ?]; [lia|]. split; [done|]. by eapply first_le_trans.
Qed.
End FirstLoop.

Lemma firstRules_dom rs f c f' c' :
  foldR firstRule rs (f, c) = Ok (f', c') → ∀ k, is_Some (f' !! k) ↔ is_Some (f !! k).
Proof.
  revert f c. induction rs as [|r rs IH]; intros f c; cbn [foldR].
  { by intros [= <- <-]. }
  destruct (firstRule r (f, c)) as [[f1 c1]| | | |] eqn:E; try done.
  intros Hrest k. rewrite (IH _ _ Hrest k). by eapply firstRule_dom.
Qed.

Lemma firstLoop_defined fuel rs f :
  (∀ r, r ∈ rs → is_Some (f !! lhs r)) →
  (∀ r x β, r ∈ rs → rhs r = x :: β → item_type x = NonTerminal →
            is_Some (f !! item_value x)) →
  firstLoop fuel rs f ≠ TypeError.
Proof.
  revert f. induction fuel as [|fuel IH]; intros f Hl Hn; cbn [firstLoop]; [done|].
  pose proof (firstRules_defined rs f false Hl Hn) as Hd. fold (firstPass rs f) in Hd.
  destruct (firstPass rs f) as [[f1 [|]]| | | |] eqn:E; try done.
  pose proof (firstRules_dom _ _ _ _ _ E) as Hdom.
  apply IH.
  - intros r Hr. by apply Hdom, Hl.
  - intros r x β Hr Hrhs Hty. apply Hdom. by apply (Hn r x β).
Qed.


Lemma elem_of_terminals rs r x :
  r ∈ rs → x ∈ rhs r → item_type x = Terminal → item_value x ∈ terminals rs.
Proof.
  intros Hr Hx Hty. unfold terminals. apply list_elem_of_In, in_flat_map.
  exists r. split; [by apply list_elem_of_In|].
  apply list_elem_of_In, list_elem_of_fmap_2, list_elem_of_filter. done.
Qed.

Lemma first_wf_empty : first_wf ∅.
Proof. intros k s. by rewrite lookup_empty. Qed.

Lemma first_within_empty U : first_within U ∅.
Proof. intros k s. by rewrite lookup_empty. Qed.


(** C3. FIRST soundness: when [calcFirst] has returned the map [f], then
    for every rule [A -> X β] of the grammar the set FIRST(A) exists and
    contains [X] if [X] is a terminal, and includes FIRST(X) if [X] is a
    non-terminal. *)
Theorem calcFirst_sound fuel rs first0 f :
  first_wf first0 →
  calcFirst fuel rs first0 = Ok f →
  ∀ r x β, r ∈ rs → rhs r = x :: β →
    ∃ fa, f !! lhs r = Some fa ∧
      match item_type x with
      | Terminal => item_value x ∈ fa
      | NonTerminal => ∃ fx, f !! item_value x = Some fx ∧ fx ⊆ fa
      end.
Proof.
  intros Hwf E. unfold calcFirst in E.
  destruct (firstLoop_fixpoint _ _ _ _ (initFirst_wf rs _ Hwf) E) as [Hwf' Hfix].
  by apply firstRules_stable.
Qed.

(** ** Item sets *)

Lemma core_test item newItem :
  (pos item =? pos newItem) && (rule item =? rule newItem) = true
  ↔ core item = core newItem.
Proof.
  unfold core. rewrite andb_true_iff, !Nat.eqb_eq. split; [intros [-> ->]; done|].
  intros [= -> ->]. done.
Qed.

Lemma mergeItem_None items newItem :
  mergeItem items newItem = None ↔ core newItem ∉ core <$> items.
Proof.
  induction items as [|it items IH]; cbn [mergeItem].
  - split; [intros _; rewrite fmap_nil; apply not_elem_of_nil | done].
  - rewrite fmap_cons, not_elem_of_cons.
    destruct ((pos it =? pos newItem) && (rule it =? rule newItem)) eqn:E.
    + apply core_test in E. split; [done|]. intros [Hne _]. by rewrite E in Hne.
    + assert (core it ≠ core newItem) as Hne.
      { intros Hc%core_test. by rewrite Hc in E. }
      rewrite fmap_None, IH. split; [intros ?; split; [congruence|done] | tauto].
Qed.

Lemma mergeItem_Some items newItem items' :
  mergeItem items newItem = Some items' →
  ∃ l1 old l2, items = l1 ++ old :: l2 ∧ core old = core newItem
               ∧ (core newItem ∉ core <$> l1)
               ∧ items' = l1 ++ merged old newItem :: l2.
Proof.
  revert items'. induction items as [|it items IH]; intros items'; cbn [mergeItem]; [done|].
  destruct ((pos it =? pos newItem) && (rule it =? rule newItem)) eqn:E.
  - apply core_test in E. intros [= <-]. exists [], it, items.
    split_and!; try done. rewrite fmap_nil. apply not_elem_of_nil.
  - assert (core it ≠ core newItem) as Hne.
    { intros Hc%core_test. by rewrite Hc in E. }
    destruct (mergeItem items newItem) as [m|]; [|done]. intros [= <-].
    destruct (IH m eq_refl) as (l1 & old & l2 & -> & Hc & Hn & ->).
    exists (it :: l1), old, l2. split_and!; try done.
    rewrite fmap_cons, not_elem_of_cons. split; [congruence|done].
Qed.

Lemma core_merged old newItem : core (merged old newItem) = core old.
Proof. done. Qed.

Lemma addItem_cores items newItem :
  core <$> (addItem items newItem).1 =
  if (addItem items newItem).2 then (core <$> items) ++ [core newItem]
  else core <$> items.
Proof.
  unfold addItem. destruct (mergeItem items newItem) as [m|] eqn:E; cbn [fst snd].
  - apply mergeItem_Some in E as (l1 & old & l2 & -> & _ & _ & ->).
    by rewrite !fmap_app, !fmap_cons.
  - by rewrite fmap_app.
Qed.

Lemma addItem_true items newItem :
  (addItem items newItem).2 = true ↔ core newItem ∉ core <$> items.
Proof.
  rewrite <- mergeItem_None. unfold addItem.
  destruct (mergeItem items newItem); cbn [snd]; split; done.
Qed.

Lemma addItem_core_unique items newItem :
  core_unique items → core_unique (addItem items newItem).1.
Proof.
  unfold core_unique. intros Hnd. rewrite addItem_cores.
  destruct ((addItem items newItem).2) eqn:E; [|done].
  apply addItem_true in E. apply NoDup_app. split_and!; [done| |apply NoDup_singleton].
  intros c Hc ->%list_elem_of_singleton. done.
Qed.

Lemma addItem_wf items newItem :
  items_wf items → NoDup (lookAheadSet newItem) → items_wf (addItem items newItem).1.
Proof.
  unfold items_wf, addItem. intros Hwf Hn.
  destruct (mergeItem items newItem) as [m|] eqn:E; cbn [fst].
  - apply mergeItem_Some in E as (l1 & old & l2 & -> & _ & _ & ->).
    apply Forall_app in Hwf as [H1 H2]. apply Forall_cons in H2 as [_ H2].
    apply Forall_app. split; [done|]. apply Forall_cons. split; [|done].
    apply NoDup_of_list.
  - apply Forall_app. split; [done|]. by apply Forall_singleton.
Qed.

Lemma addItems_core_unique items newItems :
  core_unique items → core_unique (addItems items newItems).
Proof.
  unfold addItems. revert items. induction newItems as [|it l IH]; intros items H; [done|].
  cbn [foldl]. by apply IH, addItem_core_unique.
Qed.

Lemma addItems_wf items newItems :
  items_wf items → items_wf newItems → items_wf (addItems items newItems).
Proof.
  unfold addItems. revert items. induction newItems as [|it l IH]; intros items H Hl; [done|].
  apply Forall_cons in Hl as [? ?]. cbn [foldl]. apply IH; [|done]. by apply addItem_wf.
Qed.

Lemma closureItemsOf_wf rs fst_ item : items_wf (closureItemsOf rs fst_ item).
Proof.
  unfold closureItemsOf, items_wf. repeat case_match; try apply Forall_nil_2;
    apply Forall_fmap, Forall_forall; intros j _; cbn.
  - apply NoDup_add, NoDup_nil_2.
  - apply NoDup_of_list.
  - apply NoDup_of_list.
Qed.

Lemma closureLoop_inv fuel rs fst_ items items' :
  closureLoop fuel rs fst_ items = Ok items' →
  (core_unique items → core_unique items') ∧ (items_wf items → items_wf items').
Proof.
  revert items. induction fuel as [|fuel IH]; intros items; cbn [closureLoop]; [done|].
  set (new := flat_map (closureItemsOf rs fst_) items).
  assert (items_wf new) as Hnew.
  { unfold new, items_wf. apply Forall_forall. intros it Hit.
    apply list_elem_of_In, in_flat_map in Hit as (it0 & _ & Hit).
    pose proof (closureItemsOf_wf rs fst_ it0) as Hw.
    unfold items_wf in Hw. rewrite Forall_forall in Hw. apply Hw. by apply list_elem_of_In. }
  destruct (length items <? length (addItems items new)).
  - intros E. destruct (IH _ E) as [H1 H2]. split.
    + intros. by apply H1, addItems_core_unique.
    + intros. by apply H2, addItems_wf.
  - intros [= <-]. split; [apply addItems_core_unique | intros; by apply addItems_wf].
Qed.

(** *** Successor seeds *)

Lemma seedStep_skip rs ty v item si :
  ¬ dotAt rs ty v item → seedStep rs ty v item si = Ok si.
Proof.
  unfold seedStep, dotAt. intros Hn.
  destruct (rhs (ruleOf rs (rule item)) !! pos item) as [x|]; [|done].
  destruct (decide (item_type x = ty ∧ item_value x = v)) as [[? ?]|]; [|done].
  exfalso. apply Hn. by exists x.
Qed.

Lemma seedStep_take rs ty v item si :
  dotAt rs ty v item →
  seedStep rs ty v item si =
  match addItem si (advance item) with
  | (si', true) => Ok si'
  | (_, false) => ProcessExit
  end.
Proof.
  unfold seedStep, dotAt. intros (x & -> & Hty & Hv).
  destruct (decide (item_type x = ty ∧ item_value x = v)) as [|Hn]; [done|].
  exfalso. by apply Hn.
Qed.

Lemma advance_core_inj i j : core (advance i) = core (advance j) → core i = core j.
Proof. unfold core, advance. cbn. congruence. Qed.

Lemma seedItems_from rs ty v pre items :
  core_unique (pre ++ items) →
  foldR (seedStep rs ty v) items (advance <$> filter (dotAt rs ty v) pre)
  = Ok (advance <$> filter (dotAt rs ty v) (pre ++ items)).
Proof.
  revert pre. induction items as [|it items IH]; intros pre Hnd; cbn [foldR].
  { by rewrite app_nil_r. }
  assert (pre ++ it :: items = (pre ++ [it]) ++ items) as Happ
    by (by rewrite <- (assoc_L (++))).
  destruct (decide (dotAt rs ty v it)) as [Hd|Hd].
  - rewrite seedStep_take by done.
    assert ((addItem (advance <$> filter (dotAt rs ty v) pre) (advance it)).2 = true) as Ht.
    { apply addItem_true. intros Hin.
      apply list_elem_of_fmap in Hin as (a & Ha & Hin).
      apply list_elem_of_fmap in Hin as (j & -> & Hj).
      apply list_elem_of_filter in Hj as [_ Hj].
      apply advance_core_inj in Ha.
      unfold core_unique in Hnd. rewrite fmap_app, fmap_cons in Hnd.
      apply NoDup_app in Hnd as (_ & Hnd & _).
      apply (Hnd (core j)); [by apply list_elem_of_fmap_2|]. rewrite <- Ha. left. }
    unfold addItem in *.
    destruct (mergeItem (advance <$> filter (dotAt rs ty v) pre) (advance it)); [done|].
    rewrite Happ. rewrite <- IH by (by rewrite <- Happ).
    rewrite filter_app, filter_cons_True, filter_nil by done. by rewrite fmap_app.
  - rewrite seedStep_skip by done.
    rewrite Happ. rewrite <- IH by (by rewrite <- Happ).
    rewrite filter_app, filter_cons_False, filter_nil, app_nil_r by done. done.
Qed.

(** *** Comparison of item sets *)

Lemma compareLookAhead_spec this l :
  NoDup (lookAheadSet this) → NoDup l →
  compareLookAhead this l = true ↔ la_same (lookAheadSet this) l.
Proof.
  intros Ha Hl. unfold compareLookAhead, la_same.
  destruct (length (lookAheadSet this) =? length l) eqn:E; cbn [negb].
  - apply Nat.eqb_eq in E. rewrite forallb_forall. split.
    + intros Hall.
      assert (l ⊆+ lookAheadSet this) as Hsub.
      { apply NoDup_submseteq; [done|]. intros x Hx. apply has_true, Hall.
        by apply list_elem_of_In. }
      apply submseteq_length_Permutation in Hsub; [|lia].
      intros x. by rewrite Hsub.
    + intros Hs x Hx. apply has_true, Hs. by apply list_elem_of_In.
  - apply Nat.eqb_neq in E. split; [done|]. intros Hs. exfalso. apply E.
    apply Permutation_length, NoDup_Permutation; done.
Qed.

Lemma item_equal_spec i j :
  NoDup (lookAheadSet i) → NoDup (lookAheadSet j) →
  item_equal i j = true ↔ item_same i j.
Proof.
  intros Hi Hj. unfold item_equal, item_same, core.
  destruct (pos i =? pos j) eqn:Ep; cbn [negb].
  2:{ apply Nat.eqb_neq in Ep. split; [done|]. intros [Hc _]. congruence. }
  destruct (rule i =? rule j) eqn:Er; cbn [negb].
  2:{ apply Nat.eqb_neq in Er. split; [done|]. intros [Hc _]. congruence. }
  apply Nat.eqb_eq in Ep, Er. rewrite <- (compareLookAhead_spec i _ Hi Hj).
  destruct (compareLookAhead i (lookAheadSet j)); cbn [negb];
    (split; [intros Ht | intros [_ Ht]]); try done. split; [congruence|done].
Qed.

Lemma core_unique_inj (A : list LR1_StateItem) a b :
  core_unique A → a ∈ A → b ∈ A → core a = core b → a = b.
Proof.
  unfold core_unique. induction A as [|x A IH]; intros Hnd Ha Hb Hc.
  { by apply elem_of_nil in Ha. }
  rewrite fmap_cons in Hnd. apply NoDup_cons in Hnd as [Hx Hnd].
  apply elem_of_cons in Ha as [->|Ha]; apply elem_of_cons in Hb as [->|Hb]; auto.
  - exfalso. apply Hx. rewrite Hc. by apply list_elem_of_fmap_2.
  - exfalso. apply Hx. rewrite <- Hc. by apply list_elem_of_fmap_2.
Qed.

Lemma item_same_sym i j : item_same i j → item_same j i.
Proof. intros [Hc Hl]. split; [done|]. intros x. symmetry. apply Hl. Qed.

Lemma state_equal_spec (s s' : LR1_State) :
  core_unique (itemSet s) → core_unique (itemSet s') →
  items_wf (itemSet s) → items_wf (itemSet s') →
  state_equal s s' = true ↔ items_same (itemSet s) (itemSet s').
Proof.
  intros Hu Hu' Hw Hw'. unfold state_equal, items_same.
  unfold items_wf in Hw, Hw'. rewrite Forall_forall in Hw, Hw'.
  destruct (length (itemSet s) =? length (itemSet s')) eqn:E; cbn [negb].
  - apply Nat.eqb_eq in E. rewrite E, firstn_all. rewrite forallb_forall.
    assert ((∀ x, In x (itemSet s) → existsb (λ jt, item_equal x jt) (itemSet s') = true)
            ↔ ∀ a, a ∈ itemSet s → ∃ b, b ∈ itemSet s' ∧ item_same a b) as ->.
    { split; intros Hall a Ha.
      - assert (In a (itemSet s)) as Hex by (by apply list_elem_of_In).
        apply Hall, existsb_exists in Hex.
        destruct Hex as (b & Hb & Hab). apply list_elem_of_In in Hb. exists b. split; [done|].
        apply item_equal_spec; auto.
      - apply list_elem_of_In in Ha. destruct (Hall a Ha) as (b & Hb & Hab).
        apply existsb_exists. exists b. split; [by apply list_elem_of_In|].
        apply item_equal_spec; auto. }
    split; [|by intros [? _]]. intros Hall. split; [done|].
    assert (core <$> itemSet s ⊆+ core <$> itemSet s') as Hsub.
    { apply NoDup_submseteq; [done|]. intros c Hc.
      apply list_elem_of_fmap in Hc as (a & -> & Ha).
      destruct (Hall a Ha) as (b & Hb & Hc & _). rewrite Hc. by apply list_elem_of_fmap_2. }
    apply submseteq_length_Permutation in Hsub; [|rewrite !length_fmap; lia].
    intros b Hb.
    assert (core b ∈ core <$> itemSet s) as Hc.
    { rewrite Hsub. by apply list_elem_of_fmap_2. }
    apply list_elem_of_fmap in Hc as (a & Hc & Ha). exists a. split; [done|].
    destruct (Hall a Ha) as (b' & Hb' & Hab').
    assert (b' = b) as ->.
    { apply (core_unique_inj (itemSet s')); try done. destruct Hab' as [<- _]. done. }
    by apply item_same_sym.
  - apply Nat.eqb_neq in E. split; [done|]. intros [H1 H2]. exfalso. apply E.
    rewrite <- (length_fmap core (itemSet s)), <- (length_fmap core (itemSet s')).
    apply Permutation_length, NoDup_Permutation; try done.
    intros c. split; intros Hc; apply list_elem_of_fmap in Hc as (a & -> & Ha).
    + destruct (H1 a Ha) as (b & Hb & -> & _). by apply list_elem_of_fmap_2.
    + destruct (H2 a Ha) as (b & Hb & -> & _). by apply list_elem_of_fmap_2.
Qed.

(** ** Reasoning about computations on the store *)

Lemma mbindM_Ok {A B} (m : M A) (k : A → M B) σ b σ' :
  mbindM m k σ = (Ok b, σ') → ∃ a σ1, m σ = (Ok a, σ1) ∧ k a σ1 = (Ok b, σ').
Proof.
  unfold mbindM. destruct (m σ) as [[a| | | |] σ1]; try done. intros E. by exists a, σ1.
Qed.

Lemma mbindM_Throw {A B} (m : M A) (k : A → M B) σ e σ' :
  mbindM m k σ = (Throw e, σ') →
  m σ = (Throw e, σ') ∨ ∃ a σ1, m σ = (Ok a, σ1) ∧ k a σ1 = (Throw e, σ').
Proof.
  unfold mbindM. destruct (m σ) as [[a| | | |] σ1]; try done.
  - intros E. right. by exists a, σ1.
  - intros [= <- <-]. by left.
Qed.

Lemma mbindM_Exit {A B} (m : M A) (k : A → M B) σ :
  (mbindM m k σ).1 = ProcessExit →
  (m σ).1 = ProcessExit ∨ ∃ a σ1, m σ = (Ok a, σ1) ∧ (k a σ1).1 = ProcessExit.
Proof.
  unfold mbindM. destruct (m σ) as [[a| | | |] σ1]; try done.
  - intros E. right. by exists a, σ1.
  - by left.
Qed.

(** Decomposition of a successful computation into its steps. *)
Ltac inv_step H :=
  lazymatch type of H with
  | mbindM _ _ _ = (Ok _, _) =>
      let a := fresh "a" in let σ1 := fresh "σ" in
      let H1 := fresh "Hm" in
      apply mbindM_Ok in H as (a & σ1 & H1 & H); inv_step H1; inv_step H
  | mget _ = (Ok _, _) => unfold mget in H; simplify_eq
  | mret _ _ = (Ok _, _) => unfold mret in H; simplify_eq
  | mmodify _ _ = (Ok _, _) => unfold mmodify in H; simplify_eq
  | liftR _ _ = (Ok _, _) =>
      let Hσ := fresh "Hσ" in
      unfold liftR in H; injection H as H Hσ; try subst
  | updState _ _ _ = (Ok _, _) => unfold updState, mmodify in H; simplify_eq
  | updEdge _ _ _ = (Ok _, _) => unfold updEdge, mmodify in H; simplify_eq
  | allocState _ = (Ok _, _) => unfold allocState in H; inv_step H
  | allocEdge _ _ = (Ok _, _) => unfold allocEdge in H; inv_step H
  | _ => idtac
  end.

(** *** Reading the store after an update *)

Lemma stateOf_alter f s σ s' :
  stateOf (setStateObjs (alter f s) σ) s' =
  if decide (s' = s ∧ s < length (stateObjs σ)) then f (stateOf σ s) else stateOf σ s'.
Proof.
  unfold stateOf, setStateObjs. cbn [stateObjs].
  destruct (decide (s' = s ∧ s < length (stateObjs σ))) as [[-> Hlt]|Hn].
  - rewrite list_lookup_alter_eq. apply lookup_lt_is_Some in Hlt as [x ->]. done.
  - destruct (decide (s = s')) as [->|Hne].
    + rewrite list_lookup_alter_eq.
      rewrite (lookup_ge_None_2 (stateObjs σ) s'); [done|]. apply Nat.nlt_ge. tauto.
    + by rewrite list_lookup_alter_ne.
Qed.

Lemma stateOf_alloc σ s :
  stateOf (setStateObjs (λ l, l ++ [newState]) σ) s = stateOf σ s.
Proof.
  unfold stateOf, setStateObjs. cbn [stateObjs].
  destruct (decide (s < length (stateObjs σ))) as [Hlt|Hge].
  - by rewrite lookup_app_l.
  - rewrite (lookup_ge_None_2 (stateObjs σ) s) by lia.
    destruct (decide (s = length (stateObjs σ))) as [->|Hne].
    + by rewrite list_lookup_middle.
    + rewrite lookup_ge_None_2; [done|]. rewrite length_app. simpl. lia.
Qed.

Lemma stateOf_setEdgeObjs f σ s : stateOf (setEdgeObjs f σ) s = stateOf σ s.
Proof. done. Qed.
Lemma stateOf_setStates f σ s : stateOf (setStates f σ) s = stateOf σ s.
Proof. done. Qed.
Lemma stateOf_setTable t σ s : stateOf (setTable t σ) s = stateOf σ s.
Proof. done. Qed.
Lemma stateOf_setFirst f σ s : stateOf (setFirst f σ) s = stateOf σ s.
Proof. done. Qed.
Lemma stateOf_setRules rs σ s : stateOf (setRules rs σ) s = stateOf σ s.
Proof. done. Qed.

(** *** Seeds are always core-unique *)

Lemma seedItems_inv rs ty v its acc seeds :
  foldR (seedStep rs ty v) its acc = Ok seeds →
  core_unique acc → items_wf acc → core_unique seeds ∧ items_wf seeds.
Proof.
  revert acc. induction its as [|it its IH]; intros acc; cbn [foldR].
  { by intros [= <-]. }
  destruct (seedStep rs ty v it acc) as [acc'| | | |] eqn:E; try done.
  intros Hrest Hu Hw. apply (IH acc' Hrest).
  - revert E. unfold seedStep. repeat case_match; intros; simplify_eq; try done.
    match goal with H : addItem _ ?i = _ |- _ =>
      pose proof (addItem_core_unique acc i Hu) as Hc; by rewrite H in Hc end.
  - revert E. unfold seedStep. repeat case_match; intros; simplify_eq; try done.
    match goal with H : addItem _ ?i = _ |- _ =>
      pose proof (addItem_wf acc i Hw) as Hc; rewrite H in Hc; apply Hc end.
    cbn. apply NoDup_of_list.
Qed.

Lemma edgeOf_alloc σ ed e :
  edgeOf (setEdgeObjs (λ l, l ++ [ed]) σ) e =
  if decide (e = length (edgeObjs σ)) then ed else edgeOf σ e.
Proof.
  unfold edgeOf, setEdgeObjs. cbn [edgeObjs].
  destruct (decide (e = length (edgeObjs σ))) as [->|Hne].
  - by rewrite list_lookup_middle.
  - destruct (decide (e < length (edgeObjs σ))) as [Hlt|Hge].
    + by rewrite lookup_app_l.
    + rewrite (lookup_ge_None_2 (edgeObjs σ) e) by lia.
      rewrite lookup_ge_None_2; [done|]. rewrite length_app. simpl. lia.
Qed.

Lemma edgeOf_setStateObjs f σ e : edgeOf (setStateObjs f σ) e = edgeOf σ e.
Proof. done. Qed.

Lemma length_stateObjs_alter f s σ :
  length (stateObjs (setStateObjs (alter f s) σ)) = length (stateObjs σ).
Proof. unfold setStateObjs. cbn. apply length_alter. Qed.

Lemma mkSuccessor_Ok this ty v σ si σ' :
  this < length (stateObjs σ) →
  mkSuccessor this ty v σ = (Ok si, σ') →
  si = length (stateObjs σ) ∧
  ∃ seeds, seedItems (rules σ) (items σ this) ty v = Ok seeds
           ∧ σ' = succStore this ty v seeds σ.
Proof.
  intros Hlt E. unfold mkSuccessor in E. inv_step E.
  split; [done|]. eexists. split; [|reflexivity].
  match goal with H : seedItems _ _ _ _ = Ok _ |- _ => rewrite <- H end.
  f_equal. unfold items.
  rewrite !stateOf_alter, !stateOf_setEdgeObjs, !stateOf_alloc.
  rewrite !length_stateObjs_alter. cbn [setEdgeObjs setStateObjs stateObjs].
  rewrite length_app. cbn [length].
  rewrite decide_False by lia. rewrite decide_True by lia. done.
Qed.

Section SuccStore.
Variables (this : nat) (ty : LR1_RuleItemType) (v : string)
          (seeds : list LR1_StateItem) (σ : LR1).
Hypothesis Hthis : this < length (stateObjs σ).
Let σ' := succStore this ty v seeds σ.

Lemma succStore_fields :
  rules σ' = rules σ ∧ first σ' = first σ ∧ states σ' = states σ ∧ table σ' = table σ.
Proof. done. Qed.

Lemma succStore_length_states : length (stateObjs σ') = S (length (stateObjs σ)).
Proof.
  unfold σ', succStore. rewrite !length_stateObjs_alter.
  cbn. rewrite length_app. cbn. lia.
Qed.

Lemma succStore_length_edges : length (edgeObjs σ') = S (length (edgeObjs σ)).
Proof. unfold σ', succStore. cbn. rewrite length_app. cbn. lia. Qed.

Lemma succStore_new :
  stateOf σ' (length (stateObjs σ)) = tentative seeds (length (edgeObjs σ)).
Proof.
  unfold σ', succStore. rewrite !stateOf_alter, !stateOf_setEdgeObjs, !stateOf_alloc.
  rewrite !length_stateObjs_alter. cbn [setEdgeObjs setStateObjs stateObjs].
  rewrite length_app. cbn [length].
  rewrite !decide_True by lia. rewrite decide_False by lia.
  unfold stateOf. rewrite (lookup_ge_None_2 (stateObjs σ)) by lia. done.
Qed.

Lemma succStore_this :
  stateOf σ' this = withOutEdges (λ l, l ++ [length (edgeObjs σ)]) (stateOf σ this).
Proof.
  unfold σ', succStore. rewrite !stateOf_alter, !stateOf_setEdgeObjs, !stateOf_alloc.
  rewrite !length_stateObjs_alter. cbn [setEdgeObjs setStateObjs stateObjs].
  rewrite length_app. cbn [length].
  rewrite !(decide_False (P := this = length (stateObjs σ) ∧ _)) by lia.
  rewrite decide_True by lia. done.
Qed.

Lemma succStore_other s :
  s ≠ this → s ≠ length (stateObjs σ) → stateOf σ' s = stateOf σ s.
Proof.
  intros H1 H2.
  unfold σ', succStore. rewrite !stateOf_alter, !stateOf_setEdgeObjs, !stateOf_alloc.
  rewrite !decide_False by tauto. done.
Qed.

Lemma succStore_edge e :
  edgeOf σ' e =
  if decide (e = length (edgeObjs σ))
  then mkEdge this (length (stateObjs σ)) (mkRuleItem ty v)
  else edgeOf σ e.
Proof. unfold σ', succStore. rewrite !edgeOf_setStateObjs. by rewrite edgeOf_alloc. Qed.

Lemma succStore_items s :
  s < length (stateObjs σ) → items σ' s = items σ s.
Proof.
  intros Hs. unfold items. destruct (decide (s = this)) as [->|Hne].
  - by rewrite succStore_this.
  - rewrite succStore_other; [done..|lia].
Qed.
End SuccStore.

Lemma withOutEdges_id s : withOutEdges (λ o, o ++ []) s = s.
Proof. destruct s. unfold withOutEdges. cbn. by rewrite app_nil_r. Qed.

Lemma successors_nil this σ : successors this [] σ σ.
Proof.
  unfold successors. cbn [length]. rewrite !Nat.add_0_r. split_and!; try done.
  cbn [seq]. by rewrite withOutEdges_id.
Qed.

Lemma successors_step this ty v seeds lbls σ σ' :
  this < length (stateObjs σ) →
  seedItems (rules σ) (items σ this) ty v = Ok seeds →
  successors this lbls (succStore this ty v seeds σ) σ' →
  successors this (mkRuleItem ty v :: lbls) σ σ'.
Proof.
  intros Hthis Hseeds (Hn & Hm & Hr & Hf & Hs & Ht & Hold & Hth & Hed & Hnew).
  rewrite succStore_length_states in Hn, Hold by done.
  rewrite succStore_length_edges in Hm, Hth, Hed by done.
  unfold successors. cbn [length]. split_and!; try done; try lia.
  - intros s Hlt Hne. rewrite Hold by lia. apply succStore_other; [done|lia].
  - rewrite Hth, succStore_this by done. destruct (stateOf σ this). unfold withOutEdges. cbn.
    by rewrite <- (assoc_L (++)).
  - intros e He. rewrite Hed by lia. rewrite succStore_edge. rewrite decide_False by lia. done.
  - intros [|i] lbl Hl.
    + injection Hl as <-. exists seeds. rewrite !Nat.add_0_r. split_and!; [done|..].
      * rewrite Hold by lia. by apply succStore_new.
      * rewrite Hed by lia. rewrite succStore_edge. rewrite decide_True by done. done.
    + cbn in Hl. destruct (Hnew i lbl Hl) as (sd & Hsd & Hst & Hedge).
      rewrite succStore_length_states in Hst, Hedge by done.
      rewrite succStore_length_edges in Hst, Hedge by done.
      exists sd. rewrite !Nat.add_succ_r. split_and!; try done.
      rewrite <- Hsd. cbn [rules succStore setStateObjs setEdgeObjs].
      f_equal. symmetry. by apply succStore_items.
Qed.

Lemma forM_mkSuccessor_Ok this ty l σ ss σ' :
  this < length (stateObjs σ) →
  forM (mkSuccessor this ty) l σ = (Ok ss, σ') →
  ss = seq (length (stateObjs σ)) (length l) ∧
  successors this (mkRuleItem ty <$> l) σ σ'.
Proof.
  revert σ ss. induction l as [|v l IH]; intros σ ss Hthis E; cbn [forM] in E.
  - unfold mret in E. simplify_eq. split; [done|]. apply successors_nil.
  - inv_step E.
    match goal with H : mkSuccessor _ _ _ _ = _ |- _ =>
      apply mkSuccessor_Ok in H as (-> & seeds & Hseeds & ->); [|done] end.
    match goal with H : forM _ _ _ = _ |- _ =>
      apply IH in H as [-> Hsucc]; [|rewrite succStore_length_states by done; lia] end.
    rewrite succStore_length_states by done. split; [done|].
    rewrite fmap_cons. by eapply successors_step.
Qed.

Lemma successors_app this l1 l2 σ σ1 σ2 :
  this < length (stateObjs σ) →
  successors this l1 σ σ1 → successors this l2 σ1 σ2 →
  successors this (l1 ++ l2) σ σ2.
Proof.
  intros Hthis (Hn & Hm & Hr & Hf & Hs & Ht & Hold & Hth & Hed & Hnew)
         (Hn' & Hm' & Hr' & Hf' & Hs' & Ht' & Hold' & Hth' & Hed' & Hnew').
  unfold successors. rewrite length_app. split_and!; try lia; try congruence.
  - intros s Hlt Hne. rewrite Hold' by lia. by apply Hold.
  - rewrite Hth', Hth, Hm. destruct (stateOf σ this). unfold withOutEdges. cbn.
    by rewrite <- (assoc_L (++)), seq_app.
  - intros e He. rewrite Hed' by lia. by apply Hed.
  - intros i lbl Hl. apply lookup_app_Some in Hl as [Hl|[Hge Hl]].
    + destruct (Hnew i lbl Hl) as (sd & Hsd & Hst & Hedge).
      apply lookup_lt_Some in Hl as Hlt.
      exists sd. split_and!; [done|..].
      * rewrite Hold' by lia. done.
      * rewrite Hed' by lia. done.
    + destruct (Hnew' _ lbl Hl) as (sd & Hsd & Hst & Hedge).
      exists sd. rewrite Hn in Hst, Hedge. rewrite Hm in Hst, Hedge.
      replace (length (stateObjs σ) + i) with (length (stateObjs σ) + length l1 + (i - length l1)) by lia.
      replace (length (edgeObjs σ) + i) with (length (edgeObjs σ) + length l1 + (i - length l1)) by lia.
      split_and!; try done.
      rewrite <- Hsd, Hr. f_equal. unfold items. rewrite Hth. done.
Qed.

Lemma calcItemSet_Ok fuel this σ R σ' :
  this < length (stateObjs σ) →
  calcItemSet fuel this σ = (Ok R, σ') →
  ∃ its, closureLoop fuel (rules σ) (first σ) (items σ this) = Ok its
         ∧ R = seq (length (stateObjs σ)) (length (succLabels (rules σ) its))
         ∧ successors this (succLabels (rules σ) its) (closedStore this its σ) σ'.
Proof.
  intros Hthis E. unfold calcItemSet in E. inv_step E.
  match goal with H : closureLoop _ _ _ _ = Ok ?a |- _ => rename H into Hcl; rename a into its end.
  exists its. split; [done|]. unfold succLabels.
  destruct (succSymbols (rules _) its) as [t nt]. inv_step E. cbn [fst snd].
  match goal with H : forM _ t _ = _ |- _ =>
    apply forM_mkSuccessor_Ok in H as [-> H1]; [|by rewrite length_stateObjs_alter] end.
  assert (Hlen := H1). destruct Hlen as (Hlen & _).
  match goal with H : forM _ nt _ = _ |- _ =>
    apply forM_mkSuccessor_Ok in H as [-> H2]; [|rewrite Hlen, length_stateObjs_alter; lia] end.
  rewrite length_stateObjs_alter in Hlen. rewrite length_fmap in Hlen.
  rewrite Hlen, length_stateObjs_alter.
  split.
  - rewrite length_app, !length_fmap. by rewrite seq_app.
  - unfold closedStore. eapply successors_app; [by rewrite length_stateObjs_alter|done..].
Qed.

Lemma edgeOf_alter f u σ e :
  edgeOf (setEdgeObjs (alter f u) σ) e =
  if decide (e = u ∧ u < length (edgeObjs σ)) then f (edgeOf σ u) else edgeOf σ e.
Proof.
  unfold edgeOf, setEdgeObjs. cbn [edgeObjs].
  destruct (decide (e = u ∧ u < length (edgeObjs σ))) as [[-> Hlt]|Hn].
  - rewrite list_lookup_alter_eq. apply lookup_lt_is_Some in Hlt as [x ->]. done.
  - destruct (decide (u = e)) as [->|Hne].
    + rewrite list_lookup_alter_eq.
      rewrite (lookup_ge_None_2 (edgeObjs σ) e); [done|]. apply Nat.nlt_ge. tauto.
    + by rewrite list_lookup_alter_ne.
Qed.

Lemma redirectEdge_Ok s u σ σ' :
  redirectEdge s u σ = (Ok tt, σ') → redirected s [u] σ σ'.
Proof.
  intros E. unfold redirectEdge in E. inv_step E.
  match type of E with (if ?c then _ else _) _ = _ => destruct c end; inv_step E.
  - unfold redirected. split_and!; try done.
    + cbn. apply length_alter.
    + intros e. rewrite edgeOf_alter. cbn [length].
      destruct (decide (e = u ∧ u < _)) as [[-> ?]|Hn].
      * rewrite decide_True; [done|]. split; [left|done].
      * rewrite decide_False; [done|]. intros [Hin%list_elem_of_singleton ?]. subst. tauto.
  - unfold redirected. split_and!; try done.
    + cbn. by rewrite length_alter.
    + cbn. apply length_alter.
    + intros s'. rewrite stateOf_alter, stateOf_setEdgeObjs.
      destruct (decide (s' = s ∧ _)) as [[-> ?]|Hn]; [done|].
      split_and!; done.
    + intros e. rewrite edgeOf_setStateObjs, edgeOf_alter.
      destruct (decide (e = u ∧ u < _)) as [[-> ?]|Hn].
      * rewrite decide_True; [done|]. split; [left|done].
      * rewrite decide_False; [done|]. intros [Hin%list_elem_of_singleton ?]. subst. tauto.
Qed.

Lemma redirected_nil s σ : redirected s [] σ σ.
Proof.
  unfold redirected. split_and!; done.
Qed.

Lemma withDest_idemp s e : withDest s (withDest s e) = withDest s e.
Proof. done. Qed.

Lemma redirected_cons s u us σ σ1 σ' :
  redirected s [u] σ σ1 → redirected s us σ1 σ' → redirected s (u :: us) σ σ'.
Proof.
  intros (Hr & Hf & Hs & Ht & Hn & Hm & Hst & Hed) (Hr' & Hf' & Hs' & Ht' & Hn' & Hm' & Hst' & Hed').
  unfold redirected. split_and!; try congruence.
  - intros s'. destruct (Hst s') as (?&?&?&?), (Hst' s') as (?&?&?&?).
    split_and!; try congruence. intros Hne. rewrite H6, H2; done.
  - intros e. rewrite Hed', Hed, Hm.
    destruct (decide (e ∈ us ∧ e < length (edgeObjs σ))) as [[Hin Hlt]|Hn1];
      destruct (decide (e ∈ [u] ∧ e < length (edgeObjs σ))) as [[Hin' Hlt']|Hn2].
    + rewrite decide_True; [done|]. split; [by right|done].
    + rewrite decide_True; [done|]. split; [by right|done].
    + rewrite decide_True; [done|]. split; [|done].
      apply list_elem_of_singleton in Hin' as ->. left.
    + rewrite decide_False; [done|]. intros [Hin Hlt]. apply elem_of_cons in Hin as [->|Hin].
      * apply Hn2. split; [left|done].
      * apply Hn1. done.
Qed.

Lemma forM_redirectEdge_Ok s us σ σ' :
  forM_ (redirectEdge s) us σ = (Ok tt, σ') → redirected s us σ σ'.
Proof.
  revert σ. induction us as [|u us IH]; intros σ E; cbn [forM_] in E.
  - unfold mret in E. simplify_eq. apply redirected_nil.
  - apply mbindM_Ok in E as ([] & σ1 & E1 & E2).
    eapply redirected_cons; [by apply redirectEdge_Ok | by apply IH].
Qed.

Lemma addState_Ok sNew σ b σ' :
  addState sNew σ = (Ok b, σ') →
  if b then
    (∀ s, s ∈ states σ → state_equal (stateOf σ s) (stateOf σ sNew) = false)
    ∧ σ' = admittedStore sNew σ
  else
    ∃ s, s ∈ states σ ∧ state_equal (stateOf σ s) (stateOf σ sNew) = true
         ∧ redirected s (inEdges (stateOf σ sNew)) σ σ'.
Proof.
  intros E. unfold addState in E. apply mbindM_Ok in E as (σ0 & σ1 & E0 & E).
  unfold mget in E0. simplify_eq.
  destruct (List.find _ (states _)) as [s|] eqn:Hfind.
  - apply find_some in Hfind as [Hin Heq].
    apply mbindM_Ok in E as ([] & σ2 & E1 & E2). unfold mret in E2. simplify_eq.
    exists s. split_and!; [by apply list_elem_of_In|done|]. by apply forM_redirectEdge_Ok.
  - inv_step E. split; [|done]. intros s Hs.
    apply list_elem_of_In in Hs. by apply (find_none _ _ Hfind s).
Qed.

(** *** The worklist loop *)

Lemma pop_Some Q q Q' : pop Q = Some (q, Q') → Q = Q' ++ [q].
Proof.
  unfold pop. destruct (reverse Q) as [|x r] eqn:E; [done|]. intros [= <- <-].
  rewrite <- (reverse_involutive Q), E. by rewrite reverse_cons.
Qed.

Lemma pop_None Q : pop Q = None → Q = [].
Proof.
  unfold pop. destruct (reverse Q) as [|x r] eqn:E; [|done]. intros _.
  rewrite <- (reverse_involutive Q), E. done.
Qed.

(** A property of worklist and store that every iteration maintains holds
    when the loop ends. *)
Lemma stateLoop_invariant (I : list nat → LR1 → Prop) inner :
  (∀ q Q' R b σ σ1 σ2,
     I (Q' ++ [q]) σ →
     calcItemSet inner q σ = (Ok R, σ1) →
     addState q σ1 = (Ok b, σ2) →
     I (if b then Q' ++ R else Q') σ2) →
  ∀ fuel Q σ σ',
    I Q σ → stateLoop fuel inner Q σ = (Ok tt, σ') → I [] σ'.
Proof.
  intros Hstep fuel. induction fuel as [|fuel IH]; intros Q σ σ' HI E; cbn [stateLoop] in E.
  { unfold liftR in E. simplify_eq. }
  destruct (pop Q) as [[q Q']|] eqn:Hpop.
  - apply pop_Some in Hpop as ->.
    apply mbindM_Ok in E as (R & σ1 & E1 & E).
    apply mbindM_Ok in E as (b & σ2 & E2 & E).
    eapply IH; [|exact E]. by eapply Hstep.
  - apply pop_None in Hpop as ->. unfold mret in E. by simplify_eq.
Qed.

(** *** Invariants of the automaton builder *)

Lemma state_equal_items a b a' b' :
  itemSet a = itemSet a' → itemSet b = itemSet b' → state_equal a b = state_equal a' b'.
Proof. unfold state_equal. by intros -> ->. Qed.

Lemma items_out_of_range σ s : length (stateObjs σ) ≤ s → items σ s = [].
Proof. intros H. unfold items, stateOf. by rewrite lookup_ge_None_2. Qed.

Lemma core_unique_nil : core_unique [].
Proof. apply NoDup_nil_2. Qed.

Lemma items_wf_nil : items_wf [].
Proof. apply Forall_nil_2. Qed.

Lemma items_closedStore this its σ s :
  this < length (stateObjs σ) →
  items (closedStore this its σ) s = if decide (s = this) then its else items σ s.
Proof.
  intros Hthis. unfold items, closedStore. rewrite stateOf_alter.
  destruct (decide (s = this)) as [->|Hne].
  - by rewrite decide_True.
  - rewrite decide_False; [done|tauto].
Qed.

(** The item sets after [calcItemSet]. *)
Lemma successors_items this lbls its σ σ' s :
  this < length (stateObjs σ) →
  successors this lbls (closedStore this its σ) σ' →
  (s < length (stateObjs σ) → items σ' s = if decide (s = this) then its else items σ s) ∧
  (length (stateObjs σ) ≤ s → core_unique (items σ' s) ∧ items_wf (items σ' s)).
Proof.
  intros Hthis (Hn & Hm & Hr & Hf & Hs & Ht & Hold & Hth & Hed & Hnew).
  unfold closedStore in Hn, Hold, Hnew. rewrite length_stateObjs_alter in Hn, Hold, Hnew.
  split.
  - intros Hlt. destruct (decide (s = this)) as [->|Hne].
    + unfold items. rewrite Hth. unfold closedStore.
      rewrite stateOf_alter, decide_True by done. done.
    + unfold items. rewrite Hold by done.
      rewrite stateOf_alter, decide_False by tauto. done.
  - intros Hge. destruct (decide (s < length (stateObjs σ) + length lbls)) as [Hlt|Hge'].
    + destruct (lookup_lt_is_Some_2 lbls (s - length (stateObjs σ))) as [lbl Hl]; [lia|].
      destruct (Hnew _ lbl Hl) as (seeds & Hseeds & Hst & _).
      replace (length (stateObjs σ) + (s - length (stateObjs σ))) with s in Hst by lia.
      unfold items. rewrite Hst. cbn [tentative itemSet].
      eapply seedItems_inv; [exact Hseeds|apply core_unique_nil|apply items_wf_nil].
    + rewrite items_out_of_range by lia. split; [apply core_unique_nil|apply items_wf_nil].
Qed.

Lemma builder_inv_step inner q Q' R b σ σ1 σ2 :
  builder_inv (Q' ++ [q]) σ →
  calcItemSet inner q σ = (Ok R, σ1) →
  addState q σ1 = (Ok b, σ2) →
  builder_inv (if b then Q' ++ R else Q') σ2.
Proof.
  intros (Hstore & Hdist & HndQ & HQ & Hst) Hcalc Hadd.
  assert (q < length (stateObjs σ) ∧ q ∉ states σ) as [Hq Hqn].
  { apply HQ. apply elem_of_app. right. left. }
  apply NoDup_app in HndQ as (HndQ' & HQq & _).
  apply calcItemSet_Ok in Hcalc as (its & Hcl & -> & Hsucc); [|done].
  set (lbls := succLabels (rules σ) its) in *.
  assert (∀ s, s < length (stateObjs σ) →
               items σ1 s = if decide (s = q) then its else items σ s) as Hold.
  { intros s. by apply (successors_items q lbls its σ σ1 s). }
  assert (store_ok σ1) as Hstore1.
  { intros s. destruct (decide (s < length (stateObjs σ))) as [Hlt|Hge].
    - rewrite Hold by done. destruct (decide (s = q)) as [->|]; [|apply Hstore].
      destruct (closureLoop_inv _ _ _ _ _ Hcl) as [H1 H2].
      split; [apply H1|apply H2]; apply Hstore.
    - apply (successors_items q lbls its σ σ1 s); [done..|lia]. }
  destruct Hsucc as (Hn & _ & _ & _ & Hs1 & _).
  unfold closedStore in Hn, Hs1. rewrite length_stateObjs_alter in Hn. cbn in Hs1.
  assert (admitted_distinct σ1) as Hdist1.
  { intros i j s s' Hij Hi Hj. rewrite Hs1 in Hi, Hj.
    assert (s ∈ states σ) as Hsin by (by eapply list_elem_of_lookup_2).
    assert (s' ∈ states σ) as Hsin' by (by eapply list_elem_of_lookup_2).
    rewrite <- (Hdist i j s s' Hij Hi Hj). apply state_equal_items.
    - fold (items σ1 s) (items σ s). rewrite Hold by (by apply Hst).
      destruct (decide _) as [->|]; done.
    - fold (items σ1 s') (items σ s'). rewrite Hold by (by apply Hst).
      destruct (decide _) as [->|]; done. }
  apply addState_Ok in Hadd. destruct b.
  - destruct Hadd as [Hneq ->].
    assert (∀ s, items (admittedStore q σ1) s = items σ1 s) as Hit.
    { intros s. unfold items, admittedStore. rewrite stateOf_setStates, stateOf_alter.
      destruct (decide _) as [[-> _]|]; done. }
    unfold builder_inv, worklist_ok. split_and!.
    + intros s. rewrite Hit. apply Hstore1.
    + intros i j s s' Hij Hi Hj. cbn [admittedStore setStates states] in Hi, Hj.
      cbn [setStateObjs states] in Hi, Hj.
      rewrite (state_equal_items _ _ (stateOf σ1 s) (stateOf σ1 s')); [|apply Hit..].
      apply lookup_app_Some in Hj as [Hj|[Hge Hj]].
      * apply lookup_lt_Some in Hj as Hlt. rewrite lookup_app_l in Hi by lia.
        by apply (Hdist1 i j).
      * apply list_lookup_singleton_Some in Hj as [Hj0 <-].
        apply lookup_app_Some in Hi as [Hi|[Hge' _]]; [|lia].
        apply Hneq. by eapply list_elem_of_lookup_2.
    + apply NoDup_app. split_and!; [done| |apply NoDup_seq].
      intros x Hx Hx'. apply elem_of_seq in Hx'.
      assert (x ∈ Q' ++ [q]) as Hx'' by (apply elem_of_app; by left).
      apply HQ in Hx'' as [? _]. lia.
    + intros x Hx. cbn [admittedStore setStates states stateObjs setStateObjs].
      rewrite length_alter, Hn. rewrite Hs1.
      apply elem_of_app in Hx as [Hx|Hx].
      * assert (x ∈ Q' ++ [q]) as Hx'' by (apply elem_of_app; by left).
        apply HQ in Hx'' as [? ?]. split; [lia|].
        rewrite not_elem_of_app, list_elem_of_singleton. split; [done|].
        intros ->. by apply (HQq q); [|left].
      * apply elem_of_seq in Hx. split; [lia|].
        rewrite not_elem_of_app, list_elem_of_singleton. split; [|lia].
        intros Hin. apply Hst in Hin. lia.
    + intros s. cbn [admittedStore setStates states stateObjs setStateObjs].
      rewrite length_alter, Hn, Hs1. intros Hin. apply elem_of_app in Hin as [Hin|Hin].
      * apply Hst in Hin. lia.
      * apply list_elem_of_singleton in Hin as ->. lia.
  - destruct Hadd as (s0 & Hs0 & Heq & (Hr & Hf & Hs2 & Ht & Hn2 & Hm2 & Hst2 & Hed2)).
    assert (∀ s, items σ2 s = items σ1 s) as Hit.
    { intros s. unfold items. by destruct (Hst2 s) as (-> & _). }
    unfold builder_inv, worklist_ok. split_and!.
    + intros s. rewrite Hit. apply Hstore1.
    + intros i j s s' Hij Hi Hj. rewrite Hs2 in Hi, Hj.
      rewrite (state_equal_items _ _ (stateOf σ1 s) (stateOf σ1 s')); [|apply Hit..].
      by apply (Hdist1 i j).
    + done.
    + intros x Hx. rewrite Hn2, Hn, Hs2, Hs1.
      assert (x ∈ Q' ++ [q]) as Hx'' by (apply elem_of_app; by left).
      apply HQ in Hx'' as [? ?]. split; [lia|done].
    + intros s. rewrite Hn2, Hn, Hs2, Hs1. intros Hin. apply Hst in Hin. lia.
Qed.

Lemma stateLoop_builder_inv fuel inner Q σ σ' :
  builder_inv Q σ → stateLoop fuel inner Q σ = (Ok tt, σ') → builder_inv [] σ'.
Proof.
  apply (stateLoop_invariant builder_inv inner). intros *. apply builder_inv_step.
Qed.

Lemma same_automaton_refl σ : same_automaton σ σ.
Proof. by unfold same_automaton. Qed.

Lemma same_automaton_trans σ1 σ2 σ3 :
  same_automaton σ1 σ2 → same_automaton σ2 σ3 → same_automaton σ1 σ3.
Proof. unfold same_automaton. intros (?&?&?&?&?) (?&?&?&?&?). split_and!; congruence. Qed.

Lemma buildRow_Ok s σ σ' :
  buildRow s σ = (Ok tt, σ') →
  same_automaton σ σ' ∧
  ∃ row1 red row2,
    foldR (edgeEntry σ) (outEdges (stateOf σ s)) emptyRow = Ok row1 ∧
    calcReduceEntries (rules σ) (stateOf σ s) = Ok red ∧
    foldR reduceEntry red row1 = Ok row2 ∧
    table σ' = (λ t, mkTable (<[length (rows t) := row2]> (rows t ++ [emptyRow]))) <$> table σ.
Proof.
  intros E. unfold buildRow in E. unfold pushRow, setLastRow in E. inv_step E.
  split; [done|]. eexists _, _, _. split_and!; try done.
  cbn [table setTable]. destruct (table _) as [t|]; [|done]. cbn.
  f_equal. f_equal. rewrite !length_insert, length_app. cbn [length].
  rewrite Nat.add_1_r. cbn [pred]. by rewrite list_insert_insert_eq.
Qed.

Lemma forM_buildRow_Ok l σ σ' :
  forM_ buildRow l σ = (Ok tt, σ') → same_automaton σ σ'.
Proof.
  revert σ. induction l as [|s l IH]; intros σ E; cbn [forM_] in E.
  - unfold mret in E. simplify_eq. apply same_automaton_refl.
  - apply mbindM_Ok in E as ([] & σ1 & E1 & E2).
    apply buildRow_Ok in E1 as [H1 _]. eapply same_automaton_trans; [done|]. by apply IH.
Qed.

Lemma calcTable_Ok fuel σ t σ' :
  calcTable fuel σ = (Ok t, σ') →
  ∃ f σa,
    rules σ ≠ [] ∧
    checkRules (rules σ) = Ok tt ∧
    calcFirst fuel (rules σ) (first σ) = Ok f ∧
    stateLoop fuel fuel [length (stateObjs σ)] (initialStore f σ) = (Ok tt, σa) ∧
    forM_ buildRow (states σa) (setTable (Some (mkTable [])) σa) = (Ok tt, σ') ∧
    table σ' = Some t.
Proof.
  intros E. unfold calcTable in E. apply mbindM_Ok in E as (σ0 & σ1 & E0 & E).
  unfold mget in E0. simplify_eq.
  destruct (length (rules _) =? 0) eqn:Hlen; [by unfold liftR in E|].
  apply Nat.eqb_neq in Hlen. inv_step E.
  repeat match goal with H : () |- _ => destruct H end.
  destruct (table _) as [t'|] eqn:Ht; inv_step E; [|done].
  eexists _, _. split_and!; try done.
  intros Hnil. by rewrite Hnil in Hlen.
Qed.

Lemma foldl_addRule rs σ :
  rules (foldl addRule σ rs) = rules σ ++ rs ∧
  first (foldl addRule σ rs) = first σ ∧
  states (foldl addRule σ rs) = states σ ∧
  table (foldl addRule σ rs) = table σ ∧
  stateObjs (foldl addRule σ rs) = stateObjs σ ∧
  edgeObjs (foldl addRule σ rs) = edgeObjs σ.
Proof.
  revert σ. induction rs as [|r rs IH]; intros σ; cbn [foldl].
  - by rewrite app_nil_r.
  - destruct (IH (addRule σ r)) as (-> & -> & -> & -> & -> & ->). cbn.
    by rewrite <- (assoc_L (++)).
Qed.

Lemma withRules_fields rs :
  rules (withRules rs) = rs ∧ first (withRules rs) = ∅ ∧ states (withRules rs) = [] ∧
  table (withRules rs) = None ∧ stateObjs (withRules rs) = [] ∧ edgeObjs (withRules rs) = [].
Proof. unfold withRules. by destruct (foldl_addRule rs newLR1) as (-> & -> & -> & -> & -> & ->). Qed.

Lemma builder_inv_fresh σ : states σ = [] → stateObjs σ = [] → builder_inv [] σ.
Proof.
  intros Hs Ho. unfold builder_inv, worklist_ok. split_and!.
  - intros s. rewrite items_out_of_range by (rewrite Ho; cbn; lia).
    split; [apply core_unique_nil|apply items_wf_nil].
  - intros i j s s' _ Hi. by rewrite Hs in Hi.
  - apply NoDup_nil_2.
  - intros q Hq. by apply elem_of_nil in Hq.
  - intros s. rewrite Hs. intros Hin. by apply elem_of_nil in Hin.
Qed.

Lemma items_initialStore f σ s :
  items (initialStore f σ) s =
  if decide (s = length (stateObjs σ)) then [rootItem] else items σ s.
Proof.
  unfold items, initialStore. rewrite stateOf_alter, !stateOf_alloc.
  rewrite stateOf_setRules, stateOf_setFirst. cbn [stateObjs setStateObjs setRules setFirst].
  rewrite length_app. cbn [length].
  destruct (decide (s = length (stateObjs σ))) as [->|Hne].
  - rewrite decide_True by lia. unfold stateOf.
    rewrite (lookup_ge_None_2 (stateObjs σ)) by lia. done.
  - rewrite decide_False by tauto. done.
Qed.

Lemma builder_inv_initial f σ :
  builder_inv [] σ → builder_inv [length (stateObjs σ)] (initialStore f σ).
Proof.
  intros (Hstore & Hdist & _ & _ & Hst).
  assert (length (stateObjs (initialStore f σ)) = S (length (stateObjs σ))) as Hlen.
  { unfold initialStore. cbn. rewrite length_alter, length_app. cbn. lia. }
  unfold builder_inv, worklist_ok. split_and!.
  - intros s. rewrite items_initialStore. destruct (decide _); [|apply Hstore]. split.
    + apply NoDup_singleton.
    + apply Forall_singleton. cbn. apply NoDup_add, NoDup_nil_2.
  - intros i j s s' Hij Hi Hj. cbn in Hi, Hj.
    rewrite <- (Hdist i j s s' Hij Hi Hj). apply state_equal_items.
    + fold (items (initialStore f σ) s) (items σ s). rewrite items_initialStore.
      rewrite decide_False; [done|]. apply list_elem_of_lookup_2, Hst in Hi. lia.
    + fold (items (initialStore f σ) s') (items σ s'). rewrite items_initialStore.
      rewrite decide_False; [done|]. apply list_elem_of_lookup_2, Hst in Hj. lia.
  - apply NoDup_singleton.
  - intros q ->%list_elem_of_singleton. rewrite Hlen. split; [lia|].
    cbn. intros Hin. apply Hst in Hin. lia.
  - intros s. rewrite Hlen. cbn. intros Hin. apply Hst in Hin. lia.
Qed.

Lemma builder_inv_same_automaton σ σ' :
  same_automaton σ σ' → builder_inv [] σ → builder_inv [] σ'.
Proof.
  intros (Hr & Hf & Hs & Ho & He) (Hstore & Hdist & Hw).
  assert (∀ s, stateOf σ' s = stateOf σ s) as Hsame.
  { intros s. unfold stateOf. by rewrite Ho. }
  split_and!.
  - intros s. unfold items. rewrite Hsame. apply Hstore.
  - intros i j s s' Hij. rewrite Hs, !Hsame. by apply Hdist.
  - unfold worklist_ok. rewrite Ho, Hs. done.
Qed.

Lemma calcTable_builder_inv fuel σ t σ' :
  builder_inv [] σ → calcTable fuel σ = (Ok t, σ') → builder_inv [] σ'.
Proof.
  intros Hinv E. apply calcTable_Ok in E as (f & σa & _ & _ & _ & Hloop & Hrows & _).
  apply forM_buildRow_Ok in Hrows.
  eapply builder_inv_same_automaton; [exact Hrows|].
  apply (builder_inv_same_automaton σa); [by unfold same_automaton|].
  eapply stateLoop_builder_inv; [|exact Hloop]. by apply builder_inv_initial.
Qed.

Lemma items_same_sym A B : items_same A B → items_same B A.
Proof. intros [H1 H2]. by split. Qed.

Lemma states_unique_of_distinct σ :
  store_ok σ → admitted_distinct σ → states_unique σ.
Proof.
  intros Hstore Hdist i j s s' Hij Hi Hj Hsame.
  assert (state_equal (stateOf σ s) (stateOf σ s') = true) as H1.
  { apply state_equal_spec; try apply Hstore. done. }
  assert (state_equal (stateOf σ s') (stateOf σ s) = true) as H2.
  { apply state_equal_spec; try apply Hstore. by apply items_same_sym. }
  destruct (decide (i < j)).
  - rewrite (Hdist i j s s') in H1; done.
  - rewrite (Hdist j i s' s) in H2; [done|lia|done..].
Qed.

Lemma distinct_of_states_unique σ :
  store_ok σ → states_unique σ → admitted_distinct σ.
Proof.
  intros Hstore Hu i j s s' Hij Hi Hj.
  destruct (state_equal (stateOf σ s) (stateOf σ s')) eqn:E; [|done]. exfalso.
  apply (Hu i j s s'); [lia|done..|]. apply state_equal_spec in E; try apply Hstore. done.
Qed.

(** *** Successor construction never reaches the exit *)

Lemma mkSuccessor_run this ty v σ seeds :
  this < length (stateObjs σ) →
  seedItems (rules σ) (items σ this) ty v = Ok seeds →
  mkSuccessor this ty v σ = (Ok (length (stateObjs σ)), succStore this ty v seeds σ).
Proof.
  intros Hthis Hseeds. unfold mkSuccessor.
  cbv [mbindM allocState allocEdge mget mmodify mret updState liftR].
  match goal with |- context [seedItems ?r (itemSet (stateOf ?s this)) ty v] =>
    assert (itemSet (stateOf s this) = items σ this) as ->;
    [| change r with (rules σ); rewrite Hseeds; reflexivity ] end.
  unfold items. rewrite !stateOf_alter, !stateOf_setEdgeObjs, !stateOf_alloc.
  rewrite !length_stateObjs_alter. cbn [setEdgeObjs setStateObjs stateObjs].
  rewrite length_app. cbn [length].
  rewrite decide_False by lia. rewrite decide_True by lia. done.
Qed.

Lemma forM_mkSuccessor_run this ty l σ :
  this < length (stateObjs σ) → core_unique (items σ this) →
  ∃ ss σ', forM (mkSuccessor this ty) l σ = (Ok ss, σ').
Proof.
  revert σ. induction l as [|v l IH]; intros σ Hthis Hu; cbn [forM].
  - by eexists _, _.
  - pose proof (seedItems_from (rules σ) ty v [] (items σ this) Hu) as Hseeds.
    rewrite filter_nil, fmap_nil in Hseeds. fold (seedItems (rules σ) (items σ this) ty v) in Hseeds.
    unfold mbindM at 1. rewrite (mkSuccessor_run _ _ _ _ _ Hthis Hseeds).
    destruct (IH (succStore this ty v (advance <$> filter (dotAt (rules σ) ty v) ([] ++ items σ this)) σ))
      as (ss & σ' & E).
    + rewrite succStore_length_states by done. lia.
    + rewrite succStore_items by done. done.
    + unfold mbindM at 1. rewrite E. by eexists _, _.
Qed.


(** C8. Core-uniqueness of item sets: after [calcTable] every state object
    has an item set without two items of the same (rule, dot position)
    core; [addItem] keeps an item set core-unique, and when the new item is
    core-equal to an existing one it returns [false], leaves the number of
    items unchanged and replaces the existing item by one whose lookahead
    set is the union of the two lookahead sets. *)
Theorem addItem_core_unique_merge rs fuel t σ' items0 newItem :
  calcTable fuel (withRules rs) = (Ok t, σ') →
  core_unique items0 →
  (∀ s, core_unique (items σ' s)) ∧
  core_unique (addItem items0 newItem).1 ∧
  (core newItem ∈ core <$> items0 →
   (addItem items0 newItem).2 = false ∧
   length (addItem items0 newItem).1 = length items0 ∧
   ∃ l1 old l2, items0 = l1 ++ old :: l2 ∧ core old = core newItem ∧
                (addItem items0 newItem).1 = l1 ++ merged old newItem :: l2 ∧
                ∀ x, x ∈ lookAheadSet (merged old newItem)
                     ↔ x ∈ lookAheadSet old ∨ x ∈ lookAheadSet newItem).
Proof.
  intros E Hu. split_and!.
  - intros s. eapply calcTable_builder_inv in E as (Hstore & _).
    + apply Hstore.
    + destruct (withRules_fields rs) as (_&_&?&_&?&_). by apply builder_inv_fresh.
  - by apply addItem_core_unique.
  - intros Hin. unfold addItem.
    destruct (mergeItem items0 newItem) as [m|] eqn:Hm.
    + apply mergeItem_Some in Hm as (l1 & old & l2 & -> & Hc & _ & ->). cbn [fst snd].
      split_and!; [done|by rewrite !length_app|].
      exists l1, old, l2. split_and!; try done.
      intros x. cbn. by rewrite elem_of_of_list, elem_of_app.
    + apply mergeItem_None in Hm. done.
Qed.

(** C4. Automaton uniqueness: after [calcTable] has completed no two
    admitted states contain the same items with the same lookahead sets per
    core; and [addState] preserves this: it admits [sNew] only when no
    admitted state has the same item set, and otherwise leaves the admitted
    states as they are. *)
Theorem calcTable_states_unique rs fuel t σ' :
  calcTable fuel (withRules rs) = (Ok t, σ') →
  states_unique σ' ∧
  ∀ σ sNew b σ2,
    store_ok σ → states_unique σ → addState sNew σ = (Ok b, σ2) →
    states_unique σ2 ∧
    if b then states σ2 = states σ ++ [sNew]
              ∧ ∀ s, s ∈ states σ → ¬ items_same (items σ s) (items σ sNew)
    else states σ2 = states σ.
Proof.
  intros E. split.
  - eapply calcTable_builder_inv in E as (Hstore & Hdist & _).
    + by apply states_unique_of_distinct.
    + destruct (withRules_fields rs) as (_&_&?&_&?&_). by apply builder_inv_fresh.
  - clear. intros σ sNew b σ2 Hstore Hu Hadd.
    apply addState_Ok in Hadd. destruct b.
    + destruct Hadd as [Hneq ->].
      assert (∀ s, items (admittedStore sNew σ) s = items σ s) as Hit.
      { intros s. unfold items, admittedStore. rewrite stateOf_setStates, stateOf_alter.
        destruct (decide _) as [[-> _]|]; done. }
      assert (∀ s, s ∈ states σ → ¬ items_same (items σ s) (items σ sNew)) as Hne.
      { intros s Hs Hsame. apply state_equal_spec in Hsame; try apply Hstore.
        by rewrite Hneq in Hsame. }
      split_and!; [|done|done].
      intros i j s s' Hij Hi Hj. rewrite !Hit.
      cbn [admittedStore setStates states setStateObjs] in Hi, Hj.
      apply lookup_app_Some in Hi as [Hi|[Hgi Hi]];
        apply lookup_app_Some in Hj as [Hj|[Hgj Hj]].
      * by apply (Hu i j).
      * apply list_lookup_singleton_Some in Hj as [_ <-].
        apply Hne. by eapply list_elem_of_lookup_2.
      * apply list_lookup_singleton_Some in Hi as [_ <-].
        intros Hsame%items_same_sym. revert Hsame.
        apply Hne. by eapply list_elem_of_lookup_2.
      * apply list_lookup_singleton_Some in Hi as [? _].
        apply list_lookup_singleton_Some in Hj as [? _]. lia.
    + destruct Hadd as (s0 & _ & _ & (_ & _ & Hs2 & _ & _ & _ & Hst2 & _)).
      split; [|done]. intros i j s s' Hij. rewrite Hs2. unfold items.
      destruct (Hst2 s) as (-> & _), (Hst2 s') as (-> & _). by apply Hu.
Qed.

(** ** Parser runtime *)

Section ParseFacts.
Context {L U : Type} `{TokenSource L}.
Implicit Types (lexer : L) (u : U) (stack : list StackItem).

(** C7. Lookup order of a parse step: for a token of type terminal,
    delimiter or identifier the action taken is that of the entry under the
    key [":" + lexeme] if there is one; only if there is none, that of the
    entry under the token-class key; and if neither key has an entry the
    step raises the unexpected-token error through the lexer. *)
Theorem parseStep_lookup_order rs t (callBacks : gmap string (CallBack U))
    stack lexer u state row :
  last stack = Some (StNumber state) →
  lookupZ (rows t) state = Some row →
  tk_type (getToken lexer) = TER ∨ tk_type (getToken lexer) = DEL
    ∨ tk_type (getToken lexer) = ID →
  let tk := getToken lexer in
  let literalKey := (":" +:+ tk_token tk)%string in
  let classKey := typeKey (tk_type tk) in
  (∀ e, actionEntries row !! literalKey = Some e →
        parseStep rs t callBacks stack lexer u = actOn rs t callBacks e stack lexer u) ∧
  (actionEntries row !! literalKey = None →
   ∀ e, actionEntries row !! classKey = Some e →
        parseStep rs t callBacks stack lexer u = actOn rs t callBacks e stack lexer u) ∧
  (actionEntries row !! literalKey = None →
   actionEntries row !! classKey = None →
   parseStep rs t callBacks stack lexer u = LexerRaise (UnexpectedToken (tk_token tk)) u).
Proof.
  intros Hlast Hrow Hty tk literalKey classKey.
  assert (isLiteralClass (tk_type tk) = true) as Hlit.
  { unfold isLiteralClass. fold tk in Hty.
    destruct Hty as [-> | [-> | ->]]; reflexivity. }
  unfold parseStep. rewrite Hlast, Hrow. fold tk. unfold findEntry. rewrite Hlit.
  fold literalKey classKey. unfold actOn. fold tk.
  split_and!.
  - intros e ->. done.
  - intros -> e ->. done.
  - intros -> ->. done.
Qed.

End ParseFacts.

Lemma list_pair_ind {A} (P : list A → Prop) :
  P [] → (∀ x, P [x]) → (∀ x y l, P l → P (x :: y :: l)) → ∀ l, P l.
Proof.
  intros H0 H1 H2 l. cut (P l ∧ ∀ x, P (x :: l)); [by intros [? _]|].
  induction l as [|y l [IH1 IH2]]; [by split|]. split; [apply IH2|].
  intros x. by apply H2.
Qed.

Lemma symbolSlots_length items : length (symbolSlots items) = Nat.div2 (length items).
Proof.
  induction items as [|x|x y rest IH] using list_pair_ind; [done..|].
  cbn [symbolSlots length Nat.div2]. by f_equal.
Qed.

Lemma symbolSlots_lookup items i :
  i < Nat.div2 (length items) → symbolSlots items !! i = items !! (i * 2).
Proof.
  revert i. induction items as [|x|x y rest IH] using list_pair_ind; intros i Hi;
    [cbn in Hi; lia..|].
  destruct i as [|i]; [done|]. cbn [symbolSlots length Nat.div2] in *.
  cbn. apply IH. lia.
Qed.

(** The loop that collects the terminals, started at position [i]. *)
Lemma collectTerminals_from rhs_ items n i acc :
  i + n = Nat.div2 (length items) →
  Nat.div2 (length items) ≤ length rhs_ →
  foldR (λ i terminals,
           match rhs_ !! i with
           | None => TypeError
           | Some x =>
               match item_type x with
               | Terminal =>
                   match items !! (i * 2) with
                   | Some v => Ok (terminals ++ [v])
                   | None => TypeError
                   end
               | NonTerminal => Ok terminals
               end
           end) (seq i n) acc
  = Ok (acc ++ terminalSlots (drop i rhs_) (drop i (symbolSlots items))).
Proof.
  revert i acc. induction n as [|n IH]; intros i acc Hn Hrhs; cbn [seq foldR].
  - rewrite (drop_ge (symbolSlots items)) by (rewrite symbolSlots_length; lia).
    destruct (drop i rhs_); cbn; by rewrite app_nil_r.
  - destruct (lookup_lt_is_Some_2 rhs_ i) as [x Hx]; [lia|].
    destruct (lookup_lt_is_Some_2 (symbolSlots items) i) as [v Hv];
      [rewrite symbolSlots_length; lia|].
    rewrite Hx. rewrite <- symbolSlots_lookup by lia. rewrite Hv.
    rewrite (drop_S _ _ _ Hx), (drop_S _ _ _ Hv). cbn [terminalSlots].
    destruct (item_type x).
    + rewrite IH by lia. by rewrite <- (assoc_L (++)).
    + by rewrite IH by lia.
Qed.

Lemma collectTerminals_spec rhs_ items :
  length items ≤ 2 * length rhs_ →
  collectTerminals rhs_ items = Ok (terminalSlots rhs_ (symbolSlots items)).
Proof.
  intros Hlen. unfold collectTerminals.
  change (Nat.shiftr (length items) 1) with (Nat.div2 (length items)).
  assert (Nat.div2 (length items) ≤ length rhs_) as Hd.
  { pose proof (Nat.div2_double (length rhs_)) as Hdd.
    rewrite <- Hdd. rewrite !Nat.div2_div. apply Nat.Div0.div_le_mono. lia. }
  rewrite collectTerminals_from by (done || lia). done.
Qed.

Lemma splice_depth {A} (l : list A) (k : nat) :
  2 * k ≤ length l →
  splice l (Z.of_nat (length l) - 2 * Z.of_nat k)
  = (take (length l - 2 * k) l, drop (length l - 2 * k) l).
Proof.
  intros Hk. unfold splice.
  destruct (Z.ltb_spec (Z.of_nat (length l) - 2 * Z.of_nat k) 0) as [Hlt|Hge]; [lia|].
  rewrite Z.min_l by lia.
  replace (Z.to_nat (Z.of_nat (length l) - 2 * Z.of_nat k)) with (length l - 2 * k) by lia.
  done.
Qed.


Section Reduce.
Context {L U : Type} `{TokenSource L}.
Implicit Types (lexer : L) (u : U) (stack : list StackItem).


End Reduce.

(** ** Reductions in the parser *)

Section RootReduce.
Context {L U : Type} `{TokenSource L}.
Implicit Types (lexer : L) (u : U) (stack : list StackItem).


(** A REDUCE by rule [r] on a stack that holds the [2·|rhs(r)|] slots of
    the right-hand side. *)
Lemma reduceStep_at_depth rs t (callBacks : gmap string (CallBack U))
    stack lexer u state row entry r :
  last stack = Some (StNumber state) →
  lookupZ (rows t) state = Some row →
  findEntry row (getToken lexer) = Some entry →
  shift entry = false →
  lookupZ rs (entry_value entry) = Some r →
  2 * length (rhs r) ≤ length stack →
  let k := length (rhs r) in
  let rest := take (length stack - 2 * k) stack in
  let popped := drop (length stack - 2 * k) stack in
  stack = rest ++ popped ∧ length popped = 2 * k ∧
  length (symbolSlots popped) = k ∧
  (String.length (callBackId r) = 0 →
   parseStep rs t callBacks stack lexer u
   = afterCallback t (entry_value entry =? 0)%Z r rest lexer u) ∧
  (∀ f, 0 < String.length (callBackId r) → callBacks !! callBackId r = Some f →
        parseStep rs t callBacks stack lexer u =
        match f (terminalSlots (rhs r) (symbolSlots popped)) u with
        | Some u' => afterCallback t (entry_value entry =? 0)%Z r rest lexer u'
        | None => CallbackRaise
        end).
Proof.
  intros Hlast Hrow Hentry Hshift Hr Hdepth k rest popped.
  assert (parseStep rs t callBacks stack lexer u
          = reduceStep rs t callBacks entry stack lexer u) as ->.
  { unfold parseStep. by rewrite Hlast, Hrow, Hentry, Hshift. }
  assert (length popped = 2 * k) as Hlen.
  { unfold popped. rewrite length_drop. lia. }
  split_and!.
  - unfold rest, popped. by rewrite take_drop.
  - done.
  - rewrite symbolSlots_length, Hlen. apply Nat.div2_double.
  - intros Hno. unfold reduceStep. rewrite Hr, splice_depth by done.
    fold k rest popped. by rewrite Hno.
  - intros f Hpos Hf. unfold reduceStep. rewrite Hr, splice_depth by done.
    fold k rest popped.
    destruct (Nat.ltb_spec 0 (String.length (callBackId r))); [|lia].
    rewrite Hf, collectTerminals_spec by lia. done.
Qed.
End RootReduce.

(** ** The automaton that the table is read from *)

Lemma addItem_cores_elem items newItem c :
  c ∈ core <$> (addItem items newItem).1 ↔ c ∈ core <$> items ∨ c = core newItem.
Proof.
  rewrite addItem_cores. destruct ((addItem items newItem).2) eqn:E.
  - rewrite elem_of_app, list_elem_of_singleton. done.
  - split; [by left|]. intros [?| ->]; [done|].
    destruct (decide (core newItem ∈ core <$> items)) as [|Hn]; [done|].
    apply addItem_true in Hn. congruence.
Qed.

Lemma addItems_cores_elem items newItems c :
  c ∈ core <$> addItems items newItems ↔ c ∈ core <$> items ∨ c ∈ core <$> newItems.
Proof.
  unfold addItems. revert items. induction newItems as [|it l IH]; intros items; cbn [foldl].
  - rewrite fmap_nil, elem_of_nil. tauto.
  - rewrite IH, addItem_cores_elem, fmap_cons, elem_of_cons. tauto.
Qed.

Lemma elem_of_rulesWithLhs rs y j : j ∈ rulesWithLhs rs y → j < length rs.
Proof.
  unfold rulesWithLhs. intros Hj. apply list_elem_of_omap in Hj as ([i r] & Hin & Hsome).
  apply list_elem_of_lookup in Hin as [n Hn]. rewrite list_lookup_imap in Hn.
  destruct (rs !! n) as [r'|] eqn:Hr; [|done]. cbn in Hn. injection Hn as <- <-.
  destruct (decide (lhs r' = y)); [|done]. injection Hsome as <-.
  by eapply lookup_lt_Some.
Qed.

Lemma closureItemsOf_cores rs fst_ item it :
  it ∈ closureItemsOf rs fst_ item → pos it = 0 ∧ rule it < length rs.
Proof.
  unfold closureItemsOf. repeat case_match; try (by intros ?%elem_of_nil).
  all: intros Hin; apply list_elem_of_fmap in Hin as (j & -> & Hj); cbn;
    split; [done|by eapply elem_of_rulesWithLhs].
Qed.

Lemma closureLoop_cores fuel rs fst_ items its :
  closureLoop fuel rs fst_ items = Ok its →
  (∀ c, c ∈ core <$> items → c ∈ core <$> its) ∧
  (∀ c, c ∈ core <$> its → c ∈ core <$> items ∨ (c.2 = 0 ∧ c.1 < length rs)).
Proof.
  revert items. induction fuel as [|fuel IH]; intros items; cbn [closureLoop]; [done|].
  set (new := flat_map (closureItemsOf rs fst_) items).
  assert (∀ c, c ∈ core <$> new → c.2 = 0 ∧ c.1 < length rs) as Hnew.
  { intros c Hc. apply list_elem_of_fmap in Hc as (it & -> & Hit).
    apply list_elem_of_In, in_flat_map in Hit as (it0 & _ & Hit).
    apply list_elem_of_In, closureItemsOf_cores in Hit. done. }
  assert (∀ c, c ∈ core <$> addItems items new →
               c ∈ core <$> items ∨ (c.2 = 0 ∧ c.1 < length rs)) as Hadd.
  { intros c Hc. apply addItems_cores_elem in Hc as [?|Hc]; [by left|right; by apply Hnew]. }
  destruct (length items <? length (addItems items new)).
  - intros E. destruct (IH _ E) as [H1 H2]. split.
    + intros c Hc. apply H1, addItems_cores_elem. by left.
    + intros c Hc. destruct (H2 c Hc) as [Hc'|?]; [by apply Hadd|by right].
  - intros [= <-]. split; [|done]. intros c Hc. apply addItems_cores_elem. by left.
Qed.

Lemma seedItems_advances rs its ty v seeds :
  core_unique its →
  seedItems rs its ty v = Ok seeds →
  advances rs (mkRuleItem ty v) its seeds ∧
  (∀ it, it ∈ seeds → 0 < pos it ∧ ∃ it0, it0 ∈ its ∧ rule it0 = rule it).
Proof.
  intros Hu E. pose proof (seedItems_from rs ty v [] its Hu) as E'.
  rewrite filter_nil, fmap_nil in E'. fold (seedItems rs its ty v) in E'.
  rewrite E in E'. injection E' as ->. cbn [app]. split.
  - intros c Hc Hpos. apply list_elem_of_fmap in Hc as (sd & -> & Hsd).
    apply list_elem_of_fmap in Hsd as (it & -> & Hit).
    apply list_elem_of_filter in Hit as [(x & Hx & Hty & Hv) Hit].
    cbn. rewrite Nat.sub_0_r. split.
    + by apply (list_elem_of_fmap_2 core) in Hit.
    + rewrite Hx. f_equal. destruct x. cbn in *. by subst.
  - intros sd Hsd. apply list_elem_of_fmap in Hsd as (it & -> & Hit).
    apply list_elem_of_filter in Hit as [_ Hit]. cbn. split; [lia|]. by exists it.
Qed.

(** The state objects after [calcItemSet], case by case. *)
Lemma successors_state this lbls its σ σ1 s :
  this < length (stateObjs σ) →
  successors this lbls (closedStore this its σ) σ1 →
  (s < length (stateObjs σ) ∧ s ≠ this ∧ stateOf σ1 s = stateOf σ s)
  ∨ (s = this ∧
     stateOf σ1 s =
     {| state_index := state_index (stateOf σ this); itemSet := its;
        outEdges := outEdges (stateOf σ this) ++ seq (length (edgeObjs σ)) (length lbls);
        inEdges := inEdges (stateOf σ this) |})
  ∨ (∃ i lbl seeds,
       s = length (stateObjs σ) + i ∧ lbls !! i = Some lbl ∧
       seedItems (rules σ) its (item_type lbl) (item_value lbl) = Ok seeds ∧
       stateOf σ1 s = tentative seeds (length (edgeObjs σ) + i) ∧
       edgeOf σ1 (length (edgeObjs σ) + i) = mkEdge this s lbl)
  ∨ (length (stateObjs σ) + length lbls ≤ s ∧ stateOf σ1 s = newState).
Proof.
  intros Hthis (Hn & Hm & Hr & Hf & Hs & Ht & Hold & Hth & Hed & Hnew).
  unfold closedStore in *. rewrite length_stateObjs_alter in Hn, Hold, Hnew.
  cbn [edgeObjs setStateObjs] in Hm, Hth, Hed, Hnew.
  destruct (decide (s = this)) as [->|Hne].
  - right. left. split; [done|]. rewrite Hth, stateOf_alter, decide_True by done.
    by destruct (stateOf σ this).
  - destruct (decide (s < length (stateObjs σ))) as [Hlt|Hge].
    + left. split_and!; [done..|]. rewrite Hold by done.
      rewrite stateOf_alter, decide_False by tauto. done.
    + right. right. destruct (decide (s < length (stateObjs σ) + length lbls)) as [Hlt|Hge'].
      * left. destruct (lookup_lt_is_Some_2 lbls (s - length (stateObjs σ))) as [lbl Hl]; [lia|].
        destruct (Hnew _ lbl Hl) as (seeds & Hseeds & Hst & Hedge).
        replace (length (stateObjs σ) + (s - length (stateObjs σ))) with s in * by lia.
        exists (s - length (stateObjs σ)), lbl, seeds.
        split_and!; try done; [lia|].
        rewrite <- Hseeds. cbn [rules setStateObjs]. f_equal.
        unfold items. rewrite stateOf_alter, decide_True by done. done.
      * right. split; [lia|]. unfold stateOf. rewrite lookup_ge_None_2; [done|lia].
Qed.

Lemma successors_edge this lbls its σ σ1 e :
  successors this lbls (closedStore this its σ) σ1 →
  (e < length (edgeObjs σ) ∧ edgeOf σ1 e = edgeOf σ e)
  ∨ (∃ i lbl, e = length (edgeObjs σ) + i ∧ lbls !! i = Some lbl ∧
              edgeOf σ1 e = mkEdge this (length (stateObjs σ) + i) lbl)
  ∨ (length (edgeObjs σ1) ≤ e).
Proof.
  intros (Hn & Hm & Hr & Hf & Hs & Ht & Hold & Hth & Hed & Hnew).
  unfold closedStore in *. rewrite length_stateObjs_alter in Hn, Hold, Hnew.
  cbn [edgeObjs setStateObjs] in Hm, Hth, Hed, Hnew.
  destruct (decide (e < length (edgeObjs σ))) as [Hlt|Hge]; [left; split; [done|by apply Hed]|].
  right. destruct (decide (e < length (edgeObjs σ) + length lbls)) as [Hlt|Hge']; [|right; lia].
  left. destruct (lookup_lt_is_Some_2 lbls (e - length (edgeObjs σ))) as [lbl Hl]; [lia|].
  destruct (Hnew _ lbl Hl) as (seeds & _ & _ & Hedge).
  exists (e - length (edgeObjs σ)), lbl. split_and!; [lia|done|].
  replace (length (edgeObjs σ) + (e - length (edgeObjs σ))) with e in Hedge by lia. done.
Qed.

Lemma advances_cores rs lbl S S' D D' :
  (∀ c, c ∈ core <$> S → c ∈ core <$> S') →
  (∀ c, c ∈ core <$> D' → 0 < c.2 → c ∈ core <$> D) →
  advances rs lbl S D → advances rs lbl S' D'.
Proof.
  intros HS HD Hadv c Hc Hpos. destruct (Hadv c (HD c Hc Hpos) Hpos) as [H1 H2]. auto.
Qed.

Lemma advances_nil rs lbl S : advances rs lbl S [].
Proof. intros c Hc. rewrite fmap_nil in Hc. by apply elem_of_nil in Hc. Qed.

Lemma state_equal_cores (a b : LR1_State) :
  state_equal a b = true → ∀ c, c ∈ core <$> itemSet a → c ∈ core <$> itemSet b.
Proof.
  unfold state_equal. destruct (length (itemSet a) =? length (itemSet b)) eqn:E; [|done].
  cbn [negb]. apply Nat.eqb_eq in E. rewrite E, firstn_all, forallb_forall.
  intros Hall c Hc. apply list_elem_of_fmap in Hc as (it & -> & Hit).
  apply list_elem_of_In, Hall, existsb_exists in Hit as (jt & Hjt & Heq).
  apply list_elem_of_In in Hjt. unfold item_equal in Heq.
  destruct (pos it =? pos jt) eqn:Ep; [|done].
  destruct (rule it =? rule jt) eqn:Er; [|done].
  apply Nat.eqb_eq in Ep, Er. unfold core. rewrite Ep, Er.
  by apply (list_elem_of_fmap_2 core) in Hjt.
Qed.

(** The store-level part of the invariant after [calcItemSet]. *)
Lemma calcItemSet_edges this lbls its σ σ1 :
  this < length (stateObjs σ) →
  edges_valid σ → edges_ok σ → rules_ok σ →
  outEdges (stateOf σ this) = [] →
  core_unique its →
  (∀ c, c ∈ core <$> items σ this → c ∈ core <$> its) →
  (∀ c, c ∈ core <$> its →
        c ∈ core <$> items σ this ∨ (c.2 = 0 ∧ c.1 < length (rules σ))) →
  successors this lbls (closedStore this its σ) σ1 →
  edges_valid σ1 ∧ edges_ok σ1 ∧ rules_ok σ1.
Proof.
  intros Hthis [Hv1 Hv2] He Hr Hout Hu Hsub Hnew Hsucc.
  pose proof (successors_state this lbls its σ σ1) as Hstate.
  pose proof (successors_edge this lbls its σ σ1) as Hedge.
  assert (Hlen := Hsucc). destruct Hlen as (Hn & Hm & Hrules & _).
  unfold closedStore in Hn, Hm. rewrite length_stateObjs_alter in Hn.
  cbn [edgeObjs setStateObjs rules] in Hm, Hrules.
  (* the items of a state of the old store *)
  assert (∀ d, d < length (stateObjs σ) →
               (∀ c, c ∈ core <$> items σ d → c ∈ core <$> items σ1 d) ∧
               (∀ c, c ∈ core <$> items σ1 d → 0 < c.2 → c ∈ core <$> items σ d)) as Hcores.
  { intros d Hd. destruct (Hstate d Hthis Hsucc) as
      [(_ & _ & Hst)|[(-> & Hst)|[(i & lbl & seeds & -> & _)|(Hge & _)]]]; try lia.
    - unfold items. rewrite Hst. done.
    - unfold items at 2 3. rewrite Hst. cbn [itemSet]. split; [done|].
      intros c Hc Hpos. destruct (Hnew c Hc) as [?|[? _]]; [done|lia]. }
  split_and!.
  - split.
    + intros s e Hin. rewrite Hm.
      destruct (Hstate s Hthis Hsucc) as
        [(_ & _ & Hst)|[(-> & Hst)|[(i & lbl & seeds & -> & Hl & _ & Hst & _)|(_ & Hst)]]];
        rewrite Hst in Hin.
      * apply Hv1 in Hin. lia.
      * cbn [outEdges] in Hin. rewrite Hout in Hin. cbn [app] in Hin.
        apply elem_of_seq in Hin. lia.
      * by apply elem_of_nil in Hin.
      * by apply elem_of_nil in Hin.
    + intros e He'. rewrite Hn.
      destruct (Hedge e Hsucc) as [(Hlt & ->)|[(i & lbl & -> & Hl & ->)|Hge]].
      * apply Hv2 in Hlt. lia.
      * cbn [dest]. apply lookup_lt_Some in Hl. lia.
      * lia.
  - intros s e Hin. rewrite Hrules.
    destruct (Hstate s Hthis Hsucc) as
      [(Hs & Hne & Hst)|[(-> & Hst)|[(i & lbl & seeds & -> & Hl & _ & Hst & _)|(_ & Hst)]]];
      rewrite Hst in Hin.
    + assert (e < length (edgeObjs σ)) as Hlt by (by eapply Hv1).
      destruct (Hedge e Hsucc) as [(_ & ->)|[(i & lbl & -> & _)|Hge]]; [|lia..].
      pose proof (Hv2 e Hlt) as Hd.
      eapply advances_cores; [| |by apply (He s e)].
      * intros c. unfold items. by rewrite Hst.
      * apply Hcores. done.
    + cbn [outEdges] in Hin. rewrite Hout in Hin. cbn [app] in Hin.
      apply elem_of_seq in Hin as [Hge Hlt].
      destruct (Hedge e Hsucc) as [(Hlt' & _)|[(i & lbl & -> & Hl & ->)|Hge']]; [lia| |lia].
      cbn [label dest]. apply lookup_lt_Some in Hl as Hli.
      destruct (Hstate (length (stateObjs σ) + i) Hthis Hsucc) as
        [(? & _)|[(? & _)|[(i' & lbl' & seeds & Heq & Hl' & Hseeds & Hst' & _)|(? & _)]]];
        try lia.
      assert (i' = i) as -> by lia. rewrite Hl in Hl'. injection Hl' as <-.
      unfold items. rewrite Hst, Hst'. cbn [itemSet tentative].
      destruct lbl as [ty v]. by apply seedItems_advances.
    + by apply elem_of_nil in Hin.
    + by apply elem_of_nil in Hin.
  - intros s it Hit. rewrite Hrules. unfold items in Hit.
    destruct (Hstate s Hthis Hsucc) as
      [(Hs & Hne & Hst)|[(-> & Hst)|[(i & lbl & seeds & -> & Hl & Hseeds & Hst & _)|(_ & Hst)]]];
      rewrite Hst in Hit; cbn [itemSet tentative newState] in Hit.
    + by apply (Hr s).
    + apply (list_elem_of_fmap_2 core) in Hit. destruct (Hnew _ Hit) as [Hc|[_ Hc]]; [|done].
      apply list_elem_of_fmap in Hc as (it0 & Hc & Hit0). apply (Hr this) in Hit0.
      unfold core in Hc. injection Hc as -> _. done.
    + destruct (seedItems_advances _ _ _ _ _ Hu Hseeds) as [_ Hs].
      destruct (Hs it Hit) as (_ & it0 & Hit0 & <-).
      apply (list_elem_of_fmap_2 core) in Hit0. destruct (Hnew _ Hit0) as [Hc|[_ Hc]]; [|done].
      apply list_elem_of_fmap in Hc as (it1 & Hc & Hit1). apply (Hr this) in Hit1.
      unfold core in Hc. injection Hc as -> _. done.
    + by apply elem_of_nil in Hit.
Qed.

Lemma calcItemSet_processed inner q Q' R σ σ1 :
  automaton_inv (Q' ++ [q]) σ →
  calcItemSet inner q σ = (Ok R, σ1) →
  processed_inv q Q' R σ1.
Proof.
  intros (Hb & Hv & He & Hr & Ht & Hc & Hi & Hroot1 & Hroot2) Hcalc.
  destruct Hb as (Hstore & Hdist & HndQ & HQ & Hst).
  assert (q ∈ Q' ++ [q]) as HqQ by (apply elem_of_app; right; left).
  destruct (HQ q HqQ) as [Hq Hqn]. destruct (Ht q HqQ) as [Hout Hin_q].
  apply NoDup_app in HndQ as (HndQ' & HQq & _).
  assert (q ∉ Q') as HqQ'. { intros Hin. by apply (HQq q Hin); left. }
  apply calcItemSet_Ok in Hcalc as (its & Hcl & -> & Hsucc); [|done].
  set (lbls := succLabels (rules σ) its) in *.
  destruct (closureLoop_cores _ _ _ _ _ Hcl) as [Hsub Hnew].
  assert (core_unique its) as Hu.
  { apply (closureLoop_inv _ _ _ _ _ Hcl). apply Hstore. }
  destruct (calcItemSet_edges q lbls its σ σ1 Hq Hv He Hr Hout Hu Hsub Hnew Hsucc)
    as (Hv1 & He1 & Hr1).
  pose proof (λ s, successors_state q lbls its σ σ1 s Hq Hsucc) as Hstate.
  pose proof (λ e, successors_edge q lbls its σ σ1 e Hsucc) as Hedge.
  assert (Hlen := Hsucc). destruct Hlen as (Hn & Hm & Hrules & _ & Hs1 & _).
  unfold closedStore in Hn, Hm. rewrite length_stateObjs_alter in Hn.
  cbn [edgeObjs setStateObjs rules states] in Hm, Hrules, Hs1.
  destruct Hv as [Hvo Hvd].
  (* a state of the old store other than [q] is unchanged *)
  assert (∀ s, s < length (stateObjs σ) → s ≠ q → stateOf σ1 s = stateOf σ s) as Hsame.
  { intros s Hs Hne. destruct (Hstate s) as
      [(_ & _ & ?)|[(? & _)|[(i & lbl & seeds & ? & _)|(? & _)]]]; (done || lia). }
  assert (stateOf σ1 q =
          {| state_index := state_index (stateOf σ q); itemSet := its;
             outEdges := seq (length (edgeObjs σ)) (length lbls);
             inEdges := inEdges (stateOf σ q) |}) as Hstq.
  { destruct (Hstate q) as
      [(_ & ? & _)|[(_ & Hst')|[(i & lbl & seeds & ? & _)|(? & _)]]]; try (done || lia).
    rewrite Hst', Hout. done. }
  assert (∀ e, e < length (edgeObjs σ) → edgeOf σ1 e = edgeOf σ e) as Hesame.
  { intros e Hlt. destruct (Hedge e) as [(_ & ?)|[(i & lbl & ? & _)|?]]; (done || lia). }
  assert (∀ i, i < length lbls →
               ∃ seeds lbl, stateOf σ1 (length (stateObjs σ) + i)
                            = tentative seeds (length (edgeObjs σ) + i)
                 ∧ edgeOf σ1 (length (edgeObjs σ) + i)
                   = mkEdge q (length (stateObjs σ) + i) lbl) as Hnewst.
  { intros i Hi'. destruct (Hstate (length (stateObjs σ) + i)) as
      [(? & _)|[(? & _)|[(i' & lbl & seeds & ? & _ & _ & Hst' & Hed')|(? & _)]]]; try lia.
    assert (i' = i) as -> by lia. by exists seeds, lbl. }
  unfold processed_inv. split_and!; try done.
  - (* store_ok *)
    intros s. destruct (decide (s < length (stateObjs σ))) as [Hlt|Hge].
    + destruct (decide (s = q)) as [->|Hne].
      * unfold items. rewrite Hstq. cbn [itemSet]. split; [done|].
        apply (closureLoop_inv _ _ _ _ _ Hcl). apply Hstore.
      * unfold items. rewrite Hsame by done. apply Hstore.
    + apply (successors_items q lbls its σ σ1 s); [done..|lia].
  - (* tentative_ok *)
    intros q' Hq'. apply elem_of_app in Hq' as [Hq'|Hq'].
    + assert (q' ∈ Q' ++ [q]) as Hq'' by (apply elem_of_app; by left).
      destruct (HQ q' Hq'') as [Hlt _]. destruct (Ht q' Hq'') as [Ho Hi'].
      assert (q' ≠ q) as Hne by (intros ->; done).
      rewrite Hsame by done. split; [done|]. intros e Hein.
      destruct (Hi' e Hein) as [Hlt' Hd]. rewrite Hesame by done. split; [lia|done].
    + apply elem_of_seq in Hq' as [Hge Hlt].
      destruct (Hnewst (q' - length (stateObjs σ))) as (seeds & lbl & Hst' & Hed'); [lia|].
      replace (length (stateObjs σ) + (q' - length (stateObjs σ))) with q' in * by lia.
      rewrite Hst'. cbn [tentative outEdges inEdges]. split; [done|].
      intros e ->%list_elem_of_singleton. rewrite Hed'. cbn [dest]. split; [lia|done].
  - lia.
  - by rewrite Hs1.
  - (* out-edges of q *)
    intros e Hein. rewrite Hstq in Hein. cbn [outEdges] in Hein.
    apply elem_of_seq in Hein as [Hge Hlt].
    destruct (Hnewst (e - length (edgeObjs σ))) as (seeds & lbl & Hst' & Hed'); [lia|].
    replace (length (edgeObjs σ) + (e - length (edgeObjs σ))) with e in * by lia.
    rewrite Hed'. cbn [dest]. rewrite Hst'. cbn [tentative inEdges]. split.
    + apply elem_of_seq. lia.
    + left.
  - (* in-edges of q *)
    intros e Hein. rewrite Hstq in Hein. cbn [inEdges] in Hein.
    destruct (Hin_q e Hein) as [Hlt Hd]. rewrite Hesame by done. split; [lia|done].
  - (* closed_ok *)
    intros s e Hs Hein. rewrite Hs1 in Hs. rewrite Hs1.
    assert (s ≠ q) as Hne by (intros ->; done).
    rewrite Hsame in Hein by (by apply Hst || done).
    assert (e < length (edgeObjs σ)) as Hlt by (by eapply Hvo).
    rewrite Hesame by done.
    destruct (Hc s e Hs Hein) as [?|[Hd Hine]]; [by left|right]. split; [done|].
    destruct (decide (dest (edgeOf σ e) = q)) as [Hdq|Hdq].
    + rewrite Hdq in *. rewrite Hstq. done.
    + rewrite Hsame; [done|by apply Hvd|done].
  - (* index_ok *)
    intros i s Hi'. rewrite Hs1 in Hi'.
    assert (s ∈ states σ) as Hs by (by eapply list_elem_of_lookup_2).
    rewrite Hsame; [by apply Hi|by apply Hst|]. intros ->. done.
  - intros s. rewrite Hs1, Hn. intros Hs. apply Hst in Hs. lia.
  - (* root *)
    intros s it Hs0. rewrite Hs1 in Hs0.
    assert (s ∈ states σ) as Hs by (by eapply list_elem_of_lookup_2).
    unfold items. rewrite Hsame; [by apply Hroot1|by apply Hst|]. intros ->. done.
  - intros Hnil it Hit. rewrite Hs1 in Hnil. unfold items in Hit. rewrite Hstq in Hit.
    cbn [itemSet] in Hit. apply (list_elem_of_fmap_2 core) in Hit.
    destruct (Hnew _ Hit) as [Hc'|[Hp _]]; [|done].
    apply list_elem_of_fmap in Hc' as (it0 & Hc' & Hit0).
    apply (Hroot2 Hnil q it0 HqQ) in Hit0. unfold core in Hc'. injection Hc' as _ ->. done.
Qed.

Lemma admittedStore_state q σ s :
  q < length (stateObjs σ) →
  stateOf (admittedStore q σ) s =
  if decide (s = q) then withIndex (Z.of_nat (length (states σ))) (stateOf σ q)
  else stateOf σ s.
Proof.
  intros Hq. unfold admittedStore. rewrite stateOf_setStates, stateOf_alter.
  destruct (decide (s = q)) as [->|Hne].
  - by rewrite decide_True.
  - rewrite decide_False; [done|tauto].
Qed.

Lemma admittedStore_lists q σ s :
  itemSet (stateOf (admittedStore q σ) s) = itemSet (stateOf σ s) ∧
  outEdges (stateOf (admittedStore q σ) s) = outEdges (stateOf σ s) ∧
  inEdges (stateOf (admittedStore q σ) s) = inEdges (stateOf σ s).
Proof.
  unfold admittedStore. rewrite stateOf_setStates, stateOf_alter.
  destruct (decide _) as [[-> _]|]; done.
Qed.

Lemma automaton_inv_admit q Q' R σ1 :
  processed_inv q Q' R σ1 →
  builder_inv (Q' ++ R) (admittedStore q σ1) →
  automaton_inv (Q' ++ R) (admittedStore q σ1).
Proof.
  intros (Hstore & [Hvo Hvd] & He & Hr & Ht & Hq & Hqn & HqQ' & Hqout & Hqin & Hc & Hi
          & Hst & Hroot1 & Hroot2) Hb.
  set (σ2 := admittedStore q σ1) in *.
  assert (∀ s, itemSet (stateOf σ2 s) = itemSet (stateOf σ1 s) ∧
               outEdges (stateOf σ2 s) = outEdges (stateOf σ1 s) ∧
               inEdges (stateOf σ2 s) = inEdges (stateOf σ1 s)) as Hl
    by apply admittedStore_lists.
  assert (∀ s, items σ2 s = items σ1 s) as Hit by (intros s; apply Hl).
  assert (∀ e, edgeOf σ2 e = edgeOf σ1 e) as Hed by done.
  assert (states σ2 = states σ1 ++ [q]) as Hs2 by done.
  assert (length (stateObjs σ2) = length (stateObjs σ1)) as Hn2.
  { unfold σ2, admittedStore. cbn. apply length_alter. }
  assert (length (edgeObjs σ2) = length (edgeObjs σ1)) as Hm2 by done.
  assert (rules σ2 = rules σ1) as Hr2 by done.
  unfold automaton_inv. split_and!; [done|..].
  - split.
    + intros s e. rewrite Hm2. destruct (Hl s) as (_ & -> & _). apply Hvo.
    + intros e. rewrite Hm2, Hn2, Hed. apply Hvd.
  - intros s e. destruct (Hl s) as (_ & -> & _). rewrite Hr2, Hed, !Hit. apply He.
  - intros s it. rewrite Hr2, Hit. apply Hr.
  - intros q' Hq'. destruct (Hl q') as (_ & -> & ->). rewrite Hm2.
    destruct (Ht q' Hq') as [Ho Hi']. split; [done|]. intros e. rewrite Hed. apply Hi'.
  - intros s e Hs. destruct (Hl s) as (_ & -> & _). rewrite Hed, Hs2. intros Hein.
    destruct (Hl (dest (edgeOf σ1 e))) as (_ & _ & ->).
    apply elem_of_app in Hs as [Hs|Hs].
    + destruct (Hc s e Hs Hein) as [Hd|[Hd Hine]].
      * left. apply elem_of_app. by left.
      * apply elem_of_app in Hd as [Hd|Hd].
        -- right. split; [apply elem_of_app; by left|done].
        -- left. apply elem_of_app. by right.
    + apply list_elem_of_singleton in Hs as ->.
      destruct (Hqout e Hein) as [Hd Hine]. right. split; [apply elem_of_app; by right|done].
  - intros i s. rewrite Hs2. intros Hi'.
    unfold σ2. rewrite admittedStore_state by done.
    apply lookup_app_Some in Hi' as [Hi'|[Hge Hi']].
    + assert (s ∈ states σ1) as Hs by (by eapply list_elem_of_lookup_2).
      rewrite decide_False; [by apply Hi|]. intros ->. done.
    + apply list_lookup_singleton_Some in Hi' as [Hi0 <-].
      rewrite decide_True by done. cbn. f_equal. lia.
  - split.
    + intros s it. rewrite Hs2, Hit. intros Hs0.
      destruct (states σ1) as [|s0 l] eqn:Hst1.
      * cbn in Hs0. injection Hs0 as <-. by apply Hroot2.
      * cbn in Hs0. injection Hs0 as <-. intros Hin. by apply (Hroot1 s0).
    + rewrite Hs2. intros Hnil. by destruct (states σ1).
Qed.

Lemma automaton_inv_merge q Q' R s0 σ1 σ2 :
  processed_inv q Q' R σ1 →
  builder_inv Q' σ2 →
  s0 ∈ states σ1 →
  state_equal (stateOf σ1 s0) (stateOf σ1 q) = true →
  redirected s0 (inEdges (stateOf σ1 q)) σ1 σ2 →
  automaton_inv Q' σ2.
Proof.
  intros (Hstore & [Hvo Hvd] & He & Hr & Ht & Hq & Hqn & HqQ' & Hqout & Hqin & Hc & Hi
          & Hst & Hroot1 & Hroot2) Hb Hs0 Heq
         (Hr2 & Hf2 & Hs2 & Ht2 & Hn2 & Hm2 & Hst2 & Hed2).
  assert (∀ s, items σ2 s = items σ1 s) as Hit.
  { intros s. unfold items. by destruct (Hst2 s) as (-> & _). }
  assert (∀ s, outEdges (stateOf σ2 s) = outEdges (stateOf σ1 s)) as Hout.
  { intros s. by destruct (Hst2 s) as (_ & _ & -> & _). }
  assert (∀ e, label (edgeOf σ2 e) = label (edgeOf σ1 e)) as Hlbl.
  { intros e. rewrite Hed2. by destruct (decide _). }
  (* the destination of an edge after the redirection *)
  assert (∀ e, e < length (edgeObjs σ1) →
               (e ∈ inEdges (stateOf σ1 q) ∧ dest (edgeOf σ1 e) = q ∧ dest (edgeOf σ2 e) = s0)
               ∨ ((e ∉ inEdges (stateOf σ1 q)) ∧ edgeOf σ2 e = edgeOf σ1 e)) as Hdest.
  { intros e Hlt. rewrite Hed2.
    destruct (decide (e ∈ inEdges (stateOf σ1 q) ∧ e < length (edgeObjs σ1))) as [[Hin _]|Hn].
    - left. split_and!; [done|by apply Hqin|done].
    - right. split; [tauto|done]. }
  assert (Hb' := Hb). destruct Hb' as (_ & _ & _ & HQ & _).
  assert (s0 ≠ q) as Hs0q by (intros ->; done).
  unfold automaton_inv. split_and!.
  - done.
  - split.
    + intros s e. rewrite Hm2, Hout. apply Hvo.
    + intros e. rewrite Hm2, Hn2. intros Hlt.
      destruct (Hdest e Hlt) as [(_ & _ & ->)|(_ & ->)]; [by apply Hst|by apply Hvd].
  - intros s e. rewrite Hout, Hr2, Hlbl, !Hit. intros Hein.
    assert (e < length (edgeObjs σ1)) as Hlt by (by eapply Hvo).
    destruct (Hdest e Hlt) as [(_ & Hdq & ->)|(_ & ->)]; [|by apply He].
    pose proof (He s e Hein) as Hadv. rewrite Hdq in Hadv.
    eapply advances_cores; [| |exact Hadv]; [done|].
    intros c Hcin _. by apply (state_equal_cores _ _ Heq).
  - intros s it. rewrite Hr2, Hit. apply Hr.
  - intros q' Hq'. assert (q' ∈ Q' ++ R) as Hq'' by (apply elem_of_app; by left).
    destruct (Ht q' Hq'') as [Ho Hi']. rewrite Hout, Hm2. split; [done|].
    assert (q' ≠ s0) as Hne.
    { intros ->. destruct (HQ s0 Hq') as [_ Hn]. rewrite Hs2 in Hn. done. }
    destruct (Hst2 q') as (_ & _ & _ & Hin2). rewrite (Hin2 Hne).
    intros e Hein. destruct (Hi' e Hein) as [Hlt Hd]. split; [done|].
    destruct (Hdest e Hlt) as [(_ & Hdq & _)|(_ & ->)]; [|done].
    exfalso. apply HqQ'. rewrite <- Hdq, Hd. exact Hq'.
  - intros s e. rewrite Hs2, Hout. intros Hs Hein.
    assert (e < length (edgeObjs σ1)) as Hlt by (by eapply Hvo).
    destruct (Hdest e Hlt) as [(_ & _ & ->)|(Hnin & ->)]; [by left|].
    destruct (Hc s e Hs Hein) as [Hd|[Hd Hine]]; [by left|].
    apply elem_of_app in Hd as [Hd|Hd].
    + right. split; [done|].
      assert (dest (edgeOf σ1 e) ≠ s0) as Hne.
      { intros Heq'. rewrite Heq' in Hd. destruct (HQ s0 Hd) as [_ Hn].
        rewrite Hs2 in Hn. done. }
      destruct (Hst2 (dest (edgeOf σ1 e))) as (_ & _ & _ & Hin2). by rewrite (Hin2 Hne).
    + apply list_elem_of_singleton in Hd. rewrite Hd in Hine. done.
  - intros i s. rewrite Hs2. destruct (Hst2 s) as (_ & -> & _). apply Hi.
  - split.
    + intros s it. rewrite Hs2, Hit. apply Hroot1.
    + rewrite Hs2. intros Hnil. rewrite Hnil in Hs0. by apply elem_of_nil in Hs0.
Qed.

Lemma automaton_inv_step inner q Q' R b σ σ1 σ2 :
  automaton_inv (Q' ++ [q]) σ →
  calcItemSet inner q σ = (Ok R, σ1) →
  addState q σ1 = (Ok b, σ2) →
  automaton_inv (if b then Q' ++ R else Q') σ2.
Proof.
  intros Hinv Hcalc Hadd.
  assert (builder_inv (if b then Q' ++ R else Q') σ2) as Hb.
  { destruct Hinv as [Hb _]. by eapply builder_inv_step. }
  pose proof (calcItemSet_processed _ _ _ _ _ _ Hinv Hcalc) as Hp.
  apply addState_Ok in Hadd. destruct b.
  - destruct Hadd as [_ ->]. by apply automaton_inv_admit.
  - destruct Hadd as (s0 & Hs0 & Heq & Hred). by eapply automaton_inv_merge.
Qed.

Lemma stateLoop_automaton_inv fuel inner Q σ σ' :
  automaton_inv Q σ → stateLoop fuel inner Q σ = (Ok tt, σ') → automaton_inv [] σ'.
Proof.
  apply (stateLoop_invariant automaton_inv inner). intros *. apply automaton_inv_step.
Qed.

(** *** The automaton invariant around the worklist loop *)

Lemma stateOf_initialStore f σ s :
  stateObjs σ = [] →
  stateOf (initialStore f σ) s =
  if decide (s = 0) then withItemSet (λ _, [rootItem]) newState else newState.
Proof.
  intros Ho. unfold initialStore, stateOf.
  cbn [stateObjs setStateObjs setRules setFirst]. rewrite Ho. cbn [length app].
  destruct s as [|s]; [done|]. by destruct s.
Qed.

Lemma edgeOf_initialStore f σ e : edgeOf (initialStore f σ) e = edgeOf σ e.
Proof. done. Qed.

Lemma rules_initialStore f σ :
  rules (initialStore f σ) = imap (λ i r, setRuleIndex r (Z.of_nat i)) (rules σ).
Proof. done. Qed.

Lemma automaton_inv_initial f σ :
  states σ = [] → stateObjs σ = [] → edgeObjs σ = [] → rules σ ≠ [] →
  automaton_inv [length (stateObjs σ)] (initialStore f σ).
Proof.
  intros Hs Ho He Hr.
  assert (states (initialStore f σ) = []) as Hs' by done.
  assert (∀ s, outEdges (stateOf (initialStore f σ) s) = []) as Hout.
  { intros s. rewrite stateOf_initialStore by done. by destruct (decide _). }
  assert (∀ s, inEdges (stateOf (initialStore f σ) s) = []) as Hin.
  { intros s. rewrite stateOf_initialStore by done. by destruct (decide _). }
  assert (∀ s it, it ∈ items (initialStore f σ) s → it = rootItem) as Hit.
  { intros s it. unfold items. rewrite stateOf_initialStore by done.
    destruct (decide _); cbn; [|by intros ?%elem_of_nil].
    by intros ->%list_elem_of_singleton. }
  unfold automaton_inv. split_and!.
  - apply builder_inv_initial. by apply builder_inv_fresh.
  - split.
    + intros s e. rewrite Hout. by intros ?%elem_of_nil.
    + intros e. cbn. rewrite He. cbn. lia.
  - intros s e. rewrite Hout. by intros ?%elem_of_nil.
  - intros s it ->%Hit. rewrite rules_initialStore, length_imap. cbn.
    destruct (rules σ); [done|cbn; lia].
  - intros q _. rewrite Hout. split; [done|]. intros e. rewrite Hin. by intros ?%elem_of_nil.
  - intros s e. rewrite Hs'. by intros ?%elem_of_nil.
  - intros i s. by rewrite Hs'.
  - split.
    + intros s it. by rewrite Hs'.
    + intros _ q it _ ->%Hit. done.
Qed.

Lemma automaton_inv_same_automaton σ σ' :
  same_automaton σ σ' → automaton_inv [] σ → automaton_inv [] σ'.
Proof.
  intros Hsame (Hb & (Hv1 & Hv2) & Hok & Hrules & Htent & Hclosed & Hidx & Hroot1 & Hroot2).
  pose proof Hsame as (Hr & Hf & Hs & Ho & He).
  assert (∀ s, stateOf σ' s = stateOf σ s) as HS.
  { intros s. unfold stateOf. by rewrite Ho. }
  assert (∀ e, edgeOf σ' e = edgeOf σ e) as HE.
  { intros e. unfold edgeOf. by rewrite He. }
  assert (∀ s, items σ' s = items σ s) as HI.
  { intros s. unfold items. by rewrite HS. }
  unfold automaton_inv. split_and!.
  - by eapply builder_inv_same_automaton.
  - split.
    + intros s e. rewrite HS, He. apply Hv1.
    + intros e. rewrite HE, He, Ho. apply Hv2.
  - intros s e. rewrite HS, HE, Hr, !HI. apply Hok.
  - intros s it. rewrite HI, Hr. apply Hrules.
  - intros q Hq. by apply elem_of_nil in Hq.
  - intros s e. rewrite Hs, HS, !HE, HS. apply Hclosed.
  - intros i s. rewrite Hs, HS. apply Hidx.
  - split.
    + intros s it. rewrite Hs, HI. apply Hroot1.
    + intros _ q it Hq. by apply elem_of_nil in Hq.
Qed.

Lemma calcTable_automaton_inv fuel σ t σ' :
  states σ = [] → stateObjs σ = [] → edgeObjs σ = [] →
  calcTable fuel σ = (Ok t, σ') → automaton_inv [] σ'.
Proof.
  intros Hs Ho He E. apply calcTable_Ok in E as (f & σa & Hr & _ & _ & Hloop & Hrows & _).
  apply forM_buildRow_Ok in Hrows.
  eapply automaton_inv_same_automaton; [exact Hrows|].
  apply (automaton_inv_same_automaton σa); [by unfold same_automaton|].
  eapply stateLoop_automaton_inv; [|exact Hloop]. by apply automaton_inv_initial.
Qed.

(** The worklist loop does not touch the rules. *)
Lemma stateLoop_rules fuel inner Q σ σ' :
  automaton_inv Q σ → stateLoop fuel inner Q σ = (Ok tt, σ') → rules σ' = rules σ.
Proof.
  intros Hinv E.
  enough (automaton_inv [] σ' ∧ rules σ' = rules σ) as [_ ?]; [done|].
  revert E. apply (stateLoop_invariant (λ Q σ1, automaton_inv Q σ1 ∧ rules σ1 = rules σ) inner);
    [|done].
  clear. intros q Q' R b σ0 σ1 σ2 [Hinv Hr] Hcalc Hadd. split.
  { by eapply automaton_inv_step. }
  assert (q < length (stateObjs σ0)) as Hq.
  { destruct Hinv as ((_ & _ & _ & Hw & _) & _). apply Hw. set_solver. }
  apply calcItemSet_Ok in Hcalc as (its & _ & _ & Hsucc); [|done].
  destruct Hsucc as (_ & _ & Hr1 & _). cbn in Hr1.
  apply addState_Ok in Hadd. destruct b.
  - destruct Hadd as (_ & ->). cbn. congruence.
  - destruct Hadd as (s0 & _ & _ & (Hr2 & _)). congruence.
Qed.

Lemma calcTable_rules fuel σ t σ' :
  states σ = [] → stateObjs σ = [] → edgeObjs σ = [] →
  calcTable fuel σ = (Ok t, σ') →
  rules σ' = imap (λ i r, setRuleIndex r (Z.of_nat i)) (rules σ).
Proof.
  intros Hs Ho He E. apply calcTable_Ok in E as (f & σa & Hr & _ & _ & Hloop & Hrows & _).
  apply forM_buildRow_Ok in Hrows as (-> & _). cbn.
  apply stateLoop_rules in Hloop; [|by apply automaton_inv_initial]. by rewrite Hloop.
Qed.

Lemma ruleOf_indexed rs j :
  j < length rs →
  rule_index (ruleOf (imap (λ i r, setRuleIndex r (Z.of_nat i)) rs) j) = Z.of_nat j
  ∧ rhs (ruleOf (imap (λ i r, setRuleIndex r (Z.of_nat i)) rs) j) = rhs (ruleOf rs j).
Proof.
  intros Hj. unfold ruleOf. rewrite list_lookup_imap.
  apply lookup_lt_is_Some in Hj as [r ->]. done.
Qed.

(** *** The rows of the table *)

(** Invariant rule for the loops written with [foldR]. *)
Lemma foldR_invariant {A S} (f : A → S → result S) (I : list A → S → Prop) l s s' :
  foldR f l s = Ok s' →
  I [] s →
  (∀ done x a a', I done a → x ∈ l → f x a = Ok a' → I (done ++ [x]) a') →
  I l s'.
Proof.
  intros E H0 Hstep.
  enough (∀ done, I done s → (∀ x, x ∈ l → x ∈ l) →
                  (∀ done x a a', I done a → x ∈ l → f x a = Ok a' → I (done ++ [x]) a') →
                  I (done ++ l) s') as Hgen.
  { by apply (Hgen []). }
  clear H0 Hstep. revert s E. induction l as [|x l IH]; intros s E done Hd _ Hstep.
  - cbn in E. simplify_eq. by rewrite app_nil_r.
  - cbn [foldR] in E. destruct (f x s) as [a| | | |] eqn:Ef; try done.
    rewrite (cons_middle x), (assoc_L (++)). apply (IH a E); [|done|].
    + eapply Hstep; [done| |done]. by left.
    + intros done' y b b' Hb Hy. apply Hstep; [done|]. by right.
Qed.

Lemma edgeEntry_Ok σ ed row row' :
  edgeEntry σ ed row = Ok row' →
  let e := edgeOf σ ed in
  let entry := {| shift := true; entry_value := state_index (stateOf σ (dest e)) |} in
  (item_type (label e) = Terminal ∧ row' = setAction (item_value (label e)) entry row)
  ∨ (item_type (label e) = NonTerminal ∧ row' = setGoto (item_value (label e)) entry row).
Proof.
  unfold edgeEntry. destruct (item_type _).
  - destruct (actionEntries row !! _); [done|]. intros [= <-]. by left.
  - destruct (gotoEntries row !! _); [done|]. intros [= <-]. by right.
Qed.

Lemma label_eta (l : LR1_RuleItem) ty : item_type l = ty → l = mkRuleItem ty (item_value l).
Proof. destruct l. by intros <-. Qed.

Lemma foldR_edgeEntry σ es row1 :
  foldR (edgeEntry σ) es emptyRow = Ok row1 →
  shift_entries σ es row1 ∧ ∀ k e, actionEntries row1 !! k = Some e → shift e = true.
Proof.
  intros E.
  apply (foldR_invariant _
           (λ done row, shift_entries σ done row ∧
                        ∀ k e, actionEntries row !! k = Some e → shift e = true) _ _ _ E).
  - split; [split|]; intros k e; cbn; by rewrite lookup_empty.
  - intros done ed row row' [[Ha Hg] Hs] _ Hed.
    unfold shift_entries.
    apply edgeEntry_Ok in Hed as [[Hty ->]|[Hty ->]]; cbn [actionEntries gotoEntries setAction setGoto].
    + split; [split|].
      * intros k e. destruct (decide (k = item_value (label (edgeOf σ ed)))) as [->|Hne].
        -- rewrite lookup_insert_eq. intros [= <-] _. exists ed. split; [set_solver|].
           split; [by apply label_eta|done].
        -- rewrite lookup_insert_ne by done. intros Hk Hsh.
           destruct (Ha k e Hk Hsh) as (ed' & ? & ?). exists ed'. split; [set_solver|done].
      * intros k e Hk. destruct (Hg k e Hk) as (ed' & ? & ?). exists ed'. split; [set_solver|done].
      * intros k e. destruct (decide (k = item_value (label (edgeOf σ ed)))) as [->|Hne].
        -- rewrite lookup_insert_eq. by intros [= <-].
        -- rewrite lookup_insert_ne by done. apply Hs.
    + split; [split|].
      * intros k e Hk Hsh. destruct (Ha k e Hk Hsh) as (ed' & ? & ?).
        exists ed'. split; [set_solver|done].
      * intros k e. destruct (decide (k = item_value (label (edgeOf σ ed)))) as [->|Hne].
        -- rewrite lookup_insert_eq. intros [= <-]. exists ed. split; [set_solver|].
           split; [by apply label_eta|done].
        -- rewrite lookup_insert_ne by done. intros Hk.
           destruct (Hg k e Hk) as (ed' & ? & ?). exists ed'. split; [set_solver|done].
      * done.
Qed.

Lemma calcReduceEntries_Ok rs s red :
  calcReduceEntries rs s = Ok red →
  ∀ k e, (k, e) ∈ red →
    ∃ it, it ∈ itemSet s ∧ pos it = length (rhs (ruleOf rs (rule it))) ∧
          entry_value e = rule_index (ruleOf rs (rule it)) ∧ k ∈ lookAheadSet it.
Proof.
  intros E. unfold calcReduceEntries in E.
  apply (foldR_invariant _
           (λ done entries, ∀ k e, (k, e) ∈ entries →
              ∃ it, it ∈ done ∧ pos it = length (rhs (ruleOf rs (rule it))) ∧
                    entry_value e = rule_index (ruleOf rs (rule it)) ∧ k ∈ lookAheadSet it)
           _ _ _ E).
  - intros k e Hin. by apply elem_of_nil in Hin.
  - intros done it entries entries' IH _ Hstep.
    assert (∀ k e, (k, e) ∈ entries →
              ∃ it', it' ∈ done ++ [it] ∧ pos it' = length (rhs (ruleOf rs (rule it'))) ∧
                     entry_value e = rule_index (ruleOf rs (rule it')) ∧ k ∈ lookAheadSet it')
      as IH'.
    { intros k e Hin. destruct (IH k e Hin) as (it' & ? & ?). exists it'. split; [set_solver|done]. }
    clear IH. destruct (Nat.eqb_spec (pos it) (length (rhs (ruleOf rs (rule it))))) as [Hpos|_];
      [|by simplify_eq].
    apply (foldR_invariant _
           (λ seen entries, ∀ k e, (k, e) ∈ entries →
              (∃ it', it' ∈ done ++ [it] ∧ pos it' = length (rhs (ruleOf rs (rule it'))) ∧
                      entry_value e = rule_index (ruleOf rs (rule it')) ∧ k ∈ lookAheadSet it'))
           _ _ _ Hstep); [done|].
    intros seen terminal a a' Ha Hterm Hf.
    destruct (inEntries terminal a); [done|]. injection Hf as <-.
    intros k e [Hin|Hin%list_elem_of_singleton]%elem_of_app; [by apply Ha|].
    injection Hin as -> ->. exists it. split; [set_solver|]. by cbn.
Qed.

Lemma foldR_reduceEntry red row1 row :
  foldR reduceEntry red row1 = Ok row →
  gotoEntries row = gotoEntries row1 ∧
  ∀ k e, actionEntries row !! k = Some e →
         actionEntries row1 !! k = Some e
         ∨ (shift e = false ∧ ∃ e0, (k, e0) ∈ red ∧ entry_value e = entry_value e0).
Proof.
  intros E.
  apply (foldR_invariant _
           (λ done row, gotoEntries row = gotoEntries row1 ∧
              ∀ k e, actionEntries row !! k = Some e →
                     actionEntries row1 !! k = Some e
                     ∨ (shift e = false ∧ ∃ e0, (k, e0) ∈ done ∧ entry_value e = entry_value e0))
           _ _ _ E).
  - split; [done|]. intros k e Hk. by left.
  - intros done [k0 e0] a a' [Hg Ha] _ Hf. unfold reduceEntry in Hf. cbn [fst snd] in Hf.
    destruct (actionEntries a !! k0); [done|]. injection Hf as <-.
    cbn [setAction gotoEntries actionEntries]. split; [done|].
    intros k e. destruct (decide (k = k0)) as [->|Hne].
    + rewrite lookup_insert_eq. intros [= <-]. right. split; [done|].
      exists e0. split; [set_solver|done].
    + rewrite lookup_insert_ne by done. intros Hk.
      destruct (Ha k e Hk) as [?|(? & e1 & ? & ?)]; [by left|right].
      split; [done|]. exists e1. split; [set_solver|done].
Qed.

Lemma row_of_spec σ s row :
  row_of σ s row →
  shift_entries σ (outEdges (stateOf σ s)) row ∧ reduce_entries (rules σ) (items σ s) row.
Proof.
  intros (row1 & red & E1 & E2 & E3).
  apply foldR_edgeEntry in E1 as [[Ha Hg] Hs].
  apply foldR_reduceEntry in E3 as [Hg' Ha'].
  split; [split|].
  - intros k e Hk Hsh. destruct (Ha' k e Hk) as [H1|[Hf _]]; [by apply Ha|congruence].
  - intros k e. rewrite Hg'. apply Hg.
  - intros k e Hk Hsh. destruct (Ha' k e Hk) as [H1|(_ & e0 & Hin & ->)].
    + apply Hs in H1. congruence.
    + by apply (calcReduceEntries_Ok _ _ _ E2).
Qed.

Lemma foldR_ext {A S} (f g : A → S → result S) l s :
  (∀ x a, f x a = g x a) → foldR f l s = foldR g l s.
Proof.
  intros Hfg. revert s. induction l as [|x l IH]; intros s; cbn [foldR]; [done|].
  rewrite Hfg. by destruct (g x s).
Qed.

Lemma row_of_same_automaton σ σ' s row :
  same_automaton σ σ' → row_of σ s row → row_of σ' s row.
Proof.
  intros (Hr & _ & _ & Ho & He) (row1 & red & E1 & E2 & E3).
  assert (∀ x, stateOf σ' x = stateOf σ x) as HS.
  { intros x. unfold stateOf. by rewrite Ho. }
  assert (∀ x a, edgeEntry σ' x a = edgeEntry σ x a) as HE.
  { intros x a. unfold edgeEntry, edgeOf. by rewrite He, HS. }
  exists row1, red. rewrite HS, Hr, (foldR_ext _ _ _ _ HE). done.
Qed.

Lemma forM_buildRow_rows l σ σ' rows0 :
  forM_ buildRow l σ = (Ok tt, σ') →
  table σ = Some (mkTable rows0) →
  ∃ rows1, table σ' = Some (mkTable (rows0 ++ rows1)) ∧ Forall2 (row_of σ) l rows1.
Proof.
  revert σ rows0. induction l as [|s l IH]; intros σ rows0 E Ht; cbn [forM_] in E.
  - unfold mret in E. simplify_eq. exists []. by rewrite app_nil_r.
  - apply mbindM_Ok in E as ([] & σ1 & E1 & E2).
    apply buildRow_Ok in E1 as (Hsame & row1 & red & row2 & F1 & F2 & F3 & Ht1).
    rewrite Ht in Ht1. cbn in Ht1.
    replace (length rows0) with (length rows0 + 0) in Ht1 by lia.
    rewrite insert_app_r in Ht1. cbn in Ht1.
    destruct (IH _ _ E2 Ht1) as (rows1 & Ht' & Hall).
    exists (row2 :: rows1). split.
    + by rewrite <- (assoc_L (++)) in Ht'.
    + constructor.
      * by exists row1, red.
      * eapply Forall2_impl; [exact Hall|]. intros x y Hxy.
        eapply row_of_same_automaton; [|exact Hxy].
        destruct Hsame as (?&?&?&?&?). unfold same_automaton. split_and!; congruence.
Qed.

Lemma calcTable_rows fuel σ t σ' :
  calcTable fuel σ = (Ok t, σ') → Forall2 (row_of σ') (states σ') (rows t).
Proof.
  intros E. apply calcTable_Ok in E as (f & σa & _ & _ & _ & _ & Hrows & Ht).
  pose proof (forM_buildRow_Ok _ _ _ Hrows) as Hsame.
  apply (forM_buildRow_rows _ _ _ []) in Hrows as (rows1 & Ht' & Hall); [|done].
  rewrite Ht in Ht'. injection Ht' as ->. cbn.
  destruct Hsame as (Hr & Hf & Hs & Ho & He). rewrite Hs. cbn.
  eapply Forall2_impl; [exact Hall|]. intros x y Hxy.
  eapply row_of_same_automaton; [|exact Hxy]. unfold same_automaton. by split_and!.
Qed.

(** The worklist loop admits at least one state. *)
Lemma stateLoop_admits fuel inner Q σ σ' :
  Q ≠ [] ∨ states σ ≠ [] → stateLoop fuel inner Q σ = (Ok tt, σ') → states σ' ≠ [].
Proof.
  intros H0 E.
  enough ([] ≠ ([] : list nat) ∨ states σ' ≠ []) as [?|?]; [done..|].
  revert E. apply (stateLoop_invariant (λ Q σ1, Q ≠ [] ∨ states σ1 ≠ []) inner); [|done].
  clear. intros q Q' R b σ0 σ1 σ2 _ _ Hadd. right.
  apply addState_Ok in Hadd. destruct b.
  - destruct Hadd as (_ & ->). cbn. by destruct (states σ1).
  - destruct Hadd as (s0 & Hs0 & _ & (_ & _ & -> & _)). intros Hnil. rewrite Hnil in Hs0.
    by apply elem_of_nil in Hs0.
Qed.

Lemma calcTable_admits fuel σ t σ' :
  calcTable fuel σ = (Ok t, σ') → states σ' ≠ [].
Proof.
  intros E. apply calcTable_Ok in E as (f & σa & _ & _ & _ & Hloop & Hrows & _).
  apply forM_buildRow_Ok in Hrows as (_ & _ & -> & _). cbn.
  eapply stateLoop_admits; [|exact Hloop]. by left.
Qed.

(** *** The parse stack follows the automaton *)

Lemma calcTable_table_ok fuel rs t σ' :
  calcTable fuel (withRules rs) = (Ok t, σ') → table_ok σ' t.
Proof.
  intros E. destruct (withRules_fields rs) as (Hr & _ & Hs & _ & Ho & He).
  unfold table_ok. split_and!.
  - by eapply calcTable_automaton_inv.
  - rewrite (calcTable_rules _ _ _ _ Hs Ho He E). intros j. rewrite length_imap. intros Hj.
    by apply ruleOf_indexed.
  - by eapply calcTable_admits.
  - by eapply calcTable_rows.
Qed.

Lemma stack_wf_length σ stack s ls :
  stack_wf σ stack s ls → length stack = 2 * length ls + 1.
Proof.
  induction 1 as [|stack s ls e x i _ IH]; [done|]. rewrite !length_app, IH. cbn. lia.
Qed.

Lemma stack_wf_top σ stack s ls :
  stack_wf σ stack s ls →
  ∃ i, last stack = Some (StNumber (Z.of_nat i)) ∧ states σ !! i = Some s.
Proof.
  destruct 1 as [s0 H0|stack s ls e x i _ _ Hi _].
  - by exists 0.
  - exists i. split; [|done].
    by rewrite last_app.
Qed.

(** An item with the dot at position [p] in the top state: the last [p]
    labels of the path are the first [p] symbols of its rule. *)
Lemma stack_wf_items σ stack s ls :
  edges_ok σ →
  (∀ s0 it, states σ !! 0 = Some s0 → it ∈ items σ s0 → pos it = 0) →
  stack_wf σ stack s ls →
  ∀ it, it ∈ items σ s →
        pos it ≤ length ls ∧
        ∀ j, j < pos it →
             rhs (ruleOf (rules σ) (rule it)) !! j = ls !! (length ls - pos it + j).
Proof.
  intros Hedges Hroot. induction 1 as [s0 H0|stack s ls e x i Hwf IH He Hi Hx]; intros it Hit.
  - rewrite (Hroot s0 it H0 Hit). split; [cbn; lia|]. intros j Hj. lia.
  - destruct (pos it) as [|p] eqn:Hp.
    { split; [lia|]. intros j Hj. lia. }
    destruct (Hedges s e He (core it)) as [Hprev Hlbl].
    { by apply list_elem_of_fmap_2. }
    { cbn. lia. }
    cbn [core fst snd] in Hprev, Hlbl. rewrite Hp in Hprev, Hlbl.
    replace (S p - 1) with p in Hprev, Hlbl by lia.
    apply list_elem_of_fmap_1 in Hprev as (it' & Hcore & Hit').
    injection Hcore as Hrule Hpos.
    destruct (IH it' Hit') as [Hle Hsym]. rewrite <- Hpos in Hle, Hsym.
    rewrite length_app. cbn [length]. split; [lia|].
    intros j Hj. destruct (decide (j = p)) as [->|Hne].
    + rewrite Hlbl. replace (length ls + 1 - S p + p) with (length ls) by lia.
      by rewrite list_lookup_middle.
    + rewrite lookup_app_l by lia. rewrite Hrule, Hsym by lia. f_equal. lia.
Qed.

(** Popping [2·k] slots leaves a stack that follows the path without its
    last [k] edges. *)
Lemma stack_wf_take σ stack s ls k :
  stack_wf σ stack s ls → k ≤ length ls →
  ∃ s', stack_wf σ (take (length stack - 2 * k) stack) s' (take (length ls - k) ls).
Proof.
  intros Hwf. revert k. induction Hwf as [s0 H0|stack s ls e x i Hwf IH He Hi Hx]; intros k Hk.
  - cbn in Hk. replace k with 0 by lia. exists s0. cbn. by constructor.
  - pose proof (stack_wf_length _ _ _ _ Hwf) as Hlen.
    rewrite length_app in Hk. cbn [length] in Hk.
    destruct k as [|k].
    + rewrite !Nat.sub_0_r, !take_ge by lia. eexists. by econstructor.
    + rewrite !length_app. cbn [length].
      replace (length stack + 2 - 2 * S k) with (length stack - 2 * k) by lia.
      replace (length ls + 1 - S k) with (length ls - k) by lia.
      rewrite !take_app_le by lia. apply IH. lia.
Qed.

Lemma symbolSlots_snoc items x n :
  (∃ m, length items = 2 * m) → symbolSlots (items ++ [x; n]) = symbolSlots items ++ [x].
Proof.
  induction items as [|y|y z rest IH] using list_pair_ind; intros [m Hm].
  - done.
  - cbn in Hm. lia.
  - cbn [app symbolSlots]. rewrite IH; [done|]. exists (m - 1). cbn in Hm. lia.
Qed.

(** The popped symbol slots match the last [k] labels of the path. *)
Lemma stack_wf_slots σ stack s ls k :
  stack_wf σ stack s ls → k ≤ length ls →
  Forall2 slot_matches (symbolSlots (drop (length stack - 2 * k) stack))
          (drop (length ls - k) ls).
Proof.
  intros Hwf. revert k. induction Hwf as [s0 H0|stack s ls e x i Hwf IH He Hi Hx]; intros k Hk.
  - cbn in Hk. replace k with 0 by lia. cbn. constructor.
  - pose proof (stack_wf_length _ _ _ _ Hwf) as Hlen.
    rewrite length_app in Hk. cbn [length] in Hk.
    destruct k as [|k].
    + rewrite !Nat.sub_0_r, !drop_ge by lia. constructor.
    + rewrite !length_app. cbn [length].
      replace (length stack + 2 - 2 * S k) with (length stack - 2 * k) by lia.
      replace (length ls + 1 - S k) with (length ls - k) by lia.
      rewrite !drop_app_le by lia.
      rewrite symbolSlots_snoc.
      * apply Forall2_app; [apply IH; lia|]. by constructor.
      * exists k. rewrite length_drop. lia.
Qed.

(** Matching slots at terminal positions are tokens. *)
Lemma terminalSlots_tokens rhs_ symbols :
  Forall2 slot_matches symbols rhs_ → Forall is_token (terminalSlots rhs_ symbols).
Proof.
  induction 1 as [|v x symbols rhs_ Hvx _ IH]; cbn [terminalSlots]; [constructor|].
  unfold slot_matches in Hvx. destruct (item_type x); [|done]. by constructor.
Qed.

Lemma lookupZ_nat {A} (l : list A) i : lookupZ l (Z.of_nat i) = l !! i.
Proof.
  unfold lookupZ. destruct (Z.ltb_spec (Z.of_nat i) 0); [lia|]. by rewrite Nat2Z.id.
Qed.

Lemma findEntry_Some row tk e :
  findEntry row tk = Some e → ∃ k, actionEntries row !! k = Some e.
Proof.
  unfold findEntry. destruct (isLiteralClass _).
  - destruct (actionEntries row !! (":" +:+ tk_token tk)) as [e'|] eqn:E.
    + intros [= <-]. eauto.
    + eauto.
  - eauto.
Qed.

Lemma table_row σ t i s :
  table_ok σ t → states σ !! i = Some s →
  ∃ row, rows t !! i = Some row ∧ row_of σ s row.
Proof. intros (_ & _ & _ & Hrows) Hi. by eapply Forall2_lookup_l. Qed.

(** The destination of an out-edge of an admitted state is an admitted
    state, and the table names it by its position. *)
Lemma edge_target σ t i s ed :
  table_ok σ t → states σ !! i = Some s → ed ∈ outEdges (stateOf σ s) →
  ∃ i', states σ !! i' = Some (dest (edgeOf σ ed)) ∧
        state_index (stateOf σ (dest (edgeOf σ ed))) = Z.of_nat i'.
Proof.
  intros ((_ & _ & _ & _ & _ & Hclosed & Hidx & _) & _) Hi Hed.
  destruct (Hclosed s ed) as [Hin|[Hin _]]; [by eapply list_elem_of_lookup_2|done| |].
  - apply list_elem_of_lookup_1 in Hin as [i' Hi']. exists i'. split; [done|]. by apply Hidx.
  - by apply elem_of_nil in Hin.
Qed.

(** A REDUCE entry of the row of the top state: the rule exists and the
    path ends with its right-hand side. *)
Lemma reduce_entry_rule σ t stack s ls row k entry :
  table_ok σ t → stack_wf σ stack s ls → row_of σ s row →
  actionEntries row !! k = Some entry → shift entry = false →
  ∃ r, lookupZ (rules σ) (entry_value entry) = Some r ∧
       length (rhs r) ≤ length ls ∧
       rhs r = drop (length ls - length (rhs r)) ls.
Proof.
  intros Hok Hwf Hrow Hk Hsh.
  pose proof Hok as ((_ & _ & Hedges & Hrules & _ & _ & _ & Hroot & _) & Hindexed & _).
  apply row_of_spec in Hrow as [_ Hred].
  destruct (Hred k entry Hk Hsh) as (it & Hit & Hpos & Hval & _).
  pose proof (Hrules s it Hit) as Hlt.
  destruct (stack_wf_items _ _ _ _ Hedges Hroot Hwf it Hit) as [Hle Hsym].
  rewrite Hindexed in Hval by done.
  destruct (lookup_lt_is_Some_2 _ _ Hlt) as [r Hr].
  assert (ruleOf (rules σ) (rule it) = r) as Hrule by (unfold ruleOf; by rewrite Hr).
  rewrite Hrule in *. exists r. rewrite Hval, lookupZ_nat. split; [done|].
  rewrite <- Hpos. split; [done|].
  apply list_eq. intros j. rewrite lookup_drop.
  destruct (decide (j < pos it)) as [Hj|Hj]; [by apply Hsym|].
  rewrite !lookup_ge_None_2; [done|lia..].
Qed.

Section StackInvariant.
Context {L U : Type} `{TokenSource L}.
Implicit Types (lexer : L) (u : U) (stack : list StackItem).

Lemma reduceStep_Continue rs t (callBacks : gmap string (CallBack U)) entry
    stack lexer u r stack' lexer' u' :
  lookupZ rs (entry_value entry) = Some r →
  reduceStep rs t callBacks entry stack lexer u = Continue stack' lexer' u' →
  ∃ u1, afterCallback t (entry_value entry =? 0)%Z r
          (splice stack (Z.of_nat (length stack) - 2 * Z.of_nat (length (rhs r)))).1 lexer u1
        = Continue stack' lexer' u'.
Proof.
  intros Hr. unfold reduceStep. rewrite Hr. destruct (splice _ _) as [st items]. cbn [fst].
  destruct (0 <? String.length (callBackId r)); [|by eauto].
  destruct (callBacks !! callBackId r) as [f|]; [|done].
  destruct (collectTerminals _ _); try done.
  destruct (f _ u); [by eauto|done].
Qed.

Lemma afterCallback_Continue t rootRule r stack lexer u stack' lexer' u' :
  afterCallback t rootRule r stack lexer u = Continue stack' lexer' u' →
  ∃ s row g, last stack = Some (StNumber s) ∧ lookupZ (rows t) s = Some row ∧
             gotoEntries row !! lhs r = Some g ∧
             stack' = stack ++ [StString (lhs r); StNumber (entry_value g)].
Proof.
  unfold afterCallback. destruct rootRule.
  { by destruct (negb (isEND lexer)). }
  destruct (last stack) as [[s| |]|]; try done.
  destruct (lookupZ (rows t) s) as [row|] eqn:Hrow; [|done].
  destruct (gotoEntries row !! lhs r) as [g|] eqn:Hg; [|done].
  intros [= <- <- <-]. by exists s, row, g.
Qed.

Lemma parseStep_stack_wf σ t (callBacks : gmap string (CallBack U))
    stack lexer u stack' lexer' u' s ls :
  table_ok σ t → stack_wf σ stack s ls →
  parseStep (rules σ) t callBacks stack lexer u = Continue stack' lexer' u' →
  ∃ s' ls', stack_wf σ stack' s' ls'.
Proof.
  intros Hok Hwf E. unfold parseStep in E.
  destruct (stack_wf_top _ _ _ _ Hwf) as (i & Hlast & Hi).
  destruct (table_row _ _ _ _ Hok Hi) as (row & Hrow & Hof).
  rewrite Hlast, lookupZ_nat, Hrow in E.
  destruct (findEntry row (getToken lexer)) as [entry|] eqn:Hfind; [|done].
  apply findEntry_Some in Hfind as [k Hk].
  destruct (shift entry) eqn:Hsh.
  - injection E as <- <- <-.
    destruct (row_of_spec _ _ _ Hof) as [[Hact _] _].
    destruct (Hact k entry Hk Hsh) as (ed & Hed & Hlbl & Hval).
    destruct (edge_target _ _ _ _ _ Hok Hi Hed) as (i' & Hi' & Hidx).
    rewrite Hval, Hidx. eexists _, _. eapply wf_push; [exact Hwf|exact Hed|exact Hi'|].
    unfold slot_matches. rewrite Hlbl. cbn. eauto.
  - destruct (reduce_entry_rule _ _ _ _ _ _ _ _ Hok Hwf Hof Hk Hsh) as (r & Hr & Hle & _).
    apply (reduceStep_Continue _ _ _ _ _ _ _ r) in E as [u1 E]; [|done].
    pose proof (stack_wf_length _ _ _ _ Hwf) as Hlen.
    rewrite splice_depth in E by lia. cbn [fst] in E.
    apply afterCallback_Continue in E as (s1 & row1 & g & Hlast1 & Hrow1 & Hg & ->).
    destruct (stack_wf_take _ _ _ _ _ Hwf Hle) as (s1' & Hwf1).
    destruct (stack_wf_top _ _ _ _ Hwf1) as (i1 & Hlast1' & Hi1).
    rewrite Hlast1 in Hlast1'. injection Hlast1' as ->.
    destruct (table_row _ _ _ _ Hok Hi1) as (row1' & Hrow1' & Hof1).
    rewrite lookupZ_nat, Hrow1' in Hrow1. injection Hrow1 as ->.
    destruct (row_of_spec _ _ _ Hof1) as [[_ Hgoto] _].
    destruct (Hgoto _ _ Hg) as (ed & Hed & Hlbl & Hval).
    destruct (edge_target _ _ _ _ _ Hok Hi1 Hed) as (i' & Hi' & Hidx).
    rewrite Hval, Hidx. eexists _, _. eapply wf_push; [exact Hwf1|exact Hed|exact Hi'|].
    unfold slot_matches. rewrite Hlbl. done.
Qed.

Lemma reachable_stack_wf σ t (callBacks : gmap string (CallBack U))
    lexer0 u0 stack lexer u :
  table_ok σ t →
  reachable (rules σ) t callBacks lexer0 u0 stack lexer u →
  ∃ s ls, stack_wf σ stack s ls.
Proof.
  intros Hok. induction 1 as [|stack lexer u stack' lexer' u' _ (s & ls & Hwf) Hstep].
  - destruct Hok as (_ & _ & Hne & _). destruct (states σ) as [|s0 l] eqn:Hs; [done|].
    exists s0, []. constructor. by rewrite Hs.
  - by eapply parseStep_stack_wf.
Qed.
End StackInvariant.

(** ** Which errors [calcTable] throws, and the store they leave *)

Lemma foldR_Throw {A S} (f : A → S → result S) l s e :
  foldR f l s = Throw e → ∃ x a, x ∈ l ∧ f x a = Throw e.
Proof.
  revert s. induction l as [|x l IH]; intros s; cbn [foldR]; [done|].
  destruct (f x s) as [a| | | |] eqn:E; try done.
  - intros (y & b & Hy & Hf)%IH. exists y, b. split; [by right|done].
  - intros [= <-]. exists x, s. split; [by left|done].
Qed.

Lemma checkRules_Throw rs e :
  checkRules rs = Throw e → ∃ i nt, e = UndefinedNonTerminal i nt.
Proof.
  unfold checkRules. intros ([i r] & [] & _ & E)%foldR_Throw.
  unfold checkRule in E. apply foldR_Throw in E as (item & [] & _ & E).
  destruct (item_type item); [done|].
  destruct (JSSet.has _ _); [done|]. injection E as <-. eauto.
Qed.

Lemma firstLoop_no_Throw fuel rs f e : firstLoop fuel rs f ≠ Throw e.
Proof.
  revert f. induction fuel as [|fuel IH]; intros f; cbn [firstLoop]; [done|].
  destruct (firstPass rs f) as [[f1 [|]]| | | |] eqn:E; try done.
  unfold firstPass in E. apply foldR_Throw in E as (r & [f1 c] & _ & E).
  unfold firstRule in E. repeat case_match; done.
Qed.

Lemma closureLoop_no_Throw fuel rs fst_ its e : closureLoop fuel rs fst_ its ≠ Throw e.
Proof.
  revert its. induction fuel as [|fuel IH]; intros its; cbn [closureLoop]; [done|].
  by destruct (_ <? _).
Qed.

Lemma seedItems_no_Throw rs its ty v e : seedItems rs its ty v ≠ Throw e.
Proof.
  unfold seedItems. intros (it & si & _ & E)%foldR_Throw.
  unfold seedStep in E. repeat case_match; done.
Qed.

Lemma forM_Throw {A B} (f : A → M B) l σ e σ' :
  forM f l σ = (Throw e, σ') → ∃ x σ1, x ∈ l ∧ f x σ1 = (Throw e, σ').
Proof.
  revert σ. induction l as [|x l IH]; intros σ E; cbn [forM] in E; [done|].
  apply mbindM_Throw in E as [E|(y & σ1 & _ & E)].
  - exists x, σ. split; [by left|done].
  - apply mbindM_Throw in E as [E|(ys & σ2 & _ & E)]; [|done].
    apply IH in E as (z & σ3 & Hz & E). exists z, σ3. split; [by right|done].
Qed.

Lemma forM__Throw {A} (f : A → M unit) l σ e σ' :
  forM_ f l σ = (Throw e, σ') → ∃ x σ1, x ∈ l ∧ f x σ1 = (Throw e, σ').
Proof.
  revert σ. induction l as [|x l IH]; intros σ E; cbn [forM_] in E; [done|].
  apply mbindM_Throw in E as [E|(y & σ1 & _ & E)].
  - exists x, σ. split; [by left|done].
  - apply IH in E as (z & σ3 & Hz & E). exists z, σ3. split; [by right|done].
Qed.

(** Decomposition of a computation that throws. *)
Ltac inv_throw H :=
  lazymatch type of H with
  | mbindM _ _ _ = (Throw _, _) =>
      let a := fresh "a" in let σ1 := fresh "σ" in
      let H1 := fresh "Hm" in
      apply mbindM_Throw in H as [H|(a & σ1 & H1 & H)];
      [inv_throw H|inv_step H1; inv_throw H]
  | mget _ = (Throw _, _) => by unfold mget in H
  | mret _ _ = (Throw _, _) => by unfold mret in H
  | mmodify _ _ = (Throw _, _) => by unfold mmodify in H
  | updState _ _ _ = (Throw _, _) => by unfold updState, mmodify in H
  | updEdge _ _ _ = (Throw _, _) => by unfold updEdge, mmodify in H
  | allocState _ = (Throw _, _) => unfold allocState in H; inv_throw H
  | allocEdge _ _ = (Throw _, _) => unfold allocEdge in H; inv_throw H
  | liftR _ _ = (Throw _, _) =>
      let Hσ := fresh "Hσ" in
      unfold liftR in H; injection H as H Hσ; try subst
  | _ => idtac
  end.

Lemma mkSuccessor_no_Throw this ty v σ e σ' : mkSuccessor this ty v σ ≠ (Throw e, σ').
Proof.
  intros E. unfold mkSuccessor in E. inv_throw E. by apply seedItems_no_Throw in E.
Qed.

Lemma calcItemSet_no_Throw fuel this σ e σ' : calcItemSet fuel this σ ≠ (Throw e, σ').
Proof.
  intros E. unfold calcItemSet in E. inv_throw E.
  - by apply closureLoop_no_Throw in E.
  - destruct (succSymbols _ _) as [t nt]. inv_throw E.
    + apply forM_Throw in E as (x & σ1 & _ & E). by apply mkSuccessor_no_Throw in E.
    + match goal with H : forM _ nt _ = (Throw _, _) |- _ =>
        apply forM_Throw in H as (x & σ1 & _ & H); by apply mkSuccessor_no_Throw in H end.
Qed.

Lemma redirectEdge_no_Throw s u σ e σ' : redirectEdge s u σ ≠ (Throw e, σ').
Proof.
  intros E. unfold redirectEdge in E. inv_throw E.
  destruct (existsb _ _); inv_throw E.
Qed.

Lemma addState_no_Throw sNew σ e σ' : addState sNew σ ≠ (Throw e, σ').
Proof.
  intros E. unfold addState in E. inv_throw E.
  destruct (List.find _ _); inv_throw E.
  apply forM__Throw in E as (x & σ1 & _ & E). by apply redirectEdge_no_Throw in E.
Qed.

Lemma stateLoop_no_Throw fuel inner Q σ e σ' : stateLoop fuel inner Q σ ≠ (Throw e, σ').
Proof.
  revert Q σ. induction fuel as [|fuel IH]; intros Q σ E; cbn [stateLoop] in E.
  { by unfold liftR in E. }
  destruct (pop Q) as [[q Q']|]; [|by unfold mret in E].
  apply mbindM_Throw in E as [E|(R & σ1 & _ & E)]; [by apply calcItemSet_no_Throw in E|].
  apply mbindM_Throw in E as [E|(b & σ2 & _ & E)]; [by apply addState_no_Throw in E|].
  by apply IH in E.
Qed.

Lemma calcReduceEntries_Throw rs s e :
  calcReduceEntries rs s = Throw e → ∃ r1 r2, e = ReduceReduceConflict r1 r2.
Proof.
  unfold calcReduceEntries. intros (it & entries & _ & E)%foldR_Throw.
  destruct (_ =? _); [|done]. apply foldR_Throw in E as (terminal & a & _ & E).
  destruct (inEntries terminal a); [|done]. injection E as <-. eauto.
Qed.

Lemma edgeEntries_no_Throw σ es row e : foldR (edgeEntry σ) es row ≠ Throw e.
Proof.
  intros E. apply foldR_Throw in E as (ed & a & _ & E).
  unfold edgeEntry in E. repeat case_match; done.
Qed.

Lemma reduceEntries_no_Throw red row e : foldR reduceEntry red row ≠ Throw e.
Proof.
  intros E. apply foldR_Throw in E as (kv & a & _ & E).
  unfold reduceEntry in E. repeat case_match; done.
Qed.

(** A row under construction: the only error thrown is the reduce/reduce
    conflict, and the table object stays assigned. *)
Lemma buildRow_Throw s σ e σ' :
  buildRow s σ = (Throw e, σ') →
  (∃ r1 r2, e = ReduceReduceConflict r1 r2) ∧ (is_Some (table σ) → is_Some (table σ')).
Proof.
  intros E. unfold buildRow, pushRow, setLastRow in E. inv_throw E.
  - by apply edgeEntries_no_Throw in E.
  - apply calcReduceEntries_Throw in E. split; [done|].
    cbn. intros [t Hsome]. rewrite Hsome. by eexists.
  - by apply reduceEntries_no_Throw in E.
Qed.

Lemma forM_buildRow_Throw l σ e σ' :
  forM_ buildRow l σ = (Throw e, σ') →
  (∃ r1 r2, e = ReduceReduceConflict r1 r2) ∧ (is_Some (table σ) → is_Some (table σ')).
Proof.
  revert σ. induction l as [|s l IH]; intros σ E; cbn [forM_] in E; [done|].
  apply mbindM_Throw in E as [E|([] & σ1 & E1 & E)]; [by eapply buildRow_Throw|].
  apply IH in E as [He Ht]. split; [done|]. intros Hsome. apply Ht.
  apply buildRow_Ok in E1 as (_ & row1 & red & row2 & _ & _ & _ & Ht1).
  rewrite Ht1. destruct Hsome as [t Hsome]. rewrite Hsome. by eexists.
Qed.

(** For every grammar: [calcTable] throws only the three generator-time
    errors; the errors for an empty grammar and for an undefined
    non-terminal leave the generator as it was, and after the error for a
    reduce/reduce conflict the table is assigned. *)
Lemma calcTable_Throw fuel σ e σ' :
  calcTable fuel σ = (Throw e, σ') →
  match e with
  | NoProductionRule | UndefinedNonTerminal _ _ => σ' = σ
  | ReduceReduceConflict _ _ => is_Some (getTable σ')
  | TableNotGenerated | TableHasNoRules => False
  end.
Proof.
  intros E. unfold calcTable in E.
  apply mbindM_Throw in E as [E|(σ0 & σ1 & E0 & E)]; [by unfold mget in E|].
  unfold mget in E0. simplify_eq.
  destruct (length (rules _) =? 0).
  { unfold liftR in E. by simplify_eq. }
  inv_throw E.
  - apply checkRules_Throw in E as (i & nt & ->). done.
  - by apply firstLoop_no_Throw in E.
  - by apply stateLoop_no_Throw in E.
  - apply forM_buildRow_Throw in E as [(r1 & r2 & ->) Ht]. apply Ht. by eexists.
  - destruct (table _); inv_throw E. done.
Qed.

(** *** No entry of a row is overwritten *)

(** The loops over the edges and over the reduce entries of a state only
    add entries under keys that are free: a row that they complete
    contains every entry that it held before, unchanged. *)
Lemma edgeEntries_no_overwrite σ es row row' :
  foldR (edgeEntry σ) es row = Ok row' →
  actionEntries row ⊆ actionEntries row' ∧ gotoEntries row ⊆ gotoEntries row'.
Proof.
  intros E.
  apply (foldR_invariant _
           (λ _ r, actionEntries row ⊆ actionEntries r ∧ gotoEntries row ⊆ gotoEntries r)
           _ _ _ E); [done|].
  intros done ed a a' [Ha Hg] _ Hed. unfold edgeEntry in Hed.
  destruct (item_type _).
  - destruct (actionEntries a !! _) eqn:Hk; [done|]. injection Hed as <-. cbn. split; [|done].
    etrans; [exact Ha|]. by apply insert_subseteq.
  - destruct (gotoEntries a !! _) eqn:Hk; [done|]. injection Hed as <-. cbn. split; [done|].
    etrans; [exact Hg|]. by apply insert_subseteq.
Qed.

Lemma reduceEntries_no_overwrite red row row' :
  foldR reduceEntry red row = Ok row' →
  actionEntries row ⊆ actionEntries row' ∧ gotoEntries row' = gotoEntries row.
Proof.
  intros E.
  apply (foldR_invariant _
           (λ _ r, actionEntries row ⊆ actionEntries r ∧ gotoEntries r = gotoEntries row)
           _ _ _ E); [done|].
  intros done kv a a' [Ha Hg] _ Hkv. unfold reduceEntry in Hkv.
  destruct (actionEntries a !! _) eqn:Hk; [done|]. injection Hkv as <-. cbn. split; [|done].
  etrans; [exact Ha|]. by apply insert_subseteq.
Qed.

(** A collision in one of the two loops ends the process; no error is
    thrown there. *)
Lemma edgeEntry_collision σ ed row :
  let lbl := label (edgeOf σ ed) in
  is_Some (match item_type lbl with
           | Terminal => actionEntries row !! item_value lbl
           | NonTerminal => gotoEntries row !! item_value lbl
           end) →
  edgeEntry σ ed row = ProcessExit.
Proof.
  intros lbl. unfold edgeEntry. fold lbl. destruct (item_type lbl); by intros [? ->].
Qed.

Lemma reduceEntry_collision kv row :
  is_Some (actionEntries row !! kv.1) → reduceEntry kv row = ProcessExit.
Proof. unfold reduceEntry. by intros [? ->]. Qed.

(** ** Table construction on grammars with conflicts *)

(** C1. On [grammar_rr], whose table has a reduce/reduce conflict,
    [calcTable] throws the conflict error; the table of the generator,
    unset before the call, is set afterwards and holds the three rows that
    had been pushed when the error was thrown.  ([calcTable_Throw] shows
    for every grammar that this is the store after each reduce/reduce
    error, and that the two other errors leave the generator unchanged.) *)
Theorem calcTable_reduce_reduce_table_set :
  (calcTable 10 (withRules grammar_rr)).1 = Throw (ReduceReduceConflict 1 2) ∧
  getTable (withRules grammar_rr) = None ∧
  (∃ t, getTable (calcTable 10 (withRules grammar_rr)).2 = Some t ∧ length (rows t) = 3).
Proof.
  split_and!; [by vm_compute..|].
  destruct (getTable (calcTable 10 (withRules grammar_rr)).2) as [t|] eqn:E.
  - exists t. split; [done|]. revert E. vm_compute. by intros [= <-].
  - revert E. by vm_compute.
Qed.

(** C2. On [grammar_sr], whose table has a shift/reduce conflict,
    [calcTable] raises no conflict error: the builder ends the process.
    ([edgeEntry_collision] and [reduceEntry_collision] show this for every
    collision in the loops over the edges and the reduce entries;
    [edgeEntries_no_overwrite] and [reduceEntries_no_overwrite] that no
    entry is overwritten.) *)
Theorem calcTable_shift_reduce_exits :
  (calcTable 10 (withRules grammar_sr)).1 = ProcessExit.
Proof. by vm_compute. Qed.

(** Among matching slots, those at terminal positions are the tokens. *)
Lemma terminalSlots_filter rhs_ symbols :
  Forall2 slot_matches symbols rhs_ →
  terminalSlots rhs_ symbols = filter is_token symbols.
Proof.
  induction 1 as [|v x symbols rhs_ Hvx _ IH]; cbn [terminalSlots]; [done|].
  unfold slot_matches in Hvx. destruct (item_type x).
  - destruct Hvx as [tk ->]. rewrite filter_cons_True by (by exists tk). by f_equal.
  - rewrite Hvx, filter_cons_False; [done|]. by intros [? ?].
Qed.

Section ReduceInParse.
Context {L U : Type} `{TokenSource L}.
Implicit Types (lexer : L) (u : U) (stack : list StackItem).

Lemma parseSteps_reachable n rs t (callBacks : gmap string (CallBack U))
    lexer0 u0 stack lexer u stack' lexer' u' :
  reachable rs t callBacks lexer0 u0 stack lexer u →
  parseSteps n rs t callBacks stack lexer u = Continue stack' lexer' u' →
  reachable rs t callBacks lexer0 u0 stack' lexer' u'.
Proof.
  revert stack lexer u. induction n as [|n IH]; intros stack lexer u Hreach E;
    cbn [parseSteps] in E.
  - by injection E as <- <- <-.
  - destruct (parseStep rs t callBacks stack lexer u) as [st lx u1| | | |] eqn:Hstep;
      try done.
    eapply IH; [|exact E]. by eapply reach_step.
Qed.

(** C6. In a parse with the table that [calcTable] has built for a
    grammar, every REDUCE step by a rule [r] finds the [2·|rhs(r)|] slots
    of the right-hand side on the stack, above the slot of the initial
    state, and pops exactly these slots.  The popped symbol slots match
    the right-hand side, a token for each terminal and the name for each
    non-terminal, so the slots at the terminal positions are exactly the
    popped tokens; if [r] has a registered callback, the step calls it
    with these tokens in right-hand-side order, the positions of
    non-terminals skipped. *)
Theorem parse_reduce_pops_and_calls fuel rs t σ (callBacks : gmap string (CallBack U))
    lexer0 u0 stack lexer u state row entry :
  calcTable fuel (withRules rs) = (Ok t, σ) →
  reachable (rules σ) t callBacks lexer0 u0 stack lexer u →
  last stack = Some (StNumber state) →
  lookupZ (rows t) state = Some row →
  findEntry row (getToken lexer) = Some entry →
  shift entry = false →
  ∃ r, lookupZ (rules σ) (entry_value entry) = Some r ∧
    let k := length (rhs r) in
    let rest := take (length stack - 2 * k) stack in
    let popped := drop (length stack - 2 * k) stack in
    2 * k < length stack ∧
    stack = rest ++ popped ∧ length popped = 2 * k ∧
    length (symbolSlots popped) = k ∧
    Forall2 slot_matches (symbolSlots popped) (rhs r) ∧
    terminalSlots (rhs r) (symbolSlots popped) = filter is_token (symbolSlots popped) ∧
    (String.length (callBackId r) = 0 →
     parseStep (rules σ) t callBacks stack lexer u
     = afterCallback t (entry_value entry =? 0)%Z r rest lexer u) ∧
    (∀ f, 0 < String.length (callBackId r) → callBacks !! callBackId r = Some f →
          parseStep (rules σ) t callBacks stack lexer u =
          match f (terminalSlots (rhs r) (symbolSlots popped)) u with
          | Some u' => afterCallback t (entry_value entry =? 0)%Z r rest lexer u'
          | None => CallbackRaise
          end).
Proof.
  intros E Hreach Hlast Hrow Hentry Hshift.
  apply calcTable_table_ok in E as Hok.
  destruct (reachable_stack_wf _ _ _ _ _ _ _ _ Hok Hreach) as (s & ls & Hwf).
  destruct (stack_wf_top _ _ _ _ Hwf) as (i & Hlast' & Hi).
  rewrite Hlast in Hlast'. injection Hlast' as ->.
  destruct (table_row _ _ _ _ Hok Hi) as (row' & Hrow' & Hof).
  pose proof Hrow as Hrow2. rewrite lookupZ_nat, Hrow' in Hrow2. injection Hrow2 as ->.
  destruct (findEntry_Some _ _ _ Hentry) as [key Hkey].
  destruct (reduce_entry_rule _ _ _ _ _ _ _ _ Hok Hwf Hof Hkey Hshift) as (r & Hr & Hle & Hrhs).
  pose proof (stack_wf_length _ _ _ _ Hwf) as Hlen.
  exists r. split; [done|]. intros k rest popped.
  assert (2 * length (rhs r) ≤ length stack) as Hdepth by lia.
  destruct (reduceStep_at_depth (rules σ) t callBacks stack lexer u _ row entry r
              Hlast Hrow Hentry Hshift Hr Hdepth) as (Happ & Hpop & Hsym & Hno & Hcall).
  assert (Forall2 slot_matches (symbolSlots popped) (rhs r)) as Hslots.
  { pose proof (stack_wf_slots _ _ _ _ (length (rhs r)) Hwf Hle) as Hs.
    by rewrite <- Hrhs in Hs. }
  split_and!; try done.
  - unfold k. lia.
  - by apply terminalSlots_filter.
Qed.
End ReduceInParse.

(** ** Further properties of the generator and the parser *)

(** *** The shape of a generated table *)

(** X1. The table that [calcTable] returns is the table of the generator;
    it has one row per admitted state and at least one row; every SHIFT
    and GOTO entry holds the number of a row of the table and every REDUCE
    entry the index of a rule of the grammar. *)
Theorem calcTable_table_wf fuel rs t σ :
  calcTable fuel (withRules rs) = (Ok t, σ) →
  getTable σ = Some t ∧
  length (rows t) = length (states σ) ∧ 0 < length (rows t) ∧
  ∀ i row, rows t !! i = Some row →
    (∀ k e, actionEntries row !! k = Some e →
       (0 ≤ entry_value e)%Z ∧
       if shift e then (entry_value e < Z.of_nat (length (rows t)))%Z
       else (entry_value e < Z.of_nat (length rs))%Z) ∧
    (∀ k e, gotoEntries row !! k = Some e →
       (0 ≤ entry_value e < Z.of_nat (length (rows t)))%Z).
Proof.
  intros E. pose proof (calcTable_table_ok _ _ _ _ E) as Hok.
  destruct (withRules_fields rs) as (Hr & _ & Hs & _ & Ho & He).
  pose proof (calcTable_rules _ _ _ _ Hs Ho He E) as Hrules. rewrite Hr in Hrules.
  pose proof Hok as ((_ & _ & _ & Hrok & _) & Hindexed & Hne & Hrows).
  pose proof (Forall2_length _ _ _ Hrows) as Hlen.
  apply calcTable_Ok in E as (_ & _ & _ & _ & _ & _ & _ & Ht).
  split_and!; [done|done|destruct (states σ); [done|rewrite <- Hlen; cbn; lia]|].
  intros i row Hi.
  destruct (Forall2_lookup_r _ _ _ _ _ Hrows Hi) as (s & Hsi & Hof).
  destruct (row_of_spec _ _ _ Hof) as [[Hact Hgoto] Hred]. split.
  - intros k e Hk. destruct (shift e) eqn:Hsh.
    + destruct (Hact k e Hk Hsh) as (ed & Hed & _ & ->).
      destruct (edge_target _ _ _ _ _ Hok Hsi Hed) as (i' & Hi' & ->).
      apply lookup_lt_Some in Hi'. lia.
    + destruct (Hred k e Hk Hsh) as (it & Hit & _ & -> & _).
      pose proof (Hrok s it Hit) as Hlt. rewrite Hindexed by done.
      rewrite Hrules, length_imap in Hlt. lia.
  - intros k e Hk. destruct (Hgoto k e Hk) as (ed & Hed & _ & ->).
    destruct (edge_target _ _ _ _ _ Hok Hsi Hed) as (i' & Hi' & ->).
    apply lookup_lt_Some in Hi'. lia.
Qed.

(** *** A successful parse *)

Section ParseRuns.
Context {L U : Type} `{TokenSource L}.
Implicit Types (lexer : L) (u : U) (stack : list StackItem).

Lemma afterCallback_Return t rootRule r stack lexer u lexer' u' :
  afterCallback t rootRule r stack lexer u = Return lexer' u' →
  rootRule = true ∧ lexer' = lexer ∧ u' = u ∧ isEND lexer = true.
Proof.
  unfold afterCallback. destruct rootRule.
  - destruct (isEND lexer); cbn; [|done]. by intros [= <- <-].
  - repeat case_match; done.
Qed.

Lemma parseStep_Return rs t (callBacks : gmap string (CallBack U))
    stack lexer u lexer' u' :
  parseStep rs t callBacks stack lexer u = Return lexer' u' →
  lexer' = lexer ∧ isEND lexer = true.
Proof.
  unfold parseStep. destruct (last stack) as [[state| |]|]; try done.
  destruct (lookupZ (rows t) state) as [row|]; [|done].
  destruct (findEntry row (getToken lexer)) as [entry|]; [|done].
  destruct (shift entry); [done|]. unfold reduceStep.
  destruct (lookupZ rs (entry_value entry)) as [r|]; [|done].
  destruct (splice _ _) as [st items].
  assert (∀ u0, afterCallback t (entry_value entry =? 0)%Z r st lexer u0 = Return lexer' u' →
                lexer' = lexer ∧ isEND lexer = true) as Ha.
  { intros u0 (_ & -> & _ & ?)%afterCallback_Return. done. }
  repeat case_match; try done; apply Ha.
Qed.

Lemma parseStep_lexer rs t (callBacks : gmap string (CallBack U))
    stack lexer u stack' lexer' u' :
  parseStep rs t callBacks stack lexer u = Continue stack' lexer' u' →
  lexer' = lexer ∨ lexer' = next lexer.
Proof.
  unfold parseStep. destruct (last stack) as [[state| |]|]; try done.
  destruct (lookupZ (rows t) state) as [row|]; [|done].
  destruct (findEntry row (getToken lexer)) as [entry|]; [|done].
  destruct (shift entry); [intros [= _ <- _]; by right|].
  intros E. left. unfold reduceStep in E.
  destruct (lookupZ rs (entry_value entry)) as [r|]; [|done].
  destruct (splice _ _) as [st items].
  assert (∀ u0, afterCallback t (entry_value entry =? 0)%Z r st lexer u0
                = Continue stack' lexer' u' → lexer' = lexer) as Ha.
  { intros u0. unfold afterCallback. repeat case_match; try done; by intros [= _ <- _]. }
  revert E. repeat case_match; try done; apply Ha.
Qed.

Lemma parseLoop_Parsed fuel rs t (callBacks : gmap string (CallBack U))
    stack lexer u lexer' u' :
  parseLoop fuel rs t callBacks stack lexer u = Parsed lexer' u' →
  isEND lexer' = true ∧ ∃ n, lexer' = Nat.iter n next lexer.
Proof.
  revert stack lexer u. induction fuel as [|fuel IH]; intros stack lexer u; cbn [parseLoop];
    [done|].
  destruct (parseStep rs t callBacks stack lexer u) as [st lx u1|lx u1| | |] eqn:E; try done.
  - intros [Hend [n ->]]%IH. split; [done|].
    apply parseStep_lexer in E as [->| ->]; [by exists n|].
    exists (S n). by rewrite Nat.iter_succ_r.
  - intros [= <- <-]. apply parseStep_Return in E as [-> ?]. split; [done|]. by exists 0.
Qed.

End ParseRuns.

(** *** Comparing items and states *)

(** X3. [LR1_State.equal] on item sets as the generator builds them (no
    two items with the same core, lookahead sets without duplicates)
    returns true exactly when the two states hold the same items, with the
    same lookahead sets per core; its result does not depend on the order
    of its two arguments. *)
Theorem state_equal_same_items (s s' : LR1_State) :
  core_unique (itemSet s) → core_unique (itemSet s') →
  items_wf (itemSet s) → items_wf (itemSet s') →
  (state_equal s s' = true ↔ items_same (itemSet s) (itemSet s')) ∧
  state_equal s s' = state_equal s' s.
Proof.
  intros Hu Hu' Hw Hw'.
  pose proof (state_equal_spec s s' Hu Hu' Hw Hw') as H1.
  pose proof (state_equal_spec s' s Hu' Hu Hw' Hw) as H2.
  split; [done|].
  apply Bool.eq_true_iff_eq. rewrite H1, H2. split; apply items_same_sym.
Qed.

(** X4. [LR1_StateItem.compareLookAhead] and [LR1_StateItem.equal] on
    lookahead sets: the comparison of the sizes followed by the membership
    test of every element decides that the two sets have the same
    elements, and two items are equal exactly when rule, dot position and
    lookahead set agree. *)
Theorem item_equal_same (i j : LR1_StateItem) :
  NoDup (lookAheadSet i) → NoDup (lookAheadSet j) →
  (compareLookAhead i (lookAheadSet j) = true
   ↔ ∀ x, x ∈ lookAheadSet i ↔ x ∈ lookAheadSet j) ∧
  (item_equal i j = true
   ↔ rule i = rule j ∧ pos i = pos j ∧ ∀ x, x ∈ lookAheadSet i ↔ x ∈ lookAheadSet j).
Proof.
  intros Hi Hj. split; [by apply compareLookAhead_spec|].
  rewrite (item_equal_spec i j Hi Hj). unfold item_same, core, la_same.
  split; [intros [[= -> ->] ?]; done|intros (-> & -> & ?); done].
Qed.

(** *** The entries of a row *)

Lemma foldR_app {A S} (f : A → S → result S) l1 l2 s :
  foldR f (l1 ++ l2) s =
  match foldR f l1 s with
  | Ok s' => foldR f l2 s'
  | Throw e => Throw e
  | ProcessExit => ProcessExit
  | TypeError => TypeError
  | OutOfFuel => OutOfFuel
  end.
Proof.
  revert s. induction l1 as [|x l1 IH]; intros s; cbn [app foldR]; [done|].
  by destruct (f x s).
Qed.

(** Every edge of the loop has its entry in the completed row. *)
Lemma foldR_edgeEntry_complete σ es row row' :
  foldR (edgeEntry σ) es row = Ok row' →
  ∀ ed, ed ∈ es →
    match item_type (label (edgeOf σ ed)) with
    | Terminal => actionEntries row' !! item_value (label (edgeOf σ ed))
    | NonTerminal => gotoEntries row' !! item_value (label (edgeOf σ ed))
    end = Some (shift_of σ ed).
Proof.
  revert row. induction es as [|x es IH]; intros row E ed Hed.
  { by apply elem_of_nil in Hed. }
  cbn [foldR] in E. destruct (edgeEntry σ x row) as [row1| | | |] eqn:Ex; try done.
  apply elem_of_cons in Hed as [->|Hed]; [|by eapply IH].
  apply edgeEntries_no_overwrite in E as [Ha Hg].
  apply edgeEntry_Ok in Ex as [[Hty ->]|[Hty ->]]; rewrite Hty.
  - eapply lookup_weaken; [|exact Ha]. cbn. by rewrite lookup_insert_eq.
  - eapply lookup_weaken; [|exact Hg]. cbn. by rewrite lookup_insert_eq.
Qed.

Lemma foldR_reduceEntry_complete red row row' :
  foldR reduceEntry red row = Ok row' →
  ∀ k e0, (k, e0) ∈ red →
          actionEntries row' !! k = Some {| shift := false; entry_value := entry_value e0 |}.
Proof.
  revert row. induction red as [|x red IH]; intros row E k e0 Hin.
  { by apply elem_of_nil in Hin. }
  cbn [foldR] in E. destruct (reduceEntry x row) as [row1| | | |] eqn:Ex; try done.
  apply elem_of_cons in Hin as [<-|Hin]; [|by eapply IH].
  apply reduceEntries_no_overwrite in E as [Ha _].
  unfold reduceEntry in Ex. cbn [fst snd] in Ex.
  destruct (actionEntries row !! k); [done|]. injection Ex as <-.
  eapply lookup_weaken; [|exact Ha]. cbn. by rewrite lookup_insert_eq.
Qed.

(** **** [calcReduceEntries] as one loop over the pairs *)

Lemma foldR_fmap {A B S} (g : A → B) (f : B → S → result S) l s :
  foldR f (g <$> l) s = foldR (λ x, f (g x)) l s.
Proof.
  revert s. induction l as [|x l IH]; intros s; cbn [fmap list_fmap foldR]; [done|].
  by destruct (f (g x) s).
Qed.

(** The two nested loops of [calcReduceEntries] are one loop over the
    pairs. *)
Lemma calcReduceEntries_from rs its acc :
  foldR (λ item entries,
           if pos item =? length (rhs (ruleOf rs (rule item))) then
             foldR (λ terminal entries,
                      let entry := {| shift := true;
                                      entry_value := rule_index (ruleOf rs (rule item)) |} in
                      match inEntries terminal entries with
                      | Some old =>
                          Throw (ReduceReduceConflict (entry_value old) (entry_value entry))
                      | None => Ok (entries ++ [(terminal, entry)])
                      end)
                   (lookAheadSet item) entries
           else Ok entries) its acc =
  foldR (λ kv entries,
           match inEntries kv.1 entries with
           | Some old => Throw (ReduceReduceConflict (entry_value old) (entry_value kv.2))
           | None => Ok (entries ++ [kv])
           end) (reduce_pairs rs its) acc.
Proof.
  unfold reduce_pairs. revert acc.
  induction its as [|it its IH]; intros acc; cbn [foldR flat_map]; [done|].
  rewrite foldR_app. destruct (pos it =? _).
  - rewrite foldR_fmap. cbn [fst snd].
    destruct (foldR _ (lookAheadSet it) acc); [apply IH|done..].
  - cbn [foldR]. apply IH.
Qed.

Lemma calcReduceEntries_pairs rs s :
  calcReduceEntries rs s =
  foldR (λ kv entries,
           match inEntries kv.1 entries with
           | Some old => Throw (ReduceReduceConflict (entry_value old) (entry_value kv.2))
           | None => Ok (entries ++ [kv])
           end) (reduce_pairs rs (itemSet s)) [].
Proof. apply calcReduceEntries_from. Qed.

Lemma inEntries_None k entries : inEntries k entries = None ↔ k ∉ entries.*1.
Proof.
  unfold inEntries. induction entries as [|[k' e] entries IH]; cbn.
  - split; [intros _ ?%elem_of_nil; done|done].
  - destruct (bool_decide_reflect (k' = k)) as [->|Hne]; cbn.
    + split; [done|]. intros Hn. exfalso. apply Hn. by left.
    + rewrite IH. rewrite not_elem_of_cons. naive_solver.
Qed.

Lemma foldR_pairs_spec ps acc :
  NoDup acc.*1 →
  match foldR (λ (kv : string * LR1_TableEntry) entries,
           match inEntries kv.1 entries with
           | Some old => Throw (ReduceReduceConflict (entry_value old) (entry_value kv.2))
           | None => Ok (entries ++ [kv])
           end) ps acc with
  | Ok red => red = acc ++ ps ∧ NoDup (acc ++ ps).*1
  | Throw (ReduceReduceConflict _ _) => ¬ NoDup (acc ++ ps).*1
  | _ => False
  end.
Proof.
  revert acc. induction ps as [|[k e] ps IH]; intros acc Hacc; cbn [foldR].
  { by rewrite app_nil_r. }
  cbn [fst snd]. destruct (inEntries k acc) as [old|] eqn:Hin.
  - intros Hnd. rewrite fmap_app, fmap_cons in Hnd. cbn in Hnd.
    apply NoDup_app in Hnd as (_ & Hdisj & _).
    assert (k ∈ acc.*1) as Hk.
    { destruct (decide (k ∈ acc.*1)) as [|Hn]; [done|].
      apply inEntries_None in Hn. congruence. }
    apply (Hdisj k Hk). by left.
  - apply inEntries_None in Hin.
    assert (NoDup (acc ++ [(k, e)]).*1) as Hacc'.
    { rewrite fmap_app. apply NoDup_app. split_and!; [done| |apply NoDup_singleton].
      cbn. intros x Hx ->%list_elem_of_singleton. done. }
    specialize (IH _ Hacc'). rewrite <- (assoc_L (++)) in IH. cbn [app] in IH. exact IH.
Qed.

Lemma calcReduceEntries_spec rs s :
  match calcReduceEntries rs s with
  | Ok red => red = reduce_pairs rs (itemSet s) ∧ NoDup (reduce_pairs rs (itemSet s)).*1
  | Throw (ReduceReduceConflict _ _) => ¬ NoDup (reduce_pairs rs (itemSet s)).*1
  | _ => False
  end.
Proof.
  rewrite calcReduceEntries_pairs.
  pose proof (foldR_pairs_spec (reduce_pairs rs (itemSet s)) [] (NoDup_nil_2)) as H.
  by cbn [app] in H.
Qed.

(** The lookahead terminals of the complete items, in order. *)
Lemma reduce_pairs_keys rs its :
  (reduce_pairs rs its).*1 =
  flat_map (λ it, if pos it =? length (rhs (ruleOf rs (rule it)))
                  then lookAheadSet it else []) its.
Proof.
  unfold reduce_pairs. induction its as [|it its IH]; cbn [flat_map]; [done|].
  rewrite fmap_app, IH. f_equal. destruct (_ =? _); [|done].
  rewrite <- list_fmap_compose. cbn. apply list_fmap_id.
Qed.

Lemma elem_of_reduce_keys rs its k :
  k ∈ (reduce_pairs rs its).*1 ↔
  ∃ j jt, its !! j = Some jt ∧ complete rs jt ∧ k ∈ lookAheadSet jt.
Proof.
  rewrite reduce_pairs_keys. unfold complete. split.
  - intros Hk. apply list_elem_of_In, in_flat_map in Hk as (jt & Hjt & Hk).
    apply list_elem_of_In, list_elem_of_lookup in Hjt as [j Hj].
    destruct (Nat.eqb_spec (pos jt) (length (rhs (ruleOf rs (rule jt))))) as [Hc|_];
      [|by destruct Hk].
    exists j, jt. split_and!; [done..|]. by apply list_elem_of_In.
  - intros (j & jt & Hj & Hc & Hk). apply list_elem_of_In, in_flat_map.
    exists jt. split; [by eapply list_elem_of_In, list_elem_of_lookup_2|].
    rewrite Hc, Nat.eqb_refl. by apply list_elem_of_In.
Qed.

(** The keys of the pairs are distinct exactly when there is no
    reduce/reduce conflict. *)
Lemma reduce_keys_NoDup rs its :
  items_wf its →
  (NoDup (reduce_pairs rs its).*1 → ¬ rr_conflict rs its) ∧
  (¬ NoDup (reduce_pairs rs its).*1 → rr_conflict rs its).
Proof.
  induction its as [|it its IH]; intros Hwf.
  { split.
    - intros _ (i & j & it & jt & k & _ & Hi & _). done.
    - intros Hn. exfalso. apply Hn. cbn. apply NoDup_nil_2. }
  apply Forall_cons in Hwf as [Hit Hwf]. destruct (IH Hwf) as [IH1 IH2].
  assert ((reduce_pairs rs (it :: its)).*1 =
          (if pos it =? length (rhs (ruleOf rs (rule it))) then lookAheadSet it else [])
          ++ (reduce_pairs rs its).*1) as Hkeys.
  { by rewrite !reduce_pairs_keys. }
  rewrite Hkeys. split.
  - intros Hnd (i & j & a & b & k & Hij & Hi & Hj & Ha & Hb & Hka & Hkb).
    apply NoDup_app in Hnd as (_ & Hdisj & Hnd).
    destruct i as [|i].
    + cbn in Hi. injection Hi as <-. destruct j as [|j]; [lia|]. cbn in Hj.
      apply (Hdisj k).
      * unfold complete in Ha. by rewrite Ha, Nat.eqb_refl.
      * apply elem_of_reduce_keys. by exists j, b.
    + destruct j as [|j]; [lia|]. cbn in Hi, Hj. apply (IH1 Hnd).
      exists i, j, a, b, k. split_and!; try done; lia.
  - intros Hn.
    destruct (decide (NoDup (reduce_pairs rs its).*1)) as [Hnd|Hnd].
    2:{ destruct (IH2 Hnd) as (i & j & a & b & k & Hij & Hi & Hj & Ha & Hb & Hka & Hkb).
        exists (S i), (S j), a, b, k. split_and!; try done; lia. }
    destruct (Nat.eqb_spec (pos it) (length (rhs (ruleOf rs (rule it))))) as [Hc|Hc].
    2:{ exfalso. by apply Hn. }
    destruct (decide (Exists (λ k, k ∈ (reduce_pairs rs its).*1) (lookAheadSet it)))
      as [Hex|Hex].
    + apply Exists_exists in Hex as (k & Hk & Hin).
      apply elem_of_reduce_keys in Hin as (j & jt & Hj & Hcj & Hkj).
      exists 0, (S j), it, jt, k. split_and!; try done; lia.
    + exfalso. apply Hn. apply NoDup_app. split_and!; [done| |done].
      intros k Hk Hin. apply Hex, Exists_exists. by exists k.
Qed.

(** X5. [LR1_State.calcReduceEntries] on an item set whose lookahead sets
    have no duplicates: it throws the reduce/reduce conflict error exactly
    when two complete items of the state have a lookahead terminal in
    common; otherwise it returns one entry per lookahead terminal of every
    complete item, in the order of the items.  It has no other outcome. *)
Theorem calcReduceEntries_conflict rs s :
  items_wf (itemSet s) →
  match calcReduceEntries rs s with
  | Ok red => red = reduce_pairs rs (itemSet s) ∧ ¬ rr_conflict rs (itemSet s)
  | Throw (ReduceReduceConflict _ _) => rr_conflict rs (itemSet s)
  | _ => False
  end.
Proof.
  intros Hwf. destruct (reduce_keys_NoDup rs (itemSet s) Hwf) as [H1 H2].
  pose proof (calcReduceEntries_spec rs s) as Hspec.
  destruct (calcReduceEntries rs s) as [red|[]| | |]; try done.
  - destruct Hspec as [-> Hnd]. split; [done|]. by apply H1.
  - by apply H2.
Qed.

(** **** Exactness of a row *)

Lemma entry_eta e b v : shift e = b → entry_value e = v → e = {| shift := b; entry_value := v |}.
Proof. destruct e. cbn. by intros -> ->. Qed.

Lemma row_of_exact σ s row : row_of σ s row → row_exact σ s row.
Proof.
  intros Hof. pose proof (row_of_spec _ _ _ Hof) as [[Hact Hgoto] Hred].
  destruct Hof as (row1 & red & E1 & E2 & E3).
  pose proof (foldR_edgeEntry_complete _ _ _ _ E1) as Hedges.
  pose proof (foldR_reduceEntry_complete _ _ _ E3) as Hreds.
  pose proof (reduceEntries_no_overwrite _ _ _ E3) as [Hsub Hg].
  pose proof (calcReduceEntries_spec (rules σ) (stateOf σ s)) as Hspec.
  rewrite E2 in Hspec. destruct Hspec as [-> _].
  split.
  - intros k e. split.
    + intros Hk. destruct (shift e) eqn:Hsh.
      * left. destruct (Hact k e Hk Hsh) as (ed & Hed & Hlbl & Hval).
        exists ed. split_and!; [done..|]. by apply entry_eta.
      * right. destruct (Hred k e Hk Hsh) as (it & Hit & Hc & Hval & Hin).
        exists it. split_and!; [done..|]. by apply entry_eta.
    + intros [(ed & Hed & Hlbl & ->)|(it & Hit & Hc & Hin & ->)].
      * eapply lookup_weaken; [|exact Hsub].
        specialize (Hedges ed Hed). by rewrite Hlbl in Hedges.
      * apply (Hreds k {| shift := true;
                          entry_value := rule_index (ruleOf (rules σ) (rule it)) |}).
        unfold reduce_pairs. apply list_elem_of_In, in_flat_map. exists it.
        split; [by apply list_elem_of_In|]. unfold complete in Hc.
        rewrite Hc, Nat.eqb_refl. apply list_elem_of_In, list_elem_of_fmap. by exists k.
  - intros k e. split.
    + intros Hk. destruct (Hgoto k e Hk) as (ed & Hed & Hlbl & Hval).
      exists ed. split_and!; [done..|].
      apply entry_eta; [|done].
      rewrite Hg in Hk. apply foldR_edgeEntry in E1 as [[_ Hg1] _].
      destruct (Hg1 k e Hk) as (ed' & Hed' & Hlbl' & _).
      specialize (Hedges ed' Hed'). rewrite Hlbl' in Hedges. cbn in Hedges.
      rewrite Hk in Hedges. by injection Hedges as ->.
    + intros (ed & Hed & Hlbl & ->). rewrite Hg.
      specialize (Hedges ed Hed). by rewrite Hlbl in Hedges.
Qed.

(** X6. Every row of a generated table holds exactly the entries of its
    state: a SHIFT entry for every out-edge labelled with a terminal, a
    GOTO entry for every out-edge labelled with a non-terminal, each with
    the position of the destination among the admitted states, and a
    REDUCE entry with the position of the rule for every lookahead
    terminal of every complete item; and nothing else. *)
Theorem calcTable_rows_exact fuel rs t σ i s :
  calcTable fuel (withRules rs) = (Ok t, σ) →
  states σ !! i = Some s →
  ∃ row, rows t !! i = Some row ∧ row_exact σ s row ∧
    (∀ ed, ed ∈ outEdges (stateOf σ s) →
       ∃ j, states σ !! j = Some (dest (edgeOf σ ed)) ∧
            entry_value (shift_of σ ed) = Z.of_nat j) ∧
    (∀ it, it ∈ items σ s →
       rule it < length rs ∧ entry_value (reduce_of (rules σ) it) = Z.of_nat (rule it)).
Proof.
  intros E Hi. pose proof (calcTable_table_ok _ _ _ _ E) as Hok.
  destruct (withRules_fields rs) as (Hr & _ & Hs & _ & Ho & He).
  pose proof (calcTable_rules _ _ _ _ Hs Ho He E) as Hrules. rewrite Hr in Hrules.
  destruct (table_row _ _ _ _ Hok Hi) as (row & Hrow & Hof).
  exists row. split_and!; [done|by apply row_of_exact| |].
  - intros ed Hed. by apply (edge_target σ t i s).
  - intros it Hit. destruct Hok as ((_ & _ & _ & Hrok & _) & Hindexed & _).
    pose proof (Hrok s it Hit) as Hlt. split.
    + by rewrite Hrules, length_imap in Hlt.
    + cbn. by apply Hindexed.
Qed.

(** X7. A grammar for which [calcTable] returns a table has no conflict
    in the automaton that was built: no admitted state has an out-edge
    labelled with a terminal that is a lookahead terminal of one of its
    complete items, and no two complete items of an admitted state have a
    lookahead terminal in common. *)
Theorem calcTable_conflict_free fuel rs t σ i s :
  calcTable fuel (withRules rs) = (Ok t, σ) →
  states σ !! i = Some s →
  (∀ ed it k, ed ∈ outEdges (stateOf σ s) →
              label (edgeOf σ ed) = mkRuleItem Terminal k →
              it ∈ items σ s → complete (rules σ) it → k ∉ lookAheadSet it) ∧
  ¬ rr_conflict (rules σ) (items σ s).
Proof.
  intros E Hi. pose proof (calcTable_table_ok _ _ _ _ E) as Hok.
  destruct (table_row _ _ _ _ Hok Hi) as (row & Hrow & Hof).
  pose proof (row_of_exact _ _ _ Hof) as [Hact _]. split.
  - intros ed it k Hed Hlbl Hit Hc Hk.
    assert (actionEntries row !! k = Some (shift_of σ ed)) as H1.
    { apply Hact. left. by exists ed. }
    assert (actionEntries row !! k = Some (reduce_of (rules σ) it)) as H2.
    { apply Hact. right. by exists it. }
    rewrite H1 in H2. done.
  - destruct Hof as (row1 & red & _ & E2 & _).
    destruct Hok as (((Hstore & _) & _) & _).
    pose proof (calcReduceEntries_spec (rules σ) (stateOf σ s)) as Hc.
    rewrite E2 in Hc. destruct Hc as [_ Hnd].
    by apply (reduce_keys_NoDup (rules σ) (itemSet (stateOf σ s))); [apply Hstore|].
Qed.

(** *** The closure of an item set *)

Lemma rulesWithLhs_spec rs y j :
  j ∈ rulesWithLhs rs y ↔ ∃ r, rs !! j = Some r ∧ lhs r = y.
Proof.
  unfold rulesWithLhs. rewrite list_elem_of_omap. split.
  - intros ([i r] & Hin & Hsome). apply list_elem_of_lookup in Hin as [n Hn].
    rewrite list_lookup_imap in Hn. destruct (rs !! n) as [r'|] eqn:Hr; [|done].
    cbn in Hn. injection Hn as <- <-. destruct (decide (lhs r' = y)); [|done].
    injection Hsome as <-. by exists r'.
  - intros (r & Hj & Hy). exists (j, r). split.
    + apply list_elem_of_lookup. exists j. by rewrite list_lookup_imap, Hj.
    + by rewrite decide_True.
Qed.

Lemma afterDot_core rs a b : core a = core b → afterDot rs a = afterDot rs b.
Proof. unfold core, afterDot. by intros [= -> ->]. Qed.

Lemma closureItemsOf_elem rs fst_ item it :
  it ∈ closureItemsOf rs fst_ item →
  pos it = 0 ∧
  ∃ r, rs !! rule it = Some r ∧ afterDot rs item = Some (mkRuleItem NonTerminal (lhs r)).
Proof.
  unfold closureItemsOf, afterDot.
  destruct (rhs (ruleOf rs (rule item)) !! pos item) as [x|]; [|by intros ?%elem_of_nil].
  destruct (item_type x) eqn:Hty; [by intros ?%elem_of_nil|].
  intros Hin. apply list_elem_of_fmap in Hin as (j & -> & Hj). cbn.
  apply rulesWithLhs_spec in Hj as (r & Hr & Hy). split; [done|]. exists r. split; [done|].
  f_equal. rewrite Hy. by apply label_eta.
Qed.

Lemma closureItemsOf_complete rs fst_ item y j r :
  afterDot rs item = Some (mkRuleItem NonTerminal y) → rs !! j = Some r → lhs r = y →
  (j, 0) ∈ core <$> closureItemsOf rs fst_ item.
Proof.
  unfold closureItemsOf, afterDot. intros -> Hj Hy. cbn.
  rewrite <- list_fmap_compose. apply list_elem_of_fmap. exists j. split; [done|].
  apply rulesWithLhs_spec. by exists r.
Qed.

(** The last pass of the loop adds no item. *)
Lemma closureLoop_last fuel rs fst_ items its :
  closureLoop fuel rs fst_ items = Ok its →
  ∃ pre, its = addItems pre (flat_map (closureItemsOf rs fst_) pre) ∧
         length its ≤ length pre ∧
         (∀ c, c ∈ core <$> items → c ∈ core <$> pre).
Proof.
  revert items. induction fuel as [|fuel IH]; intros items; cbn [closureLoop]; [done|].
  destruct (Nat.ltb_spec (length items)
              (length (addItems items (flat_map (closureItemsOf rs fst_) items)))) as [Hlt|Hge].
  - intros (pre & -> & Hlen & Hsub)%IH. exists pre. split_and!; [done..|].
    intros c Hc. apply Hsub, addItems_cores_elem. by left.
  - intros [= <-]. by exists items.
Qed.

Lemma cores_same_length (A B : list LR1_StateItem) :
  core_unique A → core_unique B →
  (∀ c, c ∈ core <$> A → c ∈ core <$> B) → length B ≤ length A →
  ∀ c, c ∈ core <$> B → c ∈ core <$> A.
Proof.
  intros HA HB Hsub Hlen.
  assert (core <$> A ⊆+ core <$> B) as Hsm by (by apply NoDup_submseteq).
  apply submseteq_length_Permutation in Hsm; [|rewrite !length_fmap; lia].
  intros c Hc. by rewrite Hsm.
Qed.

Lemma addItems_core_unique_inv items newItems :
  core_unique (addItems items newItems) → core_unique items.
Proof.
  unfold addItems. revert items.
  induction newItems as [|it l IH]; intros items; cbn [foldl]; [done|].
  intros H%IH. unfold core_unique in *. rewrite addItem_cores in H.
  destruct ((addItem items it).2); [|done]. by apply NoDup_app in H as [? _].
Qed.

Lemma closureLoop_closed fuel rs fst_ items its :
  core_unique items → closureLoop fuel rs fst_ items = Ok its → closed_cores rs its.
Proof.
  intros Hu E. pose proof (closureLoop_inv _ _ _ _ _ E) as [Hu' _]. specialize (Hu' Hu).
  pose proof (closureLoop_cores _ _ _ _ _ E) as [Hkeep _].
  apply closureLoop_last in E as (pre & -> & Hlen & Hsub).
  set (new := flat_map (closureItemsOf rs fst_) pre) in *.
  assert (core_unique pre) as Hpre by (by eapply addItems_core_unique_inv).
  assert (∀ c, c ∈ core <$> addItems pre new → c ∈ core <$> pre) as Hback.
  { apply cores_same_length; [done..| |done].
    intros c Hc. apply addItems_cores_elem. by left. }
  intros it y j r Hit Hdot Hj Hy.
  apply (list_elem_of_fmap_2 core), Hback, list_elem_of_fmap in Hit as (it0 & Hc & Hit0).
  rewrite (afterDot_core rs it it0 Hc) in Hdot.
  apply addItems_cores_elem. right.
  pose proof (closureItemsOf_complete rs fst_ it0 y j r Hdot Hj Hy) as Hin.
  apply list_elem_of_fmap in Hin as (n & Hn & Hin). rewrite Hn.
  apply list_elem_of_fmap_2. unfold new. apply list_elem_of_In, in_flat_map.
  exists it0. split; by apply list_elem_of_In.
Qed.

Lemma closureLoop_origin fuel rs fst_ items its :
  closureLoop fuel rs fst_ items = Ok its → closure_of rs items its.
Proof.
  intros E.
  enough (∀ cur, (∀ c, c ∈ core <$> items → c ∈ core <$> cur) →
                 closure_of rs items cur →
                 closureLoop fuel rs fst_ cur = Ok its → closure_of rs items its) as Hgen.
  { apply (Hgen items); [done| |done]. intros it Hit. left. by apply list_elem_of_fmap_2. }
  clear E. induction fuel as [|fuel IH]; intros cur Hsub Hcur; cbn [closureLoop]; [done|].
  set (new := flat_map (closureItemsOf rs fst_) cur).
  assert (closure_of rs items (addItems cur new)) as Hnext.
  { intros it Hit. apply (list_elem_of_fmap_2 core), addItems_cores_elem in Hit as [Hc|Hc].
    - apply list_elem_of_fmap in Hc as (it0 & Hc & Hit0).
      destruct (Hcur it0 Hit0) as [Hin|(Hp & Hr & p & Hpin & Hdot)].
      + left. by rewrite Hc.
      + right. injection Hc as Hc1 Hc2. rewrite Hc1, Hc2. split_and!; [done..|].
        apply (list_elem_of_fmap_2 core) in Hpin.
        assert (core p ∈ core <$> addItems cur new) as Hp' by (apply addItems_cores_elem; by left).
        apply list_elem_of_fmap in Hp' as (p' & Hcp & Hp').
        exists p'. split; [done|]. by rewrite <- (afterDot_core rs p p' Hcp).
    - apply list_elem_of_fmap in Hc as (n & Hc & Hn).
      apply list_elem_of_In, in_flat_map in Hn as (p & Hp & Hn).
      apply list_elem_of_In in Hp. apply list_elem_of_In, closureItemsOf_elem in Hn
        as (Hpos & r & Hr & Hdot).
      injection Hc as Hc1 Hc2. right. rewrite Hc1, Hc2. split_and!; [done| |].
      + by eapply lookup_lt_Some.
      + apply (list_elem_of_fmap_2 core) in Hp.
        assert (core p ∈ core <$> addItems cur new) as Hp' by (apply addItems_cores_elem; by left).
        apply list_elem_of_fmap in Hp' as (p' & Hcp & Hp').
        exists p'. split; [done|]. rewrite <- (afterDot_core rs p p' Hcp), Hdot.
        unfold ruleOf. by rewrite Hr. }
  destruct (length cur <? length (addItems cur new)).
  - apply IH; [|done]. intros c Hc. apply addItems_cores_elem. left. by apply Hsub.
  - by intros [= <-].
Qed.

(** **** Lookahead sets in the closure *)

Lemma items_le_refl A : items_le A A.
Proof. intros a Ha. by exists a. Qed.

Lemma items_le_trans A B C : items_le A B → items_le B C → items_le A C.
Proof.
  intros H1 H2 a Ha. destruct (H1 a Ha) as (b & Hb & Hc & Hl).
  destruct (H2 b Hb) as (c & Hcin & Hc' & Hl'). exists c. split_and!; [done|congruence|].
  by etrans.
Qed.

Lemma addItem_le items newItem : items_le (items ++ [newItem]) (addItem items newItem).1.
Proof.
  unfold addItem. destruct (mergeItem items newItem) as [m|] eqn:E; cbn [fst].
  2:{ apply items_le_refl. }
  apply mergeItem_Some in E as (l1 & old & l2 & -> & Hc & _ & ->).
  intros a Ha. rewrite <- (assoc_L (++)) in Ha. cbn [app] in Ha.
  apply elem_of_app in Ha as [Ha|Ha]; [exists a; split_and!; [set_solver|done..]|].
  apply elem_of_cons in Ha as [->|Ha].
  - exists (merged old newItem). split_and!; [set_solver|done|].
    intros x Hx. cbn. apply elem_of_of_list, elem_of_app. by left.
  - apply elem_of_app in Ha as [Ha|Ha]; [exists a; split_and!; [set_solver|done..]|].
    apply list_elem_of_singleton in Ha as ->.
    exists (merged old newItem). split_and!; [set_solver|by rewrite core_merged|].
    intros x Hx. cbn. apply elem_of_of_list, elem_of_app. by right.
Qed.

Lemma addItems_le items newItems : items_le (items ++ newItems) (addItems items newItems).
Proof.
  unfold addItems. revert items. induction newItems as [|it l IH]; intros items; cbn [foldl].
  { rewrite app_nil_r. apply items_le_refl. }
  eapply items_le_trans; [|apply IH].
  intros a Ha. rewrite (cons_middle it), (assoc_L (++)) in Ha.
  apply elem_of_app in Ha as [Ha|Ha].
  - destruct (addItem_le items it a Ha) as (b & Hb & ?). exists b. split; [set_solver|done].
  - exists a. split_and!; [set_solver|done..].
Qed.

Lemma closureLoop_le fuel rs fst_ items its :
  closureLoop fuel rs fst_ items = Ok its → items_le items its.
Proof.
  revert items. induction fuel as [|fuel IH]; intros items; cbn [closureLoop]; [done|].
  set (new := flat_map (closureItemsOf rs fst_) items).
  assert (items_le items (addItems items new)) as Hstep.
  { intros a Ha. apply (addItems_le items new). set_solver. }
  destruct (length items <? length (addItems items new)).
  - intros E%IH. by eapply items_le_trans.
  - by intros [= <-].
Qed.

Lemma closureItemsOf_next rs fst_ item y b j r :
  afterDot rs item = Some (mkRuleItem NonTerminal y) →
  rhs (ruleOf rs (rule item)) !! S (pos item) = Some b →
  rs !! j = Some r → lhs r = y →
  {| pos := 0;
     lookAheadSet := match item_type b with
                     | Terminal => JSSet.add [] (item_value b)
                     | NonTerminal => JSSet.of_list (default [] (fst_ !! item_value b))
                     end;
     rule := j |} ∈ closureItemsOf rs fst_ item.
Proof.
  unfold closureItemsOf, afterDot. intros -> Hb Hj Hy. cbn.
  rewrite Nat.add_1_r, Hb. apply list_elem_of_fmap. exists j. split; [done|].
  apply rulesWithLhs_spec. by exists r.
Qed.

Lemma closureLoop_lookahead fuel rs fst_ items its :
  core_unique items → closureLoop fuel rs fst_ items = Ok its → lookahead_closed rs fst_ its.
Proof.
  intros Hu E. pose proof (closureLoop_inv _ _ _ _ _ E) as [Hu' _]. specialize (Hu' Hu).
  apply closureLoop_last in E as (pre & -> & Hlen & Hsub).
  set (new := flat_map (closureItemsOf rs fst_) pre) in *.
  assert (core_unique pre) as Hpre by (by eapply addItems_core_unique_inv).
  assert (∀ c, c ∈ core <$> addItems pre new → c ∈ core <$> pre) as Hback.
  { apply cores_same_length; [done..| |done].
    intros c Hc. apply addItems_cores_elem. by left. }
  intros p y b j r Hp Hdot Hb Hj Hy.
  apply (list_elem_of_fmap_2 core), Hback, list_elem_of_fmap in Hp as (p0 & Hc & Hp0).
  rewrite (afterDot_core rs p p0 Hc) in Hdot.
  injection Hc as Hc1 Hc2. rewrite Hc1, Hc2 in Hb.
  pose proof (closureItemsOf_next rs fst_ p0 y b j r Hdot Hb Hj Hy) as Hin.
  match type of Hin with ?n ∈ _ =>
    destruct (addItems_le pre new n) as (it & Hit & Hcore & Hla) end.
  { apply elem_of_app. right. apply list_elem_of_In, in_flat_map. exists p0.
    split; apply list_elem_of_In; [exact Hp0|exact Hin]. }
  exists it. split_and!; [done..|]. cbn in Hla.
  destruct (item_type b).
  - apply Hla, elem_of_add. by right.
  - intros x Hx. apply Hla, elem_of_of_list. done.
Qed.

(** X8. The closure that [calcItemSet] computes from a core-unique item
    set: it keeps the items it starts from (with lookahead sets that
    include theirs), contains the start of every rule of every
    non-terminal right of a dot, and nothing else; and when a symbol [b]
    follows that non-terminal, the rule starts have [b], or FIRST(b), in
    their lookahead sets. *)
Theorem closure_items fuel rs fst_ items its :
  core_unique items →
  closureLoop fuel rs fst_ items = Ok its →
  core_unique its ∧ items_le items its ∧
  closed_cores rs its ∧ closure_of rs items its ∧ lookahead_closed rs fst_ its.
Proof.
  intros Hu E. split_and!.
  - by apply (closureLoop_inv _ _ _ _ _ E).
  - by eapply closureLoop_le.
  - by eapply closureLoop_closed.
  - by eapply closureLoop_origin.
  - by eapply closureLoop_lookahead.
Qed.

(** **** The closure loop ends *)

Lemma unstarted_step rs fst_ items :
  core_unique items →
  let items' := addItems items (flat_map (closureItemsOf rs fst_) items) in
  length items < length items' →
  length (unstarted rs items') < length (unstarted rs items).
Proof.
  intros Hu items' Hlt.
  set (new := flat_map (closureItemsOf rs fst_) items) in *.
  assert (core_unique items') as Hu' by (by apply addItems_core_unique).
  assert (∀ c, c ∈ core <$> items → c ∈ core <$> items') as Hsub.
  { intros c Hc. apply addItems_cores_elem. by left. }
  (* some core of the new set is not a core of the old set *)
  assert (∃ c, c ∈ core <$> items' ∧ c ∉ core <$> items) as (c & Hc & Hnc).
  { destruct (decide (Forall (λ c, c ∈ core <$> items) (core <$> items'))) as [Hall|Hn].
    - exfalso. rewrite Forall_forall in Hall.
      assert (core <$> items' ⊆+ core <$> items) as Hsm by (by apply NoDup_submseteq).
      apply submseteq_length in Hsm. rewrite !length_fmap in Hsm. lia.
    - apply not_Forall_Exists in Hn; [|apply _].
      apply Exists_exists in Hn as (c & Hc & Hnc). by exists c. }
  assert (c.2 = 0 ∧ c.1 < length rs) as [Hc2 Hc1].
  { apply addItems_cores_elem in Hc as [?|Hc]; [done|].
    apply list_elem_of_fmap in Hc as (it & -> & Hit).
    apply list_elem_of_In, in_flat_map in Hit as (it0 & _ & Hit).
    apply list_elem_of_In, closureItemsOf_cores in Hit. done. }
  destruct c as [j p]. cbn in Hc1, Hc2. subst p.
  unfold unstarted.
  rewrite <- (list_filter_filter_l (λ j, (j, 0) ∉ core <$> items')
                                   (λ j, (j, 0) ∉ core <$> items)).
  2:{ intros k Hk Hin. apply Hk, Hsub, Hin. }
  apply (length_filter_lt _ _ j).
  - apply list_elem_of_filter. split; [done|]. apply elem_of_seq. lia.
  - intros Hn. by apply Hn.
Qed.

Lemma closureLoop_runs fuel rs fst_ items :
  core_unique items → length (unstarted rs items) < fuel →
  ∃ its, closureLoop fuel rs fst_ items = Ok its.
Proof.
  revert items. induction fuel as [|fuel IH]; intros items Hu Hfuel; [lia|].
  cbn [closureLoop].
  destruct (Nat.ltb_spec (length items)
              (length (addItems items (flat_map (closureItemsOf rs fst_) items)))) as [Hlt|Hge].
  - apply IH; [by apply addItems_core_unique|].
    pose proof (unstarted_step rs fst_ items Hu Hlt). lia.
  - by eexists.
Qed.

Lemma unstarted_length rs items : length (unstarted rs items) ≤ length rs.
Proof.
  unfold unstarted. etrans; [apply length_filter|]. by rewrite length_seq.
Qed.

(** The part of [calcItemSet] after the closure. *)
Lemma calcItemSet_run fuel this σ its :
  this < length (stateObjs σ) →
  core_unique (items σ this) →
  closureLoop fuel (rules σ) (first σ) (items σ this) = Ok its →
  ∃ R σ', calcItemSet fuel this σ = (Ok R, σ').
Proof.
  intros Hthis Hu Hcl.
  assert (core_unique its) as Hu' by (by apply (closureLoop_inv _ _ _ _ _ Hcl)).
  unfold calcItemSet. cbv [mbindM mget liftR updState mmodify].
  fold (items σ this). rewrite Hcl.
  destruct (succSymbols (rules σ) its) as [t nt].
  set (σ1 := setStateObjs _ σ).
  assert (this < length (stateObjs σ1)) as H1 by (unfold σ1; by rewrite length_stateObjs_alter).
  assert (core_unique (items σ1 this)) as H2.
  { unfold σ1. fold (closedStore this its σ). rewrite items_closedStore by done.
    by rewrite decide_True. }
  destruct (forM_mkSuccessor_run this Terminal t σ1 H1 H2) as (s1 & σ2 & E1).
  rewrite E1.
  apply forM_mkSuccessor_Ok in E1 as [_ Hs]; [|done].
  assert (this < length (stateObjs σ2)) as H3.
  { destruct Hs as (-> & _). lia. }
  assert (core_unique (items σ2 this)) as H4.
  { destruct Hs as (_&_&_&_&_&_&_&Hth&_). unfold items. rewrite Hth. done. }
  destruct (forM_mkSuccessor_run this NonTerminal nt σ2 H3 H4) as (s2 & σ3 & E2).
  rewrite E2. by eexists _, _.
Qed.


(** *** The out-edges of a state *)

Lemma succSymbols_from rs its t0 nt0 :
  let '(t, nt) :=
    foldl (λ '(t, nt) item,
             match rhs (ruleOf rs (rule item)) !! pos item with
             | Some x =>
                 match item_type x with
                 | Terminal => (JSSet.add t (item_value x), nt)
                 | NonTerminal => (t, JSSet.add nt (item_value x))
                 end
             | None => (t, nt)
             end) (t0, nt0) its in
  (NoDup t0 → NoDup t) ∧ (NoDup nt0 → NoDup nt) ∧
  (∀ v, v ∈ t ↔ v ∈ t0 ∨ ∃ it, it ∈ its ∧ afterDot rs it = Some (mkRuleItem Terminal v)) ∧
  (∀ v, v ∈ nt ↔ v ∈ nt0 ∨ ∃ it, it ∈ its ∧ afterDot rs it = Some (mkRuleItem NonTerminal v)).
Proof.
  revert t0 nt0. induction its as [|it its IH]; intros t0 nt0; cbn [foldl].
  { split_and!; [done..| |]; intros v; split; try tauto;
      intros [?|(it & Hit & _)]; [done|by apply elem_of_nil in Hit|done|by apply elem_of_nil in Hit]. }
  unfold afterDot in *.
  destruct (rhs (ruleOf rs (rule it)) !! pos it) as [x|] eqn:Hx.
  2:{ specialize (IH t0 nt0). destruct (foldl _ _ its) as [t nt].
      destruct IH as (H1 & H2 & H3 & H4). split_and!; [done..| |]; intros v.
      - rewrite H3. split; intros [?|(it' & Hit & Hd)]; auto.
        + right. exists it'. split; [by right|done].
        + apply elem_of_cons in Hit as [->|Hit]; [congruence|]. right. by exists it'.
      - rewrite H4. split; intros [?|(it' & Hit & Hd)]; auto.
        + right. exists it'. split; [by right|done].
        + apply elem_of_cons in Hit as [->|Hit]; [congruence|]. right. by exists it'. }
  destruct x as [ty xv]. destruct ty; cbn [item_type item_value].
  - specialize (IH (JSSet.add t0 xv) nt0). destruct (foldl _ _ its) as [t nt].
    destruct IH as (H1 & H2 & H3 & H4). split_and!; [|done| |]; [|intros v..].
    + intros Hnd. by apply H1, NoDup_add.
    + rewrite H3, elem_of_add. split.
      * intros [[?| ->]|(it' & Hit & Hd)]; [by left| |].
        -- right. exists it. split; [by left|done].
        -- right. exists it'. split; [by right|done].
      * intros [?|(it' & Hit & Hd)]; [by left; left|].
        apply elem_of_cons in Hit as [->|Hit].
        -- rewrite Hx in Hd. injection Hd as ->. left. by right.
        -- right. by exists it'.
    + rewrite H4. split; intros [?|(it' & Hit & Hd)]; auto.
      * right. exists it'. split; [by right|done].
      * apply elem_of_cons in Hit as [->|Hit]; [congruence|]. right. by exists it'.
  - specialize (IH t0 (JSSet.add nt0 xv)). destruct (foldl _ _ its) as [t nt].
    destruct IH as (H1 & H2 & H3 & H4). split_and!; [done| | |]; [|intros v..].
    + intros Hnd. by apply H2, NoDup_add.
    + rewrite H3. split; intros [?|(it' & Hit & Hd)]; auto.
      * right. exists it'. split; [by right|done].
      * apply elem_of_cons in Hit as [->|Hit]; [congruence|]. right. by exists it'.
    + rewrite H4, elem_of_add. split.
      * intros [[?| ->]|(it' & Hit & Hd)]; [by left| |].
        -- right. exists it. split; [by left|done].
        -- right. exists it'. split; [by right|done].
      * intros [?|(it' & Hit & Hd)]; [by left; left|].
        apply elem_of_cons in Hit as [->|Hit].
        -- rewrite Hx in Hd. injection Hd as ->. left. by right.
        -- right. by exists it'.
Qed.

(** The labels of the successors of an item set are the symbols right of
    its dots, each once. *)
Lemma succLabels_spec rs its :
  NoDup (succLabels rs its) ∧
  ∀ x, x ∈ succLabels rs its ↔ ∃ it, it ∈ its ∧ afterDot rs it = Some x.
Proof.
  unfold succLabels, succSymbols.
  pose proof (succSymbols_from rs its [] []) as H.
  destruct (foldl _ _ its) as [t nt]. destruct H as (H1 & H2 & H3 & H4). cbn [fst snd].
  split.
  - apply NoDup_app. split_and!.
    + apply NoDup_fmap_2; [by intros ?? [= ->]|]. apply H1, NoDup_nil_2.
    + intros x Hx Hx'. apply list_elem_of_fmap in Hx as (v & -> & _).
      apply list_elem_of_fmap in Hx' as (v' & [=] & _).
    + apply NoDup_fmap_2; [by intros ?? [= ->]|]. apply H2, NoDup_nil_2.
  - intros [ty v]. rewrite elem_of_app, !list_elem_of_fmap. split.
    + intros [(v' & [= -> ->] & Hv)|(v' & [= -> ->] & Hv)].
      * apply H3 in Hv as [Hv|?]; [by apply elem_of_nil in Hv|done].
      * apply H4 in Hv as [Hv|?]; [by apply elem_of_nil in Hv|done].
    + intros Hit. destruct ty.
      * left. exists v. split; [done|]. apply H3. by right.
      * right. exists v. split; [done|]. apply H4. by right.
Qed.

Lemma out_complete_labels σ s :
  out_complete σ s ↔
  ∀ it x, it ∈ items σ s → afterDot (rules σ) it = Some x → x ∈ outLabels σ s.
Proof.
  unfold out_complete, outLabels. split; intros H it x Hit Hx.
  - destruct (H it x Hit Hx) as (e & He & <-).
    apply list_elem_of_fmap. by exists e.
  - specialize (H it x Hit Hx). apply list_elem_of_fmap in H as (e & -> & He). by exists e.
Qed.

(** The invariant reads the rules, the item sets, the labels of the
    out-edges and the admitted states only. *)
Lemma progress_inv_ext σ σ' :
  rules σ' = rules σ →
  (∀ s, items σ' s = items σ s) →
  (∀ s, outLabels σ' s = outLabels σ s) →
  (∀ s, s ∈ states σ' → s ∈ states σ ∨ (out_complete σ s ∧ out_sound σ s)) →
  progress_inv σ → progress_inv σ'.
Proof.
  intros Hr Hit Hlb Hst (Ho & Hnd & Hoc). split_and!.
  - intros s. rewrite Hr, Hit. apply Ho.
  - intros s. rewrite Hlb. apply Hnd.
  - intros s Hs.
    assert (out_complete σ s ∧ out_sound σ s) as [H1 H2].
    { destruct (Hst s Hs) as [?|?]; [by apply Hoc|done]. }
    split.
    + apply out_complete_labels. rewrite Hr, Hit, Hlb. by apply out_complete_labels.
    + unfold out_sound. rewrite Hr, Hit, Hlb. apply H2.
Qed.

(** After [calcItemSet] on the state [q] of the worklist: the invariant
    holds, and [q] has its out-edges. *)
Lemma calcItemSet_progress inner q Q' R σ σ1 :
  automaton_inv (Q' ++ [q]) σ → progress_inv σ →
  calcItemSet inner q σ = (Ok R, σ1) →
  progress_inv σ1 ∧ out_complete σ1 q ∧ out_sound σ1 q.
Proof.
  intros (Hb & Hv & _ & _ & Ht & _) (Ho & Hnd & Hoc) Hcalc.
  destruct Hb as (Hstore & _ & _ & HQ & Hst).
  assert (q ∈ Q' ++ [q]) as HqQ by (apply elem_of_app; right; left).
  destruct (HQ q HqQ) as [Hq Hqn]. destruct (Ht q HqQ) as [Hout _].
  apply calcItemSet_Ok in Hcalc as (its & Hcl & -> & Hsucc); [|done].
  set (lbls := succLabels (rules σ) its) in *.
  destruct (closureLoop_cores _ _ _ _ _ Hcl) as [Hsub _].
  assert (core_unique its) as Hu.
  { apply (closureLoop_inv _ _ _ _ _ Hcl). apply Hstore. }
  pose proof (closureLoop_origin _ _ _ _ _ Hcl) as Horigin.
  pose proof (λ s, successors_state q lbls its σ σ1 s Hq Hsucc) as Hstate.
  pose proof (λ e, successors_edge q lbls its σ σ1 e Hsucc) as Hedge.
  assert (Hlen := Hsucc). destruct Hlen as (Hn & Hm & Hrules & _ & Hs1 & _).
  unfold closedStore in Hn, Hm, Hrules, Hs1. rewrite length_stateObjs_alter in Hn.
  cbn [edgeObjs setStateObjs rules states] in Hm, Hrules, Hs1.
  destruct Hv as [Hvo Hvd].
  assert (∀ e, e < length (edgeObjs σ) → edgeOf σ1 e = edgeOf σ e) as Hesame.
  { intros e Hlt. destruct (Hedge e) as [(_ & ?)|[(i & lbl & ? & _)|?]]; (done || lia). }
  assert (∀ s, s < length (stateObjs σ) → s ≠ q →
               items σ1 s = items σ s ∧ outLabels σ1 s = outLabels σ s) as Hsame.
  { intros s Hs Hne. destruct (Hstate s) as
      [(_ & _ & Hst')|[(? & _)|[(i & lbl & seeds & ? & _)|(? & _)]]]; try (done || lia).
    unfold items, outLabels. rewrite Hst'. split; [done|].
    apply list_fmap_ext. intros i e He. rewrite Hesame; [done|].
    eapply Hvo, list_elem_of_lookup_2, He. }
  assert (items σ1 q = its ∧ outLabels σ1 q = lbls) as [Hitq Hlbq].
  { destruct (Hstate q) as
      [(_ & ? & _)|[(_ & Hst')|[(i & lbl & seeds & ? & _)|(? & _)]]]; try (done || lia).
    unfold items, outLabels. rewrite Hst', Hout. cbn [itemSet outEdges app]. split; [done|].
    apply list_eq. intros i. rewrite list_lookup_fmap.
    destruct (lbls !! i) as [lbl|] eqn:Hl.
    - apply lookup_lt_Some in Hl as Hlt. rewrite lookup_seq_lt by done. cbn.
      destruct (Hedge (length (edgeObjs σ) + i)) as
        [(? & _)|[(i' & lbl' & Heq & Hl' & ->)|?]]; try lia.
      assert (i' = i) as -> by lia. cbn. congruence.
    - apply lookup_ge_None in Hl. by rewrite lookup_seq_ge. }
  assert (∀ s, length (stateObjs σ) ≤ s →
               outLabels σ1 s = [] ∧ ∀ it, it ∈ items σ1 s → 0 < pos it) as Hnew.
  { intros s Hs. destruct (Hstate s) as
      [(? & _)|[(? & _)|[(i & lbl & seeds & _ & _ & Hseeds & Hst' & _)|(_ & Hst')]]];
      try lia; unfold items, outLabels; rewrite Hst'; cbn; (split; [done|]).
    - intros it Hit. by destruct (proj2 (seedItems_advances _ _ _ _ _ Hu Hseeds) it Hit).
    - intros it Hit. by apply elem_of_nil in Hit. }
  destruct (succLabels_spec (rules σ) its) as [Hlnd Hlbl]. fold lbls in Hlnd, Hlbl.
  split_and!.
  - split_and!.
    + intros s. rewrite Hrules. destruct (decide (s = q)) as [->|Hne].
      * rewrite Hitq. intros it Hit Hp Hr0.
        destruct (Horigin it Hit) as [Hc|(_ & _ & p & Hp' & Hd)]; [|by exists p].
        apply list_elem_of_fmap in Hc as (it0 & Hc & Hit0).
        injection Hc as Hc1 Hc2.
        destruct (Ho q it0 Hit0) as (p0 & Hp0 & Hd0); [congruence..|].
        apply (list_elem_of_fmap_2 core), Hsub, list_elem_of_fmap in Hp0 as (p & Hcp & Hp').
        exists p. split; [done|].
        rewrite (afterDot_core (rules σ) p p0) by done. rewrite Hd0. by rewrite Hc1.
      * destruct (decide (s < length (stateObjs σ))) as [Hlt|Hge].
        -- destruct (Hsame s Hlt Hne) as [-> _]. apply Ho.
        -- intros it Hit Hp. apply (Hnew s) in Hit; lia.
    + intros s. destruct (decide (s = q)) as [->|Hne]; [by rewrite Hlbq|].
      destruct (decide (s < length (stateObjs σ))) as [Hlt|Hge].
      * destruct (Hsame s Hlt Hne) as [_ ->]. apply Hnd.
      * destruct (Hnew s) as [-> _]; [lia|]. apply NoDup_nil_2.
    + intros s. rewrite Hs1. intros Hs.
      assert (s ≠ q) as Hne by (intros ->; done).
      destruct (Hsame s (Hst s Hs) Hne) as [Hi Hl]. destruct (Hoc s Hs) as [H1 H2]. split.
      * apply out_complete_labels. rewrite Hrules, Hi, Hl. by apply out_complete_labels.
      * unfold out_sound. rewrite Hrules, Hi, Hl. apply H2.
  - apply out_complete_labels. rewrite Hrules, Hitq, Hlbq. intros it x Hit Hx.
    apply Hlbl. by exists it.
  - unfold out_sound. rewrite Hrules, Hitq, Hlbq. intros x Hx. by apply Hlbl.
Qed.

Lemma redirected_labels s us σ σ' r :
  redirected s us σ σ' → items σ' r = items σ r ∧ outLabels σ' r = outLabels σ r.
Proof.
  intros (_ & _ & _ & _ & _ & _ & Hst & Hed). destruct (Hst r) as (Hi & _ & Ho & _).
  unfold items, outLabels. rewrite Hi, Ho. split; [done|].
  apply list_fmap_ext. intros i e _. rewrite Hed. by destruct (decide _).
Qed.

Lemma progress_inv_step inner q Q' R b σ σ1 σ2 :
  automaton_inv (Q' ++ [q]) σ → progress_inv σ →
  calcItemSet inner q σ = (Ok R, σ1) →
  addState q σ1 = (Ok b, σ2) →
  progress_inv σ2.
Proof.
  intros Hinv Hp Hcalc Hadd.
  destruct (calcItemSet_progress _ _ _ _ _ _ Hinv Hp Hcalc) as (Hp1 & Hq1 & Hq2).
  apply addState_Ok in Hadd. destruct b.
  - destruct Hadd as [_ ->]. apply (progress_inv_ext σ1); [done| | | |done].
    + intros s. apply admittedStore_lists.
    + intros s. unfold outLabels. by destruct (admittedStore_lists q σ1 s) as (_ & -> & _).
    + intros s. cbn. intros [?|Hs]%elem_of_app; [by left|].
      apply list_elem_of_singleton in Hs as ->. by right.
  - destruct Hadd as (s0 & _ & _ & Hred).
    apply (progress_inv_ext σ1); [apply Hred| | | |done].
    + intros s. apply (redirected_labels _ _ _ _ s Hred).
    + intros s. apply (redirected_labels _ _ _ _ s Hred).
    + intros s. destruct Hred as (_ & _ & -> & _). by left.
Qed.

Lemma stateLoop_progress_inv fuel inner Q σ σ' :
  automaton_inv Q σ → progress_inv σ →
  stateLoop fuel inner Q σ = (Ok tt, σ') → progress_inv σ'.
Proof.
  intros Hinv Hp E.
  enough (automaton_inv [] σ' ∧ progress_inv σ') as [_ ?]; [done|].
  revert E. apply (stateLoop_invariant (λ Q σ1, automaton_inv Q σ1 ∧ progress_inv σ1) inner);
    [|done].
  clear. intros q Q' R b σ0 σ1 σ2 [Hinv Hp] Hcalc Hadd. split.
  - by eapply automaton_inv_step.
  - by eapply progress_inv_step.
Qed.

Lemma progress_inv_initial f σ :
  stateObjs σ = [] → states σ = [] → progress_inv (initialStore f σ).
Proof.
  intros Ho Hs.
  assert (∀ s, outLabels (initialStore f σ) s = []) as Hout.
  { intros s. unfold outLabels. rewrite stateOf_initialStore by done. by destruct (decide _). }
  split_and!.
  - intros s it. unfold items. rewrite stateOf_initialStore by done.
    destruct (decide _); cbn; [|by intros ?%elem_of_nil].
    by intros ->%list_elem_of_singleton.
  - intros s. rewrite Hout. apply NoDup_nil_2.
  - intros s. cbn. rewrite Hs. by intros ?%elem_of_nil.
Qed.

Lemma progress_inv_same_automaton σ σ' :
  same_automaton σ σ' → progress_inv σ → progress_inv σ'.
Proof.
  intros (Hr & _ & Hs & Ho & He). apply progress_inv_ext; [done| | |].
  - intros s. unfold items, stateOf. by rewrite Ho.
  - intros s. unfold outLabels, stateOf, edgeOf. by rewrite Ho, He.
  - intros s. rewrite Hs. by left.
Qed.

Lemma calcTable_progress_inv fuel rs t σ :
  calcTable fuel (withRules rs) = (Ok t, σ) → progress_inv σ.
Proof.
  intros E. destruct (withRules_fields rs) as (Hr & _ & Hs & _ & Ho & He).
  apply calcTable_Ok in E as (f & σa & Hne & _ & _ & Hloop & Hrows & _).
  apply forM_buildRow_Ok in Hrows.
  eapply progress_inv_same_automaton; [exact Hrows|].
  apply (progress_inv_same_automaton σa); [by unfold same_automaton|].
  eapply stateLoop_progress_inv; [|by apply progress_inv_initial|exact Hloop].
  by apply automaton_inv_initial.
Qed.

(** *** The parser never reads a missing table entry *)

(** An item with the dot at position [p] in the top state: [k ≤ p] edges
    back along the path, the state holds the item with the dot at
    [p - k]. *)
Lemma stack_wf_back σ stack s ls :
  edges_ok σ →
  (∀ s0 it, states σ !! 0 = Some s0 → it ∈ items σ s0 → pos it = 0) →
  stack_wf σ stack s ls →
  ∀ it k, it ∈ items σ s → k ≤ pos it →
    ∃ s', stack_wf σ (take (length stack - 2 * k) stack) s' (take (length ls - k) ls) ∧
          (rule it, pos it - k) ∈ core <$> items σ s'.
Proof.
  intros Hedges Hroot.
  induction 1 as [s0 H0|stack s ls e x i Hwf IH He Hi Hx]; intros it k Hit Hk.
  - rewrite (Hroot s0 it H0 Hit) in Hk. replace k with 0 by lia. exists s0. cbn. split.
    + by constructor.
    + rewrite Nat.sub_0_r. by apply (list_elem_of_fmap_2 core) in Hit.
  - pose proof (stack_wf_length _ _ _ _ Hwf) as Hlen.
    destruct k as [|k].
    + rewrite !Nat.sub_0_r, !take_ge by lia. eexists. split; [by econstructor|].
      by apply (list_elem_of_fmap_2 core) in Hit.
    + destruct (Hedges s e He (core it)) as [Hprev _].
      { by apply list_elem_of_fmap_2. }
      { cbn. lia. }
      cbn [core fst snd] in Hprev.
      apply list_elem_of_fmap in Hprev as (it' & Hcore & Hit').
      injection Hcore as Hrule Hpos.
      destruct (IH it' k Hit') as (s' & Hwf' & Hin); [lia|].
      rewrite !length_app. cbn [length].
      replace (length stack + 2 - 2 * S k) with (length stack - 2 * k) by lia.
      replace (length ls + 1 - S k) with (length ls - k) by lia.
      rewrite !take_app_le by lia. exists s'. split; [done|].
      rewrite <- Hrule, <- Hpos in Hin. by replace (pos it - S k) with (pos it - 1 - k) by lia.
Qed.

(** A REDUCE entry of the row of the top state, with its item. *)
Lemma reduce_entry_item σ t s row k entry :
  table_ok σ t → row_of σ s row →
  actionEntries row !! k = Some entry → shift entry = false →
  ∃ it r, it ∈ items σ s ∧ rules σ !! rule it = Some r ∧ pos it = length (rhs r) ∧
          entry_value entry = Z.of_nat (rule it).
Proof.
  intros Hok Hrow Hk Hsh.
  pose proof Hok as ((_ & _ & _ & Hrules & _) & Hindexed & _).
  apply row_of_spec in Hrow as [_ Hred].
  destruct (Hred k entry Hk Hsh) as (it & Hit & Hpos & Hval & _).
  pose proof (Hrules s it Hit) as Hlt. rewrite Hindexed in Hval by done.
  destruct (lookup_lt_is_Some_2 _ _ Hlt) as [r Hr].
  exists it, r. split_and!; [done..| |done].
  rewrite Hpos. unfold ruleOf. by rewrite Hr.
Qed.


Section Progress.
Context {L U : Type} `{TokenSource L}.
Implicit Types (lexer : L) (u : U) (stack : list StackItem).



End Progress.

(** *** What the FIRST sets contain *)




Lemma firstLoop_dom fuel rs f f' :
  firstLoop fuel rs f = Ok f' → ∀ k, is_Some (f' !! k) ↔ is_Some (f !! k).
Proof.
  revert f. induction fuel as [|fuel IH]; intros f; cbn [firstLoop]; [done|].
  destruct (firstPass rs f) as [[f1 c1]| | | |] eqn:E; try done.
  pose proof (firstRules_dom _ _ _ _ _ E) as Hdom.
  destruct c1.
  - intros E' k. rewrite (IH _ E' k). apply Hdom.
  - intros [= <-]. apply Hdom.
Qed.


(** X12. [calcFirst] on its own result: when the generator already holds
    the FIRST map of a previous run over the same rules, another run
    returns after a single pass and leaves the map as it is. *)
Theorem calcFirst_idempotent fuel rs f0 f n :
  first_wf f0 →
  calcFirst fuel rs f0 = Ok f →
  calcFirst (S n) rs f = Ok f.
Proof.
  unfold calcFirst. intros Hwf E.
  assert (first_wf (initFirst rs f0)) as Hwf0 by (by apply initFirst_wf).
  destruct (firstLoop_fixpoint _ _ _ _ Hwf0 E) as [Hwf' Hfix].
  assert (initFirst rs f = f) as ->.
  { apply map_eq. intros k. rewrite initFirst_lookup.
    destruct (f !! k) as [fk|] eqn:Hk; [done|].
    case_bool_decide as Hin; [|done]. exfalso.
    apply list_elem_of_fmap in Hin as (r & -> & Hr).
    pose proof (initFirst_defined rs f0 r Hr) as Hdef.
    apply (firstLoop_dom _ _ _ _ E) in Hdef. rewrite Hk in Hdef. by destruct Hdef. }
  cbn [firstLoop]. by rewrite Hfix.
Qed.

(** *** The kernel of a successor state *)

Lemma core_pos a b : core a = core b → pos a = pos b.
Proof. unfold core. congruence. Qed.

(** An item with the dot at the start leaves the items with the dot
    further right as they are. *)
Lemma addItem_keeps items newItem it :
  pos newItem = 0 → 0 < pos it →
  it ∈ (addItem items newItem).1 ↔ it ∈ items.
Proof.
  intros Hn Hp. unfold addItem.
  destruct (mergeItem items newItem) as [m|] eqn:E; cbn [fst].
  - apply mergeItem_Some in E as (l1 & old & l2 & -> & Hc & _ & ->).
    assert (pos old = 0) as Ho by (apply core_pos in Hc; lia).
    assert (pos (merged old newItem) = 0) as Hm.
    { pose proof (core_merged old newItem) as Hcm. apply core_pos in Hcm. lia. }
    rewrite !elem_of_app, !elem_of_cons.
    split; (intros [?|[->|?]]; [by left|lia|by right; right]).
  - rewrite elem_of_app, list_elem_of_singleton. split; [|by left].
    intros [?| ->]; [done|lia].
Qed.

Lemma addItems_keeps items newItems it :
  (∀ n, n ∈ newItems → pos n = 0) → 0 < pos it →
  it ∈ addItems items newItems ↔ it ∈ items.
Proof.
  unfold addItems. revert items.
  induction newItems as [|n l IH]; intros items Hn Hp; cbn [foldl]; [done|].
  rewrite IH; [|intros n' Hn'; apply Hn; by right|done].
  apply addItem_keeps; [|done]. apply Hn. by left.
Qed.

(** The closure leaves the items with the dot after a symbol as they
    are. *)
Lemma closureLoop_keeps fuel rs fst_ items its it :
  closureLoop fuel rs fst_ items = Ok its → 0 < pos it →
  it ∈ its ↔ it ∈ items.
Proof.
  intros E Hp. revert items E.
  induction fuel as [|fuel IH]; intros items; cbn [closureLoop]; [done|].
  set (new := flat_map (closureItemsOf rs fst_) items).
  assert (it ∈ addItems items new ↔ it ∈ items) as Hstep.
  { apply addItems_keeps; [|done]. intros n Hn.
    apply list_elem_of_In, in_flat_map in Hn as (it0 & _ & Hn).
    by apply list_elem_of_In, closureItemsOf_cores in Hn as [? _]. }
  destruct (length items <? length (addItems items new)).
  - intros E%IH. by rewrite E.
  - by intros [= <-].
Qed.

Lemma la_same_of_list l : la_same (JSSet.of_list l) l.
Proof. intros x. apply elem_of_of_list. Qed.

Lemma afterDot_dotAt rs it lbl :
  afterDot rs it = Some lbl → dotAt rs (item_type lbl) (item_value lbl) it.
Proof. intros H. by exists lbl. Qed.

(** The seeds of a successor are the successors of the items. *)
Lemma seedItems_kernel rs its lbl seeds :
  core_unique its →
  seedItems rs its (item_type lbl) (item_value lbl) = Ok seeds →
  kernel_of rs lbl its seeds.
Proof.
  intros Hu E.
  pose proof (seedItems_from rs (item_type lbl) (item_value lbl) [] its Hu) as E'.
  rewrite filter_nil, fmap_nil in E'.
  fold (seedItems rs its (item_type lbl) (item_value lbl)) in E'.
  rewrite E in E'. injection E' as ->. cbn [app].
  intros it Hit Hd. exists (advance it). split_and!.
  - apply list_elem_of_fmap_2, list_elem_of_filter. split; [|done]. by apply afterDot_dotAt.
  - done.
  - apply la_same_of_list.
Qed.

Lemma calcItemSet_kernels inner q Q' R σ σ1 :
  automaton_inv (Q' ++ [q]) σ → kernels_ok σ →
  calcItemSet inner q σ = (Ok R, σ1) →
  kernels_ok σ1.
Proof.
  intros (Hb & Hv & _ & _ & Ht & _) Hk Hcalc.
  destruct Hb as (Hstore & _ & _ & HQ & Hst).
  assert (q ∈ Q' ++ [q]) as HqQ by (apply elem_of_app; right; left).
  destruct (HQ q HqQ) as [Hq Hqn]. destruct (Ht q HqQ) as [Hout _].
  apply calcItemSet_Ok in Hcalc as (its & Hcl & -> & Hsucc); [|done].
  set (lbls := succLabels (rules σ) its) in *.
  assert (core_unique its) as Hu.
  { apply (closureLoop_inv _ _ _ _ _ Hcl). apply Hstore. }
  pose proof (λ s, successors_state q lbls its σ σ1 s Hq Hsucc) as Hstate.
  pose proof (λ e, successors_edge q lbls its σ σ1 e Hsucc) as Hedge.
  assert (Hlen := Hsucc). destruct Hlen as (Hn & Hm & Hrules & _ & Hs1 & _).
  unfold closedStore in Hn, Hm, Hrules, Hs1. rewrite length_stateObjs_alter in Hn.
  cbn [edgeObjs setStateObjs rules states] in Hm, Hrules, Hs1.
  destruct Hv as [Hvo Hvd].
  assert (∀ e, e < length (edgeObjs σ) → edgeOf σ1 e = edgeOf σ e) as Hesame.
  { intros e Hlt. destruct (Hedge e) as [(_ & ?)|[(i & lbl & ? & _)|?]]; (done || lia). }
  assert (∀ s, s < length (stateObjs σ) → s ≠ q → stateOf σ1 s = stateOf σ s) as Hsame.
  { intros s Hs Hne. destruct (Hstate s) as
      [(_ & _ & ?)|[(? & _)|[(i & lbl & seeds & ? & _)|(? & _)]]]; (done || lia). }
  assert (stateOf σ1 q =
          {| state_index := state_index (stateOf σ q); itemSet := its;
             outEdges := seq (length (edgeObjs σ)) (length lbls);
             inEdges := inEdges (stateOf σ q) |}) as Hstq.
  { destruct (Hstate q) as
      [(_ & ? & _)|[(_ & Hst')|[(i & lbl & seeds & ? & _)|(? & _)]]]; try (done || lia).
    rewrite Hst', Hout. done. }
  intros s e. rewrite Hrules. destruct (Hstate s) as
      [(Hlt & Hne & Hst')|[(-> & _)|[(i & lbl & seeds & _ & _ & _ & Hst' & _)|(_ & Hst')]]].
  - rewrite Hst'. intros He.
    assert (e < length (edgeObjs σ)) as Hlte by (by eapply Hvo).
    rewrite Hesame by done. unfold items at 1. rewrite Hst'.
    intros it Hit Hd. destruct (Hk s e He it Hit Hd) as (it' & Hit' & Hc & Hla).
    exists it'. split_and!; [|done..].
    destruct (decide (dest (edgeOf σ e) = q)) as [Hdq|Hdq].
    + rewrite Hdq in *. unfold items at 1. rewrite Hstq. cbn [itemSet].
      apply (closureLoop_keeps _ _ _ _ _ it' Hcl); [|done].
      unfold core in Hc. injection Hc. lia.
    + unfold items at 1. rewrite Hsame; [done|by apply Hvd|done].
  - rewrite Hstq. cbn [outEdges]. intros He.
    apply elem_of_seq in He as [Hge Hlt].
    destruct (Hstate (length (stateObjs σ) + (e - length (edgeObjs σ)))) as
      [(? & _)|[(? & _)|[(i & lbl & seeds & Hi & Hl & Hseeds & Hst' & Hed')|(? & _)]]];
      try lia.
    assert (i = e - length (edgeObjs σ)) as -> by lia.
    replace (length (edgeObjs σ) + (e - length (edgeObjs σ))) with e in Hed' by lia.
    rewrite Hed'. cbn [label dest]. unfold items. rewrite Hstq, Hst'. cbn [itemSet tentative].
    by apply seedItems_kernel.
  - rewrite Hst'. cbn. by intros ?%elem_of_nil.
  - rewrite Hst'. cbn. by intros ?%elem_of_nil.
Qed.

Lemma la_same_trans a b c : la_same a b → la_same b c → la_same a c.
Proof. intros H1 H2 x. by rewrite (H1 x). Qed.

Lemma kernels_ok_step inner q Q' R b σ σ1 σ2 :
  automaton_inv (Q' ++ [q]) σ → kernels_ok σ →
  calcItemSet inner q σ = (Ok R, σ1) →
  addState q σ1 = (Ok b, σ2) →
  kernels_ok σ2.
Proof.
  intros Hinv Hk Hcalc Hadd.
  pose proof (calcItemSet_kernels _ _ _ _ _ _ Hinv Hk Hcalc) as Hk1.
  pose proof (calcItemSet_processed _ _ _ _ _ _ Hinv Hcalc) as Hp.
  destruct Hp as (Hstore & [Hvo Hvd] & _ & _ & _ & _ & _ & _ & _ & Hqin & _).
  apply addState_Ok in Hadd. destruct b.
  - destruct Hadd as [_ ->]. intros s e He it Hit Hd.
    destruct (admittedStore_lists q σ1 s) as (Hi & Ho & _).
    destruct (admittedStore_lists q σ1 (dest (edgeOf σ1 e))) as (Hi' & _).
    rewrite Ho in He. unfold items in Hit. rewrite Hi in Hit.
    destruct (Hk1 s e He it Hit Hd) as (it' & Hit' & Hc & Hla).
    exists it'. split_and!; [|done..]. unfold items.
    change (edgeOf (admittedStore q σ1) e) with (edgeOf σ1 e). by rewrite Hi'.
  - destruct Hadd as (s0 & Hs0 & Heq & (Hr2 & _ & _ & _ & _ & _ & Hst2 & Hed2)).
    intros s e. destruct (Hst2 s) as (Hi & _ & -> & _). intros He.
    specialize (Hk1 s e He). rewrite Hr2. unfold items at 1. rewrite Hi.
    assert (e < length (edgeObjs σ1)) as Hlt by (by eapply Hvo).
    rewrite Hed2.
    destruct (decide (e ∈ inEdges (stateOf σ1 q) ∧ e < length (edgeObjs σ1))) as [[Hin _]|Hn].
    + cbn [label dest withDest]. destruct (Hqin e Hin) as [_ Hdq]. rewrite Hdq in Hk1.
      apply state_equal_spec in Heq; [|apply Hstore..].
      intros it Hit Hd. destruct (Hk1 it Hit Hd) as (it' & Hit' & Hc & Hla).
      destruct (proj2 Heq it' Hit') as (a & Ha & Hca & Hlaa).
      exists a. split_and!.
      * unfold items. by destruct (Hst2 s0) as (-> & _).
      * congruence.
      * intros x. rewrite <- (Hla x). symmetry. apply Hlaa.
    + unfold items. destruct (Hst2 (dest (edgeOf σ1 e))) as (-> & _). exact Hk1.
Qed.

Lemma stateLoop_kernels_ok fuel inner Q σ σ' :
  automaton_inv Q σ → kernels_ok σ →
  stateLoop fuel inner Q σ = (Ok tt, σ') → kernels_ok σ'.
Proof.
  intros Hinv Hp E.
  enough (automaton_inv [] σ' ∧ kernels_ok σ') as [_ ?]; [done|].
  revert E. apply (stateLoop_invariant (λ Q σ1, automaton_inv Q σ1 ∧ kernels_ok σ1) inner);
    [|done].
  clear. intros q Q' R b σ0 σ1 σ2 [Hinv Hp] Hcalc Hadd. split.
  - by eapply automaton_inv_step.
  - by eapply kernels_ok_step.
Qed.

Lemma kernels_ok_initial f σ : stateObjs σ = [] → kernels_ok (initialStore f σ).
Proof.
  intros Ho s e. rewrite stateOf_initialStore by done.
  destruct (decide _); cbn; by intros ?%elem_of_nil.
Qed.

Lemma kernels_ok_same_automaton σ σ' :
  same_automaton σ σ' → kernels_ok σ → kernels_ok σ'.
Proof.
  intros (Hr & _ & Hs & Ho & He) Hk s e.
  unfold items, stateOf, edgeOf. rewrite Hr, Ho, He. apply Hk.
Qed.

Lemma calcTable_kernels_ok fuel rs t σ :
  calcTable fuel (withRules rs) = (Ok t, σ) → kernels_ok σ.
Proof.
  intros E. destruct (withRules_fields rs) as (Hr & _ & Hs & _ & Ho & He).
  apply calcTable_Ok in E as (f & σa & Hne & _ & _ & Hloop & Hrows & _).
  apply forM_buildRow_Ok in Hrows.
  eapply kernels_ok_same_automaton; [exact Hrows|].
  apply (kernels_ok_same_automaton σa); [by unfold same_automaton|].
  eapply stateLoop_kernels_ok; [|by apply kernels_ok_initial|exact Hloop].
  by apply automaton_inv_initial.
Qed.

(** X13. The transitions of the generated automaton are the GOTO function
    of the item sets: an edge with label [x] out of an admitted state [s]
    leads to an admitted state [d]; every item of [s] with [x] right of the
    dot has its successor in [d], the dot one symbol further and the
    lookahead terminals the same; and every item of [d] with the dot after
    a symbol is such a successor.  The merging of equal states in
    [addState] and the closure of [d] do not disturb this. *)
Theorem calcTable_goto_kernel fuel rs t σ s e :
  calcTable fuel (withRules rs) = (Ok t, σ) →
  s ∈ states σ → e ∈ outEdges (stateOf σ s) →
  dest (edgeOf σ e) ∈ states σ ∧
  (∀ it, it ∈ items σ s → afterDot (rules σ) it = Some (label (edgeOf σ e)) →
     ∃ it', it' ∈ items σ (dest (edgeOf σ e)) ∧ core it' = (rule it, S (pos it))
            ∧ la_same (lookAheadSet it') (lookAheadSet it)) ∧
  (∀ it', it' ∈ items σ (dest (edgeOf σ e)) → 0 < pos it' →
     ∃ it, it ∈ items σ s ∧ afterDot (rules σ) it = Some (label (edgeOf σ e))
           ∧ core it' = (rule it, S (pos it))
           ∧ la_same (lookAheadSet it') (lookAheadSet it)).
Proof.
  intros E Hs He.
  pose proof (calcTable_kernels_ok _ _ _ _ E) as Hk.
  destruct (withRules_fields rs) as (_ & _ & Hs0 & _ & Ho0 & He0).
  pose proof (calcTable_automaton_inv _ _ _ _ Hs0 Ho0 He0 E) as Hinv.
  destruct Hinv as (Hb & _ & Hok & _ & _ & Hclosed & _).
  destruct Hb as (Hstore & _).
  split_and!.
  - destruct (Hclosed s e Hs He) as [?|[Hd _]]; [done|by apply elem_of_nil in Hd].
  - apply Hk, He.
  - intros it' Hit' Hp.
    destruct (Hok s e He (core it')) as [Hin Hlbl]; [by apply list_elem_of_fmap_2|done|].
    apply list_elem_of_fmap in Hin as (it & Hc & Hit). unfold core in Hc. cbn in Hc, Hlbl.
    injection Hc as Hc1 Hc2.
    assert (afterDot (rules σ) it = Some (label (edgeOf σ e))) as Hd.
    { unfold afterDot. by rewrite <- Hc1, <- Hc2. }
    destruct (Hk s e He it Hit Hd) as (it'' & Hit'' & Hc'' & Hla).
    assert (core it'' = core it') as Hsame.
    { rewrite Hc''. unfold core. f_equal; lia. }
    assert (it'' = it') as -> by (eapply core_unique_inj; [apply Hstore|done..]).
    exists it. split_and!; try done.
Qed.

(** ** How [calcTable] ends *)

Lemma mbindM_inv {A B} (m : M A) (k : A → M B) σ r σ' :
  mbindM m k σ = (r, σ') →
  match m σ with
  | (Ok a, σ1) => k a σ1 = (r, σ')
  | (r0, σ1) => σ' = σ1 ∧ same_failure r0 r
  end.
Proof. unfold mbindM. destruct (m σ) as [[a| | | |] σ1]; intros; by simplify_eq. Qed.

Lemma mbindM_ProcessExit {A B} (m : M A) (k : A → M B) σ σ' :
  mbindM m k σ = (ProcessExit, σ') →
  m σ = (ProcessExit, σ') ∨ ∃ a σ1, m σ = (Ok a, σ1) ∧ k a σ1 = (ProcessExit, σ').
Proof.
  unfold mbindM. destruct (m σ) as [[a| | | |] σ1]; try done.
  - intros E. right. by exists a, σ1.
  - intros [= <-]. by left.
Qed.

Lemma mbindM_TypeError {A B} (m : M A) (k : A → M B) σ σ' :
  mbindM m k σ = (TypeError, σ') →
  m σ = (TypeError, σ') ∨ ∃ a σ1, m σ = (Ok a, σ1) ∧ k a σ1 = (TypeError, σ').
Proof.
  unfold mbindM. destruct (m σ) as [[a| | | |] σ1]; try done.
  - intros E. right. by exists a, σ1.
  - intros [= <-]. by left.
Qed.

(** Decomposition of a computation that does not return, by the lemma
    [lem] for its outcome. *)
Ltac inv_by lem H :=
  lazymatch type of H with
  | mbindM _ _ _ = _ =>
      let a := fresh "a" in let σ1 := fresh "σ" in
      let H1 := fresh "Hm" in
      apply lem in H as [H|(a & σ1 & H1 & H)];
      [inv_by lem H|inv_step H1; inv_by lem H]
  | mget _ = _ => by unfold mget in H
  | mret _ _ = _ => by unfold mret in H
  | mmodify _ _ = _ => by unfold mmodify in H
  | updState _ _ _ = _ => by unfold updState, mmodify in H
  | updEdge _ _ _ = _ => by unfold updEdge, mmodify in H
  | allocState _ = _ => unfold allocState in H; inv_by lem H
  | allocEdge _ _ = _ => unfold allocEdge in H; inv_by lem H
  | liftR _ _ = _ =>
      let Hσ := fresh "Hσ" in
      unfold liftR in H; injection H as H Hσ; try subst
  | _ => idtac
  end.

Lemma same_failure_eq {A} (a b : result A) : same_failure a b → a = b.
Proof. destruct a, b; cbn; try done. by intros ->. Qed.

(** A loop that does not complete stops in one of its iterations. *)
Lemma foldR_prefix {A S} (f : A → S → result S) l s r :
  foldR f l s = r → (∀ a, r ≠ Ok a) →
  ∃ l1 x l2 a, l = l1 ++ x :: l2 ∧ foldR f l1 s = Ok a ∧ f x a = r.
Proof.
  revert s. induction l as [|x l IH]; intros s; cbn [foldR].
  { intros <- Hn. by destruct (Hn s). }
  destruct (f x s) as [a| | | |] eqn:E.
  - intros Hr Hn. destruct (IH a Hr Hn) as (l1 & y & l2 & b & -> & H1 & H2).
    exists (x :: l1), y, l2, b. split_and!; [done| |done]. cbn [foldR]. by rewrite E.
  - intros <- _. by exists [], x, l, s.
  - intros <- _. by exists [], x, l, s.
  - intros <- _. by exists [], x, l, s.
  - intros <- _. by exists [], x, l, s.
Qed.

Lemma forM__prefix {A} (f : A → M unit) l σ r σ' :
  forM_ f l σ = (r, σ') → r ≠ Ok tt →
  ∃ l1 x l2 σ1, l = l1 ++ x :: l2 ∧ forM_ f l1 σ = (Ok tt, σ1) ∧ f x σ1 = (r, σ').
Proof.
  revert σ. induction l as [|x l IH]; intros σ E Hn; cbn [forM_] in E.
  { unfold mret in E. by simplify_eq. }
  apply mbindM_inv in E. destruct (f x σ) as [[[]| | | |] σ1] eqn:Ef.
  - destruct (IH σ1 E Hn) as (l1 & y & l2 & σ2 & -> & H1 & H2).
    exists (x :: l1), y, l2, σ2. split_and!; [done| |done].
    cbn [forM_]. unfold mbindM. by rewrite Ef.
  - destruct E as [-> <-%same_failure_eq]. by exists [], x, l, σ.
  - destruct E as [-> <-%same_failure_eq]. by exists [], x, l, σ.
  - destruct E as [-> <-%same_failure_eq]. by exists [], x, l, σ.
  - destruct E as [-> <-%same_failure_eq]. by exists [], x, l, σ.
Qed.

(** *** The check of the rules *)

Lemma foldR_unit_Ok {A} (f : A → unit → result unit) l x :
  foldR f l tt = Ok tt → x ∈ l → f x tt = Ok tt.
Proof.
  induction l as [|y l IH]; cbn [foldR]; [by intros _ ?%elem_of_nil|].
  destruct (f y tt) as [[]| | | |] eqn:E; try done.
  intros Hl [->|Hx]%elem_of_cons; [done|by apply IH].
Qed.

Lemma elem_of_indexed {A} (l : list A) i x :
  (i, x) ∈ imap (λ i r, (i, r)) l ↔ l !! i = Some x.
Proof.
  rewrite list_elem_of_lookup. split.
  - intros [j Hj]. rewrite list_lookup_imap in Hj.
    destruct (l !! j) eqn:E; [|done]. cbn in Hj. by simplify_eq.
  - intros Hi. exists i. by rewrite list_lookup_imap, Hi.
Qed.

Lemma checkRules_Ok rs r x :
  checkRules rs = Ok tt → r ∈ rs → x ∈ rhs r → item_type x = NonTerminal →
  item_value x ∈ lhs <$> rs.
Proof.
  unfold checkRules. intros E Hr Hx Hty.
  apply list_elem_of_lookup in Hr as [i Hi].
  apply (foldR_unit_Ok _ _ (i, r)) in E; [|by apply elem_of_indexed].
  unfold checkRule in E. cbn [snd] in E.
  apply (foldR_unit_Ok _ _ x) in E; [|done]. cbv beta in E. rewrite Hty in E.
  destruct (JSSet.has _ _) eqn:Hhas; [|done].
  apply has_true, elem_of_foldl_add in Hhas as [Hin|Hin]; [by apply elem_of_nil in Hin|done].
Qed.

Lemma checkRules_fails rs r :
  checkRules rs = r → r ≠ Ok tt →
  ∃ i r0 nt, r = Throw (UndefinedNonTerminal i nt) ∧ rs !! i = Some r0 ∧
             mkRuleItem NonTerminal nt ∈ rhs r0 ∧ nt ∉ lhs <$> rs.
Proof.
  unfold checkRules. intros E Hn.
  apply foldR_prefix in E as (l1 & [i r0] & l2 & [] & Hl & _ & E); [|by intros []].
  assert (rs !! i = Some r0) as Hi.
  { apply elem_of_indexed. rewrite Hl. set_solver. }
  unfold checkRule in E. cbn [fst snd] in E.
  apply foldR_prefix in E as (m1 & x & m2 & [] & Hm & _ & E); [|by intros []].
  destruct x as [ty v]. cbv beta in E. cbn [item_type item_value] in E.
  destruct ty; [by destruct Hn|].
  destruct (JSSet.has _ v) eqn:Hhas; [by destruct Hn|].
  exists i, r0, v. split_and!; [done|done| |].
  - rewrite Hm. set_solver.
  - apply has_false in Hhas. intros Hin. apply Hhas, elem_of_foldl_add. by right.
Qed.

(** *** The FIRST sets *)

Lemma firstLoop_no_exit fuel rs f : firstLoop fuel rs f ≠ ProcessExit.
Proof.
  revert f. induction fuel as [|fuel IH]; intros f; cbn [firstLoop]; [done|].
  destruct (firstPass rs f) as [[f1 [|]]| | | |] eqn:E; try done.
  unfold firstPass in E. apply foldR_prefix in E as (l1 & r & l2 & [f1 c] & _ & _ & E); [|done].
  unfold firstRule in E. repeat case_match; done.
Qed.

Lemma calcFirst_checked fuel rs :
  checkRules rs = Ok tt →
  match calcFirst fuel rs ∅ with
  | Ok _ | OutOfFuel => True
  | _ => False
  end.
Proof.
  intros Hc. unfold calcFirst.
  destruct (firstLoop fuel rs (initFirst rs ∅)) as [f|e| | |] eqn:E; try done.
  - by apply firstLoop_no_Throw in E.
  - by apply firstLoop_no_exit in E.
  - revert E. apply firstLoop_defined.
    + intros r Hr. by apply initFirst_defined.
    + intros r x β Hr Hrhs Hty.
      assert (item_value x ∈ lhs <$> rs) as Hin.
      { apply (checkRules_Ok rs r x Hc Hr); [|done]. rewrite Hrhs. left. }
      apply list_elem_of_fmap in Hin as (r' & -> & Hr'). by apply initFirst_defined.
Qed.

(** *** The worklist loop *)



Lemma redirectEdge_returns s u σ : ∃ σ', redirectEdge s u σ = (Ok tt, σ').
Proof.
  unfold redirectEdge, mbindM, updEdge, updState, mmodify, mget, mret.
  destruct (existsb _ _); by eexists.
Qed.

Lemma forM_redirectEdge_result s us σ : ∃ σ', forM_ (redirectEdge s) us σ = (Ok tt, σ').
Proof.
  revert σ. induction us as [|u us IH]; intros σ; cbn [forM_]; [by eexists|].
  destruct (redirectEdge_returns s u σ) as [σ1 E]. destruct (IH σ1) as [σ2 E2].
  exists σ2. unfold mbindM. by rewrite E.
Qed.

(** [addState] always returns. *)
Lemma addState_result sNew σ : ∃ b σ', addState sNew σ = (Ok b, σ').
Proof.
  unfold addState. unfold mbindM at 1. unfold mget.
  destruct (List.find _ _) as [s|].
  - destruct (forM_redirectEdge_result s (inEdges (stateOf σ sNew)) σ) as [σ1 E].
    exists false, σ1. unfold mbindM, mret. by rewrite E.
  - by eexists _, _.
Qed.


(** *** The rows *)

Lemma edgeEntries_Ok σ es row :
  NoDup ((λ e, label (edgeOf σ e)) <$> es) →
  (∀ ed, ed ∈ es →
     match item_type (label (edgeOf σ ed)) with
     | Terminal => actionEntries row !! item_value (label (edgeOf σ ed))
     | NonTerminal => gotoEntries row !! item_value (label (edgeOf σ ed))
     end = None) →
  ∃ row', foldR (edgeEntry σ) es row = Ok row'.
Proof.
  revert row. induction es as [|ed es IH]; intros row Hnd Hfree; cbn [foldR]; [by eexists|].
  rewrite fmap_cons in Hnd. apply NoDup_cons in Hnd as [Hed Hnd].
  pose proof (Hfree ed ltac:(left)) as Hfed. unfold edgeEntry.
  destruct (label (edgeOf σ ed)) as [ty v] eqn:Hl. cbn [item_type item_value] in *.
  destruct ty; rewrite Hfed; apply IH; try done; intros ed' Hed';
    pose proof (Hfree ed' ltac:(by right)) as Hf';
    destruct (label (edgeOf σ ed')) as [ty' v'] eqn:Hl'; cbn [item_type item_value] in *;
    destruct ty'; cbn [setAction setGoto actionEntries gotoEntries]; try done;
    (rewrite lookup_insert_ne; [done|]); intros ->; apply Hed;
    apply list_elem_of_fmap; exists ed'; by rewrite Hl'.
Qed.

Lemma reduceEntries_fails σ s row1 red r :
  foldR (edgeEntry σ) (outEdges (stateOf σ s)) emptyRow = Ok row1 →
  calcReduceEntries (rules σ) (stateOf σ s) = Ok red →
  foldR reduceEntry red row1 = r → (∀ a, r ≠ Ok a) →
  r = ProcessExit ∧ sr_conflict σ s.
Proof.
  intros E1 E2 E3 Hn.
  apply foldR_prefix in E3 as (l1 & [k e0] & l2 & a & Hl & Ha & E3); [|done].
  unfold reduceEntry in E3. cbn [fst snd] in E3.
  destruct (actionEntries a !! k) as [e|] eqn:Hk; [|symmetry in E3; by apply Hn in E3].
  split; [done|].
  pose proof (calcReduceEntries_spec (rules σ) (stateOf σ s)) as Hspec.
  rewrite E2 in Hspec. destruct Hspec as [Hred Hnd].
  apply foldR_reduceEntry in Ha as [_ Hfrom].
  destruct (Hfrom k e Hk) as [Hrow1|(_ & e1 & Hin & _)].
  - apply foldR_edgeEntry in E1 as [[Hact _] Hsh].
    destruct (Hact k e Hrow1 (Hsh k e Hrow1)) as (ed & Hed & Hlbl & _).
    assert (k ∈ (reduce_pairs (rules σ) (itemSet (stateOf σ s))).*1) as Hkin.
    { rewrite <- Hred, Hl. rewrite fmap_app, fmap_cons. set_solver. }
    apply elem_of_reduce_keys in Hkin as (j & jt & Hj & Hc & Hkj).
    exists jt, ed, k. split_and!; try done. by eapply list_elem_of_lookup_2.
  - exfalso. rewrite <- Hred, Hl, fmap_app, fmap_cons in Hnd.
    apply NoDup_app in Hnd as (_ & Hnd & _). apply (Hnd k).
    + apply list_elem_of_fmap. by exists (k, e1).
    + left.
Qed.

(** A row that is not completed. *)
Lemma buildRow_fails s σ r σ' :
  buildRow s σ = (r, σ') → r ≠ Ok tt →
  same_automaton σ σ' ∧
  (same_failure (foldR (edgeEntry σ) (outEdges (stateOf σ s)) emptyRow) r
   ∨ ∃ row1, foldR (edgeEntry σ) (outEdges (stateOf σ s)) emptyRow = Ok row1 ∧
       (same_failure (calcReduceEntries (rules σ) (stateOf σ s)) r
        ∨ ∃ red, calcReduceEntries (rules σ) (stateOf σ s) = Ok red ∧
                 same_failure (foldR reduceEntry red row1) r)).
Proof.
  unfold buildRow, pushRow, setLastRow, mbindM, mmodify, mget, liftR.
  rewrite (foldR_ext (edgeEntry _) (edgeEntry σ)) by done.
  change (stateOf (setTable _ σ) s) with (stateOf σ s).
  change (rules (setTable _ σ)) with (rules σ).
  intros E Hn.
  destruct (foldR (edgeEntry σ) (outEdges (stateOf σ s)) emptyRow) as [row1| | | |];
    simplify_eq; try (split; [done|by left]).
  destruct (calcReduceEntries (rules σ) (stateOf σ s)) as [red| | | |];
    simplify_eq; try (split; [done|right; exists row1; split; [done|by left]]).
  destruct (foldR reduceEntry red row1) as [row2| | | |] eqn:E3;
    simplify_eq; try done;
    (split; [done|right; exists row1; split; [done|right]]);
    exists red; (split; [done|by rewrite E3]).
Qed.


(** *** The stages of [calcTable] *)

Lemma calcTable_stages fuel σ r σ' :
  calcTable fuel σ = (r, σ') →
  (rules σ = [] ∧ r = Throw NoProductionRule)
  ∨ (rules σ ≠ [] ∧
     (same_failure (checkRules (rules σ)) r
      ∨ (checkRules (rules σ) = Ok tt ∧
         (same_failure (calcFirst fuel (rules σ) (first σ)) r
          ∨ ∃ f ra σa,
              calcFirst fuel (rules σ) (first σ) = Ok f ∧
              stateLoop fuel fuel [length (stateObjs σ)] (initialStore f σ) = (ra, σa) ∧
              (same_failure ra r
               ∨ (ra = Ok tt ∧
                  ∃ rb, forM_ buildRow (states σa) (setTable (Some (mkTable [])) σa) = (rb, σ') ∧
                        (same_failure rb r
                         ∨ (rb = Ok tt ∧
                            r = match table σ' with Some t => Ok t | None => TypeError end)))))))).
Proof.
  unfold calcTable, allocState, updState, mmodify, mget, mret, liftR, mbindM.
  destruct (length (rules σ) =? 0) eqn:Hlen.
  { intros [= <- <-]. left. split; [|done].
    by apply Nat.eqb_eq, length_zero_iff_nil in Hlen. }
  intros E. right. split.
  { intros Hnil. by rewrite Hnil in Hlen. }
  destruct (checkRules (rules σ)) as [[]| | | |] eqn:Hc; try (left; by simplify_eq).
  right. split; [done|].
  destruct (calcFirst fuel (rules σ) (first σ)) as [f| | | |] eqn:Hfst;
    try (left; by simplify_eq).
  right. exists f.
  match type of E with
  | context [stateLoop fuel fuel ?Q ?X] =>
      change (stateLoop fuel fuel Q X)
        with (stateLoop fuel fuel [length (stateObjs σ)] (initialStore f σ)) in E
  end.
  destruct (stateLoop fuel fuel [length (stateObjs σ)] (initialStore f σ))
    as [ra σa] eqn:Hloop.
  exists ra, σa. split_and!; [done..|].
  destruct ra as [[]| | | |]; try (left; by simplify_eq).
  right. split; [done|].
  change (states (setTable (Some (mkTable [])) σa)) with (states σa) in E.
  destruct (forM_ buildRow (states σa) (setTable (Some (mkTable [])) σa))
    as [rb σb] eqn:Hrows.
  destruct rb as [[]|e| | |].
  - exists (Ok tt). destruct (table σb) as [t|] eqn:Ht; simplify_eq;
      (split; [done|right; split; [done|by rewrite Ht]]).
  - exists (Throw e). by simplify_eq; split; [|left].
  - exists ProcessExit. by simplify_eq; split; [|left].
  - exists TypeError. by simplify_eq; split; [|left].
  - exists OutOfFuel. by simplify_eq; split; [|left].
Qed.

(** A row loop that does not complete has met a state with a conflict. *)
Lemma buildRows_fail σa r σ' :
  automaton_inv [] σa → progress_inv σa →
  forM_ buildRow (states σa) (setTable (Some (mkTable [])) σa) = (r, σ') → r ≠ Ok tt →
  ∃ s, s ∈ states σ' ∧
       ((∃ a b, r = Throw (ReduceReduceConflict a b) ∧ rr_conflict (rules σ') (items σ' s))
        ∨ (r = ProcessExit ∧ sr_conflict σ' s)).
Proof.
  intros Hinv Hp E Hn.
  apply forM__prefix in E as (l1 & s & l2 & σ1 & Hl & E1 & E); [|done].
  apply forM_buildRow_Ok in E1.
  apply buildRow_fails in E as [Hsame Hcases]; [|done].
  assert (same_automaton σa σ') as Hall.
  { eapply same_automaton_trans; [|exact Hsame].
    eapply same_automaton_trans; [|exact E1]. by unfold same_automaton. }
  assert (same_automaton σa σ1) as Ha1.
  { eapply same_automaton_trans; [|exact E1]. by unfold same_automaton. }
  pose proof (automaton_inv_same_automaton _ _ Ha1 Hinv) as Hinv1.
  pose proof (progress_inv_same_automaton _ _ Ha1 Hp) as Hp1.
  pose proof (automaton_inv_same_automaton _ _ Hall Hinv) as Hinv'.
  destruct Hinv1 as ((Hstore & _) & _). destruct Hp1 as (_ & Hnd & _).
  destruct (edgeEntries_Ok σ1 (outEdges (stateOf σ1 s)) emptyRow) as [row1 Hrow1].
  { apply Hnd. }
  { intros ed _. by destruct (item_type _). }
  assert (∀ x, stateOf σ' x = stateOf σ1 x) as HS.
  { intros x. unfold stateOf. by destruct Hsame as (_ & _ & _ & -> & _). }
  assert (∀ x, edgeOf σ' x = edgeOf σ1 x) as HE.
  { intros x. unfold edgeOf. by destruct Hsame as (_ & _ & _ & _ & ->). }
  assert (rules σ' = rules σ1) as HR by apply Hsame.
  exists s. split.
  { destruct Hall as (_ & _ & -> & _). rewrite Hl. set_solver. }
  rewrite Hrow1 in Hcases.
  destruct Hcases as [Hf|(row1' & [= <-] & [Hf|(red & Hred & Hf)])]; [done| |].
  - left. pose proof (calcReduceEntries_spec (rules σ1) (stateOf σ1 s)) as Hspec.
    destruct (calcReduceEntries (rules σ1) (stateOf σ1 s)) as [|e| | |]; try done.
    destruct e; try done. destruct r as [|e'| | |]; try done. cbn in Hf. subst e'.
    eexists _, _. split; [done|]. unfold items. rewrite HR, HS.
    by apply (reduce_keys_NoDup (rules σ1) (itemSet (stateOf σ1 s))); [apply Hstore|].
  - right.
    destruct (reduceEntries_fails σ1 s row1 red _ Hrow1 Hred eq_refl) as [Hex Hsr].
    { intros a Ha. rewrite Ha in Hf. done. }
    rewrite Hex in Hf. destruct r; try done. split; [done|].
    destruct Hsr as (it & ed & k & H1 & H2 & H3 & H4 & H5).
    exists it, ed, k. unfold items. rewrite HR, HS, HE. done.
Qed.


(** ** [calcTable] terminates *)

(** *** Counting sets *)

Lemma length_filter_split {A} (P : A → Prop) `{!∀ x, Decision (P x)} (l : list A) :
  length l = length (filter P l) + length (filter (λ x, ¬ P x) l).
Proof.
  induction l as [|x l IH]; [done|].
  rewrite !filter_cons. destruct (decide (P x)) as [Hp|Hp].
  - rewrite decide_False by tauto. cbn. lia.
  - rewrite decide_True by done. cbn. lia.
Qed.

(** A list of distinct subsets of [U] is no longer than the number of
    subsets of [U]. *)
Lemma subsets_length `{Countable K} (U : gset K) (l : list (gset K)) :
  NoDup l → (∀ X, X ∈ l → X ⊆ U) → length l ≤ 2 ^ size U.
Proof.
  revert l. induction U as [|x U Hx IH] using set_ind_L; intros l Hnd Hsub.
  - rewrite size_empty. cbn.
    destruct l as [|X [|Y l]]; cbn; try lia. exfalso.
    assert (X = ∅) as -> by (apply (anti_symm (⊆)); [apply Hsub; left|set_solver]).
    assert (Y = ∅) as -> by (apply (anti_symm (⊆)); [apply Hsub; right; left|set_solver]).
    apply NoDup_cons in Hnd as [Hn _]. apply Hn. left.
  - rewrite size_union by set_solver. rewrite size_singleton.
    rewrite (length_filter_split (λ X, x ∈ X) l).
    assert (length (filter (λ X, x ∈ X) l) ≤ 2 ^ size U) as H1.
    { rewrite <- (length_fmap (λ X, X ∖ {[x]})). apply IH.
      - apply NoDup_fmap_2_strong; [|by apply NoDup_filter].
        intros X Y [HX _]%list_elem_of_filter [HY _]%list_elem_of_filter Heq.
        apply set_eq. intros y. destruct (decide (y = x)) as [->|Hne]; [done|].
        assert (y ∈ X ∖ {[x]} ↔ y ∈ Y ∖ {[x]}) as Hiff by (by rewrite Heq).
        set_solver.
      - intros X' (X & -> & [_ HX]%list_elem_of_filter)%list_elem_of_fmap.
        apply Hsub in HX. set_solver. }
    assert (length (filter (λ X, ¬ x ∈ X) l) ≤ 2 ^ size U) as H2.
    { apply IH; [by apply NoDup_filter|].
      intros X [HxX HX]%list_elem_of_filter. apply Hsub in HX. set_solver. }
    rewrite Nat.pow_add_r. cbn [Nat.pow]. lia.
Qed.

(** *** Item sets as sets of keys *)

Lemma elem_of_item_keys it x :
  x ∈ item_keys it ↔
  x = (rule it, pos it, None) ∨ ∃ k, k ∈ lookAheadSet it ∧ x = (rule it, pos it, Some k).
Proof.
  unfold item_keys. rewrite elem_of_union, elem_of_singleton, elem_of_list_to_set,
    list_elem_of_fmap. naive_solver.
Qed.

Lemma elem_of_desc its x : x ∈ desc its ↔ ∃ it, it ∈ its ∧ x ∈ item_keys it.
Proof.
  unfold desc. rewrite elem_of_union_list. split.
  - intros (X & (it & -> & Hit)%list_elem_of_fmap & Hx). by exists it.
  - intros (it & Hit & Hx). exists (item_keys it). split; [|done].
    apply list_elem_of_fmap. by exists it.
Qed.

Lemma desc_half A B a :
  core_unique A → core_unique B → desc A = desc B →
  a ∈ A → ∃ b, b ∈ B ∧ item_same a b.
Proof.
  intros HA HB Heq Ha.
  assert ((rule a, pos a, None) ∈ desc B) as Hk.
  { rewrite <- Heq. apply elem_of_desc. exists a. split; [done|].
    apply elem_of_item_keys. by left. }
  apply elem_of_desc in Hk as (b & Hb & Hk).
  apply elem_of_item_keys in Hk as [Hk|(k & _ & Hk)]; [|done].
  assert (core a = core b) as Hc by (unfold core; congruence).
  exists b. split; [done|]. split; [done|]. intros k. split; intros Hin.
  - assert ((rule a, pos a, Some k) ∈ desc B) as Hk'.
    { rewrite <- Heq. apply elem_of_desc. exists a. split; [done|].
      apply elem_of_item_keys. right. by exists k. }
    apply elem_of_desc in Hk' as (b' & Hb' & Hk').
    apply elem_of_item_keys in Hk' as [Hk'|(k' & Hin' & Hk')]; [done|].
    assert (b' = b) as ->.
    { apply (core_unique_inj B); [done..|]. rewrite <- Hc. unfold core. congruence. }
    congruence.
  - assert ((rule b, pos b, Some k) ∈ desc A) as Hk'.
    { rewrite Heq. apply elem_of_desc. exists b. split; [done|].
      apply elem_of_item_keys. right. by exists k. }
    apply elem_of_desc in Hk' as (a' & Ha' & Hk').
    apply elem_of_item_keys in Hk' as [Hk'|(k' & Hin' & Hk')]; [done|].
    assert (a' = a) as ->.
    { apply (core_unique_inj A); [done..|]. rewrite Hc. unfold core. congruence. }
    congruence.
Qed.

Lemma desc_same A B :
  core_unique A → core_unique B → desc A = desc B → items_same A B.
Proof.
  intros HA HB Heq. split; intros x Hx.
  - by apply (desc_half A B).
  - by apply (desc_half B A).
Qed.

Lemma elem_of_item_universe rs j p o :
  (j, p, o) ∈ item_universe rs ↔
  j < length rs ∧ p ≤ length (rhs (ruleOf rs j)) ∧
  (o = None ∨ ∃ k, o = Some k ∧ k ∈ la_universe rs).
Proof.
  unfold item_universe. rewrite elem_of_list_to_set, list_elem_of_In, in_flat_map. split.
  - intros (j' & Hj' & Hin). apply in_flat_map in Hin as (p' & Hp' & Hin).
    apply list_elem_of_In, elem_of_seq in Hj'. apply list_elem_of_In, elem_of_seq in Hp'.
    apply list_elem_of_In, list_elem_of_fmap in Hin as (o' & [= -> -> ->] & Ho').
    split_and!; [lia..|].
    apply elem_of_cons in Ho' as [->|Ho']; [by left|].
    apply list_elem_of_fmap in Ho' as (k & -> & Hk). right. by exists k.
  - intros (Hj & Hp & Ho). exists j. split; [apply list_elem_of_In, elem_of_seq; lia|].
    apply in_flat_map. exists p. split; [apply list_elem_of_In, elem_of_seq; lia|].
    apply list_elem_of_In, list_elem_of_fmap. exists o. split; [done|].
    destruct Ho as [->|(k & -> & Hk)]; [left|right]. by apply list_elem_of_fmap_2.
Qed.

Lemma desc_bounded rs its :
  (∀ it, it ∈ its → item_bounded rs it) → desc its ⊆ item_universe rs.
Proof.
  intros Hb [[j p] o] (it & Hit & Hx)%elem_of_desc.
  destruct (Hb it Hit) as (Hr & Hp & Hla).
  apply elem_of_item_universe.
  apply elem_of_item_keys in Hx as [[= -> -> ->]|(k & Hk & [= -> -> ->])].
  - split_and!; [done..|by left].
  - split_and!; [done..|]. right. exists k. split; [done|]. by apply Hla.
Qed.

(** The admitted states are distinct subsets of the item universe. *)
Lemma states_bound Q σ :
  builder_inv Q σ → items_bounded σ →
  length (states σ) ≤ 2 ^ size (item_universe (rules σ)).
Proof.
  intros (Hstore & Hdist & _) Hb.
  rewrite <- (length_fmap (λ s, desc (items σ s))). apply subsets_length.
  - apply NoDup_alt. intros i j X Hi Hj.
    rewrite list_lookup_fmap in Hi, Hj.
    destruct (states σ !! i) as [s|] eqn:Hsi; [|done].
    destruct (states σ !! j) as [s'|] eqn:Hsj; [|done].
    cbn in Hi, Hj. simplify_eq.
    assert (state_equal (stateOf σ s) (stateOf σ s') = true
            ∧ state_equal (stateOf σ s') (stateOf σ s) = true) as [He1 He2].
    { split; apply state_equal_spec; try apply Hstore; apply desc_same;
        try apply Hstore; done. }
    destruct (Nat.lt_trichotomy i j) as [Hlt|[?|Hlt]]; [|done|].
    + by rewrite (Hdist i j s s' Hlt Hsi Hsj) in He1.
    + by rewrite (Hdist j i s' s Hlt Hsj Hsi) in He2.
  - intros X (s & -> & _)%list_elem_of_fmap. apply desc_bounded. apply Hb.
Qed.

(** *** The items stay within the grammar *)

Lemma ruleOf_elem rs j x : x ∈ rhs (ruleOf rs j) → ruleOf rs j ∈ rs.
Proof.
  unfold ruleOf. destruct (rs !! j) as [r|] eqn:E; cbn.
  - intros _. by eapply list_elem_of_lookup_2.
  - by intros ?%elem_of_nil.
Qed.

Lemma closureItemsOf_bounded rs fst_ item n :
  first_within (la_universe rs) fst_ → item_bounded rs item →
  n ∈ closureItemsOf rs fst_ item → item_bounded rs n.
Proof.
  intros Hf (Hr & Hp & Hla) Hn.
  destruct (closureItemsOf_cores _ _ _ _ Hn) as [Hpos Hrule].
  split_and!; [done|lia|].
  unfold closureItemsOf in Hn.
  destruct (rhs (ruleOf rs (rule item)) !! pos item) as [x|]; [|by apply elem_of_nil in Hn].
  destruct (item_type x); [by apply elem_of_nil in Hn|].
  apply list_elem_of_fmap in Hn as (j & -> & _). cbn [lookAheadSet].
  destruct (rhs (ruleOf rs (rule item)) !! (pos item + 1)) as [b|] eqn:Hb.
  - destruct (item_type b) eqn:Hty.
    + intros k [Hk| ->]%elem_of_add; [by apply elem_of_nil in Hk|].
      right. apply list_elem_of_lookup_2 in Hb.
      apply (elem_of_terminals rs (ruleOf rs (rule item)) b); [|done..].
      by eapply ruleOf_elem.
    + intros k Hk. apply (proj1 (elem_of_of_list _ _)) in Hk.
      destruct (fst_ !! item_value b) as [s|] eqn:Hs; cbn in Hk; [|by apply elem_of_nil in Hk].
      exact (Hf _ _ Hs k Hk).
  - intros k Hk. apply (proj1 (elem_of_of_list _ _)) in Hk. by apply Hla.
Qed.

Lemma addItem_bounded rs items newItem :
  (∀ it, it ∈ items → item_bounded rs it) → item_bounded rs newItem →
  ∀ it, it ∈ (addItem items newItem).1 → item_bounded rs it.
Proof.
  intros Hi Hn it. unfold addItem.
  destruct (mergeItem items newItem) as [m|] eqn:E; cbn [fst].
  - apply mergeItem_Some in E as (l1 & old & l2 & -> & Hc & _ & ->).
    rewrite elem_of_app, elem_of_cons. intros [Hit|[->|Hit]].
    + apply Hi. set_solver.
    + destruct (Hi old) as (H1 & H2 & H3); [set_solver|].
      destruct Hn as (_ & _ & H3'). split_and!; [done..|]. cbn.
      intros k Hk. apply (proj1 (elem_of_of_list _ _)), elem_of_app in Hk as [?|?]; auto.
    + apply Hi. set_solver.
  - rewrite elem_of_app, list_elem_of_singleton. intros [Hit| ->]; auto.
Qed.

Lemma addItems_bounded rs items newItems :
  (∀ it, it ∈ items → item_bounded rs it) →
  (∀ it, it ∈ newItems → item_bounded rs it) →
  ∀ it, it ∈ addItems items newItems → item_bounded rs it.
Proof.
  unfold addItems. revert items.
  induction newItems as [|n l IH]; intros items Hi Hn; cbn [foldl]; [done|].
  apply IH.
  - apply addItem_bounded; [done|]. apply Hn. left.
  - intros it Hit. apply Hn. by right.
Qed.

Lemma closureLoop_bounded fuel rs fst_ items its :
  first_within (la_universe rs) fst_ →
  (∀ it, it ∈ items → item_bounded rs it) →
  closureLoop fuel rs fst_ items = Ok its →
  ∀ it, it ∈ its → item_bounded rs it.
Proof.
  intros Hf. revert items. induction fuel as [|fuel IH]; intros items Hi;
    cbn [closureLoop]; [done|].
  set (new := flat_map (closureItemsOf rs fst_) items).
  assert (∀ it, it ∈ addItems items new → item_bounded rs it) as Hstep.
  { apply addItems_bounded; [done|]. intros n Hn.
    apply list_elem_of_In, in_flat_map in Hn as (it0 & Hit0 & Hn).
    apply list_elem_of_In in Hit0, Hn. eapply closureItemsOf_bounded; [done| |done]. by apply Hi. }
  destruct (length items <? length (addItems items new)).
  - by apply IH.
  - by intros [= <-].
Qed.

Lemma seedItems_bounded rs its ty v seeds :
  core_unique its → (∀ it, it ∈ its → item_bounded rs it) →
  seedItems rs its ty v = Ok seeds →
  ∀ it, it ∈ seeds → item_bounded rs it.
Proof.
  intros Hu Hb E. pose proof (seedItems_from rs ty v [] its Hu) as E'.
  rewrite filter_nil, fmap_nil in E'. fold (seedItems rs its ty v) in E'.
  rewrite E in E'. injection E' as ->. cbn [app].
  intros sd (it & -> & [(x & Hx & _) Hit]%list_elem_of_filter)%list_elem_of_fmap.
  destruct (Hb it Hit) as (H1 & H2 & H3). split_and!; cbn; [done| |].
  - apply lookup_lt_Some in Hx. lia.
  - intros k Hk. apply (proj1 (elem_of_of_list _ _)) in Hk. by apply H3.
Qed.

Lemma succLabels_length rs its :
  length (succLabels rs its) ≤ length (flat_map rhs rs).
Proof.
  destruct (succLabels_spec rs its) as [Hnd Hin].
  apply submseteq_length, NoDup_submseteq; [done|].
  intros x (it & _ & Hd)%Hin. unfold afterDot in Hd.
  apply list_elem_of_lookup_2 in Hd.
  apply list_elem_of_In, in_flat_map. exists (ruleOf rs (rule it)).
  split; apply list_elem_of_In; [by eapply ruleOf_elem|done].
Qed.

(** One iteration of the worklist loop keeps the items within the
    grammar, the rules and the FIRST map; the successors are at most one
    per symbol of the grammar. *)
Lemma items_bounded_step inner q Q' R b σ σ1 σ2 :
  automaton_inv (Q' ++ [q]) σ → items_bounded σ →
  first_within (la_universe (rules σ)) (first σ) →
  calcItemSet inner q σ = (Ok R, σ1) →
  addState q σ1 = (Ok b, σ2) →
  items_bounded σ2 ∧ rules σ2 = rules σ ∧ first σ2 = first σ ∧
  states σ2 = (if b then states σ ++ [q] else states σ) ∧
  length R ≤ length (flat_map rhs (rules σ)).
Proof.
  intros (Hb & _) Hbd Hf Hcalc Hadd.
  destruct Hb as (Hstore & _ & _ & HQ & _).
  assert (q ∈ Q' ++ [q]) as HqQ by (apply elem_of_app; right; left).
  destruct (HQ q HqQ) as [Hq _].
  apply calcItemSet_Ok in Hcalc as (its & Hcl & -> & Hsucc); [|done].
  set (lbls := succLabels (rules σ) its) in *.
  assert (core_unique its) as Hu.
  { apply (closureLoop_inv _ _ _ _ _ Hcl). apply Hstore. }
  assert (∀ it, it ∈ its → item_bounded (rules σ) it) as Hits.
  { eapply closureLoop_bounded; [done| |done]. apply Hbd. }
  pose proof (λ s, successors_state q lbls its σ σ1 s Hq Hsucc) as Hstate.
  assert (Hlen := Hsucc). destruct Hlen as (_ & _ & Hrules & Hfirst & Hs1 & _).
  unfold closedStore in Hrules, Hfirst, Hs1.
  cbn [setStateObjs rules first states] in Hrules, Hfirst, Hs1.
  assert (items_bounded σ1) as Hbd1.
  { intros s it. rewrite Hrules. unfold items. destruct (Hstate s) as
      [(_ & _ & ->)|[(_ & ->)|[(i & lbl & seeds & _ & _ & Hseeds & -> & _)|(_ & ->)]]];
      cbn [itemSet tentative newState].
    - apply Hbd.
    - apply Hits.
    - by eapply seedItems_bounded.
    - by intros ?%elem_of_nil. }
  rewrite length_seq. split_and!; [| | | |apply succLabels_length].
  - apply addState_Ok in Hadd. destruct b.
    + destruct Hadd as [_ ->]. intros s it. unfold items.
      destruct (admittedStore_lists q σ1 s) as (-> & _). apply Hbd1.
    + destruct Hadd as (s0 & _ & _ & (Hr2 & _ & _ & _ & _ & _ & Hst2 & _)).
      intros s it. unfold items. destruct (Hst2 s) as (-> & _). rewrite Hr2. apply Hbd1.
  - apply addState_Ok in Hadd. destruct b.
    + by destruct Hadd as [_ ->].
    + destruct Hadd as (s0 & _ & _ & (Hr2 & _)). congruence.
  - apply addState_Ok in Hadd. destruct b.
    + by destruct Hadd as [_ ->].
    + destruct Hadd as (s0 & _ & _ & (_ & Hf2 & _)). congruence.
  - apply addState_Ok in Hadd. destruct b.
    + destruct Hadd as [_ ->]. cbn. by rewrite Hs1.
    + destruct Hadd as (s0 & _ & _ & (_ & _ & Hs2 & _)). congruence.
Qed.

(** *** The worklist loop *)

Lemma stateLoop_runs fuel inner Q σ :
  automaton_inv Q σ → items_bounded σ →
  first_within (la_universe (rules σ)) (first σ) →
  length (rules σ) < inner →
  (2 ^ size (item_universe (rules σ)) - length (states σ))
    * S (length (flat_map rhs (rules σ))) + length Q < fuel →
  ∃ σ', stateLoop fuel inner Q σ = (Ok tt, σ').
Proof.
  revert Q σ. induction fuel as [|fuel IH]; intros Q σ Hinv Hbd Hf Hinner Hfuel;
    [by apply Nat.nlt_0_r in Hfuel|].
  cbn [stateLoop]. destruct (pop Q) as [[q Q']|] eqn:Hpop; [|by eexists].
  apply pop_Some in Hpop as ->.
  assert (q < length (stateObjs σ) ∧ core_unique (items σ q)) as [Hq Hu].
  { destruct Hinv as ((Hstore & _ & _ & HQ & _) & _). split; [|apply Hstore].
    apply HQ. set_solver. }
  destruct (closureLoop_runs inner (rules σ) (first σ) (items σ q) Hu) as [its Hcl].
  { pose proof (unstarted_length (rules σ) (items σ q)). lia. }
  destruct (calcItemSet_run _ _ _ _ Hq Hu Hcl) as (R & σ1 & E1).
  destruct (addState_result q σ1) as (b & σ2 & E2).
  unfold mbindM. rewrite E1, E2.
  pose proof (automaton_inv_step _ _ _ _ _ _ _ _ Hinv E1 E2) as Hinv2.
  destruct (items_bounded_step _ _ _ _ _ _ _ _ Hinv Hbd Hf E1 E2)
    as (Hbd2 & Hr2 & Hf2 & Hs2 & HR).
  pose proof (states_bound _ _ (proj1 Hinv2) Hbd2) as Hbound. rewrite Hr2 in Hbound.
  apply IH; [done|done|by rewrite Hr2, Hf2|by rewrite Hr2|].
  rewrite Hr2, Hs2. rewrite length_app in Hfuel. cbn [length] in Hfuel.
  set (B := 2 ^ size (item_universe (rules σ))) in *.
  set (S0 := length (flat_map rhs (rules σ))) in *.
  destruct b.
  - rewrite Hs2, length_app in Hbound. cbn [length] in Hbound.
    rewrite !length_app. cbn [length].
    assert (B - length (states σ) = S (B - (length (states σ) + 1))) as Heq by lia.
    rewrite Heq in Hfuel. lia.
  - set (P := (B - length (states σ)) * S S0) in *. lia.
Qed.

(** *** Rule indices do not matter *)

Lemma rhs_indexed rs :
  rhs <$> imap (λ i r, setRuleIndex r (Z.of_nat i)) rs = rhs <$> rs.
Proof.
  apply list_eq. intros i. rewrite !list_lookup_fmap, list_lookup_imap.
  by destruct (rs !! i).
Qed.

Lemma flat_map_rhs {B} (h : list LR1_RuleItem → list B) rs :
  flat_map (λ r, h (rhs r)) rs = flat_map h (rhs <$> rs).
Proof. induction rs as [|r rs IH]; cbn; [done|]. by rewrite IH. Qed.

Lemma terminals_indexed rs :
  terminals (imap (λ i r, setRuleIndex r (Z.of_nat i)) rs) = terminals rs.
Proof.
  unfold terminals.
  pose proof (flat_map_rhs (λ l, item_value <$> filter (λ x, item_type x = Terminal) l)
                (imap (λ i r, setRuleIndex r (Z.of_nat i)) rs)) as H1.
  pose proof (flat_map_rhs (λ l, item_value <$> filter (λ x, item_type x = Terminal) l)
                rs) as H2.
  cbv beta in H1, H2. etrans; [exact H1|]. rewrite rhs_indexed. by symmetry.
Qed.

Lemma symbols_indexed rs :
  flat_map rhs (imap (λ i r, setRuleIndex r (Z.of_nat i)) rs) = flat_map rhs rs.
Proof.
  pose proof (flat_map_rhs (λ l, l) (imap (λ i r, setRuleIndex r (Z.of_nat i)) rs)) as H1.
  pose proof (flat_map_rhs (λ l, l) rs) as H2. cbv beta in H1, H2.
  etrans; [exact H1|]. rewrite rhs_indexed. by symmetry.
Qed.

Lemma ruleOf_rhs_indexed rs j :
  rhs (ruleOf (imap (λ i r, setRuleIndex r (Z.of_nat i)) rs) j) = rhs (ruleOf rs j).
Proof. unfold ruleOf. rewrite list_lookup_imap. by destruct (rs !! j). Qed.

Lemma item_universe_indexed rs :
  item_universe (imap (λ i r, setRuleIndex r (Z.of_nat i)) rs) = item_universe rs.
Proof.
  unfold item_universe, la_universe. rewrite length_imap, terminals_indexed.
  f_equal. apply flat_map_ext. intros j. by rewrite ruleOf_rhs_indexed.
Qed.

(** *** The FIRST sets *)

Lemma calcFirst_runs rs fuel :
  calcFirst_fuel rs ≤ fuel →
  match calcFirst fuel rs ∅ with
  | Ok f => first_within (terminals rs) f
  | TypeError => True
  | _ => False
  end.
Proof.
  intros Hfuel. unfold calcFirst.
  set (K := remove_dups (lhs <$> rs)). set (U := terminals rs).
  set (f0 := initFirst rs ∅).
  assert (first_wf f0) as Hwf by apply initFirst_wf, first_wf_empty.
  assert (first_within U f0) as HU by apply initFirst_within, first_within_empty.
  assert (length K ≤ length rs) as HlenK.
  { unfold K. rewrite <- (length_fmap lhs rs).
    apply submseteq_length, NoDup_submseteq; [apply NoDup_remove_dups|].
    intros x. apply elem_of_remove_dups. }
  pose proof (firstLoop_terminates rs K U (NoDup_remove_dups _)) as Ht.
  specialize (Ht ltac:(intros r Hr; apply elem_of_remove_dups; by apply list_elem_of_fmap_2)).
  specialize (Ht ltac:(intros r x β Hr Hrhs Hty; apply (elem_of_terminals rs r x);
                       [done | rewrite Hrhs; left | done])).
  specialize (Ht fuel f0 Hwf HU).
  assert (length K * length U - first_size K f0 < fuel) as Hlt.
  { unfold calcFirst_fuel in Hfuel. fold U in Hfuel. nia. }
  specialize (Ht Hlt).
  destruct (firstLoop fuel rs f0) as [f| | | |]; try done. by destruct Ht.
Qed.

(** X15. [calcTable] terminates on every grammar: with [calcTable_fuel rs]
    iterations allowed to each of its loops (the passes over the FIRST
    sets, the passes of a closure, the worklist of states) it has
    returned, thrown or ended the process.  The worklist empties because
    the admitted states are pairwise different sets of items of the
    grammar, of which there are finitely many, and a state that is not
    admitted adds nothing to the worklist. *)
Theorem calcTable_terminates rs n :
  (calcTable (calcTable_fuel rs + n) (withRules rs)).1 ≠ OutOfFuel.
Proof.
  set (fuel := calcTable_fuel rs + n).
  destruct (calcTable fuel (withRules rs)) as [r σ'] eqn:E. cbn [fst]. intros ->.
  destruct (withRules_fields rs) as (Hr & Hf & Hs & Ht & Ho & He).
  apply calcTable_stages in E. rewrite Hr, Hf in E.
  destruct E as [[_ [=]]|[Hne E]].
  destruct E as [Hsf|[Hc E]].
  { destruct (checkRules_fails rs _ eq_refl) as (i & r0 & nt & Hth & _).
    { intros Hok. by rewrite Hok in Hsf. }
    by rewrite Hth in Hsf. }
  pose proof (calcFirst_runs rs fuel ltac:(unfold fuel, calcTable_fuel; lia)) as Hfirst.
  pose proof (calcFirst_checked fuel rs Hc) as Hfirst'.
  destruct E as [Hsf|(f & ra & σa & Hfst & Hloop & E)].
  { by destruct (calcFirst fuel rs ∅). }
  rewrite Hfst in Hfirst.
  pose proof (automaton_inv_initial f (withRules rs) Hs Ho He) as Hinv0.
  rewrite Hr in Hinv0. specialize (Hinv0 Hne).
  set (σ0 := initialStore f (withRules rs)) in *.
  assert (rules σ0 = imap (λ i r, setRuleIndex r (Z.of_nat i)) rs) as Hr0.
  { unfold σ0. by rewrite rules_initialStore, Hr. }
  assert (items_bounded σ0) as Hbd0.
  { intros s it Hit. rewrite Hr0. unfold items, σ0 in Hit.
    rewrite stateOf_initialStore in Hit by done.
    destruct (decide _); cbn in Hit; [|by apply elem_of_nil in Hit].
    apply list_elem_of_singleton in Hit as ->.
    split_and!; cbn.
    - rewrite length_imap. destruct rs; [done|cbn; lia].
    - lia.
    - intros k [Hk| ->]%elem_of_add; [by apply elem_of_nil in Hk|left]. }
  assert (first_within (la_universe (rules σ0)) (first σ0)) as Hf0.
  { rewrite Hr0. unfold la_universe. rewrite terminals_indexed.
    intros k s Hk x Hx. right. exact (Hfirst k s Hk x Hx). }
  destruct (stateLoop_runs fuel fuel _ σ0 Hinv0 Hbd0 Hf0) as [σ1 Hruns].
  { rewrite Hr0, length_imap. unfold fuel, calcTable_fuel. lia. }
  { rewrite Hr0, item_universe_indexed, symbols_indexed.
    replace (length (states σ0)) with 0 by (unfold σ0; cbn; by rewrite Hs).
    cbn [length]. unfold fuel, calcTable_fuel, stateLoop_fuel. lia. }
  rewrite Hruns in Hloop. injection Hloop as <- <-.
  destruct E as [[]|[_ (rb & Hrows & E)]].
  pose proof (stateLoop_automaton_inv _ _ _ _ _ Hinv0 Hruns) as Hinv.
  pose proof (stateLoop_progress_inv _ _ _ _ _ Hinv0
                (progress_inv_initial f (withRules rs) Ho Hs) Hruns) as Hp.
  destruct E as [Hsf|[-> Hr']].
  - assert (rb ≠ Ok tt) as Hn by (by intros ->).
    destruct (buildRows_fail σ1 rb σ' Hinv Hp Hrows Hn) as (s & _ & Hcase).
    by destruct Hcase as [(a & b & -> & _)|[-> _]].
  - by destruct (table σ').
Qed.

(** ** What an accepted input is *)

(** *** Where the items of the first rule come from *)

Lemma root_origin_step inner q Q' R b σ σ1 σ2 :
  automaton_inv (Q' ++ [q]) σ →
  (states σ = [] → Q' ++ [q] = [0]) → root_origin σ →
  calcItemSet inner q σ = (Ok R, σ1) →
  addState q σ1 = (Ok b, σ2) →
  states σ2 ≠ [] ∧ root_origin σ2.
Proof.
  intros (Hb & _) HQ0 [Hfirst Horg] Hcalc Hadd.
  destruct Hb as (Hstore & _ & _ & HQ & _).
  assert (q ∈ Q' ++ [q]) as HqQ by (apply elem_of_app; right; left).
  destruct (HQ q HqQ) as [Hq _].
  apply calcItemSet_Ok in Hcalc as (its & Hcl & -> & Hsucc); [|done].
  set (lbls := succLabels (rules σ) its) in *.
  assert (core_unique its) as Hu.
  { apply (closureLoop_inv _ _ _ _ _ Hcl). apply Hstore. }
  destruct (closureLoop_cores _ _ _ _ _ Hcl) as [Hsub _].
  pose proof (closureLoop_origin _ _ _ _ _ Hcl) as Hclosure.
  pose proof (λ s, successors_state q lbls its σ σ1 s Hq Hsucc) as Hstate.
  assert (Hlen := Hsucc). destruct Hlen as (_ & _ & Hrules & _ & Hs1 & _).
  unfold closedStore in Hrules, Hs1. cbn [setStateObjs rules states] in Hrules, Hs1.
  assert (∀ s it, it ∈ items σ1 s → core it = (0, 0) →
            s = 0 ∨ ∃ p, p ∈ items σ1 s ∧
                         afterDot (rules σ) p
                         = Some (mkRuleItem NonTerminal (lhs (ruleOf (rules σ) 0)))) as Horg1.
  { intros s it. unfold items. destruct (Hstate s) as
      [(_ & _ & ->)|[(-> & ->)|[(i & lbl & seeds & _ & _ & Hseeds & -> & _)|(_ & ->)]]];
      cbn [itemSet tentative newState].
    - apply Horg.
    - intros Hit Hc. destruct (Hclosure it Hit) as [Hin|(_ & _ & p & Hp & Hd)].
      + apply list_elem_of_fmap in Hin as (it0 & Hc0 & Hit0).
        destruct (Horg q it0 Hit0) as [?|(p0 & Hp0 & Hd0)]; [congruence|by left|].
        apply (list_elem_of_fmap_2 core), Hsub, list_elem_of_fmap in Hp0 as (p & Hcp & Hp).
        right. exists p. split; [done|]. by rewrite (afterDot_core (rules σ) p p0).
      + right. exists p. split; [done|]. rewrite Hd. unfold core in Hc.
        injection Hc as Hc1 Hc2. by rewrite Hc1.
    - intros Hit Hc. destruct (proj2 (seedItems_advances _ _ _ _ _ Hu Hseeds) it Hit) as [Hp _].
      unfold core in Hc. injection Hc as Hc1 Hc2. lia.
    - by intros ?%elem_of_nil. }
  apply addState_Ok in Hadd. destruct b.
  - destruct Hadd as [_ ->]. split.
    { cbn. rewrite Hs1. by destruct (states σ). }
    split.
    + cbn [states admittedStore setStates setStateObjs]. rewrite Hs1. intros s0.
      destruct (states σ) as [|x l] eqn:Hst.
      * cbn. intros [= <-]. specialize (HQ0 eq_refl).
        destruct Q' as [|y Q']; [by injection HQ0|].
        injection HQ0 as _ HQ0. by destruct Q'.
      * cbn. intros [= <-]. by apply Hfirst.
    + intros s it. unfold items. destruct (admittedStore_lists q σ1 s) as (-> & _).
      change (rules (admittedStore q σ1)) with (rules σ1). rewrite Hrules. apply Horg1.
  - destruct Hadd as (s0 & Hs0 & _ & (Hr2 & _ & Hs2 & _ & _ & _ & Hst2 & _)). split.
    { rewrite Hs2. intros Hnil. rewrite Hnil in Hs0. by apply elem_of_nil in Hs0. }
    split.
    + rewrite Hs2, Hs1. apply Hfirst.
    + intros s it. unfold items. destruct (Hst2 s) as (-> & _). rewrite Hr2, Hrules.
      apply Horg1.
Qed.

Lemma stateLoop_root_origin fuel inner Q σ σ' :
  automaton_inv Q σ → (states σ = [] → Q = [0]) → root_origin σ →
  stateLoop fuel inner Q σ = (Ok tt, σ') → root_origin σ'.
Proof.
  intros Hinv HQ Hp E.
  enough (automaton_inv [] σ' ∧ (states σ' = [] → [] = [0]) ∧ root_origin σ')
    as (_ & _ & ?); [done|].
  revert E.
  apply (stateLoop_invariant
           (λ Q σ1, automaton_inv Q σ1 ∧ (states σ1 = [] → Q = [0]) ∧ root_origin σ1) inner);
    [|done].
  clear. intros q Q' R b σ0 σ1 σ2 (Hinv & HQ & Hp) Hcalc Hadd.
  destruct (root_origin_step _ _ _ _ _ _ _ _ Hinv HQ Hp Hcalc Hadd) as [Hne Hp2].
  split_and!; [by eapply automaton_inv_step|done|done].
Qed.

Lemma root_origin_same_automaton σ σ' :
  same_automaton σ σ' → root_origin σ → root_origin σ'.
Proof.
  intros (Hr & _ & Hs & Ho & He) [H1 H2]. split.
  - by rewrite Hs.
  - intros s it. unfold items, stateOf. rewrite Hr, Ho. apply H2.
Qed.

Lemma calcTable_root_origin fuel rs t σ :
  calcTable fuel (withRules rs) = (Ok t, σ) → root_origin σ.
Proof.
  intros E. destruct (withRules_fields rs) as (Hr & _ & Hs & _ & Ho & He).
  apply calcTable_Ok in E as (f & σa & Hne & _ & _ & Hloop & Hrows & _).
  apply forM_buildRow_Ok in Hrows.
  eapply root_origin_same_automaton; [exact Hrows|].
  apply (root_origin_same_automaton σa); [by unfold same_automaton|].
  eapply stateLoop_root_origin; [by apply automaton_inv_initial| | |exact Hloop].
  - intros _. by rewrite Ho.
  - split.
    + intros s0. cbn. by rewrite Hs.
    + intros s it. unfold items. rewrite stateOf_initialStore by done.
      destruct (decide (s = 0)) as [->|]; [by left|]. by intros ?%elem_of_nil.
Qed.

(** No edge leads to the state admitted first. *)
Lemma stack_wf_root σ t stack s ls :
  table_ok σ t → progress_inv σ → kernels_ok σ →
  stack_wf σ stack s ls → states σ !! 0 = Some s → ls = [].
Proof.
  intros Hok (_ & _ & Hout) Hk Hwf H0.
  pose proof Hok as ((_ & _ & _ & _ & _ & _ & _ & Hroot & _) & _).
  destruct Hwf as [s0 _|stack s ls e x i Hwf He Hi Hx]; [done|]. exfalso.
  destruct (stack_wf_top _ _ _ _ Hwf) as (j & _ & Hj).
  apply list_elem_of_lookup_2 in Hj.
  destruct (Hout s Hj) as [_ Hsound].
  destruct (Hsound (label (edgeOf σ e))) as (it & Hit & Hd).
  { apply list_elem_of_fmap. by exists e. }
  destruct (Hk s e He it Hit Hd) as (it' & Hit' & Hc & _).
  pose proof (Hroot _ it' H0 Hit') as Hp. unfold core in Hc. injection Hc as Hc1 Hc2. lia.
Qed.

(** *** The stack derives the tokens read *)

Lemma findEntry_matches row tk e :
  findEntry row tk = Some e →
  ∃ k, actionEntries row !! k = Some e ∧ token_matches tk k.
Proof.
  unfold findEntry, token_matches. destruct (isLiteralClass _) eqn:Hlit.
  - destruct (actionEntries row !! (":" +:+ tk_token tk)) as [e'|] eqn:E.
    + intros [= <-]. exists (":" +:+ tk_token tk). split; [done|by left].
    + intros Hk. exists (typeKey (tk_type tk)). split; [done|by right].
  - intros Hk. exists (typeKey (tk_type tk)). split; [done|by right].
Qed.

Lemma concat_one {A} (x : list A) : concat [x] = x.
Proof. cbn. by rewrite app_nil_r. Qed.

Lemma lookupZ_elem {A} (l : list A) i x : lookupZ l i = Some x → x ∈ l.
Proof.
  unfold lookupZ. destruct (i <? 0)%Z; [done|]. apply list_elem_of_lookup_2.
Qed.

Lemma elem_of_productions rs r : r ∈ rs → (lhs r, rhs r) ∈ productions rs.
Proof. intros Hr. unfold productions. apply list_elem_of_fmap. by exists r. Qed.

Section Sound.
Context {L U : Type} `{TokenSource L}.
Implicit Types (lexer : L) (u : U) (stack : list StackItem).

Lemma tokensRead_S n lexer :
  tokensRead (S n) lexer = tokensRead n lexer ++ [getToken (Nat.iter n next lexer)].
Proof.
  revert lexer. induction n as [|n IH]; intros lexer; [done|].
  change (tokensRead (S (S n)) lexer) with (getToken lexer :: tokensRead (S n) (next lexer)).
  rewrite (IH (next lexer)), Nat.iter_succ_r. done.
Qed.

Lemma afterCallback_lexer t rootRule r stack lexer u stack' lexer' u' :
  afterCallback t rootRule r stack lexer u = Continue stack' lexer' u' → lexer' = lexer.
Proof. unfold afterCallback. repeat case_match; try done. by intros [= _ <- _]. Qed.

Lemma reduce_derives σ ls ws r :
  r ∈ rules σ → length (rhs r) ≤ length ls →
  rhs r = drop (length ls - length (rhs r)) ls →
  Forall2 (derives (productions (rules σ))) ls ws →
  derives (productions (rules σ)) (mkRuleItem NonTerminal (lhs r))
          (concat (drop (length ls - length (rhs r)) ws)).
Proof.
  intros Hr Hle Hrhs Hder. apply (derives_rule _ (lhs r) (rhs r)).
  - by apply elem_of_productions.
  - rewrite Hrhs at 1. by apply Forall2_drop.
Qed.

Lemma parseStep_sound σ t (callBacks : gmap string (CallBack U)) lexer0
    stack lexer u stack' lexer' u' s ls :
  table_ok σ t → stack_wf σ stack s ls → stack_sound σ lexer0 lexer ls →
  parseStep (rules σ) t callBacks stack lexer u = Continue stack' lexer' u' →
  ∃ s' ls', stack_wf σ stack' s' ls' ∧ stack_sound σ lexer0 lexer' ls'.
Proof.
  intros Hok Hwf (ws & n & Hder & Hlex & Hcat) E. unfold parseStep in E.
  destruct (stack_wf_top _ _ _ _ Hwf) as (i & Hlast & Hi).
  destruct (table_row _ _ _ _ Hok Hi) as (row & Hrow & Hof).
  rewrite Hlast, lookupZ_nat, Hrow in E.
  destruct (findEntry row (getToken lexer)) as [entry|] eqn:Hfind; [|done].
  apply findEntry_matches in Hfind as (k & Hk & Hmatch).
  destruct (shift entry) eqn:Hsh.
  - injection E as <- <- <-.
    destruct (row_of_spec _ _ _ Hof) as [[Hact _] _].
    destruct (Hact k entry Hk Hsh) as (ed & Hed & Hlbl & Hval).
    destruct (edge_target _ _ _ _ _ Hok Hi Hed) as (i' & Hi' & Hidx).
    rewrite Hval, Hidx. eexists _, _. split.
    + eapply wf_push; [exact Hwf|exact Hed|exact Hi'|].
      unfold slot_matches. rewrite Hlbl. cbn. eauto.
    + exists (ws ++ [[getToken lexer]]), (S n). split_and!.
      * apply Forall2_app; [done|]. constructor; [|constructor].
        rewrite Hlbl. by constructor.
      * cbn. by rewrite Hlex.
      * by rewrite concat_app, Hcat, tokensRead_S, <- Hlex, concat_one.
  - destruct (reduce_entry_rule _ _ _ _ _ _ _ _ Hok Hwf Hof Hk Hsh) as (r & Hr & Hle & Hrhs).
    apply (reduceStep_Continue _ _ _ _ _ _ _ r) in E as [u1 E]; [|done].
    pose proof (stack_wf_length _ _ _ _ Hwf) as Hlen.
    rewrite splice_depth in E by lia. cbn [fst] in E.
    pose proof (afterCallback_lexer _ _ _ _ _ _ _ _ _ E) as ->.
    apply afterCallback_Continue in E as (s1 & row1 & g & Hlast1 & Hrow1 & Hg & ->).
    destruct (stack_wf_take _ _ _ _ _ Hwf Hle) as (s1' & Hwf1).
    destruct (stack_wf_top _ _ _ _ Hwf1) as (i1 & Hlast1' & Hi1).
    rewrite Hlast1 in Hlast1'. injection Hlast1' as ->.
    destruct (table_row _ _ _ _ Hok Hi1) as (row1' & Hrow1' & Hof1).
    rewrite lookupZ_nat, Hrow1' in Hrow1. injection Hrow1 as ->.
    destruct (row_of_spec _ _ _ Hof1) as [[_ Hgoto] _].
    destruct (Hgoto _ _ Hg) as (ed & Hed & Hlbl & Hval).
    destruct (edge_target _ _ _ _ _ Hok Hi1 Hed) as (i' & Hi' & Hidx).
    rewrite Hval, Hidx. eexists _, _. split.
    + eapply wf_push; [exact Hwf1|exact Hed|exact Hi'|].
      unfold slot_matches. rewrite Hlbl. done.
    + exists (take (length ls - length (rhs r)) ws
              ++ [concat (drop (length ls - length (rhs r)) ws)]), n.
      split_and!; [|done|].
      * apply Forall2_app; [by apply Forall2_take|]. constructor; [|constructor].
        rewrite Hlbl. apply reduce_derives; try done. by eapply lookupZ_elem.
      * by rewrite concat_app, concat_one, <- concat_app, take_drop.
Qed.

Lemma reduceStep_Return rs t (callBacks : gmap string (CallBack U)) entry
    stack lexer u r lexer' u' :
  lookupZ rs (entry_value entry) = Some r →
  reduceStep rs t callBacks entry stack lexer u = Return lexer' u' →
  entry_value entry = 0%Z ∧ lexer' = lexer.
Proof.
  intros Hr. unfold reduceStep. rewrite Hr. destruct (splice _ _) as [st items].
  assert (∀ u0, afterCallback t (entry_value entry =? 0)%Z r st lexer u0 = Return lexer' u' →
                entry_value entry = 0%Z ∧ lexer' = lexer) as Ha.
  { intros u0 (Hroot & -> & _)%afterCallback_Return. split; [|done]. by apply Z.eqb_eq. }
  repeat case_match; try done; apply Ha.
Qed.

(** The reduction by the first rule that ends the parse. *)
Lemma parseStep_Return_sound σ t (callBacks : gmap string (CallBack U)) lexer0
    stack lexer u lexer' u' s ls :
  table_ok σ t → progress_inv σ → kernels_ok σ → root_origin σ →
  stack_wf σ stack s ls → stack_sound σ lexer0 lexer ls →
  parseStep (rules σ) t callBacks stack lexer u = Return lexer' u' →
  ∃ n pre w, lexer' = Nat.iter n next lexer0 ∧ tokensRead n lexer0 = pre ++ w ∧
    derives (productions (rules σ))
            (mkRuleItem NonTerminal (lhs (ruleOf (rules σ) 0))) w ∧
    (root_unused (rules σ) → pre = []).
Proof.
  intros Hok Hp Hkern [Hfirst Horg] Hwf (ws & n & Hder & Hlex & Hcat) E.
  unfold parseStep in E.
  destruct (stack_wf_top _ _ _ _ Hwf) as (i & Hlast & Hi).
  destruct (table_row _ _ _ _ Hok Hi) as (row & Hrow & Hof).
  rewrite Hlast, lookupZ_nat, Hrow in E.
  destruct (findEntry row (getToken lexer)) as [entry|] eqn:Hfind; [|done].
  apply findEntry_Some in Hfind as [k Hk].
  destruct (shift entry) eqn:Hsh; [done|].
  destruct (reduce_entry_rule _ _ _ _ _ _ _ _ Hok Hwf Hof Hk Hsh) as (r & Hr & Hle & Hrhs).
  destruct (reduce_entry_item _ _ _ _ _ _ Hok Hof Hk Hsh) as (it & r' & Hit & Hr' & Hpos & Hval).
  apply (reduceStep_Return _ _ _ _ _ _ _ r) in E as [Hzero ->]; [|done].
  assert (rule it = 0) as Hrule by lia.
  rewrite Hzero in Hr. change 0%Z with (Z.of_nat 0) in Hr. rewrite lookupZ_nat in Hr.
  rewrite Hrule in Hr'.
  assert (r' = r) as -> by congruence.
  assert (ruleOf (rules σ) 0 = r) as Hr0 by (unfold ruleOf; by rewrite Hr').
  set (m := length ls - length (rhs r)).
  exists n, (concat (take m ws)), (concat (drop m ws)). split_and!.
  - done.
  - by rewrite <- Hcat, <- concat_app, take_drop.
  - rewrite Hr0. apply reduce_derives; try done. by eapply list_elem_of_lookup_2.
  - intros Hunused.
    pose proof Hok as ((_ & _ & Hedges & _ & _ & _ & _ & Hroot & _) & _ & Hne & _).
    destruct (stack_wf_back _ _ _ _ Hedges Hroot Hwf it (length (rhs r)) Hit) as (s' & Hwf' & Hin);
      [lia|].
    rewrite Hrule, Hpos, Nat.sub_diag in Hin.
    apply list_elem_of_fmap in Hin as (it0 & Hc0 & Hit0).
    assert (s' = 0) as ->.
    { destruct (Horg s' it0 Hit0) as [?|(p & Hpin & Hd)]; [done..|]. exfalso.
      unfold afterDot in Hd. apply list_elem_of_lookup_2 in Hd.
      apply (Hunused (ruleOf (rules σ) (rule p)) _ (ruleOf_elem _ _ _ Hd) Hd); done. }
    assert (states σ !! 0 = Some 0) as H0.
    { destruct (states σ) as [|x l] eqn:Hst; [done|]. cbn. f_equal. by apply Hfirst. }
    pose proof (stack_wf_root _ _ _ _ _ Hok Hp Hkern Hwf' H0) as Hnil.
    fold m in Hnil.
    assert (take m ws = []) as ->; [|done].
    apply (Forall2_take _ _ _ m) in Hder. rewrite Hnil in Hder. by inversion Hder.
Qed.

Lemma parseLoop_sound fuel σ t (callBacks : gmap string (CallBack U)) lexer0
    stack lexer u lexer' u' s ls :
  table_ok σ t → progress_inv σ → kernels_ok σ → root_origin σ →
  stack_wf σ stack s ls → stack_sound σ lexer0 lexer ls →
  parseLoop fuel (rules σ) t callBacks stack lexer u = Parsed lexer' u' →
  ∃ n pre w, lexer' = Nat.iter n next lexer0 ∧ tokensRead n lexer0 = pre ++ w ∧
    derives (productions (rules σ))
            (mkRuleItem NonTerminal (lhs (ruleOf (rules σ) 0))) w ∧
    (root_unused (rules σ) → pre = []).
Proof.
  intros Hok Hp Hkern Horg. revert stack lexer u s ls.
  induction fuel as [|fuel IH]; intros stack lexer u s ls Hwf Hsound; cbn [parseLoop]; [done|].
  destruct (parseStep (rules σ) t callBacks stack lexer u) as [st lx u1|lx u1| | |] eqn:E;
    try done.
  - destruct (parseStep_sound _ _ _ _ _ _ _ _ _ _ _ _ Hok Hwf Hsound E) as (s' & ls' & Hwf' & Hs').
    by apply (IH _ _ _ s' ls').
  - intros [= <- <-]. by eapply parseStep_Return_sound.
Qed.
End Sound.

Lemma productions_indexed rs :
  productions (imap (λ i r, setRuleIndex r (Z.of_nat i)) rs) = productions rs.
Proof.
  unfold productions. apply list_eq. intros i.
  rewrite !list_lookup_fmap, list_lookup_imap. by destruct (rs !! i).
Qed.

Lemma ruleOf_lhs_indexed rs j :
  lhs (ruleOf (imap (λ i r, setRuleIndex r (Z.of_nat i)) rs) j) = lhs (ruleOf rs j).
Proof. unfold ruleOf. rewrite list_lookup_imap. by destruct (rs !! j). Qed.

Lemma root_unused_indexed rs :
  root_unused rs → root_unused (imap (λ i r, setRuleIndex r (Z.of_nat i)) rs).
Proof.
  intros Hu r x Hr Hx Hty. rewrite ruleOf_lhs_indexed.
  apply list_elem_of_lookup in Hr as [i Hi]. rewrite list_lookup_imap in Hi.
  destruct (rs !! i) as [r'|] eqn:Hr'; [|done]. cbn in Hi. simplify_eq.
  apply (Hu r' x); [by eapply list_elem_of_lookup_2|done..].
Qed.

(** X16. The parser is sound.  When [parse], on the table that [calcTable]
    built for the rules [rs], returns normally, it has read tokens up to
    the END token, and the tokens read end with a sequence that the
    left-hand side of the first rule derives by the productions of [rs],
    a terminal standing for a token by the lexeme or the type of the
    token as the action lookup has it; when the left-hand side of the
    first rule stands on no right-hand side, the derived sequence is the
    whole input read. *)
Theorem parse_sound {L U : Type} `{TokenSource L} fuel rs t σ fuel'
    (callBacks : gmap string (CallBack U)) (lexer : L) (u : U) lexer' u' :
  calcTable fuel (withRules rs) = (Ok t, σ) →
  parse fuel' σ callBacks lexer u = Parsed lexer' u' →
  ∃ n pre w,
    lexer' = Nat.iter n next lexer ∧ isEND lexer' = true ∧
    tokensRead n lexer = pre ++ w ∧
    derives (productions rs) (mkRuleItem NonTerminal (lhs (ruleOf rs 0))) w ∧
    (root_unused rs → pre = []).
Proof.
  intros E Hparse.
  pose proof (calcTable_table_ok _ _ _ _ E) as Hok.
  pose proof (calcTable_progress_inv _ _ _ _ E) as Hp.
  pose proof (calcTable_kernels_ok _ _ _ _ E) as Hk.
  pose proof (calcTable_root_origin _ _ _ _ E) as Horg.
  destruct (withRules_fields rs) as (Hr & _ & Hs & _ & Ho & He).
  pose proof (calcTable_rules _ _ _ _ Hs Ho He E) as Hrules. rewrite Hr in Hrules.
  pose proof (calcTable_Ok _ _ _ _ E) as (_ & _ & _ & _ & _ & _ & _ & Ht).
  unfold parse in Hparse. rewrite Ht in Hparse.
  destruct (length (rows t) =? 0); [done|].
  pose proof (parseLoop_Parsed _ _ _ _ _ _ _ _ _ Hparse) as [Hend _].
  pose proof Hok as (_ & _ & Hne & _).
  destruct (lookup_lt_is_Some_2 (states σ) 0) as [s0 H0].
  { destruct (states σ); [done|cbn; lia]. }
  destruct (parseLoop_sound fuel' σ t callBacks lexer [StNumber 0] lexer u lexer' u' s0 [])
    as (n & pre & w & Hn & Hread & Hder & Hpre); try done.
  - by constructor.
  - exists [], 0. split_and!; [constructor|done..].
  - exists n, pre, w. rewrite Hrules, productions_indexed, ruleOf_lhs_indexed in Hder.
    split_and!; try done. intros Hu. apply Hpre. rewrite Hrules. by apply root_unused_indexed.
Qed.

(** ** The theorems at concrete inputs *)

Lemma calcFirst_sound_witness :
  calcFirst 10 grammar_test ∅ = Ok first_test ∧
  ∃ fa, first_test !! "z"%string = Some fa ∧
        ∃ fx, first_test !! "s"%string = Some fx ∧ fx ⊆ fa.
Proof.
  assert (calcFirst 10 grammar_test ∅ = Ok first_test) as E by (vm_compute; reflexivity).
  split; [exact E|].
  apply (calcFirst_sound 10 grammar_test ∅ first_test first_wf_empty E
           (mkGrammarRule "z" [N "s"] "") (N "s") []).
  - vm_compute. left.
  - reflexivity.
Defined.

Lemma calcTable_states_unique_witness :
  calcTable 10 (withRules grammar_cb) = (Ok table_cb, lr_cb) ∧ states_unique lr_cb.
Proof.
  assert (calcTable 10 (withRules grammar_cb) = (Ok table_cb, lr_cb)) as E
    by (vm_compute; reflexivity).
  split; [exact E|]. exact (proj1 (calcTable_states_unique grammar_cb 10 table_cb lr_cb E)).
Defined.

Lemma addItem_core_unique_merge_witness :
  (addItem [rootItem] {| pos := 0; lookAheadSet := [":a"%string]; rule := 0 |}).2 = false ∧
  length (addItem [rootItem] {| pos := 0; lookAheadSet := [":a"%string]; rule := 0 |}).1 = 1.
Proof.
  assert (calcTable 10 (withRules grammar_cb) = (Ok table_cb, lr_cb)) as E
    by (vm_compute; reflexivity).
  assert (core_unique [rootItem]) as Hu by apply NoDup_singleton.
  destruct (addItem_core_unique_merge grammar_cb 10 table_cb lr_cb [rootItem]
              {| pos := 0; lookAheadSet := [":a"%string]; rule := 0 |} E Hu)
    as (_ & _ & Hmerge).
  destruct Hmerge as (H1 & H2 & _); [left|]. split; [exact H1|exact H2].
Defined.


Lemma parseStep_lookup_order_witness :
  parseStep (rules lr_cb) table_cb callBacks_cb [StNumber 0] [tok ID "a"] []
  = Continue stack_cb [] [].
Proof.
  pose (row := default emptyRow (rows table_cb !! 0)).
  assert (lookupZ (rows table_cb) 0 = Some row) as Hrow by (vm_compute; reflexivity).
  assert (tk_type (getToken [tok ID "a"]) = TER ∨ tk_type (getToken [tok ID "a"]) = DEL
          ∨ tk_type (getToken [tok ID "a"]) = ID) as Hty by (right; right; reflexivity).
  destruct (parseStep_lookup_order (rules lr_cb) table_cb callBacks_cb
              [StNumber 0] [tok ID "a"] [] 0%Z row eq_refl Hrow Hty) as (Hlit & _ & _).
  apply (Hlit {| shift := true; entry_value := 1 |}). vm_compute. reflexivity.
Defined.



Lemma parse_reduce_pops_and_calls_witness :
  reachable (rules lr_test) table_test callBacks_test input_test []
            stack_test [tok ID "a"] [] ∧
  parseStep (rules lr_test) table_test callBacks_test stack_test [tok ID "a"] []
  = Continue [StNumber 0; StToken (tok ID "b"); StNumber 3; StString "a"; StNumber 4]
             [tok ID "a"]
             [[StToken (tok ID "a"); StToken (mkToken "5" INT 5)]].
Proof.
  assert (calcTable 40 (withRules grammar_test) = (Ok table_test, lr_test)) as E
    by (vm_compute; reflexivity).
  assert (reachable (rules lr_test) table_test callBacks_test input_test []
                    stack_test [tok ID "a"] []) as Hreach.
  { apply (parseSteps_reachable 8 _ _ _ _ _ _ _ _ _ _ _ (reach_init _ _ _ _ _)).
    vm_compute. reflexivity. }
  split; [exact Hreach|].
  pose (row := default emptyRow (rows table_test !! 9)).
  pose (entry := {| shift := false; entry_value := 5 |}).
  assert (lookupZ (rows table_test) 9 = Some row) as Hrow by (vm_compute; reflexivity).
  assert (findEntry row (getToken [tok ID "a"]) = Some entry) as Hentry
    by (vm_compute; reflexivity).
  destruct (parse_reduce_pops_and_calls 40 grammar_test table_test lr_test callBacks_test
              input_test [] stack_test [tok ID "a"] [] 9%Z row entry
              E Hreach eq_refl Hrow Hentry eq_refl)
    as (r & Hr & _ & _ & _ & _ & _ & _ & _ & Hcall).
  assert (r = default (newRule "") (rules lr_test !! 5)) as ->.
  { vm_compute in Hr. injection Hr as <-. vm_compute. reflexivity. }
  rewrite (Hcall recordCall); [vm_compute; reflexivity|vm_compute; lia|vm_compute; reflexivity].
Defined.

(** ** The further properties at concrete inputs *)

Lemma calcTable_table_wf_witness :
  getTable lr_cb = Some table_cb ∧ length (rows table_cb) = length (states lr_cb).
Proof.
  assert (calcTable 10 (withRules grammar_cb) = (Ok table_cb, lr_cb)) as E
    by (vm_compute; reflexivity).
  destruct (calcTable_table_wf 10 grammar_cb table_cb lr_cb E) as (H1 & H2 & _).
  exact (conj H1 H2).
Defined.


Lemma state_equal_same_items_witness :
  state_equal (stateOf lr_cb 0) (stateOf lr_cb 1)
  = state_equal (stateOf lr_cb 1) (stateOf lr_cb 0).
Proof.
  assert (core_unique (itemSet (stateOf lr_cb 0))) as H0 by (vm_compute; apply NoDup_singleton).
  assert (core_unique (itemSet (stateOf lr_cb 1))) as H1 by (vm_compute; apply NoDup_singleton).
  assert (items_wf (itemSet (stateOf lr_cb 0))) as H2
    by (vm_compute; apply Forall_singleton, NoDup_singleton).
  assert (items_wf (itemSet (stateOf lr_cb 1))) as H3
    by (vm_compute; apply Forall_singleton, NoDup_singleton).
  exact (proj2 (state_equal_same_items _ _ H0 H1 H2 H3)).
Defined.

Lemma item_equal_same_witness :
  item_equal rootItem rootItem = true.
Proof.
  assert (NoDup (lookAheadSet rootItem)) as H0 by (vm_compute; apply NoDup_singleton).
  apply (proj2 (item_equal_same rootItem rootItem H0 H0)). done.
Defined.

Lemma calcReduceEntries_conflict_witness :
  calcReduceEntries (rules lr_cb) (stateOf lr_cb 1)
  = Ok (reduce_pairs (rules lr_cb) (itemSet (stateOf lr_cb 1))).
Proof.
  assert (items_wf (itemSet (stateOf lr_cb 1))) as Hwf
    by (vm_compute; apply Forall_singleton, NoDup_singleton).
  pose proof (calcReduceEntries_conflict (rules lr_cb) (stateOf lr_cb 1) Hwf) as H.
  destruct (calcReduceEntries (rules lr_cb) (stateOf lr_cb 1)) as [red|[]| | |];
    try (exfalso; exact H).
  - destruct H as [-> _]. reflexivity.
  - exfalso. revert H. vm_compute. intros (i & j & it & jt & k & Hij & Hi & Hj & _).
    destruct i as [|i]; [destruct j as [|j]; [lia|by destruct j]|by destruct i].
Defined.

Lemma calcTable_rows_exact_witness :
  ∃ row, rows table_cb !! 0 = Some row ∧ row_exact lr_cb 0 row.
Proof.
  assert (calcTable 10 (withRules grammar_cb) = (Ok table_cb, lr_cb)) as E
    by (vm_compute; reflexivity).
  assert (states lr_cb !! 0 = Some 0) as H0 by (vm_compute; reflexivity).
  destruct (calcTable_rows_exact 10 grammar_cb table_cb lr_cb 0 0 E H0) as (row & H1 & H2 & _).
  exists row. exact (conj H1 H2).
Defined.

Lemma calcTable_conflict_free_witness :
  ¬ rr_conflict (rules lr_cb) (items lr_cb 1).
Proof.
  assert (calcTable 10 (withRules grammar_cb) = (Ok table_cb, lr_cb)) as E
    by (vm_compute; reflexivity).
  assert (states lr_cb !! 1 = Some 1) as H1 by (vm_compute; reflexivity).
  exact (proj2 (calcTable_conflict_free 10 grammar_cb table_cb lr_cb 1 1 E H1)).
Defined.

Lemma closure_items_witness :
  ∃ its, closureLoop 5 grammar_test first_test [rootItem] = Ok its ∧
         closed_cores grammar_test its.
Proof.
  assert (core_unique [rootItem]) as Hu by apply NoDup_singleton.
  destruct (closureLoop 5 grammar_test first_test [rootItem]) as [its| | | |] eqn:E;
    try (exfalso; revert E; vm_compute; discriminate).
  exists its. split; [reflexivity|].
  exact (proj1 (proj2 (proj2 (closure_items 5 grammar_test first_test [rootItem] its Hu E)))).
Defined.




Lemma calcFirst_idempotent_witness :
  calcFirst 1 grammar_test first_test = Ok first_test.
Proof.
  assert (calcFirst 10 grammar_test ∅ = Ok first_test) as E by (vm_compute; reflexivity).
  exact (calcFirst_idempotent 10 grammar_test ∅ first_test 0 first_wf_empty E).
Defined.

Lemma calcTable_goto_kernel_witness :
  dest (edgeOf lr_cb 0) ∈ states lr_cb.
Proof.
  assert (calcTable 10 (withRules grammar_cb) = (Ok table_cb, lr_cb)) as E
    by (vm_compute; reflexivity).
  assert (0 ∈ states lr_cb) as Hs by (vm_compute; left).
  assert (0 ∈ outEdges (stateOf lr_cb 0)) as He by (vm_compute; left).
  exact (proj1 (calcTable_goto_kernel 10 grammar_cb table_cb lr_cb 0 0 E Hs He)).
Defined.


Lemma parse_sound_witness :
  ∃ n pre w,
    ([] : list LexerToken) = Nat.iter n next [tok ID "a"] ∧
    isEND ([] : list LexerToken) = true ∧
    tokensRead n [tok ID "a"] = pre ++ w ∧
    derives (productions grammar_cb)
            (mkRuleItem NonTerminal (lhs (ruleOf grammar_cb 0))) w ∧
    (root_unused grammar_cb → pre = []).
Proof.
  assert (calcTable 10 (withRules grammar_cb) = (Ok table_cb, lr_cb)) as E
    by (vm_compute; reflexivity).
  assert (parse 10 lr_cb callBacks_cb [tok ID "a"] []
          = Parsed [] [[StToken (tok ID "a")]]) as Ep by (vm_compute; reflexivity).
  exact (parse_sound 10 grammar_cb table_cb lr_cb 10 callBacks_cb [tok ID "a"] [] [] _ E Ep).
Defined.
